(** * TaskAlign: the GA scheduler of [backend/app/services/ga_scheduler.py]

    A shallow embedding of the schedule decoder [_decode_v2], the fitness
    evaluator [_fitness_v2] and the genetic driver [ga_optimize_v2], with
    the properties of the specification proved (or refuted) against it.

    Modelling conventions.
    - Python [int] is [Z]; Python [float] (hours, scores) is modelled by exact
      rationals [Q], so the statements about the main model are about exact
      arithmetic.  The conversion of an [int] to a [float] is exact in range
      and raises [OverflowError] out of range, as in the program
      ([float_of_int]).
    - Module [Doubles] is the decoder once more with [float] as an IEEE 754
      double, including the errors of [int(x // y)]; it is there to evaluate
      the program where rounding shows (a piece count next to a floor, a sum
      that absorbs a small term, a quotient that overflows).
    - A Python [dict] is an insertion-ordered association list with unique
      keys ([dict], [dset], [dget]); [d[k]] on a key that the program always
      has is [getitem].
    - [list.sort] / [sorted] is a stable insertion sort ([sorted_by]).
    - Loops without a syntactic bound take fuel; running out of fuel is the
      result [OutOfFuel], distinct from a raised error.
    - The pseudo-random source of the [random] module is an explicit tape of
      integers threaded through the driver. *)

From Stdlib Require Import List ListDec String Ascii ZArith QArith Qround Lia Lqa Bool
  Permutation Relations.
From Stdlib Require PrimFloat FloatOps SpecFloat.
Import ListNotations.
Open Scope string_scope.
Open Scope list_scope.
Open Scope Z_scope.
Open Scope Q_scope.

(* ================================================================= *)
(** ** Python values: comparisons, dictionaries, sorting *)

Definition Qleb (a b : Q) : bool := Qle_bool a b.
Definition Qltb (a b : Q) : bool := negb (Qle_bool b a).

(** Python's [max(a, b)] and [min(a, b)] return the first argument on ties. *)
Definition pymax (a b : Q) : Q := if Qltb a b then b else a.
Definition pymin (a b : Q) : Q := if Qltb b a then b else a.

(** [max(l)] and [min(l)] of a non-empty list [x :: l]. *)
Definition max_list (x : Q) (l : list Q) : Q := fold_left pymax l x.
Definition min_list (x : Q) (l : list Q) : Q := fold_left pymin l x.

Class EqKey (K : Type) := {
  keqb : K -> K -> bool;
  keqb_eq : forall a b, keqb a b = true <-> a = b
}.

#[export] Instance string_EqKey : EqKey string :=
  {| keqb := String.eqb; keqb_eq := String.eqb_eq |}.
#[export] Instance Z_EqKey : EqKey Z :=
  {| keqb := Z.eqb; keqb_eq := Z.eqb_eq |}.

Definition option_eqb {K} `{EqKey K} (a b : option K) : bool :=
  match a, b with
  | Some x, Some y => keqb x y
  | None, None => true
  | _, _ => false
  end.

Section Dict.
Context {K V : Type} `{EqKey K}.

Definition dict := list (K * V).

Fixpoint dget (k : K) (d : dict) : option V :=
  match d with
  | [] => None
  | (k', v) :: d' => if keqb k k' then Some v else dget k d'
  end.

(** [d[k] = v]: an existing key keeps its position, a new key goes last. *)
Fixpoint dset (k : K) (v : V) (d : dict) : dict :=
  match d with
  | [] => [(k, v)]
  | (k', v') :: d' => if keqb k k' then (k', v) :: d' else (k', v') :: dset k v d'
  end.

Definition dmem (k : K) (d : dict) : bool :=
  match dget k d with Some _ => true | None => false end.

Definition getitem (dflt : V) (d : dict) (k : K) : V :=
  match dget k d with Some v => v | None => dflt end.

Definition dkeys (d : dict) : list K := map fst d.
Definition dvalues (d : dict) : list V := map snd d.
End Dict.
Arguments dict : clear implicits.

(** [{key(x): val(x) for x in l}] *)
Definition dict_comp {A K V} `{EqKey K} (key : A -> K) (val : A -> V) (l : list A)
  : dict K V :=
  fold_left (fun d x => dset (key x) (val x) d) l [].

Section Sorting.
Context {A : Type} (lt : A -> A -> bool).

(** [x] is the element that came first in the input: it goes before the
    first [y] that is not strictly smaller, which keeps the sort stable. *)
Fixpoint insert_by (x : A) (l : list A) : list A :=
  match l with
  | [] => [x]
  | y :: l' => if lt y x then y :: insert_by x l' else x :: l
  end.

Fixpoint sorted_by (l : list A) : list A :=
  match l with
  | [] => []
  | x :: l' => insert_by x (sorted_by l')
  end.
End Sorting.

(* ================================================================= *)
(** ** Data model ([backend/app/models/models.py]) *)

Module Machine.
Record t := mk {
  id : string;
  name : string;
  group : string;
  tonnage : Z;
  hours_per_day : Q;
  efficiency : Q
}.
End Machine.

Module Mold.
Record t := mk {
  id : string;
  name : string;
  group : string;
  tonnage : Z
}.
End Mold.

Module ProductComponent.
Record t := mk {
  id : string;
  name : string;
  quantity : Z;
  cycle_time_sec : Q;
  mold_id : string;
  color : string;
  due_day : Z;
  lead_time_days : Z;
  prerequisites : list string;
  status : string
}.
End ProductComponent.
Module PC := ProductComponent.

(** A task record: the keys every task has, and the keys by [task_type]. *)
Inductive task_type :=
| PRODUCE (mold_id component_id component_name color : string) (produced_qty : Z)
| CHANGE_MOLD (from_mold_id : option string) (to_mold_id : string)
| CHANGE_COLOR (from_color : option string) (to_color : string)
| WAIT.

Record task := mk_task {
  day : Z;
  machine_id : string;
  machine_name : string;
  sequence_in_day : Z;
  kind : task_type;
  used_hours : Q;
  start_hour : Q;
  end_hour : Q;
  utilization : Q
}.

Inductive error :=
| ValueError (msg : string)
| KeyError (key : string)
| OverflowError (msg : string).

Inductive result (A : Type) :=
| Ok (a : A)
| Raise (e : error)
| OutOfFuel.
Arguments Ok {A} a.
Arguments Raise {A} e.
Arguments OutOfFuel {A}.

Definition EPS : Q := 1 # 1000000000.

Definition interval := (Q * Q)%type.

(* ================================================================= *)
(** ** Interval helpers *)

Definition _overlaps (a_start a_end b_start b_end : Q) : bool :=
  negb (Qleb a_end b_start || Qleb b_end a_start).

Definition _interval_is_free (intervals : list interval) (start end_ : Q) : bool :=
  forallb (fun se => negb (_overlaps (fst se) (snd se) start end_)) intervals.

Definition _reserve_interval (intervals : list interval) (start end_ : Q)
  : list interval :=
  intervals ++ [(start, end_)].

(* ================================================================= *)
(** ** [_topological_order]: Kahn's algorithm over the prerequisite lists *)

Definition msg_unknown_prereq (pr cid : string) : string :=
  ("Prerequisite '" ++ pr ++ "' not found for component '" ++ cid ++ "'.")%string.
Definition msg_circular : string :=
  "Circular dependency detected in prerequisites.".

(** [for pr in c.prerequisites: ...] for one component [cid]. *)
Fixpoint link_prereqs (by_id : dict string PC.t) (cid : string) (prs : list string)
    (graph : dict string (list string)) (indeg : dict string Z)
  : result (dict string (list string) * dict string Z) :=
  match prs with
  | [] => Ok (graph, indeg)
  | pr :: prs' =>
      if negb (dmem pr by_id) then Raise (ValueError (msg_unknown_prereq pr cid))
      else
        match dget pr graph, dget cid indeg with
        | Some succs, Some d =>
            link_prereqs by_id cid prs'
              (dset pr (succs ++ [cid]) graph) (dset cid (d + 1)%Z indeg)
        | None, _ => Raise (KeyError pr)
        | _, None => Raise (KeyError cid)
        end
  end.

Fixpoint link_components (by_id : dict string PC.t) (cs : list PC.t)
    (graph : dict string (list string)) (indeg : dict string Z)
  : result (dict string (list string) * dict string Z) :=
  match cs with
  | [] => Ok (graph, indeg)
  | c :: cs' =>
      match link_prereqs by_id (PC.id c) (PC.prerequisites c) graph indeg with
      | Ok (graph', indeg') => link_components by_id cs' graph' indeg'
      | Raise e => Raise e
      | OutOfFuel => OutOfFuel
      end
  end.

(** [for nxt in graph[cid]: indeg[nxt] -= 1; if indeg[nxt] == 0: queue.append(nxt)] *)
Fixpoint relax (nxts : list string) (indeg : dict string Z) (queue : list string)
  : result (dict string Z * list string) :=
  match nxts with
  | [] => Ok (indeg, queue)
  | nxt :: nxts' =>
      match dget nxt indeg with
      | None => Raise (KeyError nxt)
      | Some d =>
          let d' := (d - 1)%Z in
          relax nxts' (dset nxt d' indeg) (if (d' =? 0)%Z then queue ++ [nxt] else queue)
      end
  end.

(** [while queue: ...]; one unit of fuel per popped identifier. *)
Fixpoint kahn_loop (fuel : nat) (by_id : dict string PC.t)
    (graph : dict string (list string)) (indeg : dict string Z)
    (queue : list string) (out : list PC.t) : result (list PC.t) :=
  match queue with
  | [] => Ok out
  | cid :: queue' =>
      match fuel with
      | O => OutOfFuel
      | S fuel' =>
          match dget cid by_id, dget cid graph with
          | Some c, Some succs =>
              match relax succs indeg queue' with
              | Ok (indeg', queue'') =>
                  kahn_loop fuel' by_id graph indeg' queue'' (out ++ [c])
              | Raise e => Raise e
              | OutOfFuel => OutOfFuel
              end
          | _, _ => Raise (KeyError cid)
          end
      end
  end.

Definition _topological_order (components : list PC.t) : result (list PC.t) :=
  let by_id := dict_comp PC.id (fun c => c) components in
  let indeg := dict_comp PC.id (fun _ => 0%Z) components in
  let graph := dict_comp PC.id (fun _ => @nil string) components in
  match link_components by_id components graph indeg with
  | Ok (graph, indeg) =>
      let queue := map fst (filter (fun kd => (snd kd =? 0)%Z) indeg) in
      match kahn_loop (S (List.length components)) by_id graph indeg queue [] with
      | Ok out =>
          if negb (List.length out =? List.length components)%nat
          then Raise (ValueError msg_circular)
          else Ok out
      | Raise e => Raise e
      | OutOfFuel => OutOfFuel
      end
  | Raise e => Raise e
  | OutOfFuel => OutOfFuel
  end.

(* ================================================================= *)
(** ** Scheduling helpers *)

Definition _feasible_on_machine (comp : PC.t) (machine : Machine.t)
    (molds_by_id : dict string Mold.t) : bool :=
  match dget (PC.mold_id comp) molds_by_id with
  | None => false
  | Some mold =>
      if negb (String.eqb (Mold.group mold) (Machine.group machine)) then false
      else if (Machine.tonnage machine <? Mold.tonnage mold)%Z then false
      else if Qleb (PC.cycle_time_sec comp) 0 then false
      else true
  end.

Definition _piece_hours (cycle_time_sec : Q) : Q := cycle_time_sec / 3600.

(** The [for pr in comp.prerequisites] loop: [None] is the early
    [return None], [Some needed] the list built when the loop ends. *)
Fixpoint ready_scan (prs : list string) (completion_time : dict string (Z * Q))
    (day : Z) (after_hour : Q) (needed : list Q) : option (list Q) :=
  match prs with
  | [] => Some needed
  | pr :: prs' =>
      match dget pr completion_time with
      | None => None
      | Some (pr_day, pr_hour) =>
          if (day <? pr_day)%Z then None
          else if (pr_day =? day)%Z && Qltb (after_hour + EPS) pr_hour
          then ready_scan prs' completion_time day after_hour (needed ++ [pr_hour])
          else ready_scan prs' completion_time day after_hour needed
      end
  end.

Definition _next_ready_time_due_to_prereqs (comp : PC.t)
    (completion_time : dict string (Z * Q)) (day : Z) (after_hour : Q) : option Q :=
  match ready_scan (PC.prerequisites comp) completion_time day after_hour [] with
  | None => None
  | Some [] => Some after_hour
  | Some (x :: needed) => Some (max_list x needed)
  end.

Definition safety_limit : nat := Z.to_nat 10000.

(** The [while t + window_hours <= cap + EPS] loop; [budget] is what is left
    of the 10_000 iterations the [safety] counter allows. *)
Fixpoint window_loop (budget : nat) (mold_intervals : list interval)
    (window_hours cap t : Q) : option Q :=
  if Qleb (t + window_hours) (cap + EPS) then
    match budget with
    | O => None
    | S budget' =>
        match filter (fun se => _overlaps (fst se) (snd se) t (t + window_hours))
                     mold_intervals with
        | [] => Some t
        | se :: overlaps =>
            window_loop budget' mold_intervals window_hours cap
              (max_list (snd se) (map snd overlaps))
        end
    end
  else None.

Definition _next_mold_free_time_for_window (mold_intervals : list interval)
    (after_hour window_hours cap : Q) : option Q :=
  if Qleb window_hours 0 then
    (if Qleb after_hour (cap + EPS) then Some after_hour else None)
  else if Qleb (after_hour + window_hours) (cap + EPS)
          && _interval_is_free mold_intervals after_hour (after_hour + window_hours)
  then Some after_hour
  else window_loop safety_limit mold_intervals window_hours cap after_hour.

Definition _next_busy_start (intervals : list interval) (after_hour : Q) : option Q :=
  match filter (fun s => Qleb (after_hour + EPS) s) (map fst intervals) with
  | [] => None
  | s :: starts => Some (min_list s starts)
  end.

(* ================================================================= *)
(** ** Decoder state

    The local variables of [_decode_v2]: the six that live for the whole
    decode and the seven that are rebuilt at the start of every day. *)

Module S.
Record machine_mem := mk_mem {
  mold_id : option string;
  color : option string;
  last_component_id : option string
}.

Record state := mk {
  remaining : dict string Z;
  completion_time : dict string (Z * Q);
  mold_busy : dict Z (dict string (list interval));
  machine_state : dict string machine_mem;
  component_owner : dict string string;
  tasks : list task;
  usable : dict string Q;
  t : dict string Q;
  seq : dict string Z;
  done : dict string bool;
  current_mold : dict string (option string);
  current_color : dict string (option string);
  last_component : dict string (option string)
}.

Definition with_remaining (v : dict string Z) (st : state) : state :=
  mk v (completion_time st) (mold_busy st) (machine_state st) (component_owner st) (tasks st) (usable st) (t st) (seq st) (done st) (current_mold st) (current_color st) (last_component st).
Definition with_completion_time (v : dict string (Z * Q)) (st : state) : state :=
  mk (remaining st) v (mold_busy st) (machine_state st) (component_owner st) (tasks st) (usable st) (t st) (seq st) (done st) (current_mold st) (current_color st) (last_component st).
Definition with_mold_busy (v : dict Z (dict string (list interval))) (st : state) : state :=
  mk (remaining st) (completion_time st) v (machine_state st) (component_owner st) (tasks st) (usable st) (t st) (seq st) (done st) (current_mold st) (current_color st) (last_component st).
Definition with_machine_state (v : dict string machine_mem) (st : state) : state :=
  mk (remaining st) (completion_time st) (mold_busy st) v (component_owner st) (tasks st) (usable st) (t st) (seq st) (done st) (current_mold st) (current_color st) (last_component st).
Definition with_component_owner (v : dict string string) (st : state) : state :=
  mk (remaining st) (completion_time st) (mold_busy st) (machine_state st) v (tasks st) (usable st) (t st) (seq st) (done st) (current_mold st) (current_color st) (last_component st).
Definition with_tasks (v : list task) (st : state) : state :=
  mk (remaining st) (completion_time st) (mold_busy st) (machine_state st) (component_owner st) v (usable st) (t st) (seq st) (done st) (current_mold st) (current_color st) (last_component st).
Definition with_usable (v : dict string Q) (st : state) : state :=
  mk (remaining st) (completion_time st) (mold_busy st) (machine_state st) (component_owner st) (tasks st) v (t st) (seq st) (done st) (current_mold st) (current_color st) (last_component st).
Definition with_t (v : dict string Q) (st : state) : state :=
  mk (remaining st) (completion_time st) (mold_busy st) (machine_state st) (component_owner st) (tasks st) (usable st) v (seq st) (done st) (current_mold st) (current_color st) (last_component st).
Definition with_seq (v : dict string Z) (st : state) : state :=
  mk (remaining st) (completion_time st) (mold_busy st) (machine_state st) (component_owner st) (tasks st) (usable st) (t st) v (done st) (current_mold st) (current_color st) (last_component st).
Definition with_done (v : dict string bool) (st : state) : state :=
  mk (remaining st) (completion_time st) (mold_busy st) (machine_state st) (component_owner st) (tasks st) (usable st) (t st) (seq st) v (current_mold st) (current_color st) (last_component st).
Definition with_current_mold (v : dict string (option string)) (st : state) : state :=
  mk (remaining st) (completion_time st) (mold_busy st) (machine_state st) (component_owner st) (tasks st) (usable st) (t st) (seq st) (done st) v (current_color st) (last_component st).
Definition with_current_color (v : dict string (option string)) (st : state) : state :=
  mk (remaining st) (completion_time st) (mold_busy st) (machine_state st) (component_owner st) (tasks st) (usable st) (t st) (seq st) (done st) (current_mold st) v (last_component st).
Definition with_last_component (v : dict string (option string)) (st : state) : state :=
  mk (remaining st) (completion_time st) (mold_busy st) (machine_state st) (component_owner st) (tasks st) (usable st) (t st) (seq st) (done st) (current_mold st) (current_color st) v.
End S.

(** One entry of [candidates]: the 8-tuple appended at the end of the scan. *)
Record candidate := mk_candidate {
  sticky : Z;
  color_match : Z;
  mold_match : Z;
  latest_start : Z;
  cand_rank : Z;
  comp : PC.t;
  need_color_change : bool;
  need_mold_change : bool
}.

(** The sort key [(-x[0], -x[1], -x[2], x[3], x[4])], compared as tuples. *)
Definition cand_key (x : candidate) : list Z :=
  [(- sticky x)%Z; (- color_match x)%Z; (- mold_match x)%Z; latest_start x; cand_rank x].

Fixpoint lex_ltb (a b : list Z) : bool :=
  match a, b with
  | x :: a', y :: b' => if (x <? y)%Z then true else if (y <? x)%Z then false else lex_ltb a' b'
  | [], _ :: _ => true
  | _, [] => false
  end.

(** What the scan decides for one component. *)
Inductive scan_result :=
| Skip
| WaitCandidate (nxt : Q)
| Candidate (c : candidate).

(** How a phase of the slot body ends: [continue], or fall through with the
    local [now]. *)
Inductive flow :=
| Continue (st : S.state)
| Proceed (st : S.state) (now : Q).

Fixpoint enumerate_from {A} (i : Z) (l : list A) : list (Z * A) :=
  match l with
  | [] => []
  | x :: l' => (i, x) :: enumerate_from (i + 1)%Z l'
  end.

Definition default_rank : Z := 10 ^ 9.

(* ================================================================= *)
(** ** [_decode_v2] *)

Section Decode.
Variable genome : list string.
Variable components : list PC.t.
Variable machines : list Machine.t.
Variable molds : list Mold.t.
Variable month_days : Z.
Variable mold_change_time_hours : Q.
Variable color_change_time_hours : Q.

Definition molds_by_id : dict string Mold.t := dict_comp Mold.id (fun m => m) molds.

Definition rank : dict string Z :=
  dict_comp snd fst (enumerate_from 0%Z genome).

Definition rank_get (cid : string) : Z :=
  match dget cid rank with Some i => i | None => default_rank end.

Definition comp_order_of (topo : list PC.t) : list PC.t :=
  sorted_by (fun a b => (rank_get (PC.id a) <? rank_get (PC.id b))%Z) topo.

(** [mold_busy[day][mold]] *)
Definition busy (st : S.state) (day : Z) (mold : string) : list interval :=
  getitem [] (getitem [] (S.mold_busy st) day) mold.

(** [_reserve_interval(mold_busy[day][mold], start, end)] *)
Definition reserve (day : Z) (mold : string) (start end_ : Q) (st : S.state)
  : S.state :=
  S.with_mold_busy
    (dset day
       (dset mold (_reserve_interval (busy st day mold) start end_)
          (getitem [] (S.mold_busy st) day))
       (S.mold_busy st)) st.

(** [done[mid] = True; t[mid] = cap] *)
Definition finish (mid : string) (cap : Q) (st : S.state) : S.state :=
  S.with_t (dset mid cap (S.t st)) (S.with_done (dset mid true (S.done st)) st).

Definition utilization_of (used cap : Q) : Q :=
  if Qltb EPS cap then pymin 1 (used / cap) else 0.

(** [tasks.append({...})] with the header fields every task gets. *)
Definition emit (day : Z) (machine : Machine.t) (k : task_type)
    (used start end_ cap : Q) (st : S.state) : S.state :=
  S.with_tasks
    (S.tasks st ++
     [mk_task day (Machine.id machine) (Machine.name machine)
        (getitem 0%Z (S.seq st) (Machine.id machine)) k used start end_
        (utilization_of used cap)]) st.

(** [t[mid] = now; seq[mid] += 1] *)
Definition advance (mid : string) (now : Q) (st : S.state) : S.state :=
  S.with_seq (dset mid (getitem 0%Z (S.seq st) mid + 1)%Z (S.seq st))
    (S.with_t (dset mid now (S.t st)) st).

(** A task from [now] to [end_], then the clock moves there:
    [tasks.append({...}); t[mid] = end; seq[mid] += 1]. *)
Definition emit_advance (day : Z) (machine : Machine.t) (k : task_type)
    (used now end_ cap : Q) (st : S.state) : S.state :=
  advance (Machine.id machine) end_ (emit day machine k used now end_ cap st).

Definition emit_wait (day : Z) (machine : Machine.t) (now t_next cap : Q)
    (st : S.state) : S.state :=
  emit_advance day machine WAIT (t_next - now) now t_next cap st.

(** [current_color[mid] = chosen.color] and [current_mold[mid] = chosen.mold_id] *)
Definition set_color (mid color : string) (st : S.state) : S.state :=
  S.with_current_color (dset mid (Some color) (S.current_color st)) st.
Definition set_mold (mid mold : string) (st : S.state) : S.state :=
  S.with_current_mold (dset mid (Some mold) (S.current_mold st)) st.

(** The shared tail of the four places that wait for a free mold window:
    [if nxt is not None and nxt > now + EPS and nxt < cap - EPS]. *)
Definition wait_or_finish (day : Z) (machine : Machine.t) (now cap : Q)
    (nxt : option Q) (st : S.state) : S.state :=
  match nxt with
  | Some nxt =>
      if Qltb (now + EPS) nxt && Qltb nxt (cap - EPS)
      then emit_wait day machine now nxt cap st
      else finish (Machine.id machine) cap st
  | None => finish (Machine.id machine) cap st
  end.

(** The body of [for comp in comp_order] (lines 292-358). *)
Definition scan_component (st : S.state) (day : Z) (machine : Machine.t)
    (now cap : Q) (comp : PC.t) : scan_result :=
  let mid := Machine.id machine in
  if (getitem 0%Z (S.remaining st) (PC.id comp) <=? 0)%Z then Skip else
  if match dget (PC.id comp) (S.component_owner st) with
     | Some owner => negb (String.eqb owner mid)
     | None => false
     end then Skip else
  if negb (_feasible_on_machine comp machine molds_by_id) then Skip else
  let need_mold_change :=
    negb (option_eqb (getitem None (S.current_mold st) mid) (Some (PC.mold_id comp))) in
  let need_color_change :=
    negb (option_eqb (getitem None (S.current_color st) mid) (Some (PC.color comp))) in
  let setup := 0 in
  let setup := if need_color_change then setup + pymax 0 color_change_time_hours else setup in
  let setup := if need_mold_change then setup + pymax 0 mold_change_time_hours else setup in
  let start_after_setup := now + setup in
  let per_piece_h := _piece_hours (PC.cycle_time_sec comp) in
  if Qleb per_piece_h 0 then Skip else
  match _next_ready_time_due_to_prereqs comp (S.completion_time st) day start_after_setup with
  | None => Skip
  | Some prereq_ready =>
      let produce_start := pymax start_after_setup prereq_ready in
      if Qltb (cap - produce_start) (per_piece_h - EPS) then Skip else
      match dget (PC.mold_id comp) (getitem [] (S.mold_busy st) day) with
      | None => Skip
      | Some intervals =>
          let mold_hold_start :=
            if need_mold_change && Qltb 0 mold_change_time_hours
            then now + (if need_color_change then pymax 0 color_change_time_hours else 0)
            else now in
          let mold_hold_end_min := produce_start + per_piece_h in
          if negb (_interval_is_free intervals mold_hold_start mold_hold_end_min) then
            let required_window := mold_hold_end_min - mold_hold_start in
            match _next_mold_free_time_for_window intervals mold_hold_start required_window cap with
            | Some nxt =>
                if Qltb (now + EPS) nxt && Qltb nxt (cap - EPS)
                then WaitCandidate nxt else Skip
            | None => Skip
            end
          else
            let last := getitem None (S.last_component st) mid in
            let sticky := if option_eqb last (Some (PC.id comp)) then 1%Z else 0%Z in
            let color_match :=
              if option_eqb (getitem None (S.current_color st) mid) (Some (PC.color comp))
              then 1%Z else 0%Z in
            let mold_match :=
              if option_eqb (getitem None (S.current_mold st) mid) (Some (PC.mold_id comp))
              then 1%Z else 0%Z in
            let latest_start := (PC.due_day comp - PC.lead_time_days comp)%Z in
            Candidate (mk_candidate sticky color_match mold_match latest_start
                         (rank_get (PC.id comp)) comp need_color_change need_mold_change)
      end
  end.

Definition candidates_of (rs : list scan_result) : list candidate :=
  flat_map (fun r => match r with Candidate c => [c] | _ => [] end) rs.
Definition wait_candidates_of (rs : list scan_result) : list Q :=
  flat_map (fun r => match r with WaitCandidate n => [n] | _ => [] end) rs.

(** Lines 384-394: stickiness first, then same colour, then the 5-key sort. *)
Definition prefer (st : S.state) (mid : string) (candidates : list candidate)
  : list candidate :=
  let candidates :=
    match getitem None (S.last_component st) mid with
    | Some _ =>
        if existsb (fun c => (sticky c =? 1)%Z) candidates
        then filter (fun c => (sticky c =? 1)%Z) candidates else candidates
    | None => candidates
    end in
  let candidates :=
    match getitem None (S.current_color st) mid with
    | Some _ =>
        if existsb (fun c => (color_match c =? 1)%Z) candidates
        then filter (fun c => (color_match c =? 1)%Z) candidates else candidates
    | None => candidates
    end in
  sorted_by (fun a b => lex_ltb (cand_key a) (cand_key b)) candidates.

(** Lines 399-423: CHANGE_COLOR. *)
Definition phase_color (day : Z) (machine : Machine.t) (cap : Q) (x : candidate)
    (st : S.state) (now : Q) : flow :=
  let mid := Machine.id machine in
  let chosen := comp x in
  if need_color_change x then
    let ch := pymax 0 color_change_time_hours in
    if Qltb 0 ch then
      if Qltb (cap + EPS) (now + ch) then Continue (finish mid cap st)
      else
        let st := emit_advance day machine
                    (CHANGE_COLOR (getitem None (S.current_color st) mid) (PC.color chosen))
                    ch now (now + ch) cap st in
        Proceed (set_color mid (PC.color chosen) st) (now + ch)
    else Proceed (set_color mid (PC.color chosen) st) now
  else Proceed st now.

(** Lines 425-475: CHANGE_MOLD. *)
Definition phase_mold (day : Z) (machine : Machine.t) (cap : Q) (x : candidate)
    (st : S.state) (now : Q) : flow :=
  let mid := Machine.id machine in
  let chosen := comp x in
  if need_mold_change x then
    let mh := pymax 0 mold_change_time_hours in
    if Qltb 0 mh then
      if Qltb (cap + EPS) (now + mh) then Continue (finish mid cap st)
      else
        let intervals := busy st day (PC.mold_id chosen) in
        if negb (_interval_is_free intervals now (now + mh)) then
          Continue (wait_or_finish day machine now cap
                      (_next_mold_free_time_for_window intervals now mh cap) st)
        else
          let st := reserve day (PC.mold_id chosen) now (now + mh) st in
          let st := emit_advance day machine
                      (CHANGE_MOLD (getitem None (S.current_mold st) mid) (PC.mold_id chosen))
                      mh now (now + mh) cap st in
          Proceed (set_mold mid (PC.mold_id chosen) st) (now + mh)
    else Proceed (set_mold mid (PC.mold_id chosen) st) now
  else Proceed st now.

(** Lines 489-516: while waiting for prerequisites the mounted mold stays
    reserved; [inr] is the [continue] taken when it cannot be. *)
Definition hold_mold (day : Z) (machine : Machine.t) (cap now prereq_ready_now : Q)
    (st : S.state) : S.state + S.state :=
  match getitem None (S.current_mold st) (Machine.id machine) with
  | Some cm =>
      match dget cm (getitem [] (S.mold_busy st) day) with
      | Some intervals =>
          if negb (_interval_is_free intervals now prereq_ready_now) then
            let wait_window := prereq_ready_now - now in
            inr (wait_or_finish day machine now cap
                   (_next_mold_free_time_for_window intervals now wait_window cap) st)
          else inl (reserve day cm now prereq_ready_now st)
      | None => inl st
      end
  | None => inl st
  end.

(** Lines 477-532: wait for prerequisites that finish later today. *)
Definition phase_prereq (day : Z) (machine : Machine.t) (cap : Q) (x : candidate)
    (st : S.state) (now : Q) : flow :=
  let mid := Machine.id machine in
  let chosen := comp x in
  match _next_ready_time_due_to_prereqs chosen (S.completion_time st) day now with
  | None => Continue (finish mid cap st)
  | Some prereq_ready_now =>
      if Qltb (now + EPS) prereq_ready_now then
        if Qleb (cap - EPS) prereq_ready_now then Continue (finish mid cap st)
        else
          match hold_mold day machine cap now prereq_ready_now st with
          | inr st => Continue st
          | inl st =>
              Proceed (emit_wait day machine now prereq_ready_now cap st) prereq_ready_now
          end
      else Proceed st now
  end.

(** Lines 586-618: everything PRODUCE changes once the run is accepted. *)
Definition commit_produce (day : Z) (machine : Machine.t) (cap : Q) (chosen : PC.t)
    (qty : Z) (used_h start_prod end_prod : Q) (st : S.state) : S.state :=
  let mid := Machine.id machine in
  let st := reserve day (PC.mold_id chosen) start_prod end_prod st in
  let st := if dmem (PC.id chosen) (S.component_owner st) then st
            else S.with_component_owner (dset (PC.id chosen) mid (S.component_owner st)) st in
  let st := emit day machine
              (PRODUCE (PC.mold_id chosen) (PC.id chosen) (PC.name chosen) (PC.color chosen) qty)
              used_h start_prod end_prod cap st in
  let st := S.with_remaining
              (dset (PC.id chosen) (getitem 0%Z (S.remaining st) (PC.id chosen) - qty)%Z
                 (S.remaining st)) st in
  let st := S.with_last_component (dset mid (Some (PC.id chosen)) (S.last_component st)) st in
  let st := set_mold mid (PC.mold_id chosen) st in
  let st := set_color mid (PC.color chosen) st in
  let st := advance mid end_prod st in
  if (getitem 0%Z (S.remaining st) (PC.id chosen) <=? 0)%Z
  then S.with_completion_time (dset (PC.id chosen) (day, end_prod) (S.completion_time st)) st
  else st.

(** Lines 534-618: PRODUCE. *)
Definition phase_produce (day : Z) (machine : Machine.t) (cap : Q) (x : candidate)
    (st : S.state) (now : Q) : S.state :=
  let mid := Machine.id machine in
  let chosen := comp x in
  let per_piece_h := _piece_hours (PC.cycle_time_sec chosen) in
  if Qleb per_piece_h 0 then finish mid cap st else
  let start_prod := now in
  let intervals := busy st day (PC.mold_id chosen) in
  let nxt_busy := _next_busy_start intervals start_prod in
  let hard_end := match nxt_busy with None => cap | Some nb => pymin cap nb end in
  let available_run_h := hard_end - start_prod in
  if Qltb available_run_h (per_piece_h - EPS) then finish mid cap st else
  let max_qty_fit := Qfloor (available_run_h / per_piece_h) in
  let qty := Z.min (getitem 0%Z (S.remaining st) (PC.id chosen)) max_qty_fit in
  if (qty <=? 0)%Z then finish mid cap st else
  let used_h := inject_Z qty * per_piece_h in
  let end_prod := start_prod + used_h in
  if negb (_interval_is_free intervals start_prod end_prod) then
    wait_or_finish day machine start_prod cap
      (_next_mold_free_time_for_window intervals start_prod per_piece_h cap) st
  else commit_produce day machine cap chosen qty used_h start_prod end_prod st.

(** One iteration of [while True] for the machine picked (lines 286-618). *)
Definition slot_body (comp_order : list PC.t) (day : Z) (machine : Machine.t)
    (st : S.state) : S.state :=
  let mid := Machine.id machine in
  let now := getitem 0 (S.t st) mid in
  let cap := getitem 0 (S.usable st) mid in
  let scanned := map (scan_component st day machine now cap) comp_order in
  match candidates_of scanned with
  | [] =>
      match wait_candidates_of scanned with
      | w :: ws =>
          let t_next := min_list w ws in
          if Qltb (now + EPS) t_next then emit_wait day machine now t_next cap st
          else finish mid cap st
      | [] => finish mid cap st
      end
  | c0 :: _ =>
      let x := hd c0 (prefer st mid (candidates_of scanned)) in
      match phase_color day machine cap x st now with
      | Continue st => st
      | Proceed st now =>
          match phase_mold day machine cap x st now with
          | Continue st => st
          | Proceed st now =>
              match phase_prereq day machine cap x st now with
              | Continue st => st
              | Proceed st now => phase_produce day machine cap x st now
              end
          end
      end
  end.

(** Lines 277-283: the active machines, earliest clock first. *)
Definition pick_machine (st : S.state) : option Machine.t :=
  let active :=
    filter (fun m => negb (getitem false (S.done st) (Machine.id m))
                     && Qltb (getitem 0 (S.t st) (Machine.id m))
                             (getitem 0 (S.usable st) (Machine.id m) - EPS))
           machines in
  match sorted_by (fun a b => Qltb (getitem 0 (S.t st) (Machine.id a))
                                   (getitem 0 (S.t st) (Machine.id b))) active with
  | [] => None
  | machine :: _ => Some machine
  end.

Fixpoint slot_loop (fuel : nat) (comp_order : list PC.t) (day : Z) (st : S.state)
  : result S.state :=
  match pick_machine st with
  | None => Ok st
  | Some machine =>
      match fuel with
      | O => OutOfFuel
      | S fuel' => slot_loop fuel' comp_order day (slot_body comp_order day machine st)
      end
  end.

(** Lines 266-273: the per-day dictionaries. *)
Definition begin_day (st : S.state) : S.state :=
  let usable := dict_comp Machine.id
                  (fun m => Machine.hours_per_day m * Machine.efficiency m) machines in
  let mem m := getitem (S.mk_mem None None None) (S.machine_state st) (Machine.id m) in
  S.with_last_component (dict_comp Machine.id (fun m => S.last_component_id (mem m)) machines)
    (S.with_current_color (dict_comp Machine.id (fun m => S.color (mem m)) machines)
      (S.with_current_mold (dict_comp Machine.id (fun m => S.mold_id (mem m)) machines)
        (S.with_done (dict_comp Machine.id
                        (fun m => Qleb (getitem 0 usable (Machine.id m)) EPS) machines)
          (S.with_seq (dict_comp Machine.id (fun _ => 1%Z) machines)
            (S.with_t (dict_comp Machine.id (fun _ => 0) machines)
              (S.with_usable usable st)))))).

(** Lines 621-624: persist the machine state. *)
Definition end_day (st : S.state) : S.state :=
  S.with_machine_state
    (fold_left
       (fun ms m =>
          let mid := Machine.id m in
          dset mid (S.mk_mem (getitem None (S.current_mold st) mid)
                             (getitem None (S.current_color st) mid)
                             (getitem None (S.last_component st) mid)) ms)
       machines (S.machine_state st)) st.

Fixpoint run_days (fuel : nat) (comp_order : list PC.t) (days : list Z) (st : S.state)
  : result S.state :=
  match days with
  | [] => Ok st
  | day :: days' =>
      match slot_loop fuel comp_order day (begin_day st) with
      | Ok st' => run_days fuel comp_order days' (end_day st')
      | Raise e => Raise e
      | OutOfFuel => OutOfFuel
      end
  end.

(** [range(1, month_days + 1)] *)
Definition day_range : list Z := map Z.of_nat (seq 1 (Z.to_nat month_days)).

Definition initial_state : S.state :=
  S.mk (dict_comp PC.id PC.quantity components)
       []
       (dict_comp (fun d => d) (fun _ => dict_comp Mold.id (fun _ => @nil interval) molds)
          day_range)
       (dict_comp Machine.id (fun _ => S.mk_mem None None None) machines)
       [] [] [] [] [] [] [] [] [].

Definition unmet_of (remaining : dict string Z) : dict string Z :=
  filter (fun kv => (0 <? snd kv)%Z) remaining.

(** [fuel] bounds the slot-loop iterations of each day. *)
Definition _decode_v2 (fuel : nat) : result (list task * dict string Z) :=
  match _topological_order components with
  | Ok topo =>
      match run_days fuel (comp_order_of topo) day_range initial_state with
      | Ok st => Ok (S.tasks st, unmet_of (S.remaining st))
      | Raise e => Raise e
      | OutOfFuel => OutOfFuel
      end
  | Raise e => Raise e
  | OutOfFuel => OutOfFuel
  end.
End Decode.

(* ================================================================= *)
(** ** [_fitness_v2] *)

Definition sumZ (l : list Z) : Z := fold_left Z.add l 0%Z.

(** The accumulators of the [for t in tasks] loop. *)
Record fitness_acc := mk_acc {
  produced_total : Z;
  changeover_hours : Q;
  wait_hours : Q;
  first_prod_day : dict string Z
}.

Definition fitness_step (acc : fitness_acc) (t : task) : fitness_acc :=
  match kind t with
  | PRODUCE _ cid _ _ qty =>
      mk_acc (produced_total acc + qty)%Z (changeover_hours acc) (wait_hours acc)
        (dset cid (Z.min (getitem (10 ^ 9)%Z (first_prod_day acc) cid) (day t))
           (first_prod_day acc))
  | CHANGE_MOLD _ _ | CHANGE_COLOR _ _ =>
      mk_acc (produced_total acc) (changeover_hours acc + used_hours t) (wait_hours acc)
        (first_prod_day acc)
  | WAIT =>
      mk_acc (produced_total acc) (changeover_hours acc) (wait_hours acc + used_hours t)
        (first_prod_day acc)
  end.

(** [for cid, d in first_prod_day.items()]; [comps_by_id[cid]] raises
    [KeyError] on an identifier that is not a component's. *)
Fixpoint late_start_loop (comps_by_id : dict string PC.t) (items : list (string * Z))
    (late_start_pen : Q) : result Q :=
  match items with
  | [] => Ok late_start_pen
  | (cid, d) :: items' =>
      match dget cid comps_by_id with
      | None => Raise (KeyError cid)
      | Some c =>
          let latest_start := (PC.due_day c - PC.lead_time_days c)%Z in
          let latest_start := if (latest_start <? 1)%Z then 1%Z else latest_start in
          late_start_loop comps_by_id items'
            (if (latest_start <? d)%Z
             then late_start_pen + inject_Z (d - latest_start) * 10000
             else late_start_pen)
      end
  end.

(** An [int] multiplied by a [float] is first converted to a [float]: the
    conversion rounds to the nearest double and raises [OverflowError]
    when that is beyond the largest double, which is the case from
    [2^1024 - 2^970] on in absolute value. *)
Definition DOUBLE_INT_LIMIT : Z := 2 ^ 1024 - 2 ^ 970.

Definition msg_int_too_large : string := "int too large to convert to float".

Definition float_of_int (n : Z) : result Q :=
  if (DOUBLE_INT_LIMIT <=? Z.abs n)%Z then Raise (OverflowError msg_int_too_large)
  else Ok (inject_Z n).

(** Line 180, [sum(unmet.values()) * 1_000_000.0], comes before the task
    loop, and line 207, [produced_total * 1.0], after the late-start
    loop. *)
Definition _fitness_v2 (tasks : list task) (unmet : dict string Z)
    (components : list PC.t) : result Q :=
  let comps_by_id := dict_comp PC.id (fun c => c) components in
  match float_of_int (sumZ (dvalues unmet)) with
  | Ok unmet_sum =>
      let unmet_pen := unmet_sum * 1000000 in
      let acc := fold_left fitness_step tasks (mk_acc 0 0 0 []) in
      match late_start_loop comps_by_id (first_prod_day acc) 0 with
      | Ok late_start_pen =>
          match float_of_int (produced_total acc) with
          | Ok produced =>
              Ok (produced * 1 - unmet_pen - late_start_pen
                  - changeover_hours acc * 50 - wait_hours acc * 5)
          | Raise e => Raise e
          | OutOfFuel => OutOfFuel
          end
      | Raise e => Raise e
      | OutOfFuel => OutOfFuel
      end
  | Raise e => Raise e
  | OutOfFuel => OutOfFuel
  end.

(* ================================================================= *)
(** ** The random source

    The generator of the [random] module is a tape of integers; every draw
    consumes one entry (an exhausted tape yields 0). *)

Definition tape := list Z.

Definition draw (tp : tape) : Z * tape :=
  match tp with
  | [] => (0%Z, [])
  | z :: tp' => (z, tp')
  end.

(** [randbelow(n)]: an index in [range(n)]. *)
Definition randbelow (n : nat) (tp : tape) : nat * tape :=
  let (z, tp) := draw tp in (Z.to_nat (z mod Z.of_nat n), tp).

(** [random.sample(range(n), 2)] for [n >= 2]: the pool algorithm; the
    second draw ranges over the [n - 1] indices left.  (Above 21 elements
    CPython draws again until the second index differs from the first;
    either way the result is two different indices of [range(n)], which is
    what the properties below use, see [sample2_range].) *)
Definition sample2 (n : nat) (tp : tape) : nat * nat * tape :=
  let (i, tp) := randbelow n tp in
  let (j, tp) := randbelow (n - 1) tp in
  (i, (if (j =? i)%nat then (n - 1)%nat else j), tp).

(** [random.random()]: a multiple of 2^-53 in [0, 1). *)
Definition random_unit (tp : tape) : Q * tape :=
  let (z, tp) := draw tp in
  (Qmake (z mod 2 ^ 53) (2 ^ 53), tp).

(** [l[i] = v] *)
Fixpoint set_nth {A} (i : nat) (v : A) (l : list A) : list A :=
  match l, i with
  | [], _ => []
  | _ :: l', O => v :: l'
  | x :: l', S i' => x :: set_nth i' v l'
  end.

(** [l[i], l[j] = l[j], l[i]] *)
Definition swap_at {A} (i j : nat) (l : list A) : list A :=
  match nth_error l i, nth_error l j with
  | Some x, Some y => set_nth j x (set_nth i y l)
  | _, _ => l
  end.

(** [random.shuffle]: [for i in reversed(range(1, len(x))): j = randbelow(i + 1); swap]. *)
Fixpoint shuffle_from {A} (i : nat) (l : list A) (tp : tape) : list A * tape :=
  match i with
  | O => (l, tp)
  | S i' =>
      let (j, tp) := randbelow (i + 1) tp in
      shuffle_from i' (swap_at i j l) tp
  end.

Definition shuffle {A} (l : list A) (tp : tape) : list A * tape :=
  shuffle_from (List.length l - 1) l tp.

(* ================================================================= *)
(** ** Genetic operators *)

Abbreviation genome_t := (list string).

Definition _random_genome (components : list PC.t) (tp : tape) : genome_t * tape :=
  shuffle (map PC.id components) tp.

Definition _mutate_swap (genome : genome_t) (tp : tape) : genome_t * tape :=
  if (List.length genome <? 2)%nat then (genome, tp)
  else
    let '(i, j, tp) := sample2 (List.length genome) tp in
    (swap_at i j genome, tp).

Definition mem_string (x : string) (l : list string) : bool :=
  existsb (String.eqb x) l.

Definition _crossover_ox (p1 p2 : genome_t) (tp : tape) : genome_t * tape :=
  let n := List.length p1 in
  if (n <? 2)%nat then (p1, tp)
  else
    let '(i, j, tp) := sample2 n tp in
    let a := Nat.min i j in
    let b := Nat.max i j in
    let mid := firstn (b - a) (skipn a p1) in
    let rest := filter (fun x => negb (mem_string x mid)) p2 in
    (firstn a rest ++ mid ++ skipn a rest, tp).

(* ================================================================= *)
(** ** [ga_optimize_v2] *)

Record ga_output := mk_output {
  assignments : list task;
  unmet : dict string Z;
  score : Q
}.

Section GA.
Variable fuel : nat.
Variable components : list PC.t.
Variable machines : list Machine.t.
Variable molds : list Mold.t.
Variable month_days : Z.
Variable mold_change_time_hours : Q.
Variable color_change_time_hours : Q.
Variable pop_size : Z.
Variable n_generations : Z.
Variable mutation_rate : Q.

Definition decode (g : genome_t) : result (list task * dict string Z) :=
  _decode_v2 g components machines molds month_days
    mold_change_time_hours color_change_time_hours fuel.

(** [[_random_genome(components) for _ in range(pop_size)]] *)
Fixpoint initial_population (n : nat) (tp : tape) : list genome_t * tape :=
  match n with
  | O => ([], tp)
  | S n' =>
      let (g, tp) := _random_genome components tp in
      let (pop, tp) := initial_population n' tp in
      (g :: pop, tp)
  end.

(** Lines 656-668: decode and score every genome of the population. *)
Fixpoint score_population (population : list genome_t) : result (list (Q * genome_t)) :=
  match population with
  | [] => Ok []
  | g :: population' =>
      match decode g with
      | Ok (tasks, unmet) =>
          match _fitness_v2 tasks unmet components with
          | Ok score =>
              match score_population population' with
              | Ok scored => Ok ((score, g) :: scored)
              | Raise e => Raise e
              | OutOfFuel => OutOfFuel
              end
          | Raise e => Raise e
          | OutOfFuel => OutOfFuel
          end
      | Raise e => Raise e
      | OutOfFuel => OutOfFuel
      end
  end.

(** [scored.sort(key=lambda x: x[0], reverse=True)] *)
Definition sort_scored (scored : list (Q * genome_t)) : list (Q * genome_t) :=
  sorted_by (fun a b => Qltb (fst b) (fst a)) scored.

Definition elite_k : Z := Z.max 2 (pop_size / 5).

(** [[g[:] for (_, g) in scored[:elite_k]]] *)
Definition elites (scored : list (Q * genome_t)) : list genome_t :=
  map snd (firstn (Z.to_nat elite_k) scored).

(** Lines 678-681: binary tournaments until the pool has [pop_size] genomes;
    [n] is the number of genomes still missing. *)
Fixpoint tournament (n : nat) (scored : list (Q * genome_t)) (new_pop : list genome_t)
    (tp : tape) : list genome_t * tape :=
  match n with
  | O => (new_pop, tp)
  | S n' =>
      let '(i, j, tp) := sample2 (Z.to_nat pop_size) tp in
      let si := nth i scored (0, []) in
      let sj := nth j scored (0, []) in
      let parent := if Qltb (fst sj) (fst si) then snd si else snd sj in
      tournament n' scored (new_pop ++ [parent]) tp
  end.

Definition parent_pool (scored : list (Q * genome_t)) (tp : tape)
  : list genome_t * tape :=
  let new_pop := elites scored in
  tournament (Z.to_nat pop_size - List.length new_pop) scored new_pop tp.

(** Lines 683-690: [for i in range(0, pop_size, 2)]; [k] counts the
    iterations left. *)
Fixpoint breed (k : nat) (i : nat) (new_pop children : list genome_t) (tp : tape)
  : list genome_t * tape :=
  match k with
  | O => (children, tp)
  | S k' =>
      if (Z.to_nat pop_size <=? i + 1)%nat
      then (children ++ [nth i new_pop []], tp)
      else
        let (c1, tp) := _crossover_ox (nth i new_pop []) (nth (i + 1) new_pop []) tp in
        let (c2, tp) := _crossover_ox (nth (i + 1) new_pop []) (nth i new_pop []) tp in
        breed k' (i + 2) new_pop (children ++ [c1; c2]) tp
  end.

(** Lines 692-694: mutate each child with probability [mutation_rate]. *)
Fixpoint mutate_children (children : list genome_t) (tp : tape)
  : list genome_t * tape :=
  match children with
  | [] => ([], tp)
  | c :: children' =>
      let (u, tp) := random_unit tp in
      let (c, tp) := if Qltb u mutation_rate then _mutate_swap c tp else (c, tp) in
      let (rest, tp) := mutate_children children' tp in
      (c :: rest, tp)
  end.

(** Lines 675-696: from the sorted scores to the next population. *)
Definition next_population (scored : list (Q * genome_t)) (tp : tape)
  : list genome_t * tape :=
  let (new_pop, tp) := parent_pool scored tp in
  let (children, tp) :=
    breed (Z.to_nat ((pop_size + 1) / 2)) 0 new_pop [] tp in
  let (children, tp) := mutate_children children tp in
  (firstn (Z.to_nat pop_size) children, tp).

(** The body of [for _ in range(n_generations)]; the state is the
    population, the best score and genome so far, and the tape. *)
Definition ga_state := (list genome_t * option (Q * genome_t) * tape)%type.

Definition generation (gs : ga_state) : result ga_state :=
  let '(population, best, tp) := gs in
  match score_population population with
  | Ok scored =>
      let scored := sort_scored scored in
      let top := hd (0, []) scored in
      let best :=
        match best with
        | None => Some top
        | Some (best_score, _) => if Qltb best_score (fst top) then Some top else best
        end in
      let (population, tp) := next_population scored tp in
      Ok (population, best, tp)
  | Raise e => Raise e
  | OutOfFuel => OutOfFuel
  end.

Fixpoint generations (n : nat) (gs : ga_state) : result ga_state :=
  match n with
  | O => Ok gs
  | S n' =>
      match generation gs with
      | Ok gs' => generations n' gs'
      | Raise e => Raise e
      | OutOfFuel => OutOfFuel
      end
  end.

Definition ga_optimize_v2 (tp : tape) : result ga_output :=
  if (month_days <? 1)%Z then Raise (ValueError "month_days must be >= 1")
  else if (pop_size <? 2)%Z then Raise (ValueError "pop_size must be >= 2")
  else if (n_generations <? 1)%Z then Raise (ValueError "n_generations must be >= 1")
  else if negb (Qleb 0 mutation_rate && Qleb mutation_rate 1)
  then Raise (ValueError "mutation_rate must be between 0 and 1")
  else
    let (population, tp) := initial_population (Z.to_nat pop_size) tp in
    match generations (Z.to_nat n_generations) (population, None, tp) with
    | Ok (_, best, _) =>
        let best_genome := match best with Some (_, g) => g | None => [] end in
        match decode best_genome with
        | Ok (final_tasks, final_unmet) =>
            match _fitness_v2 final_tasks final_unmet components with
            | Ok final_score => Ok (mk_output final_tasks final_unmet final_score)
            | Raise e => Raise e
            | OutOfFuel => OutOfFuel
            end
        | Raise e => Raise e
        | OutOfFuel => OutOfFuel
        end
    | Raise e => Raise e
    | OutOfFuel => OutOfFuel
    end.
End GA.

(* ================================================================= *)
(** * The decoder on doubles

    The same code with Python's [float] as what it is, an IEEE 754 double
    ([PrimFloat.float]), for evaluating what the program emits where the
    rounding of a double shows.  The numbers of the input records are taken
    as the exact values handed to the program; [float(x)] rounds them to the
    nearest double.  Everything that does not touch a [float] (the
    topological sort, the ranks, the candidate tuples and their order, the
    dictionaries) is shared with the exact model above. *)

Module Doubles.
Import PrimFloat.
Local Open Scope float_scope.

Definition of_spec := FloatOps.SF2Prim.
Definition to_spec := FloatOps.Prim2SF.

(** [float(n)] of an [int] in range: the nearest double. *)
Definition of_Z (n : Z) : float :=
  of_spec (SpecFloat.binary_normalize 53 1024 n 0 false).

(** [float(x)] of a number given as a rational: the nearest double. *)
Definition of_Q (q : Q) : float :=
  match Qnum q with
  | Z0 => 0
  | Zpos n =>
      of_spec (SpecFloat.SFdiv 53 1024 (SpecFloat.S754_finite false n 0)
                 (SpecFloat.S754_finite false (Qden q) 0))
  | Zneg n =>
      of_spec (SpecFloat.SFdiv 53 1024 (SpecFloat.S754_finite true n 0)
                 (SpecFloat.S754_finite false (Qden q) 0))
  end.

(** A finite double as [m * 2^e] with an integer [m]. *)
Definition parts (x : float) : option (Z * Z) :=
  match to_spec x with
  | SpecFloat.S754_zero _ => Some (0%Z, 0%Z)
  | SpecFloat.S754_finite s m e => Some (if s then Zneg m else Zpos m, e)
  | _ => None
  end.

(** [m * 2^e] for [m * 2^e] that is a double. *)
Definition of_parts (m e : Z) (negative_zero : bool) : float :=
  of_spec (SpecFloat.binary_normalize 53 1024 m e negative_zero).

Definition is_nan (x : float) : bool := negb (x =? x).
Definition is_negative (x : float) : bool :=
  match to_spec x with
  | SpecFloat.S754_zero s | SpecFloat.S754_infinity s | SpecFloat.S754_finite s _ _ => s
  | SpecFloat.S754_nan => false
  end.

(** C's [fmod(x, y)]: exact, with the sign of [x]. *)
Definition fmod (x y : float) : float :=
  match parts x, parts y with
  | Some (mx, ex), Some (my, ey) =>
      if (my =? 0)%Z then nan
      else if (mx =? 0)%Z then x
      else
        let e := Z.min ex ey in
        let X := (mx * 2 ^ (ex - e))%Z in
        let Y := (my * 2 ^ (ey - e))%Z in
        of_parts (Z.rem X Y) e (is_negative x)
  | Some _, None => if is_nan y then nan else x
  | None, _ => nan
  end.

(** C's [floor(x)]. *)
Definition floor (x : float) : float :=
  match parts x with
  | Some (m, e) =>
      if (0 <=? e)%Z then x
      else if (m =? 0)%Z then x
      else of_parts (m / 2 ^ (- e))%Z 0 (is_negative x)
  | None => x
  end.

Definition copysign (x y : float) : float :=
  if Bool.eqb (is_negative x) (is_negative y) then x else - x.

(** CPython's [float_floor_div] for a divisor that is not zero. *)
Definition floordiv (vx wx : float) : float :=
  let mod_ := fmod vx wx in
  let div := (vx - mod_) / wx in
  let div :=
    if negb (mod_ =? 0)
    then (if negb (Bool.eqb (wx <? 0) (mod_ <? 0)) then div - 1 else div)
    else div in
  if negb (div =? 0) then
    let fl := floor div in
    if 0.5 <? div - fl then fl + 1 else fl
  else copysign 0 (vx / wx).

Inductive conv := Int (n : Z) | Infinite | NotANumber.

(** [int(x)] of a float: truncation; infinities and NaN fail. *)
Definition to_int (x : float) : conv :=
  match to_spec x with
  | SpecFloat.S754_zero _ => Int 0
  | SpecFloat.S754_finite s m e =>
      let a := if (0 <=? e)%Z then (Zpos m * 2 ^ e)%Z else (Zpos m / 2 ^ (- e))%Z in
      Int (if s then (- a)%Z else a)
  | SpecFloat.S754_infinity _ => Infinite
  | SpecFloat.S754_nan => NotANumber
  end.

Definition msg_int_of_infinity : string := "cannot convert float infinity to integer".
Definition msg_int_of_nan : string := "cannot convert float NaN to integer".

Definition EPS : float := of_Q (1 # 1000000000).

(** Python's [max(a, b)] and [min(a, b)], and those of a non-empty list. *)
Definition pymax (a b : float) : float := if PrimFloat.ltb a b then b else a.
Definition pymin (a b : float) : float := if PrimFloat.ltb b a then b else a.
Definition max_list (x : float) (l : list float) : float := fold_left pymax l x.
Definition min_list (x : float) (l : list float) : float := fold_left pymin l x.

Definition interval := (float * float)%type.

(** [float(cycle_time_sec) / 3600.0] *)
Definition _piece_hours (cycle_time_sec : Q) : float := of_Q cycle_time_sec / 3600.

Record task := mk_task {
  day : Z;
  machine_id : string;
  machine_name : string;
  sequence_in_day : Z;
  kind : task_type;
  used_hours : float;
  start_hour : float;
  end_hour : float;
  utilization : float
}.


Definition _overlaps (a_start a_end b_start b_end : float) : bool :=
  negb (PrimFloat.leb a_end b_start || PrimFloat.leb b_end a_start).

Definition _interval_is_free (intervals : list interval) (start end_ : float) : bool :=
  forallb (fun se => negb (_overlaps (fst se) (snd se) start end_)) intervals.

Definition _reserve_interval (intervals : list interval) (start end_ : float)
  : list interval :=
  intervals ++ [(start, end_)].


(** The [for pr in comp.prerequisites] loop: [None] is the early
    [return None], [Some needed] the list built when the loop ends. *)
Fixpoint ready_scan (prs : list string) (completion_time : dict string (Z * float))
    (day : Z) (after_hour : float) (needed : list float) : option (list float) :=
  match prs with
  | [] => Some needed
  | pr :: prs' =>
      match dget pr completion_time with
      | None => None
      | Some (pr_day, pr_hour) =>
          if (day <? pr_day)%Z then None
          else if (pr_day =? day)%Z && PrimFloat.ltb (after_hour + EPS) pr_hour
          then ready_scan prs' completion_time day after_hour (needed ++ [pr_hour])
          else ready_scan prs' completion_time day after_hour needed
      end
  end.

Definition _next_ready_time_due_to_prereqs (comp : PC.t)
    (completion_time : dict string (Z * float)) (day : Z) (after_hour : float) : option float :=
  match ready_scan (PC.prerequisites comp) completion_time day after_hour [] with
  | None => None
  | Some [] => Some after_hour
  | Some (x :: needed) => Some (max_list x needed)
  end.

Definition safety_limit : nat := Z.to_nat 10000%Z.

(** The [while t + window_hours <= cap + EPS] loop; [budget] is what is left
    of the 10_000 iterations the [safety] counter allows. *)
Fixpoint window_loop (budget : nat) (mold_intervals : list interval)
    (window_hours cap t : float) : option float :=
  if PrimFloat.leb (t + window_hours) (cap + EPS) then
    match budget with
    | O => None
    | S budget' =>
        match filter (fun se => _overlaps (fst se) (snd se) t (t + window_hours))
                     mold_intervals with
        | [] => Some t
        | se :: overlaps =>
            window_loop budget' mold_intervals window_hours cap
              (max_list (snd se) (map snd overlaps))
        end
    end
  else None.

Definition _next_mold_free_time_for_window (mold_intervals : list interval)
    (after_hour window_hours cap : float) : option float :=
  if PrimFloat.leb window_hours 0 then
    (if PrimFloat.leb after_hour (cap + EPS) then Some after_hour else None)
  else if PrimFloat.leb (after_hour + window_hours) (cap + EPS)
          && _interval_is_free mold_intervals after_hour (after_hour + window_hours)
  then Some after_hour
  else window_loop safety_limit mold_intervals window_hours cap after_hour.

Definition _next_busy_start (intervals : list interval) (after_hour : float) : option float :=
  match filter (fun s => PrimFloat.leb (after_hour + EPS) s) (map fst intervals) with
  | [] => None
  | s :: starts => Some (min_list s starts)
  end.


Module S.
Record machine_mem := mk_mem {
  mold_id : option string;
  color : option string;
  last_component_id : option string
}.

Record state := mk {
  remaining : dict string Z;
  completion_time : dict string (Z * float);
  mold_busy : dict Z (dict string (list interval));
  machine_state : dict string machine_mem;
  component_owner : dict string string;
  tasks : list task;
  usable : dict string float;
  t : dict string float;
  seq : dict string Z;
  done : dict string bool;
  current_mold : dict string (option string);
  current_color : dict string (option string);
  last_component : dict string (option string)
}.

Definition with_remaining (v : dict string Z) (st : state) : state :=
  mk v (completion_time st) (mold_busy st) (machine_state st) (component_owner st) (tasks st) (usable st) (t st) (seq st) (done st) (current_mold st) (current_color st) (last_component st).
Definition with_completion_time (v : dict string (Z * float)) (st : state) : state :=
  mk (remaining st) v (mold_busy st) (machine_state st) (component_owner st) (tasks st) (usable st) (t st) (seq st) (done st) (current_mold st) (current_color st) (last_component st).
Definition with_mold_busy (v : dict Z (dict string (list interval))) (st : state) : state :=
  mk (remaining st) (completion_time st) v (machine_state st) (component_owner st) (tasks st) (usable st) (t st) (seq st) (done st) (current_mold st) (current_color st) (last_component st).
Definition with_machine_state (v : dict string machine_mem) (st : state) : state :=
  mk (remaining st) (completion_time st) (mold_busy st) v (component_owner st) (tasks st) (usable st) (t st) (seq st) (done st) (current_mold st) (current_color st) (last_component st).
Definition with_component_owner (v : dict string string) (st : state) : state :=
  mk (remaining st) (completion_time st) (mold_busy st) (machine_state st) v (tasks st) (usable st) (t st) (seq st) (done st) (current_mold st) (current_color st) (last_component st).
Definition with_tasks (v : list task) (st : state) : state :=
  mk (remaining st) (completion_time st) (mold_busy st) (machine_state st) (component_owner st) v (usable st) (t st) (seq st) (done st) (current_mold st) (current_color st) (last_component st).
Definition with_usable (v : dict string float) (st : state) : state :=
  mk (remaining st) (completion_time st) (mold_busy st) (machine_state st) (component_owner st) (tasks st) v (t st) (seq st) (done st) (current_mold st) (current_color st) (last_component st).
Definition with_t (v : dict string float) (st : state) : state :=
  mk (remaining st) (completion_time st) (mold_busy st) (machine_state st) (component_owner st) (tasks st) (usable st) v (seq st) (done st) (current_mold st) (current_color st) (last_component st).
Definition with_seq (v : dict string Z) (st : state) : state :=
  mk (remaining st) (completion_time st) (mold_busy st) (machine_state st) (component_owner st) (tasks st) (usable st) (t st) v (done st) (current_mold st) (current_color st) (last_component st).
Definition with_done (v : dict string bool) (st : state) : state :=
  mk (remaining st) (completion_time st) (mold_busy st) (machine_state st) (component_owner st) (tasks st) (usable st) (t st) (seq st) v (current_mold st) (current_color st) (last_component st).
Definition with_current_mold (v : dict string (option string)) (st : state) : state :=
  mk (remaining st) (completion_time st) (mold_busy st) (machine_state st) (component_owner st) (tasks st) (usable st) (t st) (seq st) (done st) v (current_color st) (last_component st).
Definition with_current_color (v : dict string (option string)) (st : state) : state :=
  mk (remaining st) (completion_time st) (mold_busy st) (machine_state st) (component_owner st) (tasks st) (usable st) (t st) (seq st) (done st) (current_mold st) v (last_component st).
Definition with_last_component (v : dict string (option string)) (st : state) : state :=
  mk (remaining st) (completion_time st) (mold_busy st) (machine_state st) (component_owner st) (tasks st) (usable st) (t st) (seq st) (done st) (current_mold st) (current_color st) v.
End S.

(** What the scan decides for one component. *)
Inductive scan_result :=
| Skip
| WaitCandidate (nxt : float)
| Candidate (c : candidate).

(** How a phase of the slot body ends: [continue], or fall through with the
    local [now]. *)
Inductive flow :=
| Continue (st : S.state)
| Proceed (st : S.state) (now : float).


Section Decode.
Variable genome : list string.
Variable components : list PC.t.
Variable machines : list Machine.t.
Variable molds : list Mold.t.
Variable month_days : Z.
Variable mold_change_time_hours : Q.
Variable color_change_time_hours : Q.

Definition molds_by_id : dict string Mold.t := dict_comp Mold.id (fun m => m) molds.

Definition rank : dict string Z :=
  dict_comp snd fst (enumerate_from 0%Z genome).

Definition rank_get (cid : string) : Z :=
  match dget cid rank with Some i => i | None => default_rank end.

Definition comp_order_of (topo : list PC.t) : list PC.t :=
  sorted_by (fun a b => (rank_get (PC.id a) <? rank_get (PC.id b))%Z) topo.

(** [mold_busy[day][mold]] *)
Definition busy (st : S.state) (day : Z) (mold : string) : list interval :=
  getitem [] (getitem [] (S.mold_busy st) day) mold.

(** [_reserve_interval(mold_busy[day][mold], start, end)] *)
Definition reserve (day : Z) (mold : string) (start end_ : float) (st : S.state)
  : S.state :=
  S.with_mold_busy
    (dset day
       (dset mold (_reserve_interval (busy st day mold) start end_)
          (getitem [] (S.mold_busy st) day))
       (S.mold_busy st)) st.

(** [done[mid] = True; t[mid] = cap] *)
Definition finish (mid : string) (cap : float) (st : S.state) : S.state :=
  S.with_t (dset mid cap (S.t st)) (S.with_done (dset mid true (S.done st)) st).

Definition utilization_of (used cap : float) : float :=
  if PrimFloat.ltb EPS cap then pymin 1 (used / cap) else 0.

(** [tasks.append({...})] with the header fields every task gets. *)
Definition emit (day : Z) (machine : Machine.t) (k : task_type)
    (used start end_ cap : float) (st : S.state) : S.state :=
  S.with_tasks
    (S.tasks st ++
     [mk_task day (Machine.id machine) (Machine.name machine)
        (getitem 0%Z (S.seq st) (Machine.id machine)) k used start end_
        (utilization_of used cap)]) st.

(** [t[mid] = now; seq[mid] += 1] *)
Definition advance (mid : string) (now : float) (st : S.state) : S.state :=
  S.with_seq (dset mid (getitem 0%Z (S.seq st) mid + 1)%Z (S.seq st))
    (S.with_t (dset mid now (S.t st)) st).

(** A task from [now] to [end_], then the clock moves there:
    [tasks.append({...}); t[mid] = end; seq[mid] += 1]. *)
Definition emit_advance (day : Z) (machine : Machine.t) (k : task_type)
    (used now end_ cap : float) (st : S.state) : S.state :=
  advance (Machine.id machine) end_ (emit day machine k used now end_ cap st).

Definition emit_wait (day : Z) (machine : Machine.t) (now t_next cap : float)
    (st : S.state) : S.state :=
  emit_advance day machine WAIT (t_next - now) now t_next cap st.

(** [current_color[mid] = chosen.color] and [current_mold[mid] = chosen.mold_id] *)
Definition set_color (mid color : string) (st : S.state) : S.state :=
  S.with_current_color (dset mid (Some color) (S.current_color st)) st.
Definition set_mold (mid mold : string) (st : S.state) : S.state :=
  S.with_current_mold (dset mid (Some mold) (S.current_mold st)) st.

(** The shared tail of the four places that wait for a free mold window:
    [if nxt is not None and nxt > now + EPS and nxt < cap - EPS]. *)
Definition wait_or_finish (day : Z) (machine : Machine.t) (now cap : float)
    (nxt : option float) (st : S.state) : S.state :=
  match nxt with
  | Some nxt =>
      if PrimFloat.ltb (now + EPS) nxt && PrimFloat.ltb nxt (cap - EPS)
      then emit_wait day machine now nxt cap st
      else finish (Machine.id machine) cap st
  | None => finish (Machine.id machine) cap st
  end.

(** The body of [for comp in comp_order] (lines 292-358). *)
Definition scan_component (st : S.state) (day : Z) (machine : Machine.t)
    (now cap : float) (comp : PC.t) : scan_result :=
  let mid := Machine.id machine in
  if (getitem 0%Z (S.remaining st) (PC.id comp) <=? 0)%Z then Skip else
  if match dget (PC.id comp) (S.component_owner st) with
     | Some owner => negb (String.eqb owner mid)
     | None => false
     end then Skip else
  if negb (_feasible_on_machine comp machine molds_by_id) then Skip else
  let need_mold_change :=
    negb (option_eqb (getitem None (S.current_mold st) mid) (Some (PC.mold_id comp))) in
  let need_color_change :=
    negb (option_eqb (getitem None (S.current_color st) mid) (Some (PC.color comp))) in
  let setup := 0 in
  let setup := if need_color_change then setup + pymax 0 (of_Q color_change_time_hours) else setup in
  let setup := if need_mold_change then setup + pymax 0 (of_Q mold_change_time_hours) else setup in
  let start_after_setup := now + setup in
  let per_piece_h := _piece_hours (PC.cycle_time_sec comp) in
  if PrimFloat.leb per_piece_h 0 then Skip else
  match _next_ready_time_due_to_prereqs comp (S.completion_time st) day start_after_setup with
  | None => Skip
  | Some prereq_ready =>
      let produce_start := pymax start_after_setup prereq_ready in
      if PrimFloat.ltb (cap - produce_start) (per_piece_h - EPS) then Skip else
      match dget (PC.mold_id comp) (getitem [] (S.mold_busy st) day) with
      | None => Skip
      | Some intervals =>
          let mold_hold_start :=
            if need_mold_change && PrimFloat.ltb 0 (of_Q mold_change_time_hours)
            then now + (if need_color_change then pymax 0 (of_Q color_change_time_hours) else 0)
            else now in
          let mold_hold_end_min := produce_start + per_piece_h in
          if negb (_interval_is_free intervals mold_hold_start mold_hold_end_min) then
            let required_window := mold_hold_end_min - mold_hold_start in
            match _next_mold_free_time_for_window intervals mold_hold_start required_window cap with
            | Some nxt =>
                if PrimFloat.ltb (now + EPS) nxt && PrimFloat.ltb nxt (cap - EPS)
                then WaitCandidate nxt else Skip
            | None => Skip
            end
          else
            let last := getitem None (S.last_component st) mid in
            let sticky := if option_eqb last (Some (PC.id comp)) then 1%Z else 0%Z in
            let color_match :=
              if option_eqb (getitem None (S.current_color st) mid) (Some (PC.color comp))
              then 1%Z else 0%Z in
            let mold_match :=
              if option_eqb (getitem None (S.current_mold st) mid) (Some (PC.mold_id comp))
              then 1%Z else 0%Z in
            let latest_start := (PC.due_day comp - PC.lead_time_days comp)%Z in
            Candidate (mk_candidate sticky color_match mold_match latest_start
                         (rank_get (PC.id comp)) comp need_color_change need_mold_change)
      end
  end.

Definition candidates_of (rs : list scan_result) : list candidate :=
  flat_map (fun r => match r with Candidate c => [c] | _ => [] end) rs.
Definition wait_candidates_of (rs : list scan_result) : list float :=
  flat_map (fun r => match r with WaitCandidate n => [n] | _ => [] end) rs.

(** Lines 384-394: stickiness first, then same colour, then the 5-key sort. *)
Definition prefer (st : S.state) (mid : string) (candidates : list candidate)
  : list candidate :=
  let candidates :=
    match getitem None (S.last_component st) mid with
    | Some _ =>
        if existsb (fun c => (sticky c =? 1)%Z) candidates
        then filter (fun c => (sticky c =? 1)%Z) candidates else candidates
    | None => candidates
    end in
  let candidates :=
    match getitem None (S.current_color st) mid with
    | Some _ =>
        if existsb (fun c => (color_match c =? 1)%Z) candidates
        then filter (fun c => (color_match c =? 1)%Z) candidates else candidates
    | None => candidates
    end in
  sorted_by (fun a b => lex_ltb (cand_key a) (cand_key b)) candidates.

(** Lines 399-423: CHANGE_COLOR. *)
Definition phase_color (day : Z) (machine : Machine.t) (cap : float) (x : candidate)
    (st : S.state) (now : float) : flow :=
  let mid := Machine.id machine in
  let chosen := comp x in
  if need_color_change x then
    let ch := pymax 0 (of_Q color_change_time_hours) in
    if PrimFloat.ltb 0 ch then
      if PrimFloat.ltb (cap + EPS) (now + ch) then Continue (finish mid cap st)
      else
        let st := emit_advance day machine
                    (CHANGE_COLOR (getitem None (S.current_color st) mid) (PC.color chosen))
                    ch now (now + ch) cap st in
        Proceed (set_color mid (PC.color chosen) st) (now + ch)
    else Proceed (set_color mid (PC.color chosen) st) now
  else Proceed st now.

(** Lines 425-475: CHANGE_MOLD. *)
Definition phase_mold (day : Z) (machine : Machine.t) (cap : float) (x : candidate)
    (st : S.state) (now : float) : flow :=
  let mid := Machine.id machine in
  let chosen := comp x in
  if need_mold_change x then
    let mh := pymax 0 (of_Q mold_change_time_hours) in
    if PrimFloat.ltb 0 mh then
      if PrimFloat.ltb (cap + EPS) (now + mh) then Continue (finish mid cap st)
      else
        let intervals := busy st day (PC.mold_id chosen) in
        if negb (_interval_is_free intervals now (now + mh)) then
          Continue (wait_or_finish day machine now cap
                      (_next_mold_free_time_for_window intervals now mh cap) st)
        else
          let st := reserve day (PC.mold_id chosen) now (now + mh) st in
          let st := emit_advance day machine
                      (CHANGE_MOLD (getitem None (S.current_mold st) mid) (PC.mold_id chosen))
                      mh now (now + mh) cap st in
          Proceed (set_mold mid (PC.mold_id chosen) st) (now + mh)
    else Proceed (set_mold mid (PC.mold_id chosen) st) now
  else Proceed st now.

(** Lines 489-516: while waiting for prerequisites the mounted mold stays
    reserved; [inr] is the [continue] taken when it cannot be. *)
Definition hold_mold (day : Z) (machine : Machine.t) (cap now prereq_ready_now : float)
    (st : S.state) : S.state + S.state :=
  match getitem None (S.current_mold st) (Machine.id machine) with
  | Some cm =>
      match dget cm (getitem [] (S.mold_busy st) day) with
      | Some intervals =>
          if negb (_interval_is_free intervals now prereq_ready_now) then
            let wait_window := prereq_ready_now - now in
            inr (wait_or_finish day machine now cap
                   (_next_mold_free_time_for_window intervals now wait_window cap) st)
          else inl (reserve day cm now prereq_ready_now st)
      | None => inl st
      end
  | None => inl st
  end.

(** Lines 477-532: wait for prerequisites that finish later today. *)
Definition phase_prereq (day : Z) (machine : Machine.t) (cap : float) (x : candidate)
    (st : S.state) (now : float) : flow :=
  let mid := Machine.id machine in
  let chosen := comp x in
  match _next_ready_time_due_to_prereqs chosen (S.completion_time st) day now with
  | None => Continue (finish mid cap st)
  | Some prereq_ready_now =>
      if PrimFloat.ltb (now + EPS) prereq_ready_now then
        if PrimFloat.leb (cap - EPS) prereq_ready_now then Continue (finish mid cap st)
        else
          match hold_mold day machine cap now prereq_ready_now st with
          | inr st => Continue st
          | inl st =>
              Proceed (emit_wait day machine now prereq_ready_now cap st) prereq_ready_now
          end
      else Proceed st now
  end.

(** Lines 586-618: everything PRODUCE changes once the run is accepted. *)
Definition commit_produce (day : Z) (machine : Machine.t) (cap : float) (chosen : PC.t)
    (qty : Z) (used_h start_prod end_prod : float) (st : S.state) : S.state :=
  let mid := Machine.id machine in
  let st := reserve day (PC.mold_id chosen) start_prod end_prod st in
  let st := if dmem (PC.id chosen) (S.component_owner st) then st
            else S.with_component_owner (dset (PC.id chosen) mid (S.component_owner st)) st in
  let st := emit day machine
              (PRODUCE (PC.mold_id chosen) (PC.id chosen) (PC.name chosen) (PC.color chosen) qty)
              used_h start_prod end_prod cap st in
  let st := S.with_remaining
              (dset (PC.id chosen) (getitem 0%Z (S.remaining st) (PC.id chosen) - qty)%Z
                 (S.remaining st)) st in
  let st := S.with_last_component (dset mid (Some (PC.id chosen)) (S.last_component st)) st in
  let st := set_mold mid (PC.mold_id chosen) st in
  let st := set_color mid (PC.color chosen) st in
  let st := advance mid end_prod st in
  if (getitem 0%Z (S.remaining st) (PC.id chosen) <=? 0)%Z
  then S.with_completion_time (dset (PC.id chosen) (day, end_prod) (S.completion_time st)) st
  else st.

(** Lines 534-618: PRODUCE. *)
Definition phase_produce (day : Z) (machine : Machine.t) (cap : float) (x : candidate)
    (st : S.state) (now : float) : result S.state :=
  let mid := Machine.id machine in
  let chosen := comp x in
  let per_piece_h := _piece_hours (PC.cycle_time_sec chosen) in
  if PrimFloat.leb per_piece_h 0 then Ok (finish mid cap st) else
  let start_prod := now in
  let intervals := busy st day (PC.mold_id chosen) in
  let nxt_busy := _next_busy_start intervals start_prod in
  let hard_end := match nxt_busy with None => cap | Some nb => pymin cap nb end in
  let available_run_h := hard_end - start_prod in
  if PrimFloat.ltb available_run_h (per_piece_h - EPS) then Ok (finish mid cap st) else
  match to_int (floordiv available_run_h per_piece_h) with
  | Infinite => Raise (OverflowError msg_int_of_infinity)
  | NotANumber => Raise (ValueError msg_int_of_nan)
  | Int max_qty_fit =>
      let qty := Z.min (getitem 0%Z (S.remaining st) (PC.id chosen)) max_qty_fit in
      if (qty <=? 0)%Z then Ok (finish mid cap st) else
      if (DOUBLE_INT_LIMIT <=? qty)%Z then Raise (OverflowError msg_int_too_large) else
      let used_h := of_Z qty * per_piece_h in
      let end_prod := start_prod + used_h in
      if negb (_interval_is_free intervals start_prod end_prod) then
        Ok (wait_or_finish day machine start_prod cap
              (_next_mold_free_time_for_window intervals start_prod per_piece_h cap) st)
      else Ok (commit_produce day machine cap chosen qty used_h start_prod end_prod st)
  end.

(** One iteration of [while True] for the machine picked (lines 286-618). *)
Definition slot_body (comp_order : list PC.t) (day : Z) (machine : Machine.t)
    (st : S.state) : result S.state :=
  let mid := Machine.id machine in
  let now := getitem 0 (S.t st) mid in
  let cap := getitem 0 (S.usable st) mid in
  let scanned := map (scan_component st day machine now cap) comp_order in
  match candidates_of scanned with
  | [] =>
      match wait_candidates_of scanned with
      | w :: ws =>
          let t_next := min_list w ws in
          if PrimFloat.ltb (now + EPS) t_next
          then Ok (emit_wait day machine now t_next cap st)
          else Ok (finish mid cap st)
      | [] => Ok (finish mid cap st)
      end
  | c0 :: _ =>
      let x := hd c0 (prefer st mid (candidates_of scanned)) in
      match phase_color day machine cap x st now with
      | Continue st => Ok st
      | Proceed st now =>
          match phase_mold day machine cap x st now with
          | Continue st => Ok st
          | Proceed st now =>
              match phase_prereq day machine cap x st now with
              | Continue st => Ok st
              | Proceed st now => phase_produce day machine cap x st now
              end
          end
      end
  end.

(** Lines 277-283: the active machines, earliest clock first. *)
Definition pick_machine (st : S.state) : option Machine.t :=
  let active :=
    filter (fun m => negb (getitem false (S.done st) (Machine.id m))
                     && PrimFloat.ltb (getitem 0 (S.t st) (Machine.id m))
                             (getitem 0 (S.usable st) (Machine.id m) - EPS))
           machines in
  match sorted_by (fun a b => PrimFloat.ltb (getitem 0 (S.t st) (Machine.id a))
                                   (getitem 0 (S.t st) (Machine.id b))) active with
  | [] => None
  | machine :: _ => Some machine
  end.

Fixpoint slot_loop (fuel : nat) (comp_order : list PC.t) (day : Z) (st : S.state)
  : result S.state :=
  match pick_machine st with
  | None => Ok st
  | Some machine =>
      match fuel with
      | O => OutOfFuel
      | S fuel' =>
          match slot_body comp_order day machine st with
          | Ok st' => slot_loop fuel' comp_order day st'
          | Raise e => Raise e
          | OutOfFuel => OutOfFuel
          end
      end
  end.

(** Lines 266-273: the per-day dictionaries. *)
Definition begin_day (st : S.state) : S.state :=
  let usable := dict_comp Machine.id
                  (fun m => of_Q (Machine.hours_per_day m) * of_Q (Machine.efficiency m))
                  machines in
  let mem m := getitem (S.mk_mem None None None) (S.machine_state st) (Machine.id m) in
  S.with_last_component (dict_comp Machine.id (fun m => S.last_component_id (mem m)) machines)
    (S.with_current_color (dict_comp Machine.id (fun m => S.color (mem m)) machines)
      (S.with_current_mold (dict_comp Machine.id (fun m => S.mold_id (mem m)) machines)
        (S.with_done (dict_comp Machine.id
                        (fun m => PrimFloat.leb (getitem 0 usable (Machine.id m)) EPS) machines)
          (S.with_seq (dict_comp Machine.id (fun _ => 1%Z) machines)
            (S.with_t (dict_comp Machine.id (fun _ => 0) machines)
              (S.with_usable usable st)))))).

(** Lines 621-624: persist the machine state. *)
Definition end_day (st : S.state) : S.state :=
  S.with_machine_state
    (fold_left
       (fun ms m =>
          let mid := Machine.id m in
          dset mid (S.mk_mem (getitem None (S.current_mold st) mid)
                             (getitem None (S.current_color st) mid)
                             (getitem None (S.last_component st) mid)) ms)
       machines (S.machine_state st)) st.

Fixpoint run_days (fuel : nat) (comp_order : list PC.t) (days : list Z) (st : S.state)
  : result S.state :=
  match days with
  | [] => Ok st
  | day :: days' =>
      match slot_loop fuel comp_order day (begin_day st) with
      | Ok st' => run_days fuel comp_order days' (end_day st')
      | Raise e => Raise e
      | OutOfFuel => OutOfFuel
      end
  end.

(** [range(1, month_days + 1)] *)
Definition day_range : list Z := map Z.of_nat (seq 1 (Z.to_nat month_days)).

Definition initial_state : S.state :=
  S.mk (dict_comp PC.id PC.quantity components)
       []
       (dict_comp (fun d => d) (fun _ => dict_comp Mold.id (fun _ => @nil interval) molds)
          day_range)
       (dict_comp Machine.id (fun _ => S.mk_mem None None None) machines)
       [] [] [] [] [] [] [] [] [].

Definition unmet_of (remaining : dict string Z) : dict string Z :=
  filter (fun kv => (0 <? snd kv)%Z) remaining.

(** [fuel] bounds the slot-loop iterations of each day. *)
Definition _decode_v2 (fuel : nat) : result (list task * dict string Z) :=
  match _topological_order components with
  | Ok topo =>
      match run_days fuel (comp_order_of topo) day_range initial_state with
      | Ok st => Ok (S.tasks st, unmet_of (S.remaining st))
      | Raise e => Raise e
      | OutOfFuel => OutOfFuel
      end
  | Raise e => Raise e
  | OutOfFuel => OutOfFuel
  end.
End Decode.
End Doubles.

(* ================================================================= *)
(** * Properties *)

(** ** Comparisons on [Q] *)

Lemma Qleb_iff (a b : Q) : Qleb a b = true <-> a <= b.
Proof. apply Qle_bool_iff. Qed.

Lemma Qltb_iff (a b : Q) : Qltb a b = true <-> a < b.
Proof.
  unfold Qltb. rewrite negb_true_iff. split; intro H.
  - apply Qnot_le_lt. intro Hle. apply Qle_bool_iff in Hle. congruence.
  - destruct (Qle_bool b a) eqn:E; auto.
    apply Qle_bool_iff in E. exfalso. apply (Qlt_not_le _ _ H E).
Qed.

Lemma Qleb_false (a b : Q) : Qleb a b = false <-> b < a.
Proof.
  rewrite <- Qltb_iff. unfold Qltb, Qleb.
  destruct (Qle_bool a b); simpl; split; congruence.
Qed.

Lemma Qltb_false (a b : Q) : Qltb a b = false <-> b <= a.
Proof.
  rewrite <- Qleb_iff. unfold Qltb, Qleb.
  destruct (Qle_bool b a); simpl; split; congruence.
Qed.

Lemma EPS_pos : 0 < EPS.
Proof. reflexivity. Qed.

(** Boolean tests in the context become order facts. *)
Ltac qprop :=
  repeat match goal with
  | H : Qleb _ _ = true |- _ => apply Qleb_iff in H
  | H : Qleb _ _ = false |- _ => apply Qleb_false in H
  | H : Qltb _ _ = true |- _ => apply Qltb_iff in H
  | H : Qltb _ _ = false |- _ => apply Qltb_false in H
  | H : negb _ = true |- _ => apply negb_true_iff in H
  | H : negb _ = false |- _ => apply negb_false_iff in H
  | H : _ && _ = true |- _ => apply andb_true_iff in H; destruct H
  | H : _ || _ = false |- _ => apply orb_false_iff in H; destruct H
  end.

Lemma pymax_ge_l a b : a <= pymax a b.
Proof. unfold pymax. destruct (Qltb a b) eqn:E; qprop; lra. Qed.

Lemma pymax_ge_r a b : b <= pymax a b.
Proof. unfold pymax. destruct (Qltb a b) eqn:E; qprop; lra. Qed.

Lemma pymin_le_l a b : pymin a b <= a.
Proof. unfold pymin. destruct (Qltb b a) eqn:E; qprop; lra. Qed.

Lemma pymin_le_r a b : pymin a b <= b.
Proof. unfold pymin. destruct (Qltb b a) eqn:E; qprop; lra. Qed.

Lemma max_list_ge_head l : forall x, x <= max_list x l.
Proof.
  unfold max_list. induction l as [|y l IH]; intros x; simpl.
  - lra.
  - pose proof (IH (pymax x y)). pose proof (pymax_ge_l x y). lra.
Qed.

Lemma max_list_ge l : forall x y, In y l -> y <= max_list x l.
Proof.
  unfold max_list. induction l as [|z l IH]; intros x y Hin; simpl; [easy|].
  destruct Hin as [->|Hin].
  - pose proof (max_list_ge_head l (pymax x y)). unfold max_list in *.
    pose proof (pymax_ge_r x y). lra.
  - apply IH, Hin.
Qed.

Lemma max_list_in l : forall x, max_list x l = x \/ In (max_list x l) l.
Proof.
  unfold max_list. induction l as [|z l IH]; intros x; simpl; [now left|].
  destruct (IH (pymax x z)) as [E|Hin].
  - rewrite E. unfold pymax. destruct (Qltb x z); auto.
  - right. now right.
Qed.

Lemma min_list_in l : forall x, min_list x l = x \/ In (min_list x l) l.
Proof.
  unfold min_list. induction l as [|z l IH]; intros x; simpl; [now left|].
  destruct (IH (pymin x z)) as [E|Hin].
  - rewrite E. unfold pymin. destruct (Qltb z x); auto.
  - right. now right.
Qed.

(** ** Dictionaries *)

Section DictFacts.
Context {K V : Type} `{EqKey K}.
Implicit Types (k : K) (v : V) (d : dict K V).

Lemma keqb_refl k : keqb k k = true.
Proof. now apply keqb_eq. Qed.

Lemma keqb_neq k k' : k <> k' -> keqb k k' = false.
Proof.
  intro Hne. destruct (keqb k k') eqn:E; auto.
  apply keqb_eq in E. contradiction.
Qed.

Lemma keqb_dec k k' : {k = k'} + {k <> k'}.
Proof.
  destruct (keqb k k') eqn:E.
  - left. now apply keqb_eq.
  - right. intro Heq. apply keqb_eq in Heq. congruence.
Qed.

Lemma dget_dset_same k v d : dget k (dset k v d) = Some v.
Proof.
  induction d as [|[k' v'] d IH]; simpl.
  - now rewrite keqb_refl.
  - destruct (keqb k k') eqn:E; simpl; rewrite E; auto.
Qed.

Lemma dget_dset_other k k' v d : k <> k' -> dget k (dset k' v d) = dget k d.
Proof.
  intro Hne. induction d as [|[k0 v0] d IH]; simpl.
  - now rewrite keqb_neq.
  - destruct (keqb k' k0) eqn:E; simpl.
    + apply keqb_eq in E. subst k0. now rewrite keqb_neq.
    + now rewrite IH.
Qed.

Lemma getitem_dset_same dflt k v d : getitem dflt (dset k v d) k = v.
Proof. unfold getitem. now rewrite dget_dset_same. Qed.

Lemma getitem_dset_other dflt k k' v d :
  k <> k' -> getitem dflt (dset k' v d) k = getitem dflt d k.
Proof. intro Hne. unfold getitem. now rewrite dget_dset_other. Qed.

Lemma dmem_dset k k' v d : dmem k (dset k' v d) = keqb k k' || dmem k d.
Proof.
  unfold dmem. destruct (keqb k k') eqn:E.
  - apply keqb_eq in E. subst. now rewrite dget_dset_same.
  - rewrite dget_dset_other; auto. intro Heq. apply keqb_eq in Heq. congruence.
Qed.

Lemma dget_In k v d : dget k d = Some v -> In (k, v) d.
Proof.
  induction d as [|[k' v'] d IH]; simpl; [discriminate|].
  destruct (keqb k k') eqn:E.
  - apply keqb_eq in E. intros [= ->]. left. now subst.
  - intro Hget. right. auto.
Qed.

Lemma dget_None_keys k d : dget k d = None <-> ~ In k (dkeys d).
Proof.
  induction d as [|[k' v'] d IH]; simpl; [tauto|].
  destruct (keqb k k') eqn:E.
  - apply keqb_eq in E. subst. split; [discriminate|]. intro Hn. exfalso. auto.
  - rewrite IH. split; intro Hn.
    + intros [Heq|Hin]; [|tauto]. subst. rewrite keqb_refl in E. discriminate.
    + tauto.
Qed.

Lemma dkeys_dset k v d :
  dkeys (dset k v d) = if dmem k d then dkeys d else dkeys d ++ [k].
Proof.
  unfold dmem. induction d as [|[k' v'] d IH]; simpl; auto.
  destruct (keqb k k') eqn:E; simpl; auto.
  rewrite IH. now destruct (dget k d).
Qed.
End DictFacts.

(** ** Reading a task list *)

(** The mold a task occupies: [mold_id] of a PRODUCE, [to_mold_id] of a
    CHANGE_MOLD. *)
Definition mold_of (tk : task) : option string :=
  match kind tk with
  | PRODUCE m _ _ _ _ => Some m
  | CHANGE_MOLD _ m => Some m
  | _ => None
  end.

Definition on_mold (d : Z) (k : string) (tk : task) : bool :=
  (day tk =? d)%Z && option_eqb (mold_of tk) (Some k).

Definition span (tk : task) : interval := (start_hour tk, end_hour tk).

Definition mold_spans (d : Z) (k : string) (tasks : list task) : list interval :=
  map span (filter (on_mold d k) tasks).

(** Touching end points are allowed. *)
Definition disjoint (a b : interval) : Prop :=
  snd a <= fst b \/ snd b <= fst a.

Definition produced_component (tk : task) : option string :=
  match kind tk with
  | PRODUCE _ cid _ _ _ => Some cid
  | _ => None
  end.

Definition produces (cid : string) (tk : task) : bool :=
  option_eqb (produced_component tk) (Some cid).

Definition qty_of (tk : task) : Z :=
  match kind tk with
  | PRODUCE _ _ _ _ q => q
  | _ => 0%Z
  end.

(** Sum of [produced_qty] over the PRODUCE tasks of component [cid]. *)
Definition produced (cid : string) (tasks : list task) : Z :=
  fold_right Z.add 0%Z (map qty_of (filter (produces cid) tasks)).

(** [tp] ends no later than [tc] starts, in day-then-hour order, up to [EPS]. *)
Definition precedes (tp tc : task) : Prop :=
  (day tp < day tc)%Z \/ (day tp = day tc /\ end_hour tp <= start_hour tc + EPS).

(** ** The primitive state changes of a slot iteration

    Every iteration of the slot loop is a sequence of the changes below,
    each taken only under the stated guard. *)

Section Ops.
Variable mold_change_time_hours : Q.
Variable color_change_time_hours : Q.
Variable comp_order : list PC.t.
Variable day : Z.
Variable machine : Machine.t.

Let mid := Machine.id machine.

Definition prereqs_done (chosen : PC.t) (st : S.state) (start : Q) : Prop :=
  forall p, In p (PC.prerequisites chosen) ->
    exists d h, dget p (S.completion_time st) = Some (d, h) /\
      ((d < day)%Z \/ (d = day /\ h <= start + EPS)).

Definition owner_ok (chosen : PC.t) (st : S.state) : Prop :=
  dget (PC.id chosen) (S.component_owner st) = None \/
  dget (PC.id chosen) (S.component_owner st) = Some mid.

Inductive op (st : S.state) : S.state -> Prop :=
| op_finish cap :
    op st (finish mid cap st)
| op_wait t_next cap :
    getitem 0 (S.t st) mid + EPS < t_next ->
    op st (emit_wait day machine (getitem 0 (S.t st) mid) t_next cap st)
| op_change_color from to cap :
    0 < color_change_time_hours ->
    op st (emit_advance day machine (CHANGE_COLOR from to)
             (pymax 0 color_change_time_hours) (getitem 0 (S.t st) mid)
             (getitem 0 (S.t st) mid + pymax 0 color_change_time_hours) cap st)
| op_set_color color :
    op st (set_color mid color st)
| op_set_mold mold :
    op st (set_mold mid mold st)
| op_reserve k s e :
    _interval_is_free (busy st day k) s e = true ->
    op st (reserve day k s e st)
| op_change_mold from k cap :
    0 < mold_change_time_hours ->
    _interval_is_free (busy st day k) (getitem 0 (S.t st) mid)
      (getitem 0 (S.t st) mid + pymax 0 mold_change_time_hours) = true ->
    op st (emit_advance day machine (CHANGE_MOLD from k)
             (pymax 0 mold_change_time_hours) (getitem 0 (S.t st) mid)
             (getitem 0 (S.t st) mid + pymax 0 mold_change_time_hours) cap
             (reserve day k (getitem 0 (S.t st) mid)
                (getitem 0 (S.t st) mid + pymax 0 mold_change_time_hours) st))
| op_produce chosen qty cap :
    In chosen comp_order ->
    getitem false (S.done st) mid = false ->
    (0 < qty <= getitem 0 (S.remaining st) (PC.id chosen))%Z ->
    0 < _piece_hours (PC.cycle_time_sec chosen) ->
    owner_ok chosen st ->
    prereqs_done chosen st (getitem 0 (S.t st) mid) ->
    _interval_is_free (busy st day (PC.mold_id chosen)) (getitem 0 (S.t st) mid)
      (getitem 0 (S.t st) mid + inject_Z qty * _piece_hours (PC.cycle_time_sec chosen)) = true ->
    op st (commit_produce day machine cap chosen qty
             (inject_Z qty * _piece_hours (PC.cycle_time_sec chosen))
             (getitem 0 (S.t st) mid)
             (getitem 0 (S.t st) mid + inject_Z qty * _piece_hours (PC.cycle_time_sec chosen))
             st).

(** Finitely many primitive changes in a row. *)
Inductive ops (st : S.state) : S.state -> Prop :=
| ops_refl : ops st st
| ops_step st1 st2 : ops st st1 -> op st1 st2 -> ops st st2.

Lemma ops_one st st' : op st st' -> ops st st'.
Proof. intro Hop. eapply ops_step; [apply ops_refl | exact Hop]. Qed.

Lemma ops_trans st1 st2 st3 : ops st1 st2 -> ops st2 st3 -> ops st1 st3.
Proof.
  intros H12 H23. induction H23; auto.
  eapply ops_step; eauto.
Qed.
End Ops.

(** ** Sorting and filtering keep the elements *)

Lemma insert_by_In {A} (lt : A -> A -> bool) (x y : A) (l : list A) :
  In y (insert_by lt x l) <-> y = x \/ In y l.
Proof.
  induction l as [|z l IH]; simpl.
  - intuition.
  - destruct (lt z x); simpl; rewrite ?IH; intuition.
Qed.

Lemma sorted_by_In {A} (lt : A -> A -> bool) (y : A) (l : list A) :
  In y (sorted_by lt l) <-> In y l.
Proof.
  induction l as [|x l IH]; simpl; [tauto|].
  rewrite insert_by_In, IH. intuition.
Qed.

Lemma insert_by_perm {A} (lt : A -> A -> bool) (x : A) (l : list A) :
  Permutation (x :: l) (insert_by lt x l).
Proof.
  induction l as [|z l IH]; simpl; auto.
  destruct (lt z x); auto.
  rewrite perm_swap. now constructor.
Qed.

Lemma sorted_by_perm {A} (lt : A -> A -> bool) (l : list A) :
  Permutation l (sorted_by lt l).
Proof.
  induction l as [|x l IH]; simpl; auto.
  rewrite <- insert_by_perm. now constructor.
Qed.

Lemma hd_In {A} (d : A) (l l' : list A) :
  In d l' -> (forall y, In y l -> In y l') -> In (hd d l) l'.
Proof. destruct l; simpl; auto. Qed.

(** ** What the scan guarantees about a candidate *)

Section SlotFacts.
Variable genome : list string.
Variable molds : list Mold.t.
Variable mold_change_time_hours : Q.
Variable color_change_time_hours : Q.
Variable comp_order : list PC.t.
Variable day : Z.
Variable machine : Machine.t.

Let mid := Machine.id machine.
Let scan := scan_component genome molds mold_change_time_hours color_change_time_hours.
Let op := op mold_change_time_hours color_change_time_hours comp_order day machine.
Let ops := ops mold_change_time_hours color_change_time_hours comp_order day machine.

Lemma scan_candidate st now cap c x :
  scan st day machine now cap c = Candidate x ->
  comp x = c /\
  (0 < getitem 0 (S.remaining st) (PC.id c))%Z /\
  owner_ok machine c st /\
  0 < _piece_hours (PC.cycle_time_sec c).
Proof.
  unfold scan, scan_component, owner_ok.
  destruct (getitem 0%Z (S.remaining st) (PC.id c) <=? 0)%Z eqn:Hrem; [discriminate|].
  destruct (dget (PC.id c) (S.component_owner st)) as [owner|] eqn:Hown.
  - destruct (negb (String.eqb owner (Machine.id machine))) eqn:Ho; [discriminate|].
    destruct (negb (_feasible_on_machine c machine (molds_by_id molds))); [discriminate|].
    destruct (Qleb (_piece_hours (PC.cycle_time_sec c)) 0) eqn:Hpp; [discriminate|].
    destruct (_next_ready_time_due_to_prereqs _ _ _ _); [|discriminate].
    destruct (Qltb _ _); [discriminate|].
    destruct (dget (PC.mold_id c) _); [|discriminate].
    destruct (negb (_interval_is_free _ _ _)).
    + destruct (_next_mold_free_time_for_window _ _ _ _); [|discriminate].
      destruct (_ && _); discriminate.
    + intros [= <-]. simpl. qprop. apply String.eqb_eq in Ho. subst owner.
      repeat split; auto. apply Z.leb_gt in Hrem. lia.
  - destruct (negb (_feasible_on_machine c machine (molds_by_id molds))); [discriminate|].
    destruct (Qleb (_piece_hours (PC.cycle_time_sec c)) 0) eqn:Hpp; [discriminate|].
    destruct (_next_ready_time_due_to_prereqs _ _ _ _); [|discriminate].
    destruct (Qltb _ _); [discriminate|].
    destruct (dget (PC.mold_id c) _); [|discriminate].
    destruct (negb (_interval_is_free _ _ _)).
    + destruct (_next_mold_free_time_for_window _ _ _ _); [|discriminate].
      destruct (_ && _); discriminate.
    + intros [= <-]. simpl. qprop.
      repeat split; auto. apply Z.leb_gt in Hrem. lia.
Qed.

Lemma candidates_of_In (rs : list scan_result) x :
  In x (candidates_of rs) <-> In (Candidate x) rs.
Proof.
  unfold candidates_of. rewrite in_flat_map. split.
  - intros [r [Hin Hx]]. destruct r; simpl in Hx; try contradiction.
    destruct Hx as [->|[]]. exact Hin.
  - intro Hin. exists (Candidate x). split; simpl; auto.
Qed.

Lemma wait_candidates_of_In (rs : list scan_result) n :
  In n (wait_candidates_of rs) <-> In (WaitCandidate n) rs.
Proof.
  unfold wait_candidates_of. rewrite in_flat_map. split.
  - intros [r [Hin Hx]]. destruct r; simpl in Hx; try contradiction.
    destruct Hx as [->|[]]. exact Hin.
  - intro Hin. exists (WaitCandidate n). split; simpl; auto.
Qed.

Lemma prefer_In st m cands x :
  In x (prefer st m cands) -> In x cands.
Proof.
  unfold prefer. rewrite sorted_by_In.
  set (c1 := match getitem None (S.last_component st) m with
             | Some _ => _ | None => _ end).
  assert (H1 : forall y, In y c1 -> In y cands).
  { intros y. subst c1. destruct (getitem None (S.last_component st) m); auto.
    destruct (existsb _ _); auto. rewrite filter_In. tauto. }
  destruct (getitem None (S.current_color st) m); auto.
  destruct (existsb _ c1); auto. rewrite filter_In. intros [Hin _]. auto.
Qed.

Lemma scan_wait_candidate st now cap c n :
  scan st day machine now cap c = WaitCandidate n -> now + EPS < n.
Proof.
  unfold scan, scan_component.
  destruct (_ <=? _)%Z; [discriminate|].
  destruct (match dget _ _ with Some _ => _ | None => _ end); [discriminate|].
  destruct (negb (_feasible_on_machine _ _ _)); [discriminate|].
  destruct (Qleb _ 0); [discriminate|].
  destruct (_next_ready_time_due_to_prereqs _ _ _ _); [|discriminate].
  destruct (Qltb _ _); [discriminate|].
  destruct (dget (PC.mold_id c) _); [|discriminate].
  destruct (negb (_interval_is_free _ _ _)); [|discriminate].
  destruct (_next_mold_free_time_for_window _ _ _ _) as [nxt|]; [|discriminate].
  destruct (Qltb (now + EPS) nxt && _) eqn:E; [|discriminate].
  intros [= <-]. qprop. assumption.
Qed.

Lemma ready_scan_spec ct after prs : forall needed needed',
  ready_scan prs ct day after needed = Some needed' ->
  incl needed needed' /\
  forall p, In p prs ->
    exists d h, dget p ct = Some (d, h) /\
      ((d < day)%Z \/ (d = day /\ (h <= after + EPS \/ In h needed'))).
Proof.
  induction prs as [|pr prs IH]; intros needed needed'; simpl.
  - intros [= <-]. split; [apply incl_refl | contradiction].
  - destruct (dget pr ct) as [[pd ph]|] eqn:Hget; [|discriminate].
    destruct (day <? pd)%Z eqn:Hlt; [discriminate|].
    apply Z.ltb_ge in Hlt.
    destruct ((pd =? day)%Z && Qltb (after + EPS) ph) eqn:Hneed; intro Hscan;
      destruct (IH _ _ Hscan) as [Hincl Hall].
    + split; [intros y Hy; apply Hincl, in_or_app; now left|].
      intros p [<-|Hin]; [|now apply Hall].
      exists pd, ph. split; auto. right.
      apply andb_true_iff in Hneed. destruct Hneed as [Hd _].
      apply Z.eqb_eq in Hd. split; auto. right.
      apply Hincl, in_or_app. right. now left.
    + split; auto.
      intros p [<-|Hin]; [|now apply Hall].
      exists pd, ph. split; auto.
      apply andb_false_iff in Hneed. destruct Hneed as [Hd|Hq].
      * left. apply Z.eqb_neq in Hd. lia.
      * qprop. destruct (Z.eq_dec pd day); [right|left; lia]. auto.
Qed.

Lemma next_ready_spec c ct after r :
  _next_ready_time_due_to_prereqs c ct day after = Some r ->
  forall p, In p (PC.prerequisites c) ->
    exists d h, dget p ct = Some (d, h) /\
      ((d < day)%Z \/ (d = day /\ (h <= after + EPS \/ h <= r))).
Proof.
  unfold _next_ready_time_due_to_prereqs.
  destruct (ready_scan _ _ _ _ _) as [needed|] eqn:Hscan; [|discriminate].
  destruct (ready_scan_spec _ _ _ _ _ Hscan) as [_ Hall].
  intros Hr p Hin. destruct (Hall p Hin) as (d & h & Hget & Hd).
  exists d, h. split; auto.
  destruct Hd as [Hd|[Hd [Hh|Hh]]]; auto.
  right. split; auto. right.
  destruct needed as [|x needed]; [contradiction|].
  injection Hr as <-. destruct Hh as [<-|Hh].
  - apply max_list_ge_head.
  - now apply max_list_ge.
Qed.

(** What the three phases before PRODUCE leave untouched. *)
Definition frame (st st' : S.state) : Prop :=
  S.remaining st' = S.remaining st /\
  S.completion_time st' = S.completion_time st /\
  S.component_owner st' = S.component_owner st /\
  S.done st' = S.done st.

Lemma frame_refl st : frame st st.
Proof. repeat split. Qed.

Lemma frame_trans st1 st2 st3 : frame st1 st2 -> frame st2 st3 -> frame st1 st3.
Proof.
  unfold frame. intros (A1 & A2 & A3 & A4) (B1 & B2 & B3 & B4).
  repeat split; congruence.
Qed.

Lemma t_emit_advance k used now end_ cap st :
  getitem 0 (S.t (emit_advance day machine k used now end_ cap st)) mid = end_.
Proof. unfold emit_advance, advance. cbn. apply getitem_dset_same. Qed.

Lemma wait_or_finish_ops cap nxt st :
  ops st (wait_or_finish day machine (getitem 0 (S.t st) mid) cap nxt st).
Proof.
  unfold wait_or_finish. destruct nxt as [nxt|]; [|apply ops_one, op_finish].
  destruct (_ && _) eqn:E; [|apply ops_one, op_finish].
  qprop. apply ops_one, op_wait. assumption.
Qed.

Lemma phase_color_spec cap x st now :
  now = getitem 0 (S.t st) mid ->
  match phase_color color_change_time_hours day machine cap x st now with
  | Continue st' => ops st st'
  | Proceed st' now' => ops st st' /\ frame st st' /\ now' = getitem 0 (S.t st') mid
  end.
Proof.
  intros ->. unfold phase_color. cbv zeta. fold mid.
  destruct (need_color_change x); [|repeat split; apply ops_refl].
  destruct (Qltb 0 (pymax 0 color_change_time_hours)) eqn:Hch.
  - destruct (Qltb (cap + EPS) _); [apply ops_one, op_finish|].
    split; [|split].
    + eapply ops_step; [apply ops_one, op_change_color | apply op_set_color].
      qprop. unfold pymax in Hch.
      destruct (Qltb 0 color_change_time_hours) eqn:E; qprop; lra.
    + repeat split.
    + unfold set_color. cbn [S.t S.with_current_color].
      symmetry. apply t_emit_advance.
  - repeat split. apply ops_one, op_set_color.
Qed.

Lemma phase_mold_spec cap x st now :
  now = getitem 0 (S.t st) mid ->
  match phase_mold mold_change_time_hours day machine cap x st now with
  | Continue st' => ops st st'
  | Proceed st' now' => ops st st' /\ frame st st' /\ now' = getitem 0 (S.t st') mid
  end.
Proof.
  intros ->. unfold phase_mold. cbv zeta. fold mid.
  destruct (need_mold_change x); [|repeat split; apply ops_refl].
  destruct (Qltb 0 (pymax 0 mold_change_time_hours)) eqn:Hmh.
  - destruct (Qltb (cap + EPS) _); [apply ops_one, op_finish|].
    destruct (negb _) eqn:Hfree; [apply wait_or_finish_ops|].
    qprop. split; [|split].
    + eapply ops_step; [apply ops_one, op_change_mold | apply op_set_mold]; auto.
      unfold pymax in Hmh.
      destruct (Qltb 0 mold_change_time_hours) eqn:E; qprop; lra.
    + repeat split.
    + unfold set_mold. cbn [S.t S.with_current_mold].
      symmetry. apply t_emit_advance.
  - repeat split. apply ops_one, op_set_mold.
Qed.

Lemma hold_mold_spec cap r st :
  match hold_mold day machine cap (getitem 0 (S.t st) mid) r st with
  | inr st' => ops st st'
  | inl st' => ops st st' /\ frame st st' /\ S.t st' = S.t st
  end.
Proof.
  unfold hold_mold. cbv zeta. fold mid.
  destruct (getitem None (S.current_mold st) mid) as [cm|];
    [|repeat split; apply ops_refl].
  destruct (dget cm _) as [intervals|] eqn:Hget; [|repeat split; apply ops_refl].
  destruct (negb _) eqn:Hfree; [apply wait_or_finish_ops|].
  qprop. repeat split. apply ops_one, op_reserve.
  unfold busy. unfold getitem at 1. now rewrite Hget.
Qed.

Lemma phase_prereq_spec cap x st now :
  now = getitem 0 (S.t st) mid ->
  match phase_prereq day machine cap x st now with
  | Continue st' => ops st st'
  | Proceed st' now' =>
      ops st st' /\ frame st st' /\ now' = getitem 0 (S.t st') mid /\
      prereqs_done day (comp x) st' now'
  end.
Proof.
  intros ->. unfold phase_prereq. cbv zeta. fold mid.
  destruct (_next_ready_time_due_to_prereqs _ _ _ _) as [r|] eqn:Hr;
    [|apply ops_one, op_finish].
  pose proof (next_ready_spec _ _ _ _ Hr) as Hpre.
  destruct (Qltb _ r) eqn:Hlate.
  - destruct (Qleb (cap - EPS) r); [apply ops_one, op_finish|].
    pose proof (hold_mold_spec cap r st) as Hhold.
    destruct (hold_mold _ _ _ _ _ _) as [st1|st1]; [|exact Hhold].
    destruct Hhold as (Hops & Hfr & Ht).
    split; [|split; [|split]].
    + eapply ops_step; [exact Hops|].
      unfold emit_wait. rewrite <- Ht. apply op_wait. rewrite Ht. qprop. assumption.
    + destruct Hfr as (F1 & F2 & F3 & F4). repeat split; assumption.
    + unfold emit_wait. symmetry. apply t_emit_advance.
    + intros p Hin. destruct (Hpre p Hin) as (d & h & Hget & Hd).
      exists d, h. split.
      * destruct Hfr as (_ & F2 & _). unfold emit_wait, emit_advance, advance, emit.
        cbn. rewrite F2. exact Hget.
      * qprop. pose proof EPS_pos. destruct Hd as [Hd|[Hd [Hh|Hh]]]; auto; right; split; auto; lra.
  - qprop. repeat split; try apply ops_refl.
    intros p Hin. destruct (Hpre p Hin) as (d & h & Hget & Hd).
    exists d, h. split; auto.
    destruct Hd as [Hd|[Hd [Hh|Hh]]]; auto; right; split; auto; lra.
Qed.

Lemma phase_produce_spec cap x st now :
  now = getitem 0 (S.t st) mid ->
  In (comp x) comp_order ->
  getitem false (S.done st) mid = false ->
  owner_ok machine (comp x) st ->
  prereqs_done day (comp x) st now ->
  ops st (phase_produce day machine cap x st now).
Proof.
  intros -> Hin Hdone Hown Hpre. unfold phase_produce. cbv zeta. fold mid.
  destruct (Qleb _ 0) eqn:Hpp; [apply ops_one, op_finish|].
  destruct (Qltb _ (_ - EPS)); [apply ops_one, op_finish|].
  destruct (_ <=? 0)%Z eqn:Hqty; [apply ops_one, op_finish|].
  destruct (negb _) eqn:Hfree; [apply wait_or_finish_ops|].
  qprop. apply Z.leb_gt in Hqty.
  apply ops_one, op_produce; auto. lia.
Qed.

(** One slot iteration is a sequence of primitive changes. *)
Lemma slot_body_ops st :
  getitem false (S.done st) mid = false ->
  ops st (slot_body genome molds mold_change_time_hours color_change_time_hours
            comp_order day machine st).
Proof.
  intro Hdone. unfold slot_body. cbv zeta. fold mid. fold scan.
  set (now := getitem 0 (S.t st) mid).
  set (cap := getitem 0 (S.usable st) mid).
  set (scanned := map (scan st day machine now cap) comp_order).
  destruct (candidates_of scanned) as [|c0 cands] eqn:Hcands.
  - destruct (wait_candidates_of scanned) as [|w ws]; [apply ops_one, op_finish|].
    destruct (Qltb _ _) eqn:E; [|apply ops_one, op_finish].
    qprop. apply ops_one, op_wait. exact E.
  - set (x := hd c0 (prefer st mid (c0 :: cands))).
    assert (Hx : In x (candidates_of scanned)).
    { rewrite Hcands. apply hd_In; [now left | apply prefer_In]. }
    apply candidates_of_In in Hx. apply in_map_iff in Hx.
    destruct Hx as (c & Hscan & Hc).
    apply scan_candidate in Hscan. destruct Hscan as (Hcx & _ & Hown & _).
    pose proof (phase_color_spec cap x st now eq_refl) as H1.
    destruct (phase_color _ _ _ _ _ _ _) as [st1|st1 now1]; [exact H1|].
    destruct H1 as (Hops1 & Hfr1 & Hnow1).
    pose proof (phase_mold_spec cap x st1 now1 Hnow1) as H2.
    destruct (phase_mold _ _ _ _ _ _ _) as [st2|st2 now2];
      [eapply ops_trans; eauto|].
    destruct H2 as (Hops2 & Hfr2 & Hnow2).
    pose proof (phase_prereq_spec cap x st2 now2 Hnow2) as H3.
    destruct (phase_prereq _ _ _ _ _ _) as [st3|st3 now3];
      [eapply ops_trans; [|exact H3]; eapply ops_trans; eauto|].
    destruct H3 as (Hops3 & Hfr3 & Hnow3 & Hpre).
    pose proof (frame_trans _ _ _ (frame_trans _ _ _ Hfr1 Hfr2) Hfr3) as (F1 & F2 & F3 & F4).
    eapply ops_trans; [eapply ops_trans; [eapply ops_trans|]; eauto|].
    apply phase_produce_spec; auto.
    + rewrite Hcx. exact Hc.
    + rewrite F4. exact Hdone.
    + unfold owner_ok in *. rewrite F3, Hcx. exact Hown.
Qed.
End SlotFacts.

(** ** Induction principle for decoder invariants *)

Section DecodeInduction.
Variable genome : list string.
Variable components : list PC.t.
Variable machines : list Machine.t.
Variable molds : list Mold.t.
Variable month_days : Z.
Variable mold_change_time_hours : Q.
Variable color_change_time_hours : Q.
Variable comp_order : list PC.t.

(** [P cur st]: the invariant, when [cur] is the day being simulated. *)
Variable P : Z -> S.state -> Prop.

Hypothesis P_begin : forall cur d st,
  (cur < d)%Z -> P cur st -> P d (begin_day machines st).
Hypothesis P_end : forall d st, P d st -> P d (end_day machines st).
Hypothesis P_op : forall d m st st',
  P d st -> op mold_change_time_hours color_change_time_hours comp_order d m st st' ->
  P d st'.

Lemma pick_machine_active st m :
  pick_machine machines st = Some m ->
  In m machines /\
  getitem false (S.done st) (Machine.id m) = false /\
  getitem 0 (S.t st) (Machine.id m) < getitem 0 (S.usable st) (Machine.id m) - EPS.
Proof.
  unfold pick_machine.
  destruct (sorted_by _ _) as [|m0 l] eqn:Hsort; [discriminate|].
  intros [= ->].
  assert (Hin : In m (m :: l)) by now left.
  rewrite <- Hsort in Hin. apply sorted_by_In in Hin. apply filter_In in Hin.
  destruct Hin as [Hin Hact]. qprop. auto.
Qed.

Lemma P_ops d m st st' :
  P d st -> ops mold_change_time_hours color_change_time_hours comp_order d m st st' ->
  P d st'.
Proof. intros HP Hops. induction Hops; eauto. Qed.

Lemma slot_loop_inv fuel d : forall st st',
  slot_loop genome machines molds mold_change_time_hours color_change_time_hours
    fuel comp_order d st = Ok st' ->
  P d st -> P d st'.
Proof.
  induction fuel as [|fuel IH]; intros st st'; simpl.
  - destruct (pick_machine machines st); [discriminate|]. now intros [= <-].
  - destruct (pick_machine machines st) as [m|] eqn:Hpick; [|now intros [= <-]].
    intros Hloop HP. apply (IH _ _ Hloop).
    apply pick_machine_active in Hpick. destruct Hpick as (_ & Hdone & _).
    eapply P_ops; [exact HP|]. apply slot_body_ops. exact Hdone.
Qed.

Lemma run_days_inv fuel n : forall a cur st st',
  run_days genome machines molds mold_change_time_hours color_change_time_hours
    fuel comp_order (map Z.of_nat (seq a n)) st = Ok st' ->
  (cur < Z.of_nat a)%Z -> P cur st -> exists cur', P cur' st'.
Proof.
  induction n as [|n IH]; intros a cur st st'; simpl.
  - intros [= <-] _ HP. now exists cur.
  - destruct (slot_loop _ _ _ _ _ _ _ _ _) as [st1| |] eqn:Hloop; try discriminate.
    intros Hrun Hcur HP.
    apply (IH (S a) (Z.of_nat a) _ _ Hrun); [lia|].
    apply P_end. apply (slot_loop_inv _ _ _ _ Hloop).
    now apply (P_begin cur).
Qed.
End DecodeInduction.

Lemma decode_inv genome components machines molds month_days mct cct fuel
    (P : Z -> S.state -> Prop) tasks unmet :
  (forall topo, _topological_order components = Ok topo ->
     P 0%Z (initial_state components machines molds month_days) /\
     (forall cur d st, (cur < d)%Z -> P cur st -> P d (begin_day machines st)) /\
     (forall d st, P d st -> P d (end_day machines st)) /\
     (forall d m st st', P d st ->
        op mct cct (comp_order_of genome topo) d m st st' -> P d st')) ->
  _decode_v2 genome components machines molds month_days mct cct fuel = Ok (tasks, unmet) ->
  exists cur st, P cur st /\ tasks = S.tasks st /\ unmet = unmet_of (S.remaining st).
Proof.
  intros HP. unfold _decode_v2.
  destruct (_topological_order components) as [topo| |] eqn:Htopo; try discriminate.
  destruct (run_days _ _ _ _ _ _ _ _ _) as [st| |] eqn:Hrun; try discriminate.
  intros [= <- <-].
  destruct (HP topo eq_refl) as (Hinit & Hbegin & Hend & Hop).
  unfold day_range in Hrun.
  destruct (run_days_inv genome machines molds mct cct _ P Hbegin Hend Hop
              _ _ _ 0%Z _ _ Hrun) as [cur' Hcur']; [lia | exact Hinit |].
  exists cur', st. auto.
Qed.

Lemma decode_ok_topo genome components machines molds month_days mct cct fuel r :
  _decode_v2 genome components machines molds month_days mct cct fuel = Ok r ->
  exists topo, _topological_order components = Ok topo.
Proof.
  unfold _decode_v2. destruct (_topological_order components); try discriminate.
  eauto.
Qed.

(** ** How each primitive change shows in the state *)

(** The record [emit] appends. *)
Definition task_of (day : Z) (machine : Machine.t) (k : task_type)
    (used start end_ cap : Q) (st : S.state) : task :=
  mk_task day (Machine.id machine) (Machine.name machine)
    (getitem 0%Z (S.seq st) (Machine.id machine)) k used start end_
    (utilization_of used cap).

Definition produce_kind (chosen : PC.t) (qty : Z) : task_type :=
  PRODUCE (PC.mold_id chosen) (PC.id chosen) (PC.name chosen) (PC.color chosen) qty.

(** Projections of a state built by the primitive changes. *)
Ltac sproj :=
  cbn [S.remaining S.completion_time S.mold_busy S.machine_state S.component_owner S.tasks S.usable S.t S.seq S.done S.current_mold S.current_color S.last_component
       S.with_remaining S.with_completion_time S.with_mold_busy S.with_machine_state S.with_component_owner S.with_tasks S.with_usable S.with_t S.with_seq S.with_done S.with_current_mold S.with_current_color S.with_last_component
       advance emit emit_advance emit_wait set_color set_mold reserve finish].

Section OpFacts.
Variable day : Z.
Variable machine : Machine.t.
Let mid := Machine.id machine.

Lemma tasks_emit_advance k used now end_ cap st :
  S.tasks (emit_advance day machine k used now end_ cap st)
  = S.tasks st ++ [task_of day machine k used now end_ cap st].
Proof. reflexivity. Qed.

Lemma seq_emit_advance k used now end_ cap st :
  S.seq (emit_advance day machine k used now end_ cap st)
  = dset mid (getitem 0%Z (S.seq st) mid + 1)%Z (S.seq st).
Proof. reflexivity. Qed.

Lemma tasks_commit_produce cap chosen qty used start end_ st :
  S.tasks (commit_produce day machine cap chosen qty used start end_ st)
  = S.tasks st ++ [task_of day machine (produce_kind chosen qty) used start end_ cap st].
Proof.
  unfold commit_produce. cbv zeta.
  destruct (_ <=? 0)%Z; destruct (dmem _ _); reflexivity.
Qed.

Lemma mold_busy_commit_produce cap chosen qty used start end_ st :
  S.mold_busy (commit_produce day machine cap chosen qty used start end_ st)
  = S.mold_busy (reserve day (PC.mold_id chosen) start end_ st).
Proof.
  unfold commit_produce. cbv zeta.
  destruct (_ <=? 0)%Z; destruct (dmem _ _); reflexivity.
Qed.

Lemma remaining_commit_produce cap chosen qty used start end_ st :
  S.remaining (commit_produce day machine cap chosen qty used start end_ st)
  = dset (PC.id chosen) (getitem 0%Z (S.remaining st) (PC.id chosen) - qty)%Z
      (S.remaining st).
Proof.
  unfold commit_produce. cbv zeta.
  destruct (_ <=? 0)%Z; destruct (dmem _ _); reflexivity.
Qed.

Lemma t_commit_produce cap chosen qty used start end_ st :
  S.t (commit_produce day machine cap chosen qty used start end_ st)
  = dset mid end_ (S.t st).
Proof.
  unfold commit_produce. cbv zeta.
  destruct (_ <=? 0)%Z; destruct (dmem _ _); reflexivity.
Qed.

Lemma seq_commit_produce cap chosen qty used start end_ st :
  S.seq (commit_produce day machine cap chosen qty used start end_ st)
  = dset mid (getitem 0%Z (S.seq st) mid + 1)%Z (S.seq st).
Proof.
  unfold commit_produce. cbv zeta.
  destruct (_ <=? 0)%Z; destruct (dmem _ _); reflexivity.
Qed.

Lemma done_commit_produce cap chosen qty used start end_ st :
  S.done (commit_produce day machine cap chosen qty used start end_ st) = S.done st.
Proof.
  unfold commit_produce. cbv zeta.
  destruct (_ <=? 0)%Z; destruct (dmem _ _); reflexivity.
Qed.

Lemma owner_commit_produce cap chosen qty used start end_ st :
  S.component_owner (commit_produce day machine cap chosen qty used start end_ st)
  = if dmem (PC.id chosen) (S.component_owner st) then S.component_owner st
    else dset (PC.id chosen) mid (S.component_owner st).
Proof.
  unfold commit_produce. cbv zeta.
  destruct (_ <=? 0)%Z; destruct (dmem _ _); reflexivity.
Qed.

Lemma completion_commit_produce cap chosen qty used start end_ st :
  S.completion_time (commit_produce day machine cap chosen qty used start end_ st)
  = if (getitem 0%Z (S.remaining st) (PC.id chosen) - qty <=? 0)%Z
    then dset (PC.id chosen) (day, end_) (S.completion_time st)
    else S.completion_time st.
Proof.
  unfold commit_produce. cbv zeta.
  destruct (dmem _ _); sproj; rewrite getitem_dset_same;
    destruct (_ <=? 0)%Z; reflexivity.
Qed.

Lemma busy_reserve d k s e st d' k' :
  busy (reserve d k s e st) d' k'
  = if (d' =? d)%Z && String.eqb k' k then busy st d k ++ [(s, e)] else busy st d' k'.
Proof.
  unfold busy, reserve, _reserve_interval. cbn [S.mold_busy S.with_mold_busy].
  destruct (Z.eqb_spec d' d) as [->|Hd]; simpl.
  - rewrite getitem_dset_same.
    destruct (String.eqb_spec k' k) as [->|Hk].
    + apply getitem_dset_same.
    + now rewrite getitem_dset_other.
  - now rewrite getitem_dset_other.
Qed.
End OpFacts.

(** ** Pairwise disjoint interval lists *)

Lemma overlaps_false_disjoint s e s' e' :
  _overlaps s e s' e' = false <-> disjoint (s, e) (s', e').
Proof.
  unfold _overlaps, disjoint. simpl. rewrite negb_false_iff, orb_true_iff.
  now rewrite !Qleb_iff.
Qed.

Lemma free_disjoint l s e :
  _interval_is_free l s e = true -> forall x, In x l -> disjoint x (s, e).
Proof.
  unfold _interval_is_free. rewrite forallb_forall. intros Hall [s' e'] Hin.
  specialize (Hall _ Hin). simpl in Hall. apply negb_true_iff in Hall.
  now apply overlaps_false_disjoint.
Qed.

Lemma FOP_snoc {A} (R : A -> A -> Prop) (l : list A) (x : A) :
  ForallOrdPairs R l -> (forall y, In y l -> R y x) -> ForallOrdPairs R (l ++ [x]).
Proof.
  induction 1 as [|a l Ha Hl IH]; intro Hx; simpl.
  - constructor; constructor.
  - constructor.
    + apply Forall_app. split.
      * exact Ha.
      * constructor; [|constructor]. apply Hx. now left.
    + apply IH. intros y Hy. apply Hx. now right.
Qed.

Lemma FOP_nth {A} (R : A -> A -> Prop) (l : list A) :
  ForallOrdPairs R l ->
  forall i j a b, (i < j)%nat -> nth_error l i = Some a -> nth_error l j = Some b -> R a b.
Proof.
  induction 1 as [|x l Hx Hl IH]; intros i j a b Hij Ha Hb.
  - destruct i; discriminate.
  - destruct j as [|j]; [lia|]. simpl in Hb. destruct i as [|i]; simpl in Ha.
    + injection Ha as <-. rewrite Forall_forall in Hx. apply Hx.
      eapply nth_error_In; eauto.
    + apply (IH i j); auto. lia.
Qed.

Lemma FOP_map_filter_nth {A B} (R : B -> B -> Prop) (f : A -> B) (p : A -> bool)
    (l : list A) :
  ForallOrdPairs R (map f (filter p l)) ->
  forall i j a b, (i < j)%nat -> nth_error l i = Some a -> nth_error l j = Some b ->
    p a = true -> p b = true -> R (f a) (f b).
Proof.
  induction l as [|x l IH]; intros HF i j a b Hij Ha Hb Hpa Hpb.
  - destruct i; discriminate.
  - destruct j as [|j]; [lia|]. simpl in Hb. simpl in HF.
    destruct i as [|i]; simpl in Ha.
    + injection Ha as ->. rewrite Hpa in HF. simpl in HF.
      inversion HF as [|? ? Hall _]; subst.
      rewrite Forall_forall in Hall. apply Hall.
      apply in_map. apply filter_In. split; auto.
      eapply nth_error_In; eauto.
    + apply (IH) with (i := i) (j := j); auto; [|lia].
      destruct (p x); simpl in HF; auto. now inversion HF.
Qed.

Lemma mold_spans_snoc d k tasks tk :
  mold_spans d k (tasks ++ [tk])
  = mold_spans d k tasks ++ (if on_mold d k tk then [span tk] else []).
Proof.
  unfold mold_spans. rewrite filter_app, map_app. simpl.
  now destruct (on_mold d k tk).
Qed.

(** ** Mold exclusivity (invariant of the decoder) *)

(** For every day and mold: the PRODUCE and CHANGE_MOLD spans are pairwise
    disjoint and recorded in [mold_busy], whose lists are pairwise disjoint. *)
Definition mold_inv (st : S.state) : Prop :=
  forall d k,
    ForallOrdPairs disjoint (mold_spans d k (S.tasks st)) /\
    incl (mold_spans d k (S.tasks st)) (busy st d k) /\
    ForallOrdPairs disjoint (busy st d k).

Lemma busy_ext st st' d k :
  S.mold_busy st' = S.mold_busy st -> busy st' d k = busy st d k.
Proof. unfold busy. now intros ->. Qed.

Lemma mold_inv_same st st' :
  S.tasks st' = S.tasks st -> S.mold_busy st' = S.mold_busy st ->
  mold_inv st -> mold_inv st'.
Proof.
  intros Ht Hb Hinv d k. rewrite Ht, (busy_ext _ _ _ _ Hb). apply Hinv.
Qed.

Lemma mold_inv_emit_other st st' tk :
  S.tasks st' = S.tasks st ++ [tk] -> S.mold_busy st' = S.mold_busy st ->
  mold_of tk = None ->
  mold_inv st -> mold_inv st'.
Proof.
  intros Ht Hb Hm Hinv d k. rewrite Ht, (busy_ext _ _ _ _ Hb), mold_spans_snoc.
  unfold on_mold. rewrite Hm. simpl. rewrite andb_false_r, app_nil_r. apply Hinv.
Qed.

Lemma mold_inv_reserve day k s e st :
  _interval_is_free (busy st day k) s e = true ->
  mold_inv st -> mold_inv (reserve day k s e st).
Proof.
  intros Hfree Hinv d k'. destruct (Hinv d k') as (H1 & H2 & H3).
  replace (S.tasks (reserve day k s e st)) with (S.tasks st) by reflexivity.
  rewrite busy_reserve. split; [exact H1|].
  destruct ((d =? day)%Z && String.eqb k' k) eqn:E; [|auto].
  apply andb_true_iff in E. destruct E as [Ed Ek].
  apply Z.eqb_eq in Ed. apply String.eqb_eq in Ek. subst d k'. split.
  - intros x Hx. apply in_or_app. left. now apply H2.
  - apply FOP_snoc; auto. now apply free_disjoint.
Qed.

Lemma mold_inv_reserve_emit dy k s e st st' tk :
  _interval_is_free (busy st dy k) s e = true ->
  S.mold_busy st' = S.mold_busy (reserve dy k s e st) ->
  S.tasks st' = S.tasks st ++ [tk] ->
  day tk = dy -> mold_of tk = Some k -> span tk = (s, e) ->
  mold_inv st -> mold_inv st'.
Proof.
  intros Hfree Hb Ht Hday Hm Hspan Hinv d k'.
  pose proof (mold_inv_reserve dy k s e st Hfree Hinv d k') as (_ & _ & H3).
  destruct (Hinv d k') as (H1 & H2 & _).
  rewrite Ht, (busy_ext _ _ _ _ Hb), mold_spans_snoc.
  rewrite busy_reserve in *.
  assert (Eon : on_mold d k' tk = (d =? dy)%Z && String.eqb k' k).
  { unfold on_mold. rewrite Hm, Hday. simpl.
    now rewrite (String.eqb_sym k k'), (Z.eqb_sym dy d). }
  rewrite Eon.
  destruct ((d =? dy)%Z && String.eqb k' k) eqn:E.
  - apply andb_true_iff in E. destruct E as [Ed Ek].
    apply Z.eqb_eq in Ed. apply String.eqb_eq in Ek. subst d k'.
    rewrite Hspan. split; [|split]; auto.
    + apply FOP_snoc; auto. intros y Hy.
      apply (free_disjoint _ _ _ Hfree). now apply H2.
    + apply incl_app.
      * intros x Hx. apply in_or_app. left. now apply H2.
      * intros x [<-|[]]. apply in_or_app. right. now left.
  - rewrite app_nil_r. auto.
Qed.

Lemma mold_inv_op mct cct comp_order dy machine st st' :
  op mct cct comp_order dy machine st st' -> mold_inv st -> mold_inv st'.
Proof.
  intros Hop Hinv. destruct Hop.
  - revert Hinv. now apply mold_inv_same.
  - revert Hinv. eapply mold_inv_emit_other;
      [apply tasks_emit_advance | reflexivity | reflexivity].
  - revert Hinv. eapply mold_inv_emit_other;
      [apply tasks_emit_advance | reflexivity | reflexivity].
  - revert Hinv. now apply mold_inv_same.
  - revert Hinv. now apply mold_inv_same.
  - now apply mold_inv_reserve.
  - eapply mold_inv_reserve_emit; try exact Hinv; try eassumption; reflexivity.
  - eapply mold_inv_reserve_emit; try exact Hinv; try eassumption.
    + apply mold_busy_commit_produce.
    + apply tasks_commit_produce.
    + reflexivity.
    + reflexivity.
    + reflexivity.
Qed.

Lemma getitem_dict_comp_const {A K V} `{EqKey K} (key : A -> K) (v : V) (l : list A) k :
  getitem v (dict_comp key (fun _ => v) l) k = v.
Proof.
  unfold dict_comp.
  assert (G : forall d, getitem v d k = v ->
            getitem v (fold_left (fun d x => dset (key x) v d) l d) k = v).
  { induction l as [|x l IH]; intros d Hd; simpl; auto.
    apply IH. destruct (keqb_dec k (key x)) as [->|Hne].
    - apply getitem_dset_same.
    - now rewrite getitem_dset_other. }
  apply G. reflexivity.
Qed.

Lemma getitem_dict_comp_const_or {A K V} `{EqKey K} (key : A -> K) (v dflt : V)
    (l : list A) k :
  getitem dflt (dict_comp key (fun _ => v) l) k = v \/
  getitem dflt (dict_comp key (fun _ => v) l) k = dflt.
Proof.
  unfold dict_comp.
  assert (G : forall d, (getitem dflt d k = v \/ getitem dflt d k = dflt) ->
            getitem dflt (fold_left (fun d x => dset (key x) v d) l d) k = v \/
            getitem dflt (fold_left (fun d x => dset (key x) v d) l d) k = dflt).
  { induction l as [|x l IH]; intros d Hd; simpl; auto.
    apply IH. destruct (keqb_dec k (key x)) as [->|Hne].
    - left. apply getitem_dset_same.
    - now rewrite getitem_dset_other. }
  apply G. now right.
Qed.

Lemma busy_initial components machines molds month_days d k :
  busy (initial_state components machines molds month_days) d k = [].
Proof.
  unfold busy, initial_state. cbn [S.mold_busy].
  match goal with
  | |- getitem _ ?X _ = _ => remember X as inner eqn:Hi
  end.
  assert (Hor : inner = dict_comp Mold.id (fun _ => @nil interval) molds \/ inner = []).
  { subst inner. apply getitem_dict_comp_const_or. }
  destruct Hor as [-> | ->].
  - apply getitem_dict_comp_const.
  - reflexivity.
Qed.

Lemma mold_inv_initial components machines molds month_days :
  mold_inv (initial_state components machines molds month_days).
Proof.
  intros d k. rewrite busy_initial. simpl. repeat split; try constructor.
  intros x [].
Qed.

(** ** Dictionary comprehensions *)

Lemma dget_fold_dset {A K V} `{EqKey K} (key : A -> K) (val : A -> V) (l : list A) k v :
  forall d,
    dget k (fold_left (fun d x => dset (key x) (val x) d) l d) = Some v ->
    (exists x, In x l /\ key x = k /\ val x = v) \/ dget k d = Some v.
Proof.
  induction l as [|x l IH]; intros d Hget; simpl in *; [now right|].
  destruct (IH _ Hget) as [(y & Hy & Hk & Hv)|Hd].
  - left. exists y. auto.
  - destruct (keqb_dec k (key x)) as [->|Hne].
    + rewrite dget_dset_same in Hd. injection Hd as <-. left. exists x. auto.
    + rewrite dget_dset_other in Hd; auto.
Qed.

Lemma dget_dict_comp {A K V} `{EqKey K} (key : A -> K) (val : A -> V) (l : list A) k v :
  dget k (dict_comp key val l) = Some v -> exists x, In x l /\ key x = k /\ val x = v.
Proof.
  intro Hget. apply dget_fold_dset in Hget. destruct Hget as [Hx|Hd]; auto.
  discriminate.
Qed.

Lemma dmem_fold_dset {A K V} `{EqKey K} (key : A -> K) (val : A -> V) (l : list A) k :
  forall d,
    dmem k (fold_left (fun d x => dset (key x) (val x) d) l d) = true <->
    In k (map key l) \/ dmem k d = true.
Proof.
  induction l as [|x l IH]; intros d; simpl; [tauto|].
  rewrite IH, dmem_dset, orb_true_iff, keqb_eq. intuition.
Qed.

Lemma dmem_dict_comp {A K V} `{EqKey K} (key : A -> K) (val : A -> V) (l : list A) k :
  dmem k (dict_comp key val l) = true <-> In k (map key l).
Proof.
  unfold dict_comp. rewrite dmem_fold_dset. unfold dmem. simpl. intuition discriminate.
Qed.

(** With distinct keys the comprehension maps every key to its own value. *)
Lemma dget_dict_comp_NoDup {A K V} `{EqKey K} (key : A -> K) (val : A -> V) (l : list A) x :
  NoDup (map key l) -> In x l -> dget (key x) (dict_comp key val l) = Some (val x).
Proof.
  intros Hnd Hin.
  destruct (dget (key x) (dict_comp key val l)) as [v|] eqn:Hget.
  - apply dget_dict_comp in Hget. destruct Hget as (y & Hy & Hk & <-).
    f_equal. f_equal.
    clear - Hnd Hin Hy Hk. induction l as [|z l IH]; [contradiction|].
    simpl in Hnd. inversion Hnd as [|? ? Hnot Hnd']; subst.
    destruct Hin as [->|Hin], Hy as [->|Hy]; auto.
    + exfalso. apply Hnot. rewrite <- Hk. now apply in_map.
    + exfalso. apply Hnot. rewrite Hk. now apply in_map.
  - exfalso.
    assert (Hm : dmem (key x) (dict_comp key val l) = true).
    { apply dmem_dict_comp. now apply in_map. }
    unfold dmem in Hm. rewrite Hget in Hm. discriminate.
Qed.

Lemma NoDup_dkeys_dset {K V} `{EqKey K} (k : K) (v : V) (d : dict K V) :
  NoDup (dkeys d) -> NoDup (dkeys (dset k v d)).
Proof.
  intro Hnd. rewrite dkeys_dset. destruct (dmem k d) eqn:Hm; auto.
  apply NoDup_app; auto.
  - constructor; [intros []|constructor].
  - intros x Hx [->|[]]. unfold dmem in Hm.
    destruct (dget x d) eqn:Hget; [discriminate|].
    now apply dget_None_keys in Hget.
Qed.

Lemma NoDup_dkeys_dict_comp {A K V} `{EqKey K} (key : A -> K) (val : A -> V) (l : list A) :
  NoDup (dkeys (dict_comp key val l)).
Proof.
  unfold dict_comp.
  assert (G : forall d : dict K V, NoDup (dkeys d) ->
            NoDup (dkeys (fold_left (fun d x => dset (key x) (val x) d) l d))).
  { induction l as [|x l IH]; intros d Hd; simpl; auto.
    apply IH. now apply NoDup_dkeys_dset. }
  apply G. constructor.
Qed.

(** ** Kahn's loop never emits an identifier twice *)

(** Every identifier already queued or emitted has in-degree at most 0. *)
Definition seen_ok (indeg : dict string Z) (seen : list string) : Prop :=
  NoDup seen /\ forall v, In v seen -> exists d, dget v indeg = Some d /\ (d <= 0)%Z.

Lemma seen_ok_perm indeg l l' : Permutation l l' -> seen_ok indeg l -> seen_ok indeg l'.
Proof.
  intros Hp [Hnd Hall]. split.
  - eapply Permutation_NoDup; eauto.
  - intros v Hv. apply Hall. eapply Permutation_in; [symmetry|]; eauto.
Qed.

Lemma relax_seen nxts : forall indeg queue rest indeg' queue',
  relax nxts indeg queue = Ok (indeg', queue') ->
  seen_ok indeg (queue ++ rest) -> seen_ok indeg' (queue' ++ rest).
Proof.
  induction nxts as [|nxt nxts IH]; intros indeg queue rest indeg' queue'; simpl.
  - now intros [= <- <-].
  - destruct (dget nxt indeg) as [d|] eqn:Hget; [|discriminate].
    intros Hrel [Hnd Hall]. apply (IH _ _ _ _ _ Hrel).
    assert (Hall' : forall v, In v (queue ++ rest) ->
              exists d0, dget v (dset nxt (d - 1)%Z indeg) = Some d0 /\ (d0 <= 0)%Z).
    { intros v Hv. destruct (string_dec v nxt) as [->|Hne].
      - rewrite dget_dset_same. destruct (Hall _ Hv) as (d0 & Hd0 & Hle).
        exists (d - 1)%Z. split; auto. rewrite Hget in Hd0. injection Hd0 as ->. lia.
      - rewrite dget_dset_other; auto. }
    destruct (d - 1 =? 0)%Z eqn:Hz; [|split; auto].
    apply Z.eqb_eq in Hz.
    apply seen_ok_perm with (l := nxt :: queue ++ rest).
    { rewrite <- app_assoc. apply Permutation_middle. }
    split.
    + constructor; auto. intro Hin. destruct (Hall _ Hin) as (d0 & Hd0 & Hle).
      rewrite Hget in Hd0. injection Hd0 as ->. lia.
    + intros v [<-|Hv]; auto.
      rewrite dget_dset_same. exists (d - 1)%Z. split; auto. lia.
Qed.

Lemma kahn_loop_seen by_id graph :
  (forall cid c, dget cid by_id = Some c -> PC.id c = cid /\ In cid (dkeys by_id)) ->
  forall fuel indeg queue out res,
  kahn_loop fuel by_id graph indeg queue out = Ok res ->
  seen_ok indeg (queue ++ map PC.id out) ->
  incl (map PC.id out) (dkeys by_id) ->
  NoDup (map PC.id res) /\ incl (map PC.id res) (dkeys by_id) /\
  (forall c, In c res -> In c out \/ exists cid, dget cid by_id = Some c).
Proof.
  intros Hby. induction fuel as [|fuel IH]; intros indeg queue out res.
  - destruct queue; simpl; [|discriminate].
    intros [= <-] [Hnd _] Hincl. simpl in Hnd. auto.
  - destruct queue as [|cid queue]; simpl.
    + intros [= <-] [Hnd _] Hincl. simpl in Hnd. auto.
    + destruct (dget cid by_id) as [c|] eqn:Hc; [|discriminate].
      destruct (dget cid graph) as [succs|]; [|discriminate].
      destruct (relax succs indeg queue) as [[indeg' queue']| |] eqn:Hrel; try discriminate.
      intros Hloop Hseen Hincl.
      destruct (Hby _ _ Hc) as [Hid Hkey].
      destruct (IH _ _ _ _ Hloop) as (H1 & H2 & H3).
      * apply (relax_seen _ _ _ _ _ _ Hrel).
        rewrite map_app. simpl. rewrite Hid.
        eapply seen_ok_perm; [|exact Hseen].
        simpl. rewrite app_assoc. apply Permutation_cons_append.
      * rewrite map_app. apply incl_app; auto. simpl. rewrite Hid.
        intros v [<-|[]]. exact Hkey.
      * split; [|split]; auto.
        intros c' Hc'. destruct (H3 _ Hc') as [Hin|Hex]; auto.
        apply in_app_or in Hin. destruct Hin as [Hin|[<-|[]]]; auto.
        right. now exists cid.
Qed.

Lemma link_prereqs_indeg by_id cid prs : forall graph indeg graph' indeg',
  link_prereqs by_id cid prs graph indeg = Ok (graph', indeg') ->
  dkeys indeg' = dkeys indeg.
Proof.
  induction prs as [|pr prs IH]; intros graph indeg graph' indeg'; simpl.
  - now intros [= <- <-].
  - destruct (negb (dmem pr by_id)); [discriminate|].
    destruct (dget pr graph); [|discriminate].
    destruct (dget cid indeg) as [d|] eqn:Hd; [|discriminate].
    intro Hl. rewrite (IH _ _ _ _ Hl), dkeys_dset.
    unfold dmem. now rewrite Hd.
Qed.

Lemma link_components_indeg by_id cs : forall graph indeg graph' indeg',
  link_components by_id cs graph indeg = Ok (graph', indeg') ->
  dkeys indeg' = dkeys indeg.
Proof.
  induction cs as [|c cs IH]; intros graph indeg graph' indeg'; simpl.
  - now intros [= <- <-].
  - destruct (link_prereqs _ _ _ _ _) as [[g i]| |] eqn:Hl; try discriminate.
    intro Hc. rewrite (IH _ _ _ _ Hc). eapply link_prereqs_indeg; eauto.
Qed.

Lemma NoDup_map_fst_filter {K V} (p : K * V -> bool) (d : list (K * V)) :
  NoDup (map fst d) -> NoDup (map fst (filter p d)).
Proof.
  induction d as [|[k v] d IH]; simpl; auto.
  intro Hnd. inversion Hnd as [|? ? Hnot Hnd']; subst.
  destruct (p (k, v)); simpl; auto.
  constructor; auto. intro Hin. apply Hnot.
  apply in_map_iff in Hin. destruct Hin as (x & Hx & Hin).
  apply filter_In in Hin. rewrite <- Hx. apply in_map. tauto.
Qed.

(** When the topological sort succeeds, the component identifiers are
    pairwise distinct and the order lists components of the input. *)
Lemma topological_order_ok components topo :
  _topological_order components = Ok topo ->
  NoDup (map PC.id components) /\
  List.length topo = List.length components /\
  NoDup (map PC.id topo) /\
  forall c, In c topo -> In c components.
Proof.
  unfold _topological_order.
  set (by_id := dict_comp PC.id (fun c => c) components).
  destruct (link_components _ _ _ _) as [[graph indeg]| |] eqn:Hlink; try discriminate.
  destruct (kahn_loop _ _ _ _ _ _) as [out| |] eqn:Hloop; try discriminate.
  destruct (negb _) eqn:Hlen; [discriminate|]. intros [= <-].
  apply negb_false_iff, Nat.eqb_eq in Hlen.
  assert (Hby : forall cid c, dget cid by_id = Some c ->
                  PC.id c = cid /\ In cid (dkeys by_id)).
  { intros cid c Hget. split.
    - apply dget_dict_comp in Hget. destruct Hget as (x & _ & Hk & <-). exact Hk.
    - apply dget_In in Hget. unfold dkeys. now apply (in_map fst) in Hget. }
  assert (Hkeys : incl (dkeys by_id) (map PC.id components)).
  { intros k Hk. apply dmem_dict_comp with (val := fun c : PC.t => c).
    fold by_id. unfold dmem. destruct (dget k by_id) eqn:E; auto.
    apply dget_None_keys in E. contradiction. }
  destruct (kahn_loop_seen _ _ Hby _ _ _ _ _ Hloop) as (Hnd & Hincl & Hin).
  - rewrite app_nil_r. split.
    + apply NoDup_map_fst_filter. change (NoDup (dkeys indeg)).
      rewrite (link_components_indeg _ _ _ _ _ _ Hlink).
      apply NoDup_dkeys_dict_comp.
    + intros v Hv. apply in_map_iff in Hv. destruct Hv as ([k d] & <- & Hkd).
      apply filter_In in Hkd. destruct Hkd as [Hkd Hz]. simpl in *.
      apply Z.eqb_eq in Hz. subst d. exists 0%Z. split; [|lia].
      assert (Hnd : NoDup (dkeys indeg)).
      { rewrite (link_components_indeg _ _ _ _ _ _ Hlink). apply NoDup_dkeys_dict_comp. }
      clear - Hkd Hnd. induction indeg as [|[k' v'] indeg IH]; [contradiction|].
      simpl in *. inversion Hnd as [|? ? Hnot Hnd']; subst.
      destruct Hkd as [[= -> ->]|Hkd].
      * now rewrite String.eqb_refl.
      * destruct (String.eqb_spec k k') as [->|Hne]; auto.
        exfalso. apply Hnot. now apply (in_map fst) in Hkd.
  - intros v [].
  - split; [|split; [|split]]; auto.
    + eapply NoDup_incl_NoDup with (l := map PC.id out); auto.
      * rewrite !length_map. lia.
      * eapply incl_tran; eauto.
    + intros c Hc. destruct (Hin _ Hc) as [[]|[cid Hget]].
      apply dget_dict_comp in Hget. destruct Hget as (x & Hx & _ & <-). exact Hx.
Qed.

(** ** Conservation of quantities (invariant of the decoder) *)

Lemma produced_snoc cid tasks tk :
  produced cid (tasks ++ [tk])
  = (produced cid tasks + (if produces cid tk then qty_of tk else 0))%Z.
Proof.
  unfold produced. rewrite filter_app, map_app, fold_right_app. simpl.
  destruct (produces cid tk); simpl.
  - generalize (map qty_of (filter (produces cid) tasks)) as l.
    induction l as [|x l IH]; simpl; lia.
  - lia.
Qed.

(** [q0 cid] is the quantity [remaining] started from. *)
Definition quantity_inv (q0 : string -> Z) (st : S.state) : Prop :=
  NoDup (dkeys (S.remaining st)) /\
  forall cid,
    (produced cid (S.tasks st) + getitem 0 (S.remaining st) cid = q0 cid)%Z /\
    (0 <= produced cid (S.tasks st))%Z /\
    ((0 <= getitem 0 (S.remaining st) cid)%Z \/ produced cid (S.tasks st) = 0%Z).

Lemma quantity_inv_same q0 st st' :
  S.tasks st' = S.tasks st -> S.remaining st' = S.remaining st ->
  quantity_inv q0 st -> quantity_inv q0 st'.
Proof. unfold quantity_inv. now intros -> ->. Qed.

Lemma quantity_inv_emit_other q0 st st' tk :
  S.tasks st' = S.tasks st ++ [tk] -> S.remaining st' = S.remaining st ->
  produced_component tk = None ->
  quantity_inv q0 st -> quantity_inv q0 st'.
Proof.
  unfold quantity_inv. intros -> -> Hk [Hnd Hinv]. split; auto.
  intro cid. rewrite produced_snoc. unfold produces. rewrite Hk. simpl.
  rewrite Z.add_0_r. apply Hinv.
Qed.

Lemma quantity_inv_op q0 mct cct comp_order dy machine st st' :
  op mct cct comp_order dy machine st st' -> quantity_inv q0 st -> quantity_inv q0 st'.
Proof.
  intros Hop Hinv. destruct Hop.
  - revert Hinv. now apply quantity_inv_same.
  - revert Hinv. eapply quantity_inv_emit_other;
      [apply tasks_emit_advance | reflexivity | reflexivity].
  - revert Hinv. eapply quantity_inv_emit_other;
      [apply tasks_emit_advance | reflexivity | reflexivity].
  - revert Hinv. now apply quantity_inv_same.
  - revert Hinv. now apply quantity_inv_same.
  - revert Hinv. now apply quantity_inv_same.
  - revert Hinv. eapply quantity_inv_emit_other; reflexivity.
  - destruct Hinv as [Hnd Hinv]. unfold quantity_inv.
    rewrite tasks_commit_produce, remaining_commit_produce.
    split; [now apply NoDup_dkeys_dset|].
    intro cid. rewrite produced_snoc.
    destruct (Hinv cid) as (Hc1 & Hc2 & Hc3).
    unfold produces, task_of, produce_kind. simpl.
    destruct (String.eqb_spec (PC.id chosen) cid) as [<-|Hne].
    + rewrite getitem_dset_same. unfold qty_of. simpl. lia.
    + rewrite getitem_dset_other by congruence. lia.
Qed.

Lemma dget_filter_pos (d : dict string Z) cid :
  NoDup (dkeys d) ->
  dget cid (filter (fun kv => (0 <? snd kv)%Z) d)
  = match dget cid d with
    | Some v => if (0 <? v)%Z then Some v else None
    | None => None
    end.
Proof.
  induction d as [|[k v] d IH]; [reflexivity|].
  intro Hnd. inversion Hnd as [|? ? Hnot Hnd']; subst.
  cbn [filter dget snd].
  destruct (keqb_dec cid k) as [->|Hne].
  - rewrite keqb_refl. destruct (0 <? v)%Z; cbn [dget].
    + now rewrite keqb_refl.
    + rewrite IH by assumption.
      apply dget_None_keys in Hnot. now rewrite Hnot.
  - rewrite (keqb_neq _ _ Hne). destruct (0 <? v)%Z; cbn [dget]; auto.
    rewrite (keqb_neq _ _ Hne). auto.
Qed.

(** ** No zero-length task (invariant of the decoder) *)

(** What every emitted task satisfies, by kind. *)
Definition task_ok (mct cct : Q) (tk : task) : Prop :=
  0 < used_hours tk /\ start_hour tk <= end_hour tk /\
  match kind tk with
  | PRODUCE _ _ _ _ q => (1 <= q)%Z
  | CHANGE_MOLD _ _ => 0 < mct /\ used_hours tk == mct
  | CHANGE_COLOR _ _ => 0 < cct /\ used_hours tk == cct
  | WAIT => start_hour tk + EPS < end_hour tk
  end.

Definition tasks_ok (mct cct : Q) (st : S.state) : Prop :=
  Forall (task_ok mct cct) (S.tasks st).

Lemma tasks_ok_snoc mct cct st st' tk :
  S.tasks st' = S.tasks st ++ [tk] -> task_ok mct cct tk ->
  tasks_ok mct cct st -> tasks_ok mct cct st'.
Proof.
  unfold tasks_ok. intros -> Hk Hall. apply Forall_app. split; auto.
Qed.

Lemma pymax_0_pos x : 0 < x -> pymax 0 x = x.
Proof. intro Hx. unfold pymax. apply Qltb_iff in Hx. now rewrite Hx. Qed.

Lemma inject_Z_pos z : (0 < z)%Z -> 0 < inject_Z z.
Proof. intro Hz. unfold Qlt, inject_Z. simpl. lia. Qed.

Lemma tasks_ok_op mct cct comp_order dy machine st st' :
  op mct cct comp_order dy machine st st' -> tasks_ok mct cct st -> tasks_ok mct cct st'.
Proof.
  intros Hop Hinv. destruct Hop as [cap|t_next cap Hw|from to cap Hc|color|mold|k s e Hf
                                    |from k cap Hm Hf|chosen qty cap Hin Hdone Hq Hpp Hown Hpre Hf].
  - exact Hinv.
  - revert Hinv. eapply tasks_ok_snoc; [reflexivity|].
    unfold task_ok, task_of. simpl. pose proof EPS_pos. repeat split; lra.
  - revert Hinv. eapply tasks_ok_snoc; [reflexivity|].
    unfold task_ok, task_of. simpl. rewrite (pymax_0_pos _ Hc). repeat split; lra.
  - exact Hinv.
  - exact Hinv.
  - exact Hinv.
  - revert Hinv. eapply tasks_ok_snoc; [reflexivity|].
    unfold task_ok, task_of. simpl. rewrite (pymax_0_pos _ Hm). repeat split; lra.
  - revert Hinv. eapply tasks_ok_snoc; [apply tasks_commit_produce|].
    unfold task_ok, task_of, produce_kind. simpl.
    assert (Hu : 0 < inject_Z qty * _piece_hours (PC.cycle_time_sec chosen)).
    { apply Qmult_lt_0_compat; auto. apply inject_Z_pos. lia. }
    repeat split; try lra. lia.
Qed.

(** ** Output order (invariant of the decoder) *)

(** Days ascend along the list, and on one machine-day the sequence numbers
    ascend; [cur] is the day being simulated. *)
Definition order_inv (cur : Z) (st : S.state) : Prop :=
  (forall tk, In tk (S.tasks st) -> (day tk <= cur)%Z) /\
  ForallOrdPairs (fun a b => (day a <= day b)%Z) (S.tasks st) /\
  (forall tk, In tk (S.tasks st) -> day tk = cur ->
     (sequence_in_day tk < getitem 0 (S.seq st) (machine_id tk))%Z) /\
  ForallOrdPairs
    (fun a b => day a = day b -> machine_id a = machine_id b ->
                (sequence_in_day a < sequence_in_day b)%Z) (S.tasks st).

Lemma order_inv_same cur st st' :
  S.tasks st' = S.tasks st -> S.seq st' = S.seq st ->
  order_inv cur st -> order_inv cur st'.
Proof. unfold order_inv. now intros -> ->. Qed.

(** A task emitted by [machine] on the current day, with the sequence counter
    moved on. *)
Lemma order_inv_emit cur machine st st' k used start end_ cap :
  S.tasks st' = S.tasks st ++ [task_of cur machine k used start end_ cap st] ->
  S.seq st' = dset (Machine.id machine) (getitem 0 (S.seq st) (Machine.id machine) + 1)%Z
                (S.seq st) ->
  order_inv cur st -> order_inv cur st'.
Proof.
  unfold order_inv. intros -> -> (Ha & Hb & Hc & Hd).
  split; [|split; [|split]].
  - intros tk Hin. apply in_app_or in Hin. destruct Hin as [Hin|[<-|[]]]; auto.
    simpl. lia.
  - apply FOP_snoc; [assumption|]. intros y Hy. simpl. auto.
  - intros tk Hin Hday. apply in_app_or in Hin. destruct Hin as [Hin|[<-|[]]].
    + destruct (string_dec (machine_id tk) (Machine.id machine)) as [E|E].
      * rewrite E, getitem_dset_same. specialize (Hc _ Hin Hday). rewrite E in Hc. lia.
      * rewrite getitem_dset_other by assumption. auto.
    + simpl. rewrite getitem_dset_same. lia.
  - apply FOP_snoc; [assumption|]. intros y Hy. simpl. intros Hday Hm.
    specialize (Hc _ Hy Hday). rewrite Hm in Hc. lia.
Qed.

Lemma order_inv_op mct cct comp_order dy machine st st' :
  op mct cct comp_order dy machine st st' -> order_inv dy st -> order_inv dy st'.
Proof.
  intros Hop Hinv. destruct Hop.
  - revert Hinv. now apply order_inv_same.
  - revert Hinv. eapply order_inv_emit; reflexivity.
  - revert Hinv. eapply order_inv_emit; reflexivity.
  - revert Hinv. now apply order_inv_same.
  - revert Hinv. now apply order_inv_same.
  - revert Hinv. now apply order_inv_same.
  - eapply order_inv_emit; [reflexivity | reflexivity |].
    revert Hinv. now apply order_inv_same.
  - revert Hinv. eapply order_inv_emit;
      [apply tasks_commit_produce | apply seq_commit_produce].
Qed.

Lemma order_inv_begin machines cur d st :
  (cur < d)%Z -> order_inv cur st -> order_inv d (begin_day machines st).
Proof.
  intros Hlt (Ha & Hb & Hc & Hd).
  split; [|split; [|split]]; auto.
  - intros tk Hin. specialize (Ha tk Hin). lia.
  - intros tk Hin Hday. specialize (Ha tk Hin). change (In tk (S.tasks st)) in Hin. lia.
Qed.

(** ** Prerequisite order (invariant of the decoder) *)

Section PrereqOrder.
Variable components : list PC.t.
Hypothesis ids_NoDup : NoDup (map PC.id components).

(** [cur] is the day being simulated. *)
Record prereq_inv (cur : Z) (st : S.state) : Prop := {
  (** a completed component has nothing left, and all its PRODUCE tasks end
      by its completion time *)
  pi_done : forall p d h, dget p (S.completion_time st) = Some (d, h) ->
    (getitem 0 (S.remaining st) p <= 0)%Z /\
    forall tp, In tp (S.tasks st) -> produces p tp = true ->
      (day tp < d)%Z \/ (day tp = d /\ end_hour tp <= h);
  (** the property itself *)
  pi_order : forall c p tc tp, In c components -> In p (PC.prerequisites c) ->
    In tc (S.tasks st) -> In tp (S.tasks st) ->
    produces (PC.id c) tc = true -> produces p tp = true -> precedes tp tc;
  (** a started component has all its prerequisites completed *)
  pi_started : forall c p tc, In c components -> In p (PC.prerequisites c) ->
    In tc (S.tasks st) -> produces (PC.id c) tc = true ->
    dmem p (S.completion_time st) = true;
  (** today's tasks of a machine still running end by its clock *)
  pi_clock : forall tk, In tk (S.tasks st) -> day tk = cur ->
    getitem false (S.done st) (machine_id tk) = false ->
    end_hour tk <= getitem 0 (S.t st) (machine_id tk);
  (** a component is produced by its owner only *)
  pi_owner : forall cid tk, In tk (S.tasks st) -> produces cid tk = true ->
    dget cid (S.component_owner st) = Some (machine_id tk);
  pi_days : forall tk, In tk (S.tasks st) -> (day tk <= cur)%Z
}.

Lemma prereq_inv_ext cur st st' :
  S.tasks st' = S.tasks st -> S.remaining st' = S.remaining st ->
  S.completion_time st' = S.completion_time st ->
  S.component_owner st' = S.component_owner st ->
  S.done st' = S.done st -> S.t st' = S.t st ->
  prereq_inv cur st -> prereq_inv cur st'.
Proof.
  intros E1 E2 E3 E4 E5 E6 [Ha Hb Hc Hd He Hf].
  constructor; rewrite ?E1, ?E2, ?E3, ?E4, ?E5, ?E6; assumption.
Qed.

Lemma prereq_inv_finish cur mid cap st :
  prereq_inv cur st -> prereq_inv cur (finish mid cap st).
Proof.
  intros [Ha Hb Hc Hd He Hf]. constructor; try assumption.
  intros tk Hin Hday. unfold finish. sproj. intro Hdone.
  destruct (string_dec (machine_id tk) mid) as [E|E].
  - rewrite E, getitem_dset_same in Hdone. discriminate.
  - rewrite getitem_dset_other in Hdone by assumption.
    rewrite getitem_dset_other by assumption. auto.
Qed.

(** A task that is not a PRODUCE, emitted at the clock of its machine. *)
Lemma prereq_inv_emit cur machine k used end_ cap st :
  produced_component (task_of cur machine k used (getitem 0 (S.t st) (Machine.id machine))
                        end_ cap st) = None ->
  getitem 0 (S.t st) (Machine.id machine) <= end_ ->
  prereq_inv cur st ->
  prereq_inv cur (emit_advance cur machine k used
                    (getitem 0 (S.t st) (Machine.id machine)) end_ cap st).
Proof.
  intros Hk Hle [Ha Hb Hc Hd He Hf].
  set (tk0 := task_of cur machine k used (getitem 0 (S.t st) (Machine.id machine)) end_ cap st) in *.
  assert (Hnp : forall cid, produces cid tk0 = false).
  { intro cid. unfold produces. now rewrite Hk. }
  assert (Hold : forall cid tk, In tk (S.tasks st ++ [tk0]) -> produces cid tk = true ->
                   In tk (S.tasks st)).
  { intros cid tk Hin Hp. apply in_app_or in Hin. destruct Hin as [Hin|[<-|[]]]; auto.
    rewrite Hnp in Hp. discriminate. }
  constructor; rewrite ?tasks_emit_advance; fold tk0.
  - intros p d h Hget. destruct (Ha p d h Hget) as [H1 H2]. split; auto.
    intros tp Hin Hp. apply H2; eauto.
  - intros c p tc tp Hc' Hp' Htc Htp Hpc Hpp. eapply Hb; eauto.
  - intros c p tc Hc' Hp' Htc Hpc. eapply Hc; eauto.
  - intros tk Hin Hday. unfold emit_advance, advance, emit. sproj. intro Hdone.
    apply in_app_or in Hin. destruct Hin as [Hin|[<-|[]]].
    + destruct (string_dec (machine_id tk) (Machine.id machine)) as [E|E].
      * rewrite E, getitem_dset_same. specialize (Hd _ Hin Hday Hdone).
        rewrite E in Hd. lra.
      * rewrite getitem_dset_other by assumption. auto.
    + simpl. rewrite getitem_dset_same. lra.
  - intros cid tk Hin Hp. apply He; eauto.
  - intros tk Hin. apply in_app_or in Hin. destruct Hin as [Hin|[<-|[]]]; auto.
    simpl. lia.
Qed.

Lemma id_inj c c' :
  In c components -> In c' components -> PC.id c = PC.id c' -> c = c'.
Proof.
  intros Hc Hc' Hid. clear - ids_NoDup Hc Hc' Hid.
  induction components as [|x l IH]; [contradiction|].
  simpl in ids_NoDup. inversion ids_NoDup as [|? ? Hnot Hnd]; subst.
  destruct Hc as [->|Hc], Hc' as [->|Hc']; auto.
  - exfalso. apply Hnot. rewrite Hid. now apply in_map.
  - exfalso. apply Hnot. rewrite <- Hid. now apply in_map.
Qed.

Lemma prereq_inv_produce cur machine cap chosen qty st :
  In chosen components ->
  getitem false (S.done st) (Machine.id machine) = false ->
  (0 < qty <= getitem 0 (S.remaining st) (PC.id chosen))%Z ->
  0 < _piece_hours (PC.cycle_time_sec chosen) ->
  owner_ok machine chosen st ->
  prereqs_done cur chosen st (getitem 0 (S.t st) (Machine.id machine)) ->
  prereq_inv cur st ->
  prereq_inv cur
    (commit_produce cur machine cap chosen qty
       (inject_Z qty * _piece_hours (PC.cycle_time_sec chosen))
       (getitem 0 (S.t st) (Machine.id machine))
       (getitem 0 (S.t st) (Machine.id machine)
        + inject_Z qty * _piece_hours (PC.cycle_time_sec chosen)) st).
Proof.
  intros Hin Hdone Hq Hpp Hown Hpre [Ha Hb Hc Hd He Hf].
  unfold owner_ok in Hown.
  set (mid := Machine.id machine) in *.
  set (start := getitem 0 (S.t st) mid) in *.
  set (used := inject_Z qty * _piece_hours (PC.cycle_time_sec chosen)).
  set (tk0 := task_of cur machine (produce_kind chosen qty) used start (start + used) cap st).
  assert (Hused : 0 < used).
  { apply Qmult_lt_0_compat; auto. apply inject_Z_pos. lia. }
  assert (Hp0 : forall cid, produces cid tk0 = true <-> cid = PC.id chosen).
  { intro cid. unfold produces, tk0, task_of, produce_kind. simpl.
    rewrite String.eqb_eq. split; congruence. }
  assert (Hnone : dget (PC.id chosen) (S.completion_time st) = None).
  { destruct (dget (PC.id chosen) (S.completion_time st)) as [[d h]|] eqn:E; auto.
    destruct (Ha _ _ _ E) as [Hle _]. lia. }
  assert (Hself : ~ In (PC.id chosen) (PC.prerequisites chosen)).
  { intro Hs. destruct (Hpre _ Hs) as (d & h & Hget & _). congruence. }
  assert (Hnodep : forall c tc, In c components -> In (PC.id chosen) (PC.prerequisites c) ->
                     In tc (S.tasks st) -> produces (PC.id c) tc = true -> False).
  { intros c tc Hc' Hp' Htc Hpc. specialize (Hc _ _ _ Hc' Hp' Htc Hpc).
    unfold dmem in Hc. rewrite Hnone in Hc. discriminate. }
  assert (Hmine : forall tp, In tp (S.tasks st) -> produces (PC.id chosen) tp = true ->
                    (day tp < cur)%Z \/ (day tp = cur /\ end_hour tp <= start)).
  { intros tp Htp Hp. pose proof (He _ _ Htp Hp) as Ho. pose proof (Hf _ Htp) as Hday.
    destruct (Z.eq_dec (day tp) cur) as [E|E]; [right|left; lia].
    split; auto.
    assert (Hm : machine_id tp = mid).
    { destruct Hown as [Hn|Hs]; congruence. }
    specialize (Hd _ Htp E). rewrite Hm in Hd. auto. }
  constructor; rewrite ?tasks_commit_produce, ?remaining_commit_produce,
    ?completion_commit_produce, ?owner_commit_produce, ?done_commit_produce,
    ?t_commit_produce; fold mid start used tk0.
  - intros p d h Hget.
    destruct (string_dec p (PC.id chosen)) as [->|Hne].
    + destruct (_ <=? 0)%Z eqn:Hz; [|congruence].
      rewrite dget_dset_same in Hget. injection Hget as <- <-.
      rewrite getitem_dset_same. apply Z.leb_le in Hz. split; auto.
      intros tp Htp Hp. apply in_app_or in Htp. destruct Htp as [Htp|[<-|[]]].
      * destruct (Hmine _ Htp Hp) as [Hl|[He1 He2]]; auto. right. split; auto. lra.
      * right. simpl. split; auto. lra.
    + assert (Hget' : dget p (S.completion_time st) = Some (d, h)).
      { destruct (_ <=? 0)%Z; auto. now rewrite dget_dset_other in Hget. }
      destruct (Ha _ _ _ Hget') as [H1 H2].
      rewrite getitem_dset_other by assumption. split; auto.
      intros tp Htp Hp. apply in_app_or in Htp. destruct Htp as [Htp|[<-|[]]]; auto.
      apply Hp0 in Hp. contradiction.
  - intros c p tc tp Hc' Hp' Htc Htp Hpc Hpt.
    apply in_app_or in Htc. apply in_app_or in Htp.
    destruct Htc as [Htc|[<-|[]]], Htp as [Htp|[<-|[]]].
    + eapply Hb; eauto.
    + apply Hp0 in Hpt. subst p. exfalso. eapply Hnodep; eauto.
    + apply Hp0 in Hpc. apply (id_inj _ _ Hc' Hin) in Hpc. subst c.
      destruct (Hpre _ Hp') as (d & h & Hget & Hdh).
      destruct (Ha _ _ _ Hget) as [_ H2]. specialize (H2 _ Htp Hpt).
      unfold precedes. simpl. fold start.
      destruct Hdh as [Hd1|[Hd1 Hd2]], H2 as [H2|[H2 H3]]; try (left; lia).
      right. split; [lia|lra].
    + apply Hp0 in Hpc. apply (id_inj _ _ Hc' Hin) in Hpc. subst c.
      apply Hp0 in Hpt. subst p. contradiction.
  - intros c p tc Hc' Hp' Htc Hpc.
    assert (Hm : dmem p (S.completion_time st) = true).
    { apply in_app_or in Htc. destruct Htc as [Htc|[<-|[]]]; [eapply Hc; eauto|].
      apply Hp0 in Hpc. apply (id_inj _ _ Hc' Hin) in Hpc. subst c.
      destruct (Hpre _ Hp') as (d & h & Hget & _). unfold dmem. now rewrite Hget. }
    destruct (_ <=? 0)%Z; auto. rewrite dmem_dset, Hm. apply orb_true_r.
  - intros tk Hin' Hday Hdone'.
    apply in_app_or in Hin'. destruct Hin' as [Hin'|[<-|[]]].
    + destruct (string_dec (machine_id tk) mid) as [E|E].
      * rewrite E, getitem_dset_same. specialize (Hd _ Hin' Hday Hdone').
        rewrite E in Hd. fold start in Hd. lra.
      * rewrite getitem_dset_other by assumption. auto.
    + simpl. fold mid. rewrite getitem_dset_same. lra.
  - intros cid tk Hin' Hp. apply in_app_or in Hin'.
    destruct Hin' as [Hin'|[<-|[]]].
    + specialize (He _ _ Hin' Hp). destruct (dmem (PC.id chosen) _) eqn:Hm; auto.
      destruct (string_dec cid (PC.id chosen)) as [->|Hne].
      * unfold dmem in Hm. rewrite He in Hm. discriminate.
      * now rewrite dget_dset_other.
    + apply Hp0 in Hp. subst cid. simpl. fold mid.
      destruct (dmem (PC.id chosen) _) eqn:Hm.
      * unfold dmem in Hm. destruct Hown as [Hn|Hs]; auto.
        rewrite Hn in Hm. discriminate.
      * apply dget_dset_same.
  - intros tk Hin'. apply in_app_or in Hin'. destruct Hin' as [Hin'|[<-|[]]]; auto.
    simpl. lia.
Qed.
End PrereqOrder.

Lemma prereq_inv_op components mct cct comp_order dy machine st st' :
  NoDup (map PC.id components) ->
  (forall c, In c comp_order -> In c components) ->
  op mct cct comp_order dy machine st st' ->
  prereq_inv components dy st -> prereq_inv components dy st'.
Proof.
  intros Hnd Hsub Hop Hinv.
  destruct Hop as [cap|t_next cap Hw|from to cap Hc|color|mold|k s e Hf
                  |from k cap Hm Hf|chosen qty cap Hin Hdone Hq Hpp Hown Hpre Hf].
  - now apply prereq_inv_finish.
  - unfold emit_wait. apply prereq_inv_emit; auto.
    pose proof EPS_pos. lra.
  - apply prereq_inv_emit; auto. rewrite (pymax_0_pos _ Hc). lra.
  - revert Hinv. now apply prereq_inv_ext.
  - revert Hinv. now apply prereq_inv_ext.
  - revert Hinv. now apply prereq_inv_ext.
  - apply (prereq_inv_emit components dy machine (CHANGE_MOLD from k) _ _ cap
             (reserve dy k (getitem 0 (S.t st) (Machine.id machine))
                (getitem 0 (S.t st) (Machine.id machine) + pymax 0 mct) st)).
    + reflexivity.
    + sproj. rewrite (pymax_0_pos _ Hm). lra.
    + revert Hinv. now apply prereq_inv_ext.
  - apply prereq_inv_produce; auto.
Qed.

Lemma prereq_inv_initial components machines molds month_days :
  prereq_inv components 0 (initial_state components machines molds month_days).
Proof.
  constructor; simpl; try contradiction; try discriminate.
Qed.

Lemma prereq_inv_begin components machines cur d st :
  (cur < d)%Z -> prereq_inv components cur st ->
  prereq_inv components d (begin_day machines st).
Proof.
  intros Hlt [Ha Hb Hc Hd He Hf]. constructor; try assumption.
  - intros tk Hin Hday. specialize (Hf tk Hin). lia.
  - intros tk Hin. specialize (Hf tk Hin). lia.
Qed.

Lemma comp_order_of_In genome topo c :
  In c (comp_order_of genome topo) <-> In c topo.
Proof. apply sorted_by_In. Qed.

(** Every PRODUCE of a component comes after every PRODUCE of each of its
    prerequisites. *)
Lemma decode_produce_pairs genome components machines molds month_days mct cct fuel
    tasks unmet :
  _decode_v2 genome components machines molds month_days mct cct fuel = Ok (tasks, unmet) ->
  forall c p tc tp, In c components -> In p (PC.prerequisites c) ->
    In tc tasks -> In tp tasks ->
    produces (PC.id c) tc = true -> produces p tp = true -> precedes tp tc.
Proof.
  intros Hdec.
  destruct (decode_ok_topo _ _ _ _ _ _ _ _ _ Hdec) as [topo Htopo].
  pose proof (topological_order_ok _ _ Htopo) as (Hnd & _ & _ & Hsub).
  apply decode_inv with (P := fun cur st => prereq_inv components cur st) in Hdec.
  2:{ intros topo' Htopo'. rewrite Htopo in Htopo'. injection Htopo' as <-.
      split; [apply prereq_inv_initial|]. split; [|split].
      - intros cur d st. apply prereq_inv_begin.
      - intros d st. now apply prereq_inv_ext.
      - intros d m st st' Hinv Hop.
        apply (prereq_inv_op components mct cct (comp_order_of genome topo) d m st st' Hnd);
          auto.
        intros c Hc. apply Hsub. now apply comp_order_of_In in Hc. }
  destruct Hdec as (cur & st & Hinv & -> & _).
  intros c p tc tp. apply (pi_order _ _ _ Hinv).
Qed.

(** ** Example inputs *)

Definition ex_M1 : Machine.t := Machine.mk "M1" "Press 1" "small" 100 10 1.
Definition ex_M2 : Machine.t := Machine.mk "M2" "Press 2" "small" 100 10 1.
Definition ex_D1 : Mold.t := Mold.mk "D1" "Mold 1" "small" 50.
Definition ex_D2 : Mold.t := Mold.mk "D2" "Mold 2" "small" 50.

(** Three one-piece components; [A] and [C] share the mold [D1]. *)
Definition ex_A : PC.t := PC.mk "A" "a" 1 3600 "D1" "red" 1 0 [] "pending".
Definition ex_B : PC.t := PC.mk "B" "b" 1 3600 "D2" "red" 1 0 [] "pending".
Definition ex_C : PC.t := PC.mk "C" "c" 1 3600 "D1" "red" 1 0 [] "pending".

Definition ex_decode_ABC : result (list task * dict string Z) :=
  _decode_v2 ["A"; "B"; "C"] [ex_A; ex_B; ex_C] [ex_M1; ex_M2] [ex_D1; ex_D2]
    1 0 0 20.

(** ** C1: mold exclusivity *)

(** C1. Mold exclusivity: in the task list returned by [_decode_v2], any two
    PRODUCE or CHANGE_MOLD tasks of the same day and the same mold (the
    [mold_id] of a PRODUCE, the [to_mold_id] of a CHANGE_MOLD), on whatever
    machines, have disjoint [start_hour, end_hour) intervals; touching end
    points are allowed. *)
Theorem decode_mold_exclusivity genome components machines molds month_days
    mold_change_time_hours color_change_time_hours fuel tasks unmet :
  _decode_v2 genome components machines molds month_days
    mold_change_time_hours color_change_time_hours fuel = Ok (tasks, unmet) ->
  forall i j a b k,
    (i < j)%nat -> nth_error tasks i = Some a -> nth_error tasks j = Some b ->
    day a = day b -> mold_of a = Some k -> mold_of b = Some k ->
    disjoint (span a) (span b).
Proof.
  intros Hdec i j a b k Hij Ha Hb Hday Hma Hmb.
  apply decode_inv with (P := fun _ st => mold_inv st) in Hdec.
  2:{ intros topo _. split; [apply mold_inv_initial|]. split; [|split].
      - intros cur d st _. now apply mold_inv_same.
      - intros d st. now apply mold_inv_same.
      - intros d m st st' Hinv Hop. eapply mold_inv_op; eauto. }
  destruct Hdec as (cur & st & Hinv & -> & _).
  destruct (Hinv (day a) k) as (Hfop & _).
  apply (FOP_map_filter_nth disjoint span (on_mold (day a) k) (S.tasks st) Hfop i j a b);
    auto; unfold on_mold.
  - rewrite Hma, Z.eqb_refl. simpl. apply String.eqb_refl.
  - rewrite Hmb, <- Hday, Z.eqb_refl. simpl. apply String.eqb_refl.
Qed.

Lemma decode_mold_exclusivity_witness :
  exists tasks unmet a b,
    ex_decode_ABC = Ok (tasks, unmet) /\
    nth_error tasks 0 = Some a /\ nth_error tasks 2 = Some b /\
    mold_of a = Some "D1" /\ mold_of b = Some "D1" /\
    disjoint (span a) (span b).
Proof.
  pose proof (decode_mold_exclusivity ["A"; "B"; "C"] [ex_A; ex_B; ex_C]
                [ex_M1; ex_M2] [ex_D1; ex_D2] 1 0 0 20) as H.
  unfold ex_decode_ABC.
  eexists _, _, _, _.
  split; [vm_compute; reflexivity|].
  split; [reflexivity|]. split; [reflexivity|].
  split; [reflexivity|]. split; [reflexivity|].
  eapply H with (i := 0%nat) (j := 2%nat) (k := "D1");
    [vm_compute; reflexivity | lia | reflexivity ..].
Defined.

(** ** C2: conservation *)

(** A component asked for in a negative quantity. *)
Definition ex_negative : PC.t := PC.mk "N" "n" (-5) 3600 "D1" "red" 1 0 [] "pending".

(** C2, counterexample: for a component whose quantity is -5 nothing is
    produced and the unmet map has no entry, so produced + unmet = 0, not
    the initial quantity. *)
Lemma conservation_counterexample :
  exists tasks unmet,
    _decode_v2 ["N"] [ex_negative] [ex_M1] [ex_D1] 1 0 0 20 = Ok (tasks, unmet) /\
    (produced "N" tasks + getitem 0 unmet "N")%Z <> PC.quantity ex_negative.
Proof.
  eexists _, _. split; [vm_compute; reflexivity|].
  vm_compute. discriminate.
Qed.

(** C2 (amended). Conservation: for every component [c] of a decoded input,
    the [produced_qty] summed over the PRODUCE tasks of [c] plus [unmet[c]]
    (0 when absent) is [max(0, quantity(c))]; the unmet map holds exactly the
    components whose leftover [quantity - produced] is positive, mapped to
    that leftover. *)
Theorem decode_conservation genome components machines molds month_days
    mold_change_time_hours color_change_time_hours fuel tasks unmet :
  _decode_v2 genome components machines molds month_days
    mold_change_time_hours color_change_time_hours fuel = Ok (tasks, unmet) ->
  (forall c, In c components ->
     (produced (PC.id c) tasks + getitem 0 unmet (PC.id c) = Z.max 0 (PC.quantity c))%Z /\
     dget (PC.id c) unmet
     = if (0 <? PC.quantity c - produced (PC.id c) tasks)%Z
       then Some (PC.quantity c - produced (PC.id c) tasks)%Z else None) /\
  (forall cid q, dget cid unmet = Some q -> In cid (map PC.id components)).
Proof.
  intros Hdec.
  destruct (decode_ok_topo _ _ _ _ _ _ _ _ _ Hdec) as [topo Htopo].
  apply topological_order_ok in Htopo. destruct Htopo as (Hnd & _).
  set (q0 := fun cid => getitem 0%Z (dict_comp PC.id PC.quantity components) cid).
  apply decode_inv with (P := fun _ st => quantity_inv q0 st) in Hdec.
  2:{ intros topo' _. split; [|split; [|split]].
      - split; [apply NoDup_dkeys_dict_comp|].
        intro cid. unfold produced. simpl. unfold q0. lia.
      - intros cur d st _. now apply quantity_inv_same.
      - intros d st. now apply quantity_inv_same.
      - intros d m st st' Hinv Hop. eapply quantity_inv_op; eauto. }
  destruct Hdec as (cur & st & [Hkeys Hinv] & -> & ->).
  assert (Hunmet : forall cid, dget cid (unmet_of (S.remaining st))
                   = if (0 <? getitem 0 (S.remaining st) cid)%Z
                     then Some (getitem 0%Z (S.remaining st) cid) else None).
  { intro cid. unfold unmet_of. rewrite dget_filter_pos by assumption.
    unfold getitem. destruct (dget cid (S.remaining st)); reflexivity. }
  split.
  - intros c Hc. destruct (Hinv (PC.id c)) as (H1 & H2 & H3).
    assert (Hq : q0 (PC.id c) = PC.quantity c).
    { unfold q0, getitem.
      now rewrite (dget_dict_comp_NoDup PC.id PC.quantity components c Hnd Hc). }
    rewrite Hq in H1.
    replace (PC.quantity c - produced (PC.id c) (S.tasks st))%Z
      with (getitem 0%Z (S.remaining st) (PC.id c)) by lia.
    split; [|apply Hunmet].
    unfold getitem at 1. rewrite Hunmet.
    destruct (0 <? getitem 0 (S.remaining st) (PC.id c))%Z eqn:E.
    + apply Z.ltb_lt in E. lia.
    + apply Z.ltb_ge in E. lia.
  - intros cid q Hget. rewrite Hunmet in Hget.
    destruct (0 <? getitem 0 (S.remaining st) cid)%Z eqn:E; [|discriminate].
    apply Z.ltb_lt in E. destruct (Hinv cid) as (H1 & H2 & _).
    apply dmem_dict_comp with (val := PC.quantity).
    unfold dmem. unfold q0 in H1.
    unfold getitem in H1 at 2.
    destruct (dget cid (dict_comp PC.id PC.quantity components)); auto. lia.
Qed.

Lemma decode_conservation_witness :
  exists tasks unmet,
    ex_decode_ABC = Ok (tasks, unmet) /\
    (produced "A" tasks + getitem 0 unmet "A" = Z.max 0 1)%Z.
Proof.
  pose proof (decode_conservation ["A"; "B"; "C"] [ex_A; ex_B; ex_C]
                [ex_M1; ex_M2] [ex_D1; ex_D2] 1 0 0 20) as H.
  unfold ex_decode_ABC.
  eexists _, _. split; [vm_compute; reflexivity|].
  refine (proj1 (proj1 (H _ _ _) ex_A _)).
  - vm_compute. reflexivity.
  - simpl. auto.
Defined.

(** ** C3: prerequisite order *)

(** Day-then-hour lexicographic order. *)
Definition lex_le (d1 : Z) (h1 : Q) (d2 : Z) (h2 : Q) : Prop :=
  (d1 < d2)%Z \/ (d1 = d2 /\ h1 <= h2).

(** The PRODUCE task of [cid] that starts first. *)
Definition first_produce (cid : string) (tasks : list task) (tk : task) : Prop :=
  In tk tasks /\ produces cid tk = true /\
  forall tk', In tk' tasks -> produces cid tk' = true ->
    lex_le (day tk) (start_hour tk) (day tk') (start_hour tk').

(** The PRODUCE task of [cid] that ends last. *)
Definition last_produce (cid : string) (tasks : list task) (tk : task) : Prop :=
  In tk tasks /\ produces cid tk = true /\
  forall tk', In tk' tasks -> produces cid tk' = true ->
    lex_le (day tk') (end_hour tk') (day tk) (end_hour tk).

(** One press of 4 hours a day; [C2] has the prerequisite [C1]. *)
Definition ex_M4 : Machine.t := Machine.mk "M1" "Press 1" "small" 100 4 1.
Definition ex_C1 : PC.t := PC.mk "C1" "c1" 1 3600 "D1" "red" 2 0 [] "pending".
Definition ex_C2 : PC.t := PC.mk "C2" "c2" 1 3600 "D1" "red" 3 0 ["C1"] "pending".

(** C3. Prerequisite order: for a component [c] with prerequisite [p], if the
    decoded task list has a PRODUCE task for [c], the first of them (in
    day-then-start-hour order) starts no earlier than the last PRODUCE task
    of [p] ends: on a later day, or on the same day at an hour not below the
    end hour of [p], up to [EPS]. *)
Theorem decode_prerequisite_order genome components machines molds month_days
    mold_change_time_hours color_change_time_hours fuel tasks unmet :
  _decode_v2 genome components machines molds month_days
    mold_change_time_hours color_change_time_hours fuel = Ok (tasks, unmet) ->
  forall c p tc tp, In c components -> In p (PC.prerequisites c) ->
    first_produce (PC.id c) tasks tc -> last_produce p tasks tp ->
    precedes tp tc.
Proof.
  intros Hdec c p tc tp Hc Hp (Htc & Hpc & _) (Htp & Hpp & _).
  eapply decode_produce_pairs; eauto.
Qed.

Lemma decode_prerequisite_order_witness :
  exists tasks unmet tc tp,
    _decode_v2 ["C2"; "C1"] [ex_C1; ex_C2] [ex_M4] [ex_D1] 2 0 0 20 = Ok (tasks, unmet) /\
    nth_error tasks 1 = Some tc /\ nth_error tasks 0 = Some tp /\
    first_produce "C2" tasks tc /\ last_produce "C1" tasks tp /\ precedes tp tc.
Proof.
  pose proof (decode_prerequisite_order ["C2"; "C1"] [ex_C1; ex_C2] [ex_M4] [ex_D1]
                2 0 0 20) as H.
  eexists _, _, _, _. split; [vm_compute; reflexivity|].
  split; [reflexivity|]. split; [reflexivity|].
  match goal with
  | |- ?F /\ ?L /\ _ => assert (H1 : F); [|assert (H2 : L)]
  end.
  - split; [simpl; auto|]. split; [reflexivity|].
    intros tk' [<-|[<-|[]]] Hp; [discriminate|].
    right. split; [reflexivity|]. apply Qle_refl.
  - split; [simpl; auto|]. split; [reflexivity|].
    intros tk' [<-|[<-|[]]] Hp; [|discriminate].
    right. split; [reflexivity|]. apply Qle_refl.
  - split; [exact H1|]. split; [exact H2|].
    eapply H with (c := ex_C2) (p := "C1");
      [vm_compute; reflexivity | simpl; auto | simpl; auto | exact H1 | exact H2].
Defined.

(** ** C9: no zero-length task *)

(** Two components on one mold with different colours. *)
Definition ex_E1 : PC.t := PC.mk "C1" "c1" 5 1800 "D1" "red" 1 0 [] "pending".
Definition ex_E2 : PC.t := PC.mk "C2" "c2" 5 1800 "D1" "blue" 1 0 [] "pending".

(** C9 (amended). No task of negative length, and none without work: every
    task of the decoded list has positive [used_hours] and an [end_hour] not
    below its [start_hour]; a PRODUCE makes at least one piece, a WAIT ends
    more than [EPS] after it starts, and a CHANGE_MOLD or CHANGE_COLOR is
    there only when its changeover duration is positive (and lasts exactly
    that long). With a duration of zero or less the change phase emits
    nothing and only updates the machine state. *)
Theorem decode_no_zero_length genome components machines molds month_days
    mold_change_time_hours color_change_time_hours fuel tasks unmet :
  (_decode_v2 genome components machines molds month_days
     mold_change_time_hours color_change_time_hours fuel = Ok (tasks, unmet) ->
   Forall (task_ok mold_change_time_hours color_change_time_hours) tasks) /\
  (forall dy machine cap x st now,
     need_color_change x = true -> color_change_time_hours <= 0 ->
     phase_color color_change_time_hours dy machine cap x st now
     = Proceed (set_color (Machine.id machine) (PC.color (comp x)) st) now) /\
  (forall dy machine cap x st now,
     need_mold_change x = true -> mold_change_time_hours <= 0 ->
     phase_mold mold_change_time_hours dy machine cap x st now
     = Proceed (set_mold (Machine.id machine) (PC.mold_id (comp x)) st) now).
Proof.
  split; [|split].
  - intro Hdec.
    apply decode_inv with
      (P := fun _ st => tasks_ok mold_change_time_hours color_change_time_hours st) in Hdec.
    + destruct Hdec as (cur & st & Hinv & -> & _). exact Hinv.
    + intros topo _. split; [constructor|]. split; [|split]; auto.
      intros d m st st' Hinv Hop. eapply tasks_ok_op; eauto.
  - intros dy machine cap x st now Hneed Hle. unfold phase_color. rewrite Hneed.
    assert (E : Qltb 0 (pymax 0 color_change_time_hours) = false).
    { apply Qltb_false. unfold pymax.
      destruct (Qltb 0 color_change_time_hours) eqn:E; qprop; lra. }
    now rewrite E.
  - intros dy machine cap x st now Hneed Hle. unfold phase_mold. rewrite Hneed.
    assert (E : Qltb 0 (pymax 0 mold_change_time_hours) = false).
    { apply Qltb_false. unfold pymax.
      destruct (Qltb 0 mold_change_time_hours) eqn:E; qprop; lra. }
    now rewrite E.
Qed.

Lemma decode_no_zero_length_witness :
  exists tasks unmet,
    _decode_v2 ["C1"; "C2"] [ex_E1; ex_E2] [ex_M1] [ex_D1] 1 1 (1 # 2) 20
    = Ok (tasks, unmet) /\
    List.length tasks = 5%nat /\ Forall (task_ok 1 (1 # 2)) tasks.
Proof.
  pose proof (fun tasks unmet =>
                proj1 (decode_no_zero_length ["C1"; "C2"] [ex_E1; ex_E2] [ex_M1] [ex_D1]
                         1 1 (1 # 2) 20 tasks unmet)) as H.
  eexists _, _. split; [vm_compute; reflexivity|].
  split; [reflexivity|]. eapply H. vm_compute. reflexivity.
Defined.

(** One piece of 2^-42 seconds, started after a mold change of one hour. *)
Definition ex_quick : PC.t :=
  PC.mk "A" "a" 1 (1 # 4398046511104) "D1" "red" 1 0 [] "pending".

(** C9, as stated, fails on doubles: after the mold change the decoder emits
    a PRODUCE of one piece with positive [used_hours] (about 6.3e-17 hours)
    whose [end_hour], [1.0 + used_hours], rounds to its [start_hour], [1.0]. *)
Lemma decode_zero_length_counterexample :
  exists change produce,
    Doubles._decode_v2 ["A"] [ex_quick] [ex_M1] [ex_D1] 1 1 0 20
    = Ok ([change; produce], []) /\
    Doubles.kind change = CHANGE_MOLD None "D1" /\
    Doubles.kind produce = PRODUCE "D1" "A" "a" "red" 1 /\
    PrimFloat.ltb PrimFloat.zero (Doubles.used_hours produce) = true /\
    PrimFloat.eqb (Doubles.start_hour produce) (Doubles.end_hour produce) = true /\
    PrimFloat.ltb (Doubles.start_hour produce) (Doubles.end_hour produce) = false.
Proof.
  eexists _, _. split; [vm_compute; reflexivity|]. repeat split.
Qed.

(** In exact arithmetic the same run ends after it starts. *)
Example decode_quick_exact :
  exists change produce,
    _decode_v2 ["A"] [ex_quick] [ex_M1] [ex_D1] 1 1 0 20 = Ok ([change; produce], []) /\
    kind produce = PRODUCE "D1" "A" "a" "red" 1 /\
    start_hour produce == 1 /\ start_hour produce < end_hour produce.
Proof.
  eexists _, _. split; [vm_compute; reflexivity|]. repeat split.
Qed.

(** *** Where the doubles differ from exact arithmetic *)

(** Ten pieces of a tenth of an hour in a day of one hour. *)
Definition ex_M_hour : Machine.t := Machine.mk "M1" "Press 1" "small" 100 1 1.
Definition ex_tenth : PC.t := PC.mk "A" "a" 10 360 "D1" "red" 1 0 [] "pending".

(** [1.0 // 0.1] is [9.0]: the program makes nine pieces where exact
    arithmetic makes ten. *)
Example decode_piece_count_rounding :
  (exists produce,
     _decode_v2 ["A"] [ex_tenth] [ex_M_hour] [ex_D1] 1 0 0 20 = Ok ([produce], []) /\
     kind produce = PRODUCE "D1" "A" "a" "red" 10) /\
  (exists produce,
     Doubles._decode_v2 ["A"] [ex_tenth] [ex_M_hour] [ex_D1] 1 0 0 20
     = Ok ([produce], [("A", 1%Z)]) /\
     Doubles.kind produce = PRODUCE "D1" "A" "a" "red" 9).
Proof.
  split; eexists; (split; [vm_compute; reflexivity|reflexivity]).
Qed.

(** A cycle time of 2^-1063 seconds: the quotient of the hours left by the
    hours of a piece is infinite and [int] raises. *)
Definition ex_instant : PC.t :=
  PC.mk "A" "a" 10 (Qmake 1 (2 ^ 1063)) "D1" "red" 1 0 [] "pending".

Example decode_quotient_overflow :
  Doubles._decode_v2 ["A"] [ex_instant] [ex_M1] [ex_D1] 1 0 0 20
  = Raise (OverflowError Doubles.msg_int_of_infinity).
Proof. vm_compute. reflexivity. Qed.

(** ** C4: the fitness formula *)

(** The formula as the specification words it. *)

Definition sumQ (l : list Q) : Q := fold_right Qplus 0 l.

Definition is_changeover (tk : task) : bool :=
  match kind tk with
  | CHANGE_MOLD _ _ | CHANGE_COLOR _ _ => true
  | _ => false
  end.

Definition is_wait (tk : task) : bool :=
  match kind tk with WAIT => true | _ => false end.

Definition spec_produced_total (tasks : list task) : Z :=
  fold_right Z.add 0%Z (map qty_of tasks).

Definition spec_changeover_hours (tasks : list task) : Q :=
  sumQ (map used_hours (filter is_changeover tasks)).

Definition spec_wait_hours (tasks : list task) : Q :=
  sumQ (map used_hours (filter is_wait tasks)).

(** The days of the PRODUCE tasks of [cid]. *)
Definition produce_days (cid : string) (tasks : list task) : list Z :=
  map day (filter (produces cid) tasks).




(** A PRODUCE task dated after the sentinel day 10^9. *)
Definition ex_far_task : task :=
  mk_task 2000000000 "M1" "Press 1" 1 (PRODUCE "D1" "A" "a" "red" 1) 1 0 1 (1 # 10).


(** A PRODUCE task of a component that is not in the component list makes
    the evaluator raise instead. *)
Lemma fitness_unknown_component :
  _fitness_v2 [ex_far_task] [] [] = Raise (KeyError "A").
Proof. reflexivity. Qed.

(** An unmet quantity too large for a [float] makes it raise as well. *)
Lemma fitness_unmet_overflow :
  _fitness_v2 [] [("A", (10 ^ 309)%Z)] [] = Raise (OverflowError msg_int_too_large).
Proof. vm_compute. reflexivity. Qed.

(** The accumulators of the task loop, against the sums of the formula. *)

Lemma fold_right_add_app (l l' : list Z) :
  fold_right Z.add 0%Z (l ++ l') = (fold_right Z.add 0 l + fold_right Z.add 0 l')%Z.
Proof. induction l as [|x l IH]; simpl; lia. Qed.



Lemma fitness_fold_sums tasks : forall acc,
  produced_total (fold_left fitness_step tasks acc)
  = (produced_total acc + spec_produced_total tasks)%Z /\
  changeover_hours (fold_left fitness_step tasks acc)
  == changeover_hours acc + spec_changeover_hours tasks /\
  wait_hours (fold_left fitness_step tasks acc)
  == wait_hours acc + spec_wait_hours tasks.
Proof.
  unfold spec_produced_total, spec_changeover_hours, spec_wait_hours, sumQ.
  induction tasks as [|tk tasks IH]; intro acc; simpl.
  - repeat split; try lia; lra.
  - destruct (IH (fitness_step acc tk)) as (H1 & H2 & H3).
    rewrite H1, H2, H3. clear.
    unfold fitness_step, is_changeover, is_wait, qty_of.
    destruct (kind tk); simpl; repeat split; try lia; lra.
Qed.

Lemma first_prod_day_step acc tk :
  first_prod_day (fitness_step acc tk)
  = match produced_component tk with
    | Some c => dset c (Z.min (getitem (10 ^ 9)%Z (first_prod_day acc) c) (day tk))
                  (first_prod_day acc)
    | None => first_prod_day acc
    end.
Proof. unfold fitness_step, produced_component. destruct (kind tk); reflexivity. Qed.

Lemma produce_days_cons cid tk tasks :
  produce_days cid (tk :: tasks)
  = if produces cid tk then day tk :: produce_days cid tasks else produce_days cid tasks.
Proof. unfold produce_days. simpl. now destruct (produces cid tk). Qed.

Lemma produces_component cid tk :
  produces cid tk = true <-> produced_component tk = Some cid.
Proof.
  unfold produces. destruct (produced_component tk) as [c|]; simpl.
  - rewrite String.eqb_eq. split; congruence.
  - split; discriminate.
Qed.

Lemma fitness_fold_days tasks : forall acc,
  NoDup (dkeys (first_prod_day acc)) ->
  NoDup (dkeys (first_prod_day (fold_left fitness_step tasks acc))) /\
  forall cid,
    dget cid (first_prod_day (fold_left fitness_step tasks acc))
    = match produce_days cid tasks with
      | [] => dget cid (first_prod_day acc)
      | d :: ds =>
          Some (fold_left Z.min (d :: ds) (getitem (10 ^ 9)%Z (first_prod_day acc) cid))
      end.
Proof.
  induction tasks as [|tk tasks IH]; intros acc Hnd; [simpl; auto|].
  cbn [fold_left].
  assert (Hnd' : NoDup (dkeys (first_prod_day (fitness_step acc tk)))).
  { rewrite first_prod_day_step. destruct (produced_component tk); auto.
    now apply NoDup_dkeys_dset. }
  destruct (IH _ Hnd') as [H1 H2]. split; auto.
  intro cid. rewrite H2, produce_days_cons, first_prod_day_step.
  destruct (produces cid tk) eqn:Hp.
  - apply produces_component in Hp. rewrite Hp.
    rewrite getitem_dset_same, dget_dset_same.
    destruct (produce_days cid tasks); reflexivity.
  - destruct (produced_component tk) as [c|] eqn:Hc; auto.
    assert (Hne : cid <> c).
    { intros ->. apply produces_component in Hc. congruence. }
    rewrite getitem_dset_other, dget_dset_other by assumption. reflexivity.
Qed.

Lemma fold_left_min_bound (l : list Z) : forall a b,
  (forall x, In x l -> x <= b)%Z -> l <> [] -> (b <= a)%Z ->
  fold_left Z.min l a = fold_left Z.min l b.
Proof.
  induction l as [|x l IH]; intros a b Hall Hne Hba; [contradiction|].
  simpl. assert (Hx : (x <= b)%Z) by (apply Hall; now left).
  replace (Z.min a x) with x by lia. replace (Z.min b x) with x by lia. reflexivity.
Qed.







Lemma In_dget {V} (d : dict string V) k v :
  NoDup (dkeys d) -> In (k, v) d -> dget k d = Some v.
Proof.
  induction d as [|[k' v'] d IH]; intros Hnd Hin; [contradiction|].
  inversion Hnd as [|? ? Hnot Hnd']; subst. cbn [dget].
  destruct Hin as [[= -> ->]|Hin].
  - now rewrite keqb_refl.
  - destruct (keqb_dec k k') as [->|Hne].
    + exfalso. apply Hnot. now apply (in_map fst) in Hin.
    + rewrite (keqb_neq _ _ Hne). auto.
Qed.

Lemma produce_days_In cid tasks d :
  In d (produce_days cid tasks) ->
  exists tk, In tk tasks /\ produces cid tk = true /\ day tk = d.
Proof.
  unfold produce_days. rewrite in_map_iff. intros (tk & Hd & Hin).
  apply filter_In in Hin. exists tk. tauto.
Qed.

(** An [int] that converts to a [float]. *)
Definition fits_double (n : Z) : Prop := (Z.abs n < DOUBLE_INT_LIMIT)%Z.

Lemma float_of_int_fits n : fits_double n -> float_of_int n = Ok (inject_Z n).
Proof.
  unfold fits_double, float_of_int. intro H.
  destruct (Z.leb_spec DOUBLE_INT_LIMIT (Z.abs n)); [lia|reflexivity].
Qed.

Lemma float_of_int_overflow n :
  ~ fits_double n -> float_of_int n = Raise (OverflowError msg_int_too_large).
Proof.
  unfold fits_double, float_of_int. intro H.
  destruct (Z.leb_spec DOUBLE_INT_LIMIT (Z.abs n)); [reflexivity|lia].
Qed.

Lemma fits_double_dec n : fits_double n \/ ~ fits_double n.
Proof. unfold fits_double. lia. Qed.




(** ** C10: the genetic operators keep permutations *)

Lemma firstn_incl {A} (n : nat) (l : list A) x : In x (firstn n l) -> In x l.
Proof.
  intro Hin. rewrite <- (firstn_skipn n l). apply in_or_app. now left.
Qed.

Lemma skipn_incl {A} (n : nat) (l : list A) x : In x (skipn n l) -> In x l.
Proof.
  intro Hin. rewrite <- (firstn_skipn n l). apply in_or_app. now right.
Qed.

Lemma NoDup_firstn {A} (n : nat) (l : list A) : NoDup l -> NoDup (firstn n l).
Proof.
  intro Hnd. rewrite <- (firstn_skipn n l) in Hnd. now apply NoDup_app_remove_r in Hnd.
Qed.

Lemma NoDup_skipn {A} (n : nat) (l : list A) : NoDup l -> NoDup (skipn n l).
Proof.
  intro Hnd. rewrite <- (firstn_skipn n l) in Hnd. now apply NoDup_app_remove_l in Hnd.
Qed.

Lemma mem_string_In x l : mem_string x l = true <-> In x l.
Proof.
  unfold mem_string. rewrite existsb_exists. split.
  - intros (y & Hy & E). apply String.eqb_eq in E. now subst.
  - intro Hin. exists x. split; auto. apply String.eqb_refl.
Qed.

(** Taking a duplicate-free part [mid] of [p2] out and putting it back. *)
Lemma filter_out_perm (mid p2 : list string) :
  NoDup p2 -> NoDup mid -> incl mid p2 ->
  Permutation (mid ++ filter (fun x => negb (mem_string x mid)) p2) p2.
Proof.
  intros Hp2 Hmid Hincl. apply NoDup_Permutation; auto.
  - apply NoDup_app; auto.
    + now apply NoDup_filter.
    + intros x Hx Hf. apply filter_In in Hf. destruct Hf as [_ Hf].
      apply negb_true_iff in Hf. apply mem_string_In in Hx. congruence.
  - intro x. rewrite in_app_iff, filter_In, negb_true_iff. split.
    + intros [Hx|[Hx _]]; auto.
    + intro Hx. destruct (mem_string x mid) eqn:E; auto.
      left. now apply mem_string_In.
Qed.

Lemma crossover_ox_perm p1 p2 tp :
  NoDup p1 -> Permutation p1 p2 -> Permutation p1 (fst (_crossover_ox p1 p2 tp)).
Proof.
  intros Hnd Hperm. unfold _crossover_ox.
  destruct (List.length p1 <? 2)%nat; [reflexivity|].
  destruct (sample2 (List.length p1) tp) as [[i j] tp']. cbn [fst].
  set (a := Nat.min i j). set (b := Nat.max i j).
  set (mid := firstn (b - a) (skipn a p1)).
  set (rest := filter (fun x => negb (mem_string x mid)) p2).
  rewrite Hperm.
  rewrite <- (filter_out_perm mid p2).
  - fold rest. rewrite <- (firstn_skipn a rest) at 1.
    rewrite Permutation_app_swap_app. reflexivity.
  - eapply Permutation_NoDup; eauto.
  - apply NoDup_firstn, NoDup_skipn, Hnd.
  - intros x Hx. apply (Permutation_in _ Hperm).
    eapply skipn_incl, firstn_incl, Hx.
Qed.

(** [l[i] = v] changes the count of an element by what leaves and enters. *)
Lemma count_occ_set_nth (l : list string) : forall i v old x,
  nth_error l i = Some old ->
  (count_occ string_dec (set_nth i v l) x + (if string_dec old x then 1 else 0)
   = count_occ string_dec l x + (if string_dec v x then 1 else 0))%nat.
Proof.
  induction l as [|y l IH]; intros i v old x Hnth; [destruct i; discriminate|].
  destruct i as [|i]; simpl in *.
  - injection Hnth as ->. destruct (string_dec old x), (string_dec v x); lia.
  - specialize (IH i v old x Hnth). destruct (string_dec y x); lia.
Qed.

Lemma nth_error_set_nth_same {A} (l : list A) : forall i v old,
  nth_error l i = Some old -> nth_error (set_nth i v l) i = Some v.
Proof.
  induction l as [|y l IH]; intros i v old Hnth; [destruct i; discriminate|].
  destruct i as [|i]; simpl in *; eauto.
Qed.

Lemma nth_error_set_nth_other {A} (l : list A) : forall i j v,
  i <> j -> nth_error (set_nth i v l) j = nth_error l j.
Proof.
  induction l as [|y l IH]; intros i j v Hne; [destruct i; reflexivity|].
  destruct i as [|i], j as [|j]; simpl; auto; try congruence.
Qed.

Lemma swap_at_perm (i j : nat) (l : list string) : Permutation l (swap_at i j l).
Proof.
  unfold swap_at.
  destruct (nth_error l i) as [x|] eqn:Hi; [|reflexivity].
  destruct (nth_error l j) as [y|] eqn:Hj; [|reflexivity].
  apply (Permutation_count_occ string_dec). intro z.
  pose proof (count_occ_set_nth l i y x z Hi) as H1.
  assert (Hj' : nth_error (set_nth i y l) j = Some y).
  { destruct (Nat.eq_dec i j) as [->|Hne].
    - eapply nth_error_set_nth_same; eauto.
    - now rewrite nth_error_set_nth_other. }
  pose proof (count_occ_set_nth _ j x y z Hj') as H2. lia.
Qed.

Lemma mutate_swap_perm g tp : Permutation g (fst (_mutate_swap g tp)).
Proof.
  unfold _mutate_swap. destruct (List.length g <? 2)%nat; [reflexivity|].
  destruct (sample2 (List.length g) tp) as [[i j] tp']. apply swap_at_perm.
Qed.

Lemma shuffle_from_perm i : forall (l : list string) tp,
  Permutation l (fst (shuffle_from i l tp)).
Proof.
  induction i as [|i IH]; intros l tp; simpl; [reflexivity|].
  destruct (randbelow (S (i + 1)) tp) as [j tp'].
  rewrite <- IH. apply swap_at_perm.
Qed.

Lemma random_genome_perm components tp :
  Permutation (map PC.id components) (fst (_random_genome components tp)).
Proof. unfold _random_genome, shuffle. apply shuffle_from_perm. Qed.

(** ** Populations of the genetic driver *)

Section GAFacts.
Variable fuel : nat.
Variable components : list PC.t.
Variable machines : list Machine.t.
Variable molds : list Mold.t.
Variable month_days : Z.
Variable mold_change_time_hours : Q.
Variable color_change_time_hours : Q.
Variable pop_size : Z.
Variable mutation_rate : Q.

Let ids := map PC.id components.
Let ps := Z.to_nat pop_size.

(** A population of [pop_size] permutations of the component identifiers. *)
Definition population_ok (population : list genome_t) : Prop :=
  List.length population = ps /\ Forall (Permutation ids) population.

Lemma initial_population_ok n : forall tp,
  List.length (fst (initial_population components n tp)) = n /\
  Forall (Permutation ids) (fst (initial_population components n tp)).
Proof using components.
  clear ps. induction n as [|n IH]; intro tp; simpl; [split; constructor|].
  pose proof (random_genome_perm components tp) as Hg.
  destruct (_random_genome components tp) as [g tp1].
  specialize (IH tp1). destruct (initial_population components n tp1) as [pop tp2].
  simpl in *. destruct IH as [Hlen Hall]. split; [lia|]. constructor; auto.
Qed.

Lemma score_population_snd population : forall scored,
  score_population fuel components machines molds month_days
    mold_change_time_hours color_change_time_hours population = Ok scored ->
  map snd scored = population.
Proof.
  induction population as [|g population IH]; intros scored; simpl.
  - now intros [= <-].
  - destruct (decode _ _ _ _ _ _ _ g) as [[tasks unmet]| |]; try discriminate.
    destruct (_fitness_v2 tasks unmet components); try discriminate.
    destruct (score_population _ _ _ _ _ _ _ population) as [sc| |]; try discriminate.
    intros [= <-]. simpl. f_equal. now apply IH.
Qed.

Lemma score_population_NoDup population scored :
  score_population fuel components machines molds month_days
    mold_change_time_hours color_change_time_hours population = Ok scored ->
  population <> [] -> NoDup ids.
Proof.
  destruct population as [|g population]; [contradiction|]. simpl.
  unfold decode.
  destruct (_decode_v2 _ _ _ _ _ _ _ _) as [r| |] eqn:Hdec; try discriminate.
  intros _ _. destruct (decode_ok_topo _ _ _ _ _ _ _ _ _ Hdec) as [topo Htopo].
  now apply topological_order_ok in Htopo.
Qed.

Lemma randbelow_lt n tp : (0 < n)%nat -> (fst (randbelow n tp) < n)%nat.
Proof.
  intro Hn. unfold randbelow. destruct (draw tp) as [z tp']. simpl.
  pose proof (Z.mod_pos_bound z (Z.of_nat n)). lia.
Qed.

Lemma sample2_range n tp :
  (2 <= n)%nat ->
  let '(i, j, _) := sample2 n tp in (i < n)%nat /\ (j < n)%nat /\ i <> j.
Proof.
  intro Hn. unfold sample2.
  pose proof (randbelow_lt n tp) as Hi.
  destruct (randbelow n tp) as [i tp1].
  pose proof (randbelow_lt (n - 1) tp1) as Hj.
  destruct (randbelow (n - 1) tp1) as [j tp2]. simpl in *.
  destruct (Nat.eqb_spec j i); lia.
Qed.

Lemma tournament_ok (scored : list (Q * genome_t)) n : forall new_pop tp,
  (n = 0%nat \/ (2 <= ps /\ List.length scored = ps)%nat) ->
  List.length (fst (tournament pop_size n scored new_pop tp)) = (List.length new_pop + n)%nat /\
  forall g, In g (fst (tournament pop_size n scored new_pop tp)) ->
    In g new_pop \/ In g (map snd scored).
Proof.
  induction n as [|n IH]; intros new_pop tp Hn; simpl.
  - split; [lia|auto].
  - destruct Hn as [Hn|[Hps Hlen]]; [discriminate|].
    pose proof (sample2_range ps tp Hps) as Hs. fold ps.
    destruct (sample2 ps tp) as [[i j] tp1]. destruct Hs as (Hi & Hj & _).
    destruct (IH (new_pop ++ [if Qltb (fst (nth j scored (0, []))) (fst (nth i scored (0, [])))
                              then snd (nth i scored (0, []))
                              else snd (nth j scored (0, []))]) tp1) as [H1 H2]; [auto|].
    split.
    + rewrite H1, length_app. simpl. lia.
    + intros g Hg. destruct (H2 g Hg) as [Hin|Hin]; auto.
      apply in_app_or in Hin. destruct Hin as [Hin|[<-|[]]]; auto.
      right. destruct (Qltb _ _); apply in_map, nth_In; lia.
Qed.

Lemma breed_ok k : forall i new_pop children tp,
  (i + 2 * k = ps \/ i + 2 * k = ps + 1)%nat ->
  List.length new_pop = ps ->
  NoDup ids ->
  Forall (Permutation ids) new_pop -> Forall (Permutation ids) children ->
  List.length (fst (breed pop_size k i new_pop children tp))
  = (List.length children + (ps - i))%nat /\
  Forall (Permutation ids) (fst (breed pop_size k i new_pop children tp)).
Proof.
  induction k as [|k IH]; intros i new_pop children tp Hk Hlen Hnd Hpop Hch; simpl.
  - split; [lia|auto].
  - fold ps. rewrite Forall_forall in Hpop.
    destruct (Nat.leb_spec ps (i + 1)) as [Hle|Hgt]; simpl.
    + split; [rewrite length_app; simpl; lia|].
      apply Forall_app. split; auto. constructor; [|constructor].
      apply Hpop, nth_In. lia.
    + assert (H1 : Permutation ids (nth i new_pop [])) by (apply Hpop, nth_In; lia).
      assert (H2 : Permutation ids (nth (i + 1) new_pop [])) by (apply Hpop, nth_In; lia).
      pose proof (crossover_ox_perm (nth i new_pop []) (nth (i + 1) new_pop []) tp) as Hc1.
      destruct (_crossover_ox (nth i new_pop []) (nth (i + 1) new_pop []) tp) as [c1 tp1].
      pose proof (crossover_ox_perm (nth (i + 1) new_pop []) (nth i new_pop []) tp1) as Hc2.
      destruct (_crossover_ox (nth (i + 1) new_pop []) (nth i new_pop []) tp1) as [c2 tp2].
      simpl in Hc1, Hc2.
      destruct (IH (i + 2)%nat new_pop (children ++ [c1; c2]) tp2) as [L1 L2];
        auto; [lia | now apply Forall_forall | |].
      * apply Forall_app. split; auto.
        constructor; [|constructor; [|constructor]].
        -- rewrite H1 at 1. apply Hc1.
           ++ eapply Permutation_NoDup; eauto.
           ++ rewrite <- H1, <- H2. reflexivity.
        -- rewrite H2 at 1. apply Hc2.
           ++ eapply Permutation_NoDup; eauto.
           ++ rewrite <- H1, <- H2. reflexivity.
      * split; auto. rewrite L1, length_app. simpl. lia.
Qed.

Lemma mutate_children_ok children : forall tp,
  Forall (Permutation ids) children ->
  List.length (fst (mutate_children mutation_rate children tp)) = List.length children /\
  Forall (Permutation ids) (fst (mutate_children mutation_rate children tp)).
Proof.
  induction children as [|c children IH]; intros tp Hall; simpl; [split; auto|].
  inversion Hall as [|? ? Hc Hrest]; subst.
  destruct (random_unit tp) as [u tp1].
  assert (Hm : forall r : genome_t * tape,
            r = (if Qltb u mutation_rate then _mutate_swap c tp1 else (c, tp1)) ->
            Permutation ids (fst r)).
  { intros r ->. destruct (Qltb u mutation_rate); simpl; auto.
    rewrite Hc at 1. apply mutate_swap_perm. }
  destruct (if Qltb u mutation_rate then _mutate_swap c tp1 else (c, tp1)) as [c' tp2].
  specialize (Hm _ eq_refl). simpl in Hm.
  destruct (IH tp2 Hrest) as [L1 L2].
  destruct (mutate_children mutation_rate children tp2) as [rest tp3]. simpl in *.
  split; [lia|]. constructor; auto.
Qed.

Lemma elite_k_le : (2 <= pop_size)%Z -> (2 <= elite_k pop_size <= pop_size)%Z.
Proof.
  intro H. unfold elite_k.
  assert (pop_size / 5 <= pop_size)%Z.
  { apply Z.div_le_upper_bound; lia. }
  lia.
Qed.


Lemma parent_pool_ok (scored : list (Q * genome_t)) tp :
  (2 <= pop_size)%Z -> List.length scored = ps ->
  Forall (Permutation ids) (map snd scored) ->
  population_ok (fst (parent_pool pop_size scored tp)).
Proof.
  intros Hps Hlen Hall. unfold parent_pool.
  pose proof (elite_k_le Hps) as Hk.
  assert (Hel : List.length (elites pop_size scored) = Z.to_nat (elite_k pop_size)).
  { unfold elites. rewrite length_map, length_firstn. unfold ps in Hlen. lia. }
  destruct (tournament_ok scored (Z.to_nat pop_size - List.length (elites pop_size scored))
              (elites pop_size scored) tp) as [H1 H2].
  { right. unfold ps in *. lia. }
  split.
  - rewrite H1. unfold ps. lia.
  - apply Forall_forall. intros g Hg. rewrite Forall_forall in Hall.
    destruct (H2 g Hg) as [Hin|Hin]; auto.
    apply Hall. unfold elites in Hin. apply in_map_iff in Hin.
    destruct Hin as (x & <- & Hx). apply in_map. eapply firstn_incl; eauto.
Qed.

Lemma next_population_ok (scored : list (Q * genome_t)) tp :
  (2 <= pop_size)%Z -> List.length scored = ps -> NoDup ids ->
  Forall (Permutation ids) (map snd scored) ->
  population_ok (fst (next_population pop_size mutation_rate scored tp)).
Proof.
  intros Hps Hlen Hnd Hall. unfold next_population.
  pose proof (parent_pool_ok scored tp Hps Hlen Hall) as [P1 P2].
  destruct (parent_pool pop_size scored tp) as [new_pop tp1]. simpl in P1, P2.
  destruct (breed_ok (Z.to_nat ((pop_size + 1) / 2)) 0 new_pop [] tp1) as [B1 B2];
    auto.
  { unfold ps. pose proof (Z.div_mod (pop_size + 1) 2).
    pose proof (Z.mod_pos_bound (pop_size + 1) 2). lia. }
  destruct (breed pop_size _ 0 new_pop [] tp1) as [children tp2]. simpl in B1, B2.
  destruct (mutate_children_ok children tp2 B2) as [M1 M2].
  destruct (mutate_children mutation_rate children tp2) as [children' tp3].
  simpl in *. split.
  - rewrite length_firstn. fold ps. lia.
  - apply Forall_forall. intros g Hg. rewrite Forall_forall in M2.
    apply M2. eapply firstn_incl; eauto.
Qed.

Lemma sort_scored_perm (scored : list (Q * genome_t)) :
  Permutation scored (sort_scored scored).
Proof. apply sorted_by_perm. Qed.

Lemma generation_ok population best tp population' best' tp' :
  (2 <= pop_size)%Z ->
  generation fuel components machines molds month_days mold_change_time_hours
    color_change_time_hours pop_size mutation_rate (population, best, tp)
  = Ok (population', best', tp') ->
  population_ok population -> population_ok population'.
Proof.
  intros Hps Hgen [Hlen Hall]. unfold generation in Hgen.
  destruct (score_population _ _ _ _ _ _ _ population) as [scored| |] eqn:Hsc;
    try discriminate.
  pose proof (score_population_snd _ _ Hsc) as Hsnd.
  assert (Hnd : NoDup ids).
  { apply (score_population_NoDup _ _ Hsc). intros ->. simpl in Hlen.
    unfold ps in Hlen. lia. }
  pose proof (next_population_ok (sort_scored scored) tp Hps) as Hnext.
  destruct (next_population pop_size mutation_rate (sort_scored scored) tp) as [pop1 tp1].
  injection Hgen as <- _ _. apply Hnext; auto.
  - rewrite <- (Permutation_length (sort_scored_perm scored)).
    rewrite <- Hlen, <- Hsnd. now rewrite length_map.
  - apply Forall_forall. intros g Hg. rewrite Forall_forall in Hall. apply Hall.
    rewrite <- Hsnd.
    eapply Permutation_in; [symmetry; apply Permutation_map, sort_scored_perm|]. exact Hg.
Qed.

Lemma generations_ok n : forall population best tp population' best' tp',
  (2 <= pop_size)%Z ->
  generations fuel components machines molds month_days mold_change_time_hours
    color_change_time_hours pop_size mutation_rate n (population, best, tp)
  = Ok (population', best', tp') ->
  population_ok population -> population_ok population'.
Proof.
  induction n as [|n IH]; intros population best tp population' best' tp' Hps;
    cbn [generations].
  - now intros [= <- <- <-].
  - destruct (generation fuel components machines molds month_days mold_change_time_hours
                color_change_time_hours pop_size mutation_rate (population, best, tp))
      as [[[pop1 best1] tp1]| |] eqn:Hgen; try discriminate.
    intros Hrest Hok. apply (IH _ _ _ _ _ _ Hps Hrest).
    apply (generation_ok _ _ _ _ _ _ Hps Hgen Hok).
Qed.
End GAFacts.

(** C10. Permutation preservation: the order-crossover child of two
    duplicate-free parents over the same identifiers is a permutation of
    them; [_mutate_swap] returns the multiset it was given; hence, with
    [pop_size >= 2] as the driver requires, every genome of every generation
    is a permutation of the component identifiers. *)
Theorem ga_permutation_preservation :
  (forall p1 p2 tp, NoDup p1 -> Permutation p1 p2 ->
     Permutation p1 (fst (_crossover_ox p1 p2 tp))) /\
  (forall g tp, Permutation g (fst (_mutate_swap g tp))) /\
  (forall fuel components machines molds month_days mold_change_time_hours
          color_change_time_hours pop_size mutation_rate n tp population best tp',
     (2 <= pop_size)%Z ->
     generations fuel components machines molds month_days mold_change_time_hours
       color_change_time_hours pop_size mutation_rate n
       (fst (initial_population components (Z.to_nat pop_size) tp), None,
        snd (initial_population components (Z.to_nat pop_size) tp))
     = Ok (population, best, tp') ->
     Forall (Permutation (map PC.id components)) population).
Proof.
  split; [exact crossover_ox_perm|]. split; [exact mutate_swap_perm|].
  intros fuel components machines molds month_days mct cct pop_size mutation_rate
    n tp population best tp' Hps Hgen.
  pose proof (generations_ok fuel components machines molds month_days mct cct
                pop_size mutation_rate n _ _ _ _ _ _ Hps Hgen) as H.
  apply H.
  destruct (initial_population_ok components (Z.to_nat pop_size) tp).
  split; assumption.
Qed.

Lemma ga_permutation_preservation_witness :
  fst (_crossover_ox ["A"; "B"; "C"] ["C"; "B"; "A"] [0%Z; 1%Z]) = ["A"; "C"; "B"] /\
  Permutation ["A"; "B"; "C"] (fst (_crossover_ox ["A"; "B"; "C"] ["C"; "B"; "A"] [0%Z; 1%Z])).
Proof.
  split; [reflexivity|].
  apply (proj1 ga_permutation_preservation).
  - repeat constructor; simpl; intuition discriminate.
  - apply perm_trans with (l' := ["B"; "A"; "C"]); [apply perm_swap|].
    apply perm_trans with (l' := ["B"; "C"; "A"]); [apply perm_skip, perm_swap|].
    apply perm_swap.
Defined.

(** ** C8: elitism *)

Lemma insert_by_descending (x : Q * list string) (l : list (Q * list string)) :
  ForallOrdPairs (fun a b => fst b <= fst a) l ->
  ForallOrdPairs (fun a b => fst b <= fst a)
    (insert_by (fun a b => Qltb (fst b) (fst a)) x l).
Proof.
  induction 1 as [|y l Hy Hl IH]; simpl.
  - constructor; constructor.
  - destruct (Qltb (fst x) (fst y)) eqn:E; qprop.
    + constructor; auto. apply Forall_forall. intros z Hz.
      apply insert_by_In in Hz. destruct Hz as [->|Hz]; [lra|].
      rewrite Forall_forall in Hy. auto.
    + constructor; [|constructor; auto].
      constructor; auto. rewrite Forall_forall in *. intros z Hz.
      specialize (Hy z Hz). simpl in *. lra.
Qed.

Lemma sort_scored_descending (scored : list (Q * list string)) :
  ForallOrdPairs (fun a b => fst b <= fst a) (sort_scored scored).
Proof.
  unfold sort_scored. induction scored as [|x l IH]; simpl.
  - constructor.
  - now apply insert_by_descending.
Qed.



(** ** C6: order of the output *)

Lemma decode_order genome components machines molds month_days mct cct fuel tasks unmet :
  _decode_v2 genome components machines molds month_days mct cct fuel = Ok (tasks, unmet) ->
  ForallOrdPairs (fun a b => (day a <= day b)%Z) tasks /\
  ForallOrdPairs
    (fun a b => day a = day b -> machine_id a = machine_id b ->
                (sequence_in_day a < sequence_in_day b)%Z) tasks.
Proof.
  intro Hdec. apply decode_inv with (P := order_inv) in Hdec.
  - destruct Hdec as (cur & st & (_ & Hb & _ & Hd) & -> & _). auto.
  - intros topo _. split; [|split; [|split]].
    + repeat split; simpl; try constructor; contradiction.
    + intros cur d st. apply order_inv_begin.
    + intros d st. now apply order_inv_same.
    + intros d m st st' Hinv Hop. eapply order_inv_op; eauto.
Qed.

Lemma ga_assignments_decoded fuel components machines molds month_days mct cct
    pop_size n_generations mutation_rate tp out :
  ga_optimize_v2 fuel components machines molds month_days mct cct
    pop_size n_generations mutation_rate tp = Ok out ->
  exists g, _decode_v2 g components machines molds month_days mct cct fuel
            = Ok (assignments out, unmet out).
Proof.
  unfold ga_optimize_v2.
  destruct (month_days <? 1)%Z; [discriminate|].
  destruct (pop_size <? 2)%Z; [discriminate|].
  destruct (n_generations <? 1)%Z; [discriminate|].
  destruct (negb _); [discriminate|].
  destruct (initial_population components (Z.to_nat pop_size) tp) as [population tp1].
  destruct (generations _ _ _ _ _ _ _ _ _ _ _) as [[[pop best] tp2]| |]; try discriminate.
  set (g := match best with Some (_, g) => g | None => [] end).
  unfold decode.
  destruct (_decode_v2 g _ _ _ _ _ _ _) as [[tasks um]| |] eqn:Hdec; try discriminate.
  destruct (_fitness_v2 tasks um components); try discriminate.
  intros [= <-]. exists g. exact Hdec.
Qed.

(** Position of a machine identifier in the input list of machines. *)
Fixpoint machine_index (machines : list Machine.t) (mid : string) : nat :=
  match machines with
  | [] => O
  | m :: machines' =>
      if String.eqb (Machine.id m) mid then O else S (machine_index machines' mid)
  end.

(** The order the specification words: day, then machine input order, then
    sequence in the day. *)
Definition spec_order (machines : list Machine.t) (a b : task) : Prop :=
  (day a < day b)%Z \/
  (day a = day b /\
   (machine_index machines (machine_id a) < machine_index machines (machine_id b))%nat) \/
  (day a = day b /\
   machine_index machines (machine_id a) = machine_index machines (machine_id b) /\
   (sequence_in_day a < sequence_in_day b)%Z).

(** C6, counterexample: with two presses and the components A, B, C the
    driver returns PRODUCE A on M1, PRODUCE B on M2, PRODUCE C on M1, all on
    day 1: the task of M2 comes before the second task of M1. *)
Lemma output_order_counterexample :
  exists out a b,
    ga_optimize_v2 20 [ex_A; ex_B; ex_C] [ex_M1; ex_M2] [ex_D1; ex_D2] 1 0 0 2 1 0 []
    = Ok out /\
    nth_error (assignments out) 1 = Some a /\
    nth_error (assignments out) 2 = Some b /\
    machine_id a = "M2" /\ machine_id b = "M1" /\
    ~ spec_order [ex_M1; ex_M2] a b.
Proof.
  eexists _, _, _. split; [vm_compute; reflexivity|].
  split; [reflexivity|]. split; [reflexivity|].
  split; [reflexivity|]. split; [reflexivity|].
  unfold spec_order. simpl. lia.
Qed.

(** C6 (amended). Output ordering: in the assignments returned by
    [ga_optimize_v2] the days ascend, and two tasks of the same day and the
    same machine appear in ascending [sequence_in_day]; within a day the
    tasks of different machines are interleaved in the order the simulation
    emitted them. *)
Theorem ga_output_order fuel components machines molds month_days
    mold_change_time_hours color_change_time_hours pop_size n_generations
    mutation_rate tp out :
  ga_optimize_v2 fuel components machines molds month_days mold_change_time_hours
    color_change_time_hours pop_size n_generations mutation_rate tp = Ok out ->
  forall i j a b, (i < j)%nat ->
    nth_error (assignments out) i = Some a -> nth_error (assignments out) j = Some b ->
    (day a <= day b)%Z /\
    (day a = day b -> machine_id a = machine_id b ->
     (sequence_in_day a < sequence_in_day b)%Z).
Proof.
  intros Hga i j a b Hij Ha Hb.
  destruct (ga_assignments_decoded _ _ _ _ _ _ _ _ _ _ _ _ Hga) as [g Hdec].
  destruct (decode_order _ _ _ _ _ _ _ _ _ _ Hdec) as [H1 H2].
  split.
  - exact (FOP_nth _ _ H1 i j a b Hij Ha Hb).
  - exact (FOP_nth _ _ H2 i j a b Hij Ha Hb).
Qed.

Lemma ga_output_order_witness :
  exists out a b,
    ga_optimize_v2 20 [ex_A; ex_B; ex_C] [ex_M1; ex_M2] [ex_D1; ex_D2] 1 0 0 2 1 0 []
    = Ok out /\
    nth_error (assignments out) 0 = Some a /\
    nth_error (assignments out) 2 = Some b /\
    (day a <= day b)%Z /\
    (day a = day b -> machine_id a = machine_id b ->
     (sequence_in_day a < sequence_in_day b)%Z).
Proof.
  pose proof (ga_output_order 20 [ex_A; ex_B; ex_C] [ex_M1; ex_M2] [ex_D1; ex_D2]
                1 0 0 2 1 0 []) as H.
  eexists _, _, _. split; [vm_compute; reflexivity|].
  split; [reflexivity|]. split; [reflexivity|].
  eapply H with (i := 0%nat) (j := 2%nat);
    [vm_compute; reflexivity | lia | reflexivity | reflexivity].
Defined.

(** ** Kahn's algorithm: the graph built from the prerequisite lists *)

Definition countZ (v : string) (l : list string) : Z :=
  Z.of_nat (count_occ string_dec l v).

Definition total (f : string -> Z) (K : list string) : Z :=
  fold_right Z.add 0%Z (map f K).

(** The edges (prerequisite, dependent) in the order the linking loop
    meets them. *)
Definition edges (components : list PC.t) : list (string * string) :=
  flat_map (fun c => map (fun p => (p, PC.id c)) (PC.prerequisites c)) components.

Lemma countZ_nonneg v l : (0 <= countZ v l)%Z.
Proof. unfold countZ. lia. Qed.

Lemma countZ_pos_In v l : (0 < countZ v l)%Z <-> In v l.
Proof.
  unfold countZ. rewrite (count_occ_In string_dec). lia.
Qed.

Lemma countZ_app v l l' : countZ v (l ++ l') = (countZ v l + countZ v l')%Z.
Proof. unfold countZ. rewrite count_occ_app. lia. Qed.

Lemma countZ_cons v x l :
  countZ v (x :: l) = ((if String.eqb x v then 1 else 0) + countZ v l)%Z.
Proof.
  unfold countZ. simpl. destruct (string_dec x v) as [->|Hne].
  - rewrite String.eqb_refl. lia.
  - apply String.eqb_neq in Hne. rewrite Hne. lia.
Qed.

Lemma total_ext f g K : (forall k, In k K -> f k = g k) -> total f K = total g K.
Proof.
  unfold total. induction K as [|k K IH]; intro H; simpl; auto.
  rewrite H, IH; auto; [intros; apply H; now right | now left].
Qed.

Lemma total_nonneg f K : (forall k, In k K -> 0 <= f k)%Z -> (0 <= total f K)%Z.
Proof.
  unfold total. induction K as [|k K IH]; intro H; simpl; [lia|].
  assert (0 <= f k)%Z by (apply H; now left).
  assert (0 <= fold_right Z.add 0 (map f K))%Z by (apply IH; intros; apply H; now right).
  lia.
Qed.

Lemma total_zero f K :
  (forall k, In k K -> 0 <= f k)%Z -> total f K = 0%Z -> forall k, In k K -> f k = 0%Z.
Proof.
  unfold total. induction K as [|x K IH]; intros Hpos Hsum k Hin; [contradiction|].
  simpl in Hsum.
  assert (0 <= f x)%Z by (apply Hpos; now left).
  assert (0 <= fold_right Z.add 0 (map f K))%Z.
  { apply (total_nonneg f K). intros; apply Hpos; now right. }
  destruct Hin as [->|Hin]; [lia|].
  apply IH; auto; [intros; apply Hpos; now right | lia].
Qed.

(** Changing the summand at one key of a duplicate-free key list. *)
Lemma total_update f g K k d :
  NoDup K -> In k K -> (forall p, p <> k -> g p = f p) -> g k = (f k + d)%Z ->
  total g K = (total f K + d)%Z.
Proof.
  unfold total. induction K as [|x K IH]; intros Hnd Hin Hoth Hk; [contradiction|].
  inversion Hnd as [|? ? Hnot Hnd']; subst. simpl.
  destruct (string_dec x k) as [->|Hne].
  - rewrite Hk. pose proof (total_ext g f K) as Hext. unfold total in Hext.
    rewrite Hext; [lia|].
    intros p Hp. apply Hoth. intros ->. contradiction.
  - destruct Hin as [Hin|Hin]; [contradiction|].
    rewrite Hoth by assumption. rewrite IH by assumption. lia.
Qed.

Lemma dget_Some_keys {V} (d : dict string V) k :
  In k (dkeys d) -> exists v, dget k d = Some v.
Proof.
  intro Hin. destruct (dget k d) as [v|] eqn:E; eauto.
  apply dget_None_keys in E. contradiction.
Qed.

Lemma dkeys_dset_present {V} (d : dict string V) k v :
  In k (dkeys d) -> dkeys (dset k v d) = dkeys d.
Proof.
  intro Hin. rewrite dkeys_dset. unfold dmem.
  destruct (dget_Some_keys d k Hin) as [v' ->]. reflexivity.
Qed.

Lemma dmem_keys {V} (d : dict string V) k : dmem k d = true <-> In k (dkeys d).
Proof.
  unfold dmem. destruct (dget k d) eqn:E.
  - split; auto. intros _. apply dget_In in E. now apply (in_map fst) in E.
  - split; [discriminate|]. intro Hin. apply dget_None_keys in E. contradiction.
Qed.

Lemma dkeys_fold_dset {A V W} (key : A -> string) (val : A -> V) (val' : A -> W)
    (l : list A) : forall (d : dict string V) (d' : dict string W),
  dkeys d = dkeys d' ->
  dkeys (fold_left (fun d x => dset (key x) (val x) d) l d)
  = dkeys (fold_left (fun d x => dset (key x) (val' x) d) l d').
Proof.
  induction l as [|x l IH]; intros d d' Hk; simpl; auto.
  apply IH. rewrite !dkeys_dset.
  assert (E : dmem (key x) d = dmem (key x) d').
  { destruct (dmem (key x) d) eqn:E1, (dmem (key x) d') eqn:E2; auto.
    - apply dmem_keys in E1. rewrite Hk in E1. apply dmem_keys in E1. congruence.
    - apply dmem_keys in E2. rewrite <- Hk in E2. apply dmem_keys in E2. congruence. }
  rewrite E, Hk. reflexivity.
Qed.

Lemma dkeys_dict_comp {A V W} (key : A -> string) (val : A -> V) (val' : A -> W) l :
  dkeys (dict_comp key val l) = dkeys (dict_comp key val' l).
Proof. unfold dict_comp. now apply dkeys_fold_dset. Qed.

(** What the linking loop maintains; [K] are the identifiers and [E] the
    edges met so far. *)
Record link_inv (K : list string) (graph : dict string (list string))
    (indeg : dict string Z) (E : list (string * string)) : Prop := {
  li_gkeys : dkeys graph = K;
  li_ikeys : dkeys indeg = K;
  li_graph : forall p v, In v (getitem [] graph p) <-> In (p, v) E;
  li_indeg : forall v,
    getitem 0%Z indeg v = total (fun p => countZ v (getitem [] graph p)) K
}.

Section Linking.
Variable by_id : dict string PC.t.
Variable K : list string.
Hypothesis K_NoDup : NoDup K.
Hypothesis by_id_keys : forall p, dmem p by_id = true <-> In p K.

Lemma link_prereqs_spec cid prs : forall graph indeg E,
  In cid K -> link_inv K graph indeg E ->
  match link_prereqs by_id cid prs graph indeg with
  | Ok (graph', indeg') =>
      (forall p, In p prs -> In p K) /\
      link_inv K graph' indeg' (E ++ map (fun p => (p, cid)) prs)
  | Raise e =>
      (exists p, In p prs /\ ~ In p K) /\ exists msg, e = ValueError msg
  | OutOfFuel => False
  end.
Proof.
  induction prs as [|pr prs IH]; intros graph indeg E Hcid Hinv; simpl.
  - rewrite app_nil_r. split; [contradiction|assumption].
  - destruct (dmem pr by_id) eqn:Hm; simpl.
    2:{ split; [|eauto]. exists pr. split; [now left|].
        intro Hin. apply by_id_keys in Hin. congruence. }
    apply by_id_keys in Hm.
    destruct Hinv as [Hgk Hik Hg Hd].
    destruct (dget_Some_keys graph pr) as [succs Hs]; [now rewrite Hgk|].
    destruct (dget_Some_keys indeg cid) as [d Hdg]; [now rewrite Hik|].
    rewrite Hs, Hdg.
    assert (Hsucc : getitem [] graph pr = succs) by (unfold getitem; now rewrite Hs).
    assert (Hdv : getitem 0%Z indeg cid = d) by (unfold getitem; now rewrite Hdg).
    assert (Hinv' : link_inv K (dset pr (succs ++ [cid]) graph) (dset cid (d + 1)%Z indeg)
                      (E ++ [(pr, cid)])).
    { constructor.
      - rewrite dkeys_dset_present; auto. now rewrite Hgk.
      - rewrite dkeys_dset_present; auto. now rewrite Hik.
      - intros p v. rewrite in_app_iff. destruct (string_dec p pr) as [->|Hne].
        + rewrite getitem_dset_same, in_app_iff, <- Hsucc, Hg. simpl.
          split; intros [H|[H|[]]]; auto; right; left; congruence.
        + rewrite getitem_dset_other by assumption. rewrite Hg. simpl.
          split; [auto|]. intros [H|[H|[]]]; auto. congruence.
      - intro v.
        rewrite (total_update (fun p => countZ v (getitem [] graph p))
                   (fun p => countZ v (getitem [] (dset pr (succs ++ [cid]) graph) p))
                   K pr (if String.eqb cid v then 1 else 0)%Z); auto.
        + rewrite <- Hd. destruct (String.eqb_spec cid v) as [<-|Hne].
          * rewrite getitem_dset_same. lia.
          * rewrite getitem_dset_other by congruence. lia.
        + intros p Hne. now rewrite getitem_dset_other.
        + rewrite getitem_dset_same, countZ_app, countZ_cons, Hsucc.
          change (countZ v []) with 0%Z. destruct (String.eqb cid v); lia. }
    specialize (IH _ _ _ Hcid Hinv').
    destruct (link_prereqs by_id cid prs _ _) as [[g' i']|e|].
    + destruct IH as [Hk Hl]. split.
      * intros p [<-|Hp]; auto.
      * simpl. rewrite <- app_assoc in Hl. exact Hl.
    + destruct IH as [(p & Hp & Hnk) Hmsg]. split; [|exact Hmsg].
      exists p. split; [now right|exact Hnk].
    + exact IH.
Qed.

Lemma link_components_spec cs : forall graph indeg E,
  (forall c, In c cs -> In (PC.id c) K) -> link_inv K graph indeg E ->
  match link_components by_id cs graph indeg with
  | Ok (graph', indeg') =>
      (forall c p, In c cs -> In p (PC.prerequisites c) -> In p K) /\
      link_inv K graph' indeg' (E ++ edges cs)
  | Raise e =>
      (exists c p, In c cs /\ In p (PC.prerequisites c) /\ ~ In p K) /\
      exists msg, e = ValueError msg
  | OutOfFuel => False
  end.
Proof.
  induction cs as [|c cs IH]; intros graph indeg E Hids Hinv; simpl.
  - rewrite app_nil_r. split; [contradiction|assumption].
  - pose proof (link_prereqs_spec (PC.id c) (PC.prerequisites c) graph indeg E
                  (Hids c (or_introl eq_refl)) Hinv) as H1.
    destruct (link_prereqs by_id (PC.id c) (PC.prerequisites c) graph indeg)
      as [[g1 i1]|e|].
    + destruct H1 as [Hk1 Hinv1].
      specialize (IH g1 i1 _ (fun c' Hc' => Hids c' (or_intror Hc')) Hinv1).
      destruct (link_components by_id cs g1 i1) as [[g2 i2]|e|].
      * destruct IH as [Hk2 Hinv2]. split.
        -- intros c' p [<-|Hc'] Hp; eauto.
        -- unfold edges in *. simpl. rewrite app_assoc. exact Hinv2.
      * destruct IH as [(c' & p & Hc' & Hp & Hnk) Hmsg]. split; [|exact Hmsg].
        exists c', p. repeat split; [now right|exact Hp|exact Hnk].
      * exact IH.
    + destruct H1 as [(p & Hp & Hnk) Hmsg]. split; [|exact Hmsg].
      exists c, p. repeat split; [now left|exact Hp|exact Hnk].
    + exact H1.
Qed.
End Linking.

(** ** Kahn's loop: what each pop maintains *)

(** In-degree still owed to [v]: the edges into [v] from identifiers not
    yet emitted. *)
Definition pending (graph : dict string (list string)) (K emitted : list string)
    (v : string) : Z :=
  total (fun p => if in_dec string_dec p emitted then 0%Z
                  else countZ v (getitem [] graph p)) K.

(** Every identifier of [ids] comes after all its predecessors. *)
Definition legal_ids (graph : dict string (list string)) (ids : list string) : Prop :=
  forall l1 v l2, ids = l1 ++ v :: l2 ->
  forall p, In v (getitem [] graph p) -> In p l1.

Lemma pending_nonneg graph K emitted v : (0 <= pending graph K emitted v)%Z.
Proof.
  apply total_nonneg. intros k _.
  destruct (in_dec string_dec k emitted); [lia|apply countZ_nonneg].
Qed.

Lemma getitem_keys {V} (dflt : V) (d : dict string V) k :
  getitem dflt d k <> dflt -> In k (dkeys d).
Proof.
  unfold getitem. destruct (dget k d) eqn:E; [|congruence].
  intros _. apply dget_In in E. now apply (in_map fst) in E.
Qed.

Section KahnLoop.
Variable by_id : dict string PC.t.
Variable graph : dict string (list string).
Variable K : list string.
Hypothesis K_NoDup : NoDup K.
Hypothesis by_id_ok : forall cid, In cid K ->
  exists c, dget cid by_id = Some c /\ PC.id c = cid.
Hypothesis graph_keys : dkeys graph = K.
Hypothesis targets_ok : forall p v, In v (getitem [] graph p) -> In v K.

Lemma sources_ok p v : In v (getitem [] graph p) -> In p K.
Proof.
  intro Hin. rewrite <- graph_keys. apply (getitem_keys []).
  intro E. rewrite E in Hin. contradiction.
Qed.

Record kahn_inv (indeg : dict string Z) (queue : list string) (out : list PC.t)
  : Prop := {
  ki_keys : dkeys indeg = K;
  ki_seen : seen_ok indeg (queue ++ map PC.id out);
  ki_sub : incl (queue ++ map PC.id out) K;
  ki_pending : forall v, getitem 0%Z indeg v = pending graph K (map PC.id out) v;
  ki_zero : forall v, In v K -> getitem 0%Z indeg v = 0%Z ->
            In v (queue ++ map PC.id out);
  ki_legal : legal_ids graph (map PC.id out);
  ki_out : forall c, In c out -> dget (PC.id c) by_id = Some c
}.

Lemma relax_spec rest nxts : forall indeg queue (f : string -> Z),
  dkeys indeg = K -> (forall v, In v nxts -> In v K) ->
  (forall v, getitem 0%Z indeg v = f v) ->
  (forall v, In v K -> getitem 0%Z indeg v = 0%Z -> In v (queue ++ rest)) ->
  exists indeg' queue',
    relax nxts indeg queue = Ok (indeg', queue') /\
    dkeys indeg' = K /\
    (forall v, getitem 0%Z indeg' v = (f v - countZ v nxts)%Z) /\
    (forall v, In v K -> getitem 0%Z indeg' v = 0%Z -> In v (queue' ++ rest)) /\
    incl queue' (queue ++ nxts).
Proof.
  induction nxts as [|nxt nxts IH]; intros indeg queue f Hk Hn Hf Hz; simpl.
  - exists indeg, queue. repeat split; auto.
    + intro v. rewrite Hf. change (countZ v []) with 0%Z. lia.
    + intros v Hv. apply in_or_app. now left.
  - destruct (dget_Some_keys indeg nxt) as [d Hd].
    { rewrite Hk. apply Hn. now left. }
    rewrite Hd.
    assert (Hdv : getitem 0%Z indeg nxt = d) by (unfold getitem; now rewrite Hd).
    set (queue1 := if (d - 1 =? 0)%Z then queue ++ [nxt] else queue).
    destruct (IH (dset nxt (d - 1)%Z indeg) queue1
                (fun v => (f v - (if String.eqb nxt v then 1 else 0))%Z))
      as (indeg' & queue' & Hrel & Hk' & Hf' & Hz' & Hsub).
    + rewrite dkeys_dset_present; auto. rewrite Hk. apply Hn. now left.
    + intros v Hv. apply Hn. now right.
    + intro v. destruct (String.eqb_spec nxt v) as [<-|Hne].
      * rewrite getitem_dset_same, <- Hf. lia.
      * rewrite getitem_dset_other by congruence. rewrite Hf. lia.
    + intros v Hv. destruct (string_dec v nxt) as [->|Hne].
      * rewrite getitem_dset_same. intro E. unfold queue1.
        apply Z.eqb_eq in E. rewrite E. rewrite <- app_assoc. apply in_or_app.
        right. now left.
      * rewrite getitem_dset_other by assumption. intro E.
        specialize (Hz v Hv E). unfold queue1.
        destruct (d - 1 =? 0)%Z; auto.
        apply in_app_or in Hz. rewrite <- app_assoc. apply in_or_app.
        destruct Hz; [now left|]. right. apply in_or_app. now right.
    + exists indeg', queue'. repeat split; auto.
      * intro v. rewrite Hf', countZ_cons. lia.
      * intros v Hv. specialize (Hsub v Hv). apply in_app_or in Hsub.
        apply in_or_app. destruct Hsub as [Hq|Hq].
        -- unfold queue1 in Hq. destruct (d - 1 =? 0)%Z; [|now left].
           apply in_app_or in Hq. destruct Hq as [Hq|[<-|[]]]; [now left|].
           right. now left.
        -- right. now right.
Qed.

Lemma pending_emit emitted cid v :
  In cid K -> ~ In cid emitted ->
  pending graph K (emitted ++ [cid]) v
  = (pending graph K emitted v - countZ v (getitem [] graph cid))%Z.
Proof.
  intros Hk Hnot. unfold pending.
  rewrite (total_update
             (fun p => if in_dec string_dec p emitted then 0%Z
                       else countZ v (getitem [] graph p))
             (fun p => if in_dec string_dec p (emitted ++ [cid]) then 0%Z
                       else countZ v (getitem [] graph p))
             K cid (- countZ v (getitem [] graph cid))%Z);
    [lia|exact K_NoDup|exact Hk| |].
  - intros p Hne.
    destruct (in_dec string_dec p (emitted ++ [cid])) as [Hi|Hn],
             (in_dec string_dec p emitted) as [Hi'|Hn']; auto.
    + apply in_app_or in Hi. destruct Hi as [Hi|[E|[]]]; [contradiction|congruence].
    + exfalso. apply Hn. apply in_or_app. now left.
  - destruct (in_dec string_dec cid (emitted ++ [cid])) as [Hi|Hn].
    + destruct (in_dec string_dec cid emitted); [contradiction|lia].
    + exfalso. apply Hn. apply in_or_app. right. now left.
Qed.

(** An identifier whose pending in-degree is zero has all its
    predecessors among the emitted ones. *)
Lemma pending_zero emitted v p :
  pending graph K emitted v = 0%Z -> In v (getitem [] graph p) -> In p emitted.
Proof.
  intros Hz Hin. pose proof (sources_ok _ _ Hin) as Hp.
  pose proof (total_zero _ K
                (fun k _ => match in_dec string_dec k emitted as s
                              return (0 <= if s then 0 else countZ v (getitem [] graph k))%Z
                            with left _ => Z.le_refl 0 | right _ => countZ_nonneg _ _ end)
                Hz p Hp) as E.
  cbv beta in E. destruct (in_dec string_dec p emitted); auto.
  apply countZ_pos_In in Hin. lia.
Qed.

Lemma legal_ids_snoc ids cid :
  legal_ids graph ids ->
  (forall p, In cid (getitem [] graph p) -> In p ids) ->
  legal_ids graph (ids ++ [cid]).
Proof.
  intros Hleg Hcid l1 v l2 Heq p Hp.
  destruct (exists_last (l := v :: l2)) as (l2' & z & E); [discriminate|].
  rewrite E, app_assoc in Heq. apply app_inj_tail in Heq. destruct Heq as [Hids ->].
  destruct l2' as [|v' l2'].
  - simpl in E. injection E as -> ->. rewrite app_nil_r in Hids. subst ids.
    now apply Hcid.
  - simpl in E. injection E as <- E. apply (Hleg l1 v l2'); auto.
Qed.

Lemma kahn_loop_spec : forall fuel indeg queue out,
  kahn_inv indeg queue out ->
  (List.length K < fuel + List.length out)%nat ->
  exists res indeg',
    kahn_loop fuel by_id graph indeg queue out = Ok res /\ kahn_inv indeg' [] res.
Proof.
  induction fuel as [|fuel IH]; intros indeg queue out Hinv Hfuel.
  - destruct queue as [|cid queue]; simpl; [eauto|].
    exfalso. destruct Hinv as [_ [Hnd _] Hsub _ _ _ _].
    pose proof (NoDup_incl_length Hnd Hsub) as Hlen.
    simpl in Hlen. rewrite length_app, length_map in Hlen. lia.
  - destruct queue as [|cid queue]; simpl; [eauto|].
    destruct Hinv as [Hk Hseen Hsub Hpend Hzero Hleg Hout].
    assert (HcidK : In cid K) by (apply Hsub; now left).
    destruct (by_id_ok cid HcidK) as (c & Hc & Hid). rewrite Hc.
    destruct (dget_Some_keys graph cid) as [succs Hs]; [now rewrite graph_keys|].
    rewrite Hs.
    assert (Hsucc : getitem [] graph cid = succs) by (unfold getitem; now rewrite Hs).
    assert (Hfresh : ~ In cid (map PC.id out)).
    { destruct Hseen as [Hnd _]. simpl in Hnd. inversion Hnd as [|? ? Hnot _]; subst.
      intro Hin. apply Hnot. apply in_or_app. now right. }
    destruct (relax_spec (cid :: map PC.id out) succs indeg queue
                (pending graph K (map PC.id out)))
      as (indeg' & queue' & Hrel & Hk' & Hf' & Hz' & Hq'); auto.
    { intros v Hv. apply (targets_ok cid). now rewrite Hsucc. }
    { intros v Hv E. specialize (Hzero v Hv E). simpl in Hzero.
      destruct Hzero as [<-|Hin].
      - apply in_or_app. right. now left.
      - apply in_app_or in Hin. apply in_or_app.
        destruct Hin; [now left|]. right. now right. }
    rewrite Hrel. apply IH.
    + assert (Hids : map PC.id (out ++ [c]) = map PC.id out ++ [cid]).
      { rewrite map_app. simpl. now rewrite Hid. }
      constructor; auto.
      * apply (relax_seen _ _ _ _ _ _ Hrel). rewrite Hids.
        eapply seen_ok_perm; [|exact Hseen].
        simpl. rewrite app_assoc. apply Permutation_cons_append.
      * rewrite Hids. intros v Hv. apply in_app_or in Hv. destruct Hv as [Hv|Hv].
        -- specialize (Hq' v Hv). apply in_app_or in Hq'. destruct Hq' as [Hq|Hq].
           ++ apply Hsub. right. apply in_or_app. now left.
           ++ apply (targets_ok cid). now rewrite Hsucc.
        -- apply in_app_or in Hv. destruct Hv as [Hv|[<-|[]]]; auto.
           apply Hsub. right. apply in_or_app. now right.
      * intro v. rewrite Hf', Hids, pending_emit, Hsucc; auto.
      * intros v Hv E. specialize (Hz' v Hv E). rewrite Hids.
        apply in_app_or in Hz'. apply in_or_app. destruct Hz' as [Hi|[<-|Hi]].
        -- now left.
        -- right. apply in_or_app. right. now left.
        -- right. apply in_or_app. now left.
      * rewrite Hids. apply legal_ids_snoc; auto.
        intros p Hp. apply (pending_zero _ cid); auto.
        destruct Hseen as [_ Hall]. destruct (Hall cid (or_introl eq_refl)) as (d & Hd & Hle).
        pose proof (Hpend cid) as E. unfold getitem in E. rewrite Hd in E.
        pose proof (pending_nonneg graph K (map PC.id out) cid). lia.
      * intros c' Hc'. apply in_app_or in Hc'. destruct Hc' as [Hc'|[<-|[]]]; auto.
        now rewrite Hid.
    + rewrite length_app. simpl. lia.
Qed.

Lemma total_pos_witness f L :
  (0 < total f L)%Z -> exists k, In k L /\ (0 < f k)%Z.
Proof.
  unfold total. induction L as [|x L IH]; simpl; [lia|]. intro Hpos.
  destruct (Z_lt_le_dec 0 (f x)) as [Hx|Hx].
  - exists x. auto.
  - destruct IH as (k & Hk & Hfk); [lia|]. exists k. auto.
Qed.

(** When the queue is empty, an identifier that was not emitted still
    has a predecessor that was not emitted. *)
Lemma kahn_stuck indeg res v :
  kahn_inv indeg [] res -> In v K -> ~ In v (map PC.id res) ->
  exists p, In p K /\ ~ In p (map PC.id res) /\ In v (getitem [] graph p).
Proof.
  intros [_ _ _ Hpend Hzero _ _] Hv Hnot.
  assert (Hpos : (0 < pending graph K (map PC.id res) v)%Z).
  { pose proof (pending_nonneg graph K (map PC.id res) v) as Hge.
    destruct (Z.eq_dec (pending graph K (map PC.id res) v) 0) as [E|E]; [|lia].
    exfalso. apply Hnot. apply (Hzero v Hv). now rewrite Hpend. }
  apply total_pos_witness in Hpos. destruct Hpos as (p & Hp & Hfp).
  exists p. destruct (in_dec string_dec p (map PC.id res)); [lia|].
  repeat split; auto. now apply countZ_pos_In.
Qed.
End KahnLoop.

(** ** Paths and cycles *)

Section Cycles.
Variable R : string -> string -> Prop.

Fixpoint chain (l : list string) : Prop :=
  match l with
  | a :: (b :: _) as t => R a b /\ chain t
  | _ => True
  end.

Lemma chain_app_r l1 l2 : chain (l1 ++ l2) -> chain l2.
Proof.
  induction l1 as [|a l1 IH]; simpl; auto.
  destruct (l1 ++ l2) eqn:E; [|tauto].
  intros _. apply app_eq_nil in E. destruct E as [_ ->]. exact I.
Qed.

Lemma chain_app_l l1 l2 : chain (l1 ++ l2) -> chain l1.
Proof.
  induction l1 as [|a l1 IH]; [simpl; auto|].
  destruct l1 as [|b l1]; [simpl; auto|].
  intros [Hab Hc]. split; [exact Hab|]. apply IH. exact Hc.
Qed.

Lemma chain_path l : forall a b, chain (a :: l ++ [b]) -> clos_trans string R a b.
Proof.
  induction l as [|x l IH]; intros a b; simpl.
  - intros [Hab _]. now apply t_step.
  - intros [Hax Hc]. eapply t_trans; [apply t_step; exact Hax|]. now apply IH.
Qed.

Lemma chain_cycle l : chain l -> ~ NoDup l -> exists x, clos_trans string R x x.
Proof.
  intros Hc Hnd. apply not_NoDup in Hnd.
  2:{ intros x y. destruct (string_dec x y); [now left|now right]. }
  destruct Hnd as (a & l1 & l2 & l3 & ->).
  apply chain_app_r in Hc.
  change (a :: l2 ++ a :: l3) with ((a :: l2) ++ [a] ++ l3) in Hc.
  rewrite app_assoc in Hc. apply chain_app_l in Hc.
  exists a. now apply (chain_path l2).
Qed.

(** Walking backwards inside a set where everyone has a predecessor. *)
Lemma backwards_chain (U : string -> Prop) :
  (forall u, U u -> exists p, U p /\ R p u) ->
  forall u, U u -> forall n, exists h t,
    List.length (h :: t) = S n /\ chain (h :: t) /\ Forall U (h :: t).
Proof.
  intros Hpred u Hu. induction n as [|n IH].
  - exists u, []. repeat split; auto.
  - destruct IH as (h & t & Hlen & Hc & Hall).
    inversion Hall as [|? ? Hh _]; subst.
    destruct (Hpred h Hh) as (p & Hp & Hph).
    exists p, (h :: t). repeat split; auto. simpl in *. lia.
Qed.

(** A non-empty finite set in which everyone has a predecessor holds a
    cycle. *)
Lemma no_source_cycle (L : list string) (U : string -> Prop) :
  (forall u, U u -> In u L) -> (exists u, U u) ->
  (forall u, U u -> exists p, U p /\ R p u) ->
  exists x, clos_trans string R x x.
Proof.
  intros Hsub [u Hu] Hpred.
  destruct (backwards_chain U Hpred u Hu (List.length L)) as (h & t & Hlen & Hc & Hall).
  apply (chain_cycle (h :: t)); auto.
  intro Hnd. assert (Hincl : incl (h :: t) L).
  { intros x Hx. apply Hsub. rewrite Forall_forall in Hall. now apply Hall. }
  pose proof (NoDup_incl_length Hnd Hincl). lia.
Qed.

(** A strictly increasing position function rules cycles out. *)
Lemma ranked_acyclic (pos : string -> nat) :
  (forall a b, R a b -> (pos a < pos b)%nat) ->
  forall x, ~ clos_trans string R x x.
Proof.
  intros Hpos x Hc.
  assert (G : forall a b, clos_trans string R a b -> (pos a < pos b)%nat).
  { intros a b H. induction H as [a b H|a b c _ IH1 _ IH2]; [auto|lia]. }
  specialize (G x x Hc). lia.
Qed.
End Cycles.

(** ** Kahn's algorithm: the result of [_topological_order] *)

(** [p] is listed as a prerequisite by a component with identifier [v]. *)
Definition edge (components : list PC.t) (p v : string) : Prop :=
  exists c, In c components /\ PC.id c = v /\ In p (PC.prerequisites c).

(** Every prerequisite named is the identifier of a component. *)
Definition known (components : list PC.t) : Prop :=
  forall c p, In c components -> In p (PC.prerequisites c) ->
  In p (map PC.id components).

Definition cyclic (components : list PC.t) : Prop :=
  exists v, clos_trans string (edge components) v v.

(** Every component comes after the components its prerequisites name. *)
Definition topo_legal (topo : list PC.t) : Prop :=
  forall l1 c l2, topo = l1 ++ c :: l2 ->
  forall p, In p (PC.prerequisites c) -> In p (map PC.id l1).

Fixpoint index_of (v : string) (l : list string) : nat :=
  match l with
  | [] => O
  | x :: l' => if String.eqb x v then O else S (index_of v l')
  end.

Lemma in_edges components p v : In (p, v) (edges components) <-> edge components p v.
Proof.
  unfold edges, edge. rewrite in_flat_map. split.
  - intros (c & Hc & Hin). apply in_map_iff in Hin.
    destruct Hin as (p' & [= -> <-] & Hp). eauto.
  - intros (c & Hc & <- & Hp). exists c. split; auto.
    apply in_map_iff. eauto.
Qed.

Lemma index_of_lt v l : In v l -> (index_of v l < List.length l)%nat.
Proof.
  induction l as [|x l IH]; simpl; [contradiction|].
  destruct (String.eqb_spec x v) as [->|Hne]; [lia|].
  intros [E|Hin]; [contradiction|]. specialize (IH Hin). lia.
Qed.

Lemma index_of_app_l v l1 l2 : In v l1 -> index_of v (l1 ++ l2) = index_of v l1.
Proof.
  induction l1 as [|x l1 IH]; simpl; [contradiction|].
  destruct (String.eqb_spec x v) as [->|Hne]; auto.
  intros [E|Hin]; [contradiction|]. now rewrite IH.
Qed.

Lemma index_of_middle v l1 l2 :
  ~ In v l1 -> index_of v (l1 ++ v :: l2) = List.length l1.
Proof.
  induction l1 as [|x l1 IH]; simpl; intro Hnot.
  - now rewrite String.eqb_refl.
  - destruct (String.eqb_spec x v) as [->|Hne]; [exfalso; auto|].
    rewrite IH; auto.
Qed.

Lemma total_const_zero (f : string -> Z) L : (forall k, f k = 0%Z) -> total f L = 0%Z.
Proof.
  intro Hf. unfold total. induction L as [|x L IH]; simpl; auto.
  rewrite Hf, IH. reflexivity.
Qed.

Lemma link_inv_initial (components : list PC.t) :
  link_inv (dkeys (dict_comp PC.id (fun c => c) components))
    (dict_comp PC.id (fun _ => @nil string) components)
    (dict_comp PC.id (fun _ => 0%Z) components) [].
Proof.
  constructor.
  - apply dkeys_dict_comp.
  - apply dkeys_dict_comp.
  - intros p v. rewrite getitem_dict_comp_const. simpl. tauto.
  - intro v. rewrite getitem_dict_comp_const.
    symmetry. apply total_const_zero. intro k.
    now rewrite getitem_dict_comp_const.
Qed.

Lemma missing_element (l l' : list string) :
  (List.length l < List.length l')%nat -> NoDup l' ->
  exists x, In x l' /\ ~ In x l.
Proof.
  intros Hlen Hnd.
  destruct (Forall_Exists_dec (fun x => In x l) (fun x => in_dec string_dec x l) l')
    as [Hall|Hex].
  - exfalso. rewrite Forall_forall in Hall.
    pose proof (NoDup_incl_length Hnd Hall). lia.
  - apply Exists_exists in Hex. exact Hex.
Qed.

Lemma kahn_inv_initial by_id graph K indeg E :
  NoDup K -> link_inv K graph indeg E ->
  kahn_inv by_id graph K indeg
    (map fst (filter (fun kd => (snd kd =? 0)%Z) indeg)) [].
Proof.
  intros HK [Hgk Hik Hg Hd].
  assert (Hnd : NoDup (dkeys indeg)) by now rewrite Hik.
  constructor; simpl; rewrite ?app_nil_r.
  - exact Hik.
  - split.
    + now apply NoDup_map_fst_filter.
    + intros v Hv. apply in_map_iff in Hv. destruct Hv as ([k d] & <- & Hkd).
      apply filter_In in Hkd. destruct Hkd as [Hkd Hz]. simpl in *.
      apply Z.eqb_eq in Hz. subst d. exists 0%Z. split; [|lia].
      now apply In_dget.
  - intros v Hv. rewrite <- Hik. apply in_map_iff in Hv.
    destruct Hv as ([k d] & <- & Hkd). apply filter_In in Hkd.
    destruct Hkd as [Hkd _]. now apply (in_map fst) in Hkd.
  - intro v. rewrite Hd. unfold pending. apply total_ext. intros k _.
    destruct (in_dec string_dec k []) as [[]|_]. reflexivity.
  - intros v Hv E0. rewrite <- Hik in Hv.
    destruct (dget_Some_keys indeg v Hv) as [d Hdg].
    unfold getitem in E0. rewrite Hdg in E0. subst d.
    apply dget_In in Hdg. apply in_map_iff. exists (v, 0%Z). split; auto.
    apply filter_In. split; auto.
  - intros l1 v l2 Heq. destruct l1; discriminate.
  - intros c [].
Qed.

(** The whole of [_topological_order]: it returns a legal order of all
    the components when the identifiers are pairwise distinct, the
    prerequisites known and the graph acyclic, raises [ValueError]
    otherwise, and the loop never needs more than one pop per
    component. *)
Lemma topological_order_spec components :
  match _topological_order components with
  | Ok topo =>
      NoDup (map PC.id components) /\ known components /\ ~ cyclic components /\
      Permutation topo components /\ topo_legal topo
  | Raise e =>
      (exists msg, e = ValueError msg) /\
      (~ NoDup (map PC.id components) \/ ~ known components \/ cyclic components)
  | OutOfFuel => False
  end.
Proof.
  unfold _topological_order.
  set (by_id := dict_comp PC.id (fun c => c) components).
  set (K := dkeys by_id).
  assert (HK : NoDup K) by apply NoDup_dkeys_dict_comp.
  assert (HKid : forall p, In p K <-> In p (map PC.id components)).
  { intro p. unfold K. rewrite <- dmem_keys. apply dmem_dict_comp. }
  assert (Hmem : forall p, dmem p by_id = true <-> In p K).
  { intro p. apply dmem_keys. }
  pose proof (link_components_spec by_id K HK Hmem components _ _ []
                (fun c Hc => proj2 (HKid _) (in_map PC.id _ _ Hc))
                (link_inv_initial components)) as Hlink.
  destruct (link_components by_id components _ _) as [[graph indeg]|e|].
  2:{ destruct Hlink as [(c & p & Hc & Hp & Hnk) Hmsg]. split; [exact Hmsg|].
      right; left. intro Hkn. apply Hnk, HKid. eapply Hkn; eauto. }
  2:{ exact Hlink. }
  destruct Hlink as [Hknown Hinv]. simpl in Hinv.
  assert (Hkn : known components).
  { intros c p Hc Hp. apply HKid. eauto. }
  assert (Hby : forall cid, In cid K ->
                  exists c, dget cid by_id = Some c /\ PC.id c = cid).
  { intros cid Hcid. destruct (dget_Some_keys by_id cid Hcid) as [c Hc].
    exists c. split; auto.
    apply dget_dict_comp in Hc. destruct Hc as (x & _ & Hk & <-). exact Hk. }
  assert (Hgk : dkeys graph = K) by apply Hinv.
  assert (Hedge : forall p v, In v (getitem [] graph p) <-> edge components p v).
  { intros p v. rewrite <- in_edges. apply Hinv. }
  assert (Htgt : forall p v, In v (getitem [] graph p) -> In v K).
  { intros p v Hv. apply Hedge in Hv. destruct Hv as (c & Hc & <- & _).
    apply HKid. now apply in_map. }
  assert (HlenK : (List.length K <= List.length components)%nat).
  { rewrite <- (length_map PC.id components). apply NoDup_incl_length; auto.
    intro p. apply HKid. }
  destruct (kahn_loop_spec by_id graph K HK Hby Hgk Htgt
              (S (List.length components)) indeg _ []
              (kahn_inv_initial by_id graph K indeg _ HK Hinv))
    as (res & indeg' & Hloop & Hfin).
  { simpl. lia. }
  rewrite Hloop.
  pose proof Hfin as [_ [Hnd _] Hsub _ _ Hleg Hout].
  simpl in Hnd, Hsub.
  assert (Hres : forall c, In c res -> In c components).
  { intros c Hc. apply Hout in Hc. apply dget_dict_comp in Hc.
    destruct Hc as (x & Hx & _ & <-). exact Hx. }
  destruct (List.length res =? List.length components)%nat eqn:Hlen; simpl.
  - apply Nat.eqb_eq in Hlen.
    assert (Hids : NoDup (map PC.id components)).
    { apply NoDup_incl_NoDup with (l := map PC.id res); auto.
      - rewrite !length_map. lia.
      - intros v Hv. apply HKid, Hsub. exact Hv. }
    assert (Hperm : Permutation res components).
    { apply NoDup_Permutation_bis; auto; [eapply NoDup_map_inv; eauto | lia]. }
    assert (Hlegal : topo_legal res).
    { intros l1 c l2 Heq p Hp.
      apply (Hleg (map PC.id l1) (PC.id c) (map PC.id l2)).
      - rewrite Heq, map_app. reflexivity.
      - apply Hedge. exists c. repeat split; auto.
        apply Hres. rewrite Heq. apply in_or_app. right. now left. }
    repeat split; auto.
    intros [v Hcyc]. revert Hcyc.
    apply (ranked_acyclic (edge components) (fun x => index_of x (map PC.id res))).
    intros a b (c & Hc & <- & Hp).
    assert (Hcr : In c res) by (eapply Permutation_in; [symmetry|]; eauto).
    destruct (in_split _ _ Hcr) as (l1 & l2 & Heq).
    pose proof (Hlegal _ _ _ Heq _ Hp) as Ha.
    rewrite Heq, map_app. simpl.
    rewrite index_of_middle.
    + rewrite index_of_app_l by assumption. now apply index_of_lt.
    + rewrite Heq, map_app in Hnd. simpl in Hnd. apply NoDup_remove_2 in Hnd.
      intro Hin. apply Hnd. apply in_or_app. now left.
  - split; [eauto|]. apply Nat.eqb_neq in Hlen.
    destruct (NoDup_dec string_dec (map PC.id components)) as [Hids|Hids]; [|now left].
    right; right.
    assert (HlenK' : List.length K = List.length components).
    { apply Nat.le_antisymm; auto. rewrite <- (length_map PC.id components).
      apply NoDup_incl_length; auto. intro p. apply HKid. }
    assert (Hlt : (List.length (map PC.id res) < List.length K)%nat).
    { pose proof (NoDup_incl_length Hnd Hsub) as Hle.
      rewrite length_map in *. lia. }
    destruct (missing_element _ _ Hlt HK) as (u & HuK & Hu).
    apply (no_source_cycle (edge components) K
             (fun u => In u K /\ ~ In u (map PC.id res))).
    + tauto.
    + eauto.
    + intros x [HxK Hx].
      destruct (kahn_stuck by_id graph K indeg' res x Hfin HxK Hx)
        as (p & HpK & Hp & Hin).
      exists p. repeat split; auto. now apply Hedge.
Qed.

(** ** The stable sort keeps the order of elements it need not swap *)

(** [a] occurs in [l] at a position before an occurrence of [b]. *)
Inductive before {A} : list A -> A -> A -> Prop :=
| before_here a b l : In b l -> before (a :: l) a b
| before_later x a b l : before l a b -> before (x :: l) a b.

Lemma before_In_r {A} (l : list A) a b : before l a b -> In b l.
Proof. induction 1; simpl; auto. Qed.

Lemma before_split_l {A} (l1 l2 : list A) a c :
  ~ In c l2 -> before (l1 ++ c :: l2) a c -> In a l1.
Proof.
  intro Hnot. induction l1 as [|x l1 IH]; simpl; intro Hb.
  - exfalso. apply Hnot. inversion Hb; subst; auto. eapply before_In_r; eauto.
  - inversion Hb; subst; auto.
Qed.

Lemma before_split_r {A} (l1 l2 : list A) c b :
  ~ In c l1 -> before (l1 ++ c :: l2) c b -> In b l2.
Proof.
  induction l1 as [|x l1 IH]; simpl; intros Hnot Hb.
  - inversion Hb; subst; auto. eapply before_In_r; eauto.
  - inversion Hb; subst; [exfalso; auto|]. apply IH; auto.
Qed.

Lemma before_of_split {A} (l1 l2 : list A) a b :
  In a l1 -> before (l1 ++ b :: l2) a b.
Proof.
  induction l1 as [|x l1 IH]; simpl; [contradiction|]. intro Hin.
  assert (Hb : In b (l1 ++ b :: l2)) by (apply in_or_app; right; now left).
  destruct l1 as [|y l1].
  - destruct Hin as [->|[]]. now apply before_here.
  - destruct Hin as [->|Hin]; [now apply before_here|].
    apply before_later. now apply IH.
Qed.

Section StableSort.
Context {A : Type} (key : A -> Z).
Let lt (a b : A) : bool := (key a <? key b)%Z.

Fixpoint ascending (l : list A) : Prop :=
  match l with
  | [] => True
  | y :: l' => (forall z, In z l' -> (key y <= key z)%Z) /\ ascending l'
  end.

Lemma insert_by_before_keep x s a b :
  before s a b -> before (insert_by lt x s) a b.
Proof.
  induction s as [|y s IH]; simpl; intro Hb.
  - inversion Hb.
  - destruct (lt y x).
    + inversion Hb; subst.
      * apply before_here. apply insert_by_In. now right.
      * apply before_later. now apply IH.
    + now apply before_later.
Qed.

(** An element goes before the ones it does not strictly follow. *)
Lemma insert_by_before_new x s b :
  In b s -> (key x <= key b)%Z -> before (insert_by lt x s) x b.
Proof.
  induction s as [|y s IH]; simpl; [contradiction|]. intros Hin Hle.
  destruct (lt y x) eqn:E.
  - unfold lt in E. apply Z.ltb_lt in E.
    destruct Hin as [->|Hin]; [lia|]. apply before_later. now apply IH.
  - now apply before_here.
Qed.

Lemma insert_by_ascending x s : ascending s -> ascending (insert_by lt x s).
Proof.
  induction s as [|y s IH]; simpl; [intros _; split; [intros z []|exact I]|].
  intros [Hy Hs]. destruct (lt y x) eqn:E; unfold lt in E.
  - apply Z.ltb_lt in E. simpl. split; [|now apply IH].
    intros z Hz. apply insert_by_In in Hz. destruct Hz as [->|Hz]; [lia|auto].
  - apply Z.ltb_ge in E. simpl. repeat split; auto.
    intros z [<-|Hz]; [lia|]. specialize (Hy z Hz). lia.
Qed.

Lemma sorted_by_ascending l : ascending (sorted_by lt l).
Proof.
  induction l as [|x l IH]; simpl; [exact I|]. now apply insert_by_ascending.
Qed.

(** In an ascending list an element goes after the strictly smaller
    ones. *)
Lemma insert_by_after_smaller x s a :
  ascending s -> In a s -> (key a < key x)%Z -> before (insert_by lt x s) a x.
Proof.
  induction s as [|y s IH]; simpl; [contradiction|]. intros [Hy Hs] Hin Hlt.
  destruct (lt y x) eqn:E; unfold lt in E.
  - destruct Hin as [->|Hin].
    + apply before_here. apply insert_by_In. now left.
    + apply before_later. now apply IH.
  - apply Z.ltb_ge in E. exfalso. destruct Hin as [->|Hin]; [lia|].
    specialize (Hy a Hin). lia.
Qed.

(** Stability: elements in order stay in order. *)
Lemma sorted_by_stable l a b :
  before l a b -> (key a <= key b)%Z -> before (sorted_by lt l) a b.
Proof.
  intros Hb Hle. induction Hb as [a b l Hin|x a b l Hb IH]; simpl.
  - apply insert_by_before_new; auto. now apply sorted_by_In.
  - apply insert_by_before_keep. now apply IH.
Qed.

(** Sortedness: a strictly smaller key comes first. *)
Lemma sorted_by_strict l a b :
  In a l -> In b l -> (key a < key b)%Z -> before (sorted_by lt l) a b.
Proof.
  induction l as [|x l IH]; simpl; [contradiction|]. intros Ha Hb Hlt.
  destruct Ha as [->|Ha], Hb as [->|Hb].
  - lia.
  - apply insert_by_before_new; [now apply sorted_by_In|lia].
  - apply insert_by_after_smaller; auto; [apply sorted_by_ascending|].
    now apply sorted_by_In.
  - apply insert_by_before_keep. now apply IH.
Qed.
End StableSort.

(* ================================================================= *)
(** * C7: the scanned order against the prerequisite graph *)

(** C7, counterexample: C2 lists C1 as prerequisite and the genome ranks
    C2 first.  The prerequisites are known and acyclic, the topological
    sort returns C1, C2, and the stable sort by genome rank turns it into
    C2, C1: C2 is scanned before its prerequisite. *)
Lemma scanned_order_counterexample :
  NoDup (map PC.id [ex_C1; ex_C2]) /\ known [ex_C1; ex_C2] /\
  ~ cyclic [ex_C1; ex_C2] /\
  exists topo,
    _topological_order [ex_C1; ex_C2] = Ok topo /\
    comp_order_of ["C2"; "C1"] topo = [ex_C2; ex_C1] /\
    ~ topo_legal (comp_order_of ["C2"; "C1"] topo).
Proof.
  pose proof (topological_order_spec [ex_C1; ex_C2]) as H.
  assert (E : _topological_order [ex_C1; ex_C2] = Ok [ex_C1; ex_C2])
    by (vm_compute; reflexivity).
  rewrite E in H. destruct H as (Hnd & Hkn & Hac & _ & _).
  repeat split; auto. exists [ex_C1; ex_C2].
  assert (Eo : comp_order_of ["C2"; "C1"] [ex_C1; ex_C2] = [ex_C2; ex_C1])
    by (vm_compute; reflexivity).
  repeat split; auto. rewrite Eo. intro Hleg.
  exact (Hleg [] ex_C2 [ex_C1] eq_refl "C1" (or_introl eq_refl)).
Qed.

(** C7 (amended). For components with pairwise distinct identifiers and
    known, acyclic prerequisites the topological sort succeeds, and for
    every genome the list the decoder scans (the topological order sorted
    stably by genome rank) holds every component once; in it a component
    comes after each of its prerequisites whose rank is not greater than
    its own, and before each prerequisite of greater rank. *)
Theorem scanned_order_legality components genome :
  NoDup (map PC.id components) -> known components -> ~ cyclic components ->
  exists topo,
    _topological_order components = Ok topo /\
    Permutation (comp_order_of genome topo) components /\
    forall l1 c l2, comp_order_of genome topo = l1 ++ c :: l2 ->
    forall p, In p (PC.prerequisites c) ->
      ((rank_get genome p <= rank_get genome (PC.id c))%Z -> In p (map PC.id l1)) /\
      ((rank_get genome (PC.id c) < rank_get genome p)%Z -> In p (map PC.id l2)).
Proof.
  intros Hnd Hkn Hac.
  pose proof (topological_order_spec components) as H.
  destruct (_topological_order components) as [topo|e|].
  2:{ exfalso. destruct H as [_ [H|[H|H]]]; auto. }
  2:{ contradiction. }
  destruct H as (_ & _ & _ & Hperm & Hleg).
  exists topo. split; [reflexivity|].
  assert (Hpo : Permutation topo (comp_order_of genome topo)) by apply sorted_by_perm.
  split; [etransitivity; [symmetry; exact Hpo|exact Hperm]|].
  intros l1 c l2 Heq p Hp.
  assert (Hndo : NoDup (map PC.id (comp_order_of genome topo))).
  { eapply Permutation_NoDup; [|exact Hnd]. symmetry. apply Permutation_map.
    etransitivity; [symmetry; exact Hpo|exact Hperm]. }
  assert (Hc : In c topo).
  { eapply Permutation_in; [symmetry; exact Hpo|]. rewrite Heq.
    apply in_or_app. right. now left. }
  destruct (in_split _ _ Hc) as (t1 & t2 & Ht).
  pose proof (Hleg _ _ _ Ht _ Hp) as Hin. apply in_map_iff in Hin.
  destruct Hin as (cp & <- & Hcp).
  assert (Hcpt : In cp topo) by (rewrite Ht; apply in_or_app; now left).
  assert (Hbt : before topo cp c) by (rewrite Ht; now apply before_of_split).
  assert (Hfresh : ~ In c l1 /\ ~ In c l2).
  { rewrite Heq, map_app in Hndo. simpl in Hndo. apply NoDup_remove_2 in Hndo.
    split; intro Hi; apply Hndo; apply in_or_app; [left|right]; now apply in_map. }
  destruct Hfresh as [Hc1 Hc2].
  split; intro Hr; apply in_map.
  - apply (before_split_l l1 l2 cp c Hc2). rewrite <- Heq.
    now apply (sorted_by_stable (fun x => rank_get genome (PC.id x))).
  - apply (before_split_r l1 l2 c cp Hc1). rewrite <- Heq.
    now apply (sorted_by_strict (fun x => rank_get genome (PC.id x))).
Qed.

Lemma scanned_order_legality_witness :
  exists topo,
    _topological_order [ex_C1; ex_C2] = Ok topo /\
    Permutation (comp_order_of ["C1"; "C2"] topo) [ex_C1; ex_C2] /\
    forall l1 c l2, comp_order_of ["C1"; "C2"] topo = l1 ++ c :: l2 ->
    forall p, In p (PC.prerequisites c) ->
      ((rank_get ["C1"; "C2"] p <= rank_get ["C1"; "C2"] (PC.id c))%Z ->
       In p (map PC.id l1)) /\
      ((rank_get ["C1"; "C2"] (PC.id c) < rank_get ["C1"; "C2"] p)%Z ->
       In p (map PC.id l2)).
Proof.
  apply (scanned_order_legality [ex_C1; ex_C2] ["C1"; "C2"]).
  - repeat constructor; simpl; intuition discriminate.
  - intros c p [<-|[<-|[]]]; simpl; intuition.
  - pose proof (topological_order_spec [ex_C1; ex_C2]) as H.
    assert (E : _topological_order [ex_C1; ex_C2] = Ok [ex_C1; ex_C2])
      by (vm_compute; reflexivity).
    rewrite E in H. apply H.
Defined.

(* ================================================================= *)
(** * Termination of the slot loop *)

(** How many waits of more than [EPS] still fit before [cap]. *)
Definition wait_budget (cap t : Q) : nat := Z.to_nat (Qfloor ((cap - t) / EPS)).

(** A machine that is not done can still be marked done once and wait
    [wait_budget] times. *)
Definition machine_weight (st : S.state) (mid : string) : nat :=
  if getitem false (S.done st) mid then O
  else S (wait_budget (getitem 0 (S.usable st) mid) (getitem 0 (S.t st) mid)).

(** The pieces still to produce. *)
Definition work_left (remaining : dict string Z) : nat :=
  fold_right Nat.add O (map (fun kv => Z.to_nat (snd kv)) remaining).

Definition machines_weight (machines : list Machine.t) (st : S.state) : nat :=
  fold_right Nat.add O (map (fun m => machine_weight st (Machine.id m)) machines).

(** The measure every slot iteration decreases. *)
Definition slot_measure (machines : list Machine.t) (st : S.state) : nat :=
  (machines_weight machines st + work_left (S.remaining st))%nat.

Lemma div_EPS_le a b : a <= b -> a / EPS <= b / EPS.
Proof.
  intro H. unfold Qdiv. apply Qmult_le_compat_r; [exact H|].
  unfold EPS. discriminate.
Qed.

Lemma div_EPS_shift a b : a + EPS < b -> a / EPS + 1 < b / EPS.
Proof.
  intro H. unfold Qdiv, EPS in *.
  change (/ (1 # 1000000000)) with (1000000000 # 1). lra.
Qed.

Lemma wait_budget_mono cap t t' :
  t <= t' -> (wait_budget cap t' <= wait_budget cap t)%nat.
Proof.
  intro H. unfold wait_budget.
  assert (Hf : (Qfloor ((cap - t') / EPS) <= Qfloor ((cap - t) / EPS))%Z).
  { apply Qfloor_resp_le, div_EPS_le. lra. }
  lia.
Qed.

Lemma wait_budget_strict cap t t' :
  t + EPS < t' -> t' < cap - EPS ->
  (wait_budget cap t' < wait_budget cap t)%nat.
Proof.
  intros H1 H2. unfold wait_budget.
  set (x := (cap - t) / EPS). set (y := (cap - t') / EPS).
  assert (Hxy : y + 1 < x).
  { unfold x, y. apply div_EPS_shift. lra. }
  assert (Hy : 1 < y).
  { unfold y. pose proof (div_EPS_shift 0 (cap - t')) as Hs.
    unfold Qdiv in Hs at 1. rewrite Qmult_0_l in Hs. apply Hs. lra. }
  assert (Hy1 : (1 <= Qfloor y)%Z).
  { change 1%Z with (Qfloor 1). apply Qfloor_resp_le. lra. }
  assert (Hlt : (Qfloor y < Qfloor x)%Z).
  { destruct (Z_lt_le_dec (Qfloor y) (Qfloor x)) as [Hl|Hl]; [exact Hl|exfalso].
    pose proof (Qlt_floor x) as Hx. pose proof (Qfloor_le y) as Hfy.
    assert (Hz : inject_Z (Qfloor x + 1) <= inject_Z (Qfloor y + 1)).
    { rewrite <- Zle_Qle. lia. }
    rewrite (inject_Z_plus (Qfloor y) 1) in Hz.
    change (inject_Z 1) with 1 in Hz. lra. }
  lia.
Qed.

Lemma sum_le {A} (f g : A -> nat) (l : list A) :
  (forall x, In x l -> (f x <= g x)%nat) ->
  (fold_right Nat.add O (map f l) <= fold_right Nat.add O (map g l))%nat.
Proof.
  induction l as [|x l IH]; intro H; simpl; [lia|].
  assert (f x <= g x)%nat by (apply H; now left).
  assert (fold_right Nat.add O (map f l) <= fold_right Nat.add O (map g l))%nat
    by (apply IH; intros; apply H; now right).
  lia.
Qed.

Lemma sum_lt {A} (f g : A -> nat) (l : list A) x :
  (forall y, In y l -> (f y <= g y)%nat) -> In x l -> (f x < g x)%nat ->
  (fold_right Nat.add O (map f l) < fold_right Nat.add O (map g l))%nat.
Proof.
  induction l as [|y l IH]; intros H Hin Hlt; simpl; [contradiction|].
  assert (Hy : (f y <= g y)%nat) by (apply H; now left).
  assert (Hl : (fold_right Nat.add O (map f l) <= fold_right Nat.add O (map g l))%nat)
    by (apply sum_le; intros; apply H; now right).
  destruct Hin as [->|Hin]; [lia|].
  assert (fold_right Nat.add O (map f l) < fold_right Nat.add O (map g l))%nat
    by (apply IH; auto; intros; apply H; now right).
  lia.
Qed.

(** Replacing the value read at a key changes the sum by the
    difference. *)
Lemma work_left_dset (d : dict string Z) k r v :
  dget k d = Some r ->
  (work_left (dset k v d) + Z.to_nat r = work_left d + Z.to_nat v)%nat.
Proof.
  unfold work_left. induction d as [|[k' v'] d IH]; simpl; [discriminate|].
  change (keqb k k') with (String.eqb k k').
  destruct (String.eqb k k') eqn:E; simpl.
  - intros [= ->]. lia.
  - intro Hget. specialize (IH Hget). lia.
Qed.

Section Progress.
Variable machines : list Machine.t.
Variable day : Z.
Variable machine : Machine.t.
Hypothesis machine_In : In machine machines.

Let mid := Machine.id machine.
Let mu := slot_measure machines.

(** Changes that keep the measure: the clock of the machine moves
    forward, nothing else the measure reads changes. *)
Definition calm (st st' : S.state) : Prop :=
  S.done st' = S.done st /\ S.usable st' = S.usable st /\
  S.remaining st' = S.remaining st /\
  (forall k, k <> mid -> getitem 0 (S.t st') k = getitem 0 (S.t st) k) /\
  getitem 0 (S.t st) mid <= getitem 0 (S.t st') mid.

Lemma calm_refl st : calm st st.
Proof. repeat split; auto. lra. Qed.

Lemma calm_trans st1 st2 st3 : calm st1 st2 -> calm st2 st3 -> calm st1 st3.
Proof.
  intros (A1 & A2 & A3 & A4 & A5) (B1 & B2 & B3 & B4 & B5).
  repeat split; try congruence.
  - intros k Hk. rewrite B4, A4; auto.
  - lra.
Qed.

Lemma weight_le st st' :
  S.done st' = S.done st -> S.usable st' = S.usable st ->
  (forall k, k <> mid -> getitem 0 (S.t st') k = getitem 0 (S.t st) k) ->
  getitem 0 (S.t st) mid <= getitem 0 (S.t st') mid ->
  forall k, (machine_weight st' k <= machine_weight st k)%nat.
Proof.
  intros Hd Hu Ht Hmid k. unfold machine_weight. rewrite Hd, Hu.
  destruct (getitem false (S.done st) k); [lia|].
  destruct (string_dec k mid) as [->|Hne].
  - pose proof (wait_budget_mono (getitem 0 (S.usable st) mid) _ _ Hmid). lia.
  - rewrite Ht by assumption. lia.
Qed.

Lemma calm_measure st st' : calm st st' -> (mu st' <= mu st)%nat.
Proof.
  intros (Hd & Hu & Hr & Ht & Hmid). unfold mu, slot_measure, machines_weight.
  rewrite Hr.
  pose proof (sum_le (fun m => machine_weight st' (Machine.id m))
                (fun m => machine_weight st (Machine.id m)) machines
                (fun m _ => weight_le st st' Hd Hu Ht Hmid (Machine.id m))).
  lia.
Qed.

Lemma finish_lt cap st :
  getitem false (S.done st) mid = false -> (mu (finish mid cap st) < mu st)%nat.
Proof.
  intro Hdone. unfold mu, slot_measure, machines_weight.
  assert (Hr : S.remaining (finish mid cap st) = S.remaining st) by reflexivity.
  rewrite Hr.
  assert (Hk : forall k, (machine_weight (finish mid cap st) k <= machine_weight st k)%nat).
  { intro k. unfold machine_weight, finish. sproj.
    destruct (string_dec k mid) as [->|Hne].
    - rewrite getitem_dset_same. lia.
    - rewrite !getitem_dset_other by assumption. lia. }
  pose proof (sum_lt (fun m => machine_weight (finish mid cap st) (Machine.id m))
                (fun m => machine_weight st (Machine.id m)) machines machine
                (fun m _ => Hk (Machine.id m)) machine_In) as Hlt.
  cbv beta in Hlt. fold mid in Hlt.
  assert (machine_weight (finish mid cap st) mid < machine_weight st mid)%nat.
  { unfold machine_weight, finish. sproj. rewrite getitem_dset_same, Hdone. lia. }
  specialize (Hlt H). lia.
Qed.

Lemma advance_lt st st' t_next :
  S.done st' = S.done st -> S.usable st' = S.usable st ->
  S.remaining st' = S.remaining st ->
  S.t st' = dset mid t_next (S.t st) ->
  getitem false (S.done st) mid = false ->
  getitem 0 (S.t st) mid + EPS < t_next ->
  t_next < getitem 0 (S.usable st) mid - EPS ->
  (mu st' < mu st)%nat.
Proof.
  intros Hd Hu Hr Ht Hdone H1 H2. unfold mu, slot_measure, machines_weight.
  rewrite Hr.
  assert (Hk : forall k, (machine_weight st' k <= machine_weight st k)%nat).
  { apply weight_le; auto.
    - intros k Hk. rewrite Ht. now apply getitem_dset_other.
    - rewrite Ht, getitem_dset_same. pose proof EPS_pos. lra. }
  pose proof (sum_lt (fun m => machine_weight st' (Machine.id m))
                (fun m => machine_weight st (Machine.id m)) machines machine
                (fun m _ => Hk (Machine.id m)) machine_In) as Hlt.
  cbv beta in Hlt. fold mid in Hlt.
  assert (machine_weight st' mid < machine_weight st mid)%nat.
  { unfold machine_weight. rewrite Hd, Hu, Ht, Hdone, getitem_dset_same.
    pose proof (wait_budget_strict _ _ _ H1 H2). lia. }
  specialize (Hlt H). lia.
Qed.

Lemma wait_lt now t_next cap st :
  getitem false (S.done st) mid = false ->
  getitem 0 (S.t st) mid + EPS < t_next ->
  t_next < getitem 0 (S.usable st) mid - EPS ->
  (mu (emit_wait day machine now t_next cap st) < mu st)%nat.
Proof. intros. apply (advance_lt st _ t_next); auto. Qed.

Lemma wait_or_finish_lt now nxt st :
  getitem false (S.done st) mid = false ->
  now = getitem 0 (S.t st) mid ->
  (mu (wait_or_finish day machine now (getitem 0%Q (S.usable st) mid) nxt st) < mu st)%nat.
Proof.
  intros Hdone ->. unfold wait_or_finish. fold mid.
  destruct nxt as [nxt|]; [|now apply finish_lt].
  destruct (_ && _) eqn:E; [|now apply finish_lt].
  qprop. now apply wait_lt.
Qed.

Lemma calm_clock st st' e :
  S.done st' = S.done st -> S.usable st' = S.usable st ->
  S.remaining st' = S.remaining st -> S.t st' = dset mid e (S.t st) ->
  getitem 0 (S.t st) mid <= e -> calm st st'.
Proof.
  intros Hd Hu Hr Ht He. repeat split; auto.
  - intros k Hk. rewrite Ht. now apply getitem_dset_other.
  - now rewrite Ht, getitem_dset_same.
Qed.

Lemma calm_still st st' :
  S.done st' = S.done st -> S.usable st' = S.usable st ->
  S.remaining st' = S.remaining st -> S.t st' = S.t st -> calm st st'.
Proof.
  intros Hd Hu Hr Ht. repeat split; auto.
  - intros k _. now rewrite Ht.
  - rewrite Ht. lra.
Qed.

Variable genome : list string.
Variable molds : list Mold.t.
Variable mold_change_time_hours : Q.
Variable color_change_time_hours : Q.
Variable comp_order : list PC.t.

Lemma pymax_0_lt a : 0 < pymax 0 a -> 0 <= pymax 0 a.
Proof. lra. Qed.

Lemma phase_color_progress cap x st now :
  now = getitem 0 (S.t st) mid -> cap = getitem 0 (S.usable st) mid ->
  getitem false (S.done st) mid = false ->
  match phase_color color_change_time_hours day machine cap x st now with
  | Continue st' => (mu st' < mu st)%nat
  | Proceed st' now' => calm st st' /\ now' = getitem 0 (S.t st') mid
  end.
Proof.
  intros -> -> Hdone. unfold phase_color. cbv zeta. fold mid.
  destruct (need_color_change x); [|split; [apply calm_refl|reflexivity]].
  destruct (Qltb 0 (pymax 0 color_change_time_hours)) eqn:Hch.
  - destruct (Qltb (_ + EPS) _); [now apply finish_lt|].
    qprop. split.
    + eapply calm_clock; try reflexivity. lra.
    + unfold set_color. sproj. now rewrite getitem_dset_same.
  - split; [now apply calm_still|reflexivity].
Qed.

Lemma phase_mold_progress cap x st now :
  now = getitem 0 (S.t st) mid -> cap = getitem 0 (S.usable st) mid ->
  getitem false (S.done st) mid = false ->
  match phase_mold mold_change_time_hours day machine cap x st now with
  | Continue st' => (mu st' < mu st)%nat
  | Proceed st' now' => calm st st' /\ now' = getitem 0 (S.t st') mid
  end.
Proof.
  intros -> -> Hdone. unfold phase_mold. cbv zeta. fold mid.
  destruct (need_mold_change x); [|split; [apply calm_refl|reflexivity]].
  destruct (Qltb 0 (pymax 0 mold_change_time_hours)) eqn:Hmh.
  - destruct (Qltb (_ + EPS) _); [now apply finish_lt|].
    destruct (negb _); [now apply wait_or_finish_lt|].
    qprop. split.
    + eapply calm_clock; try reflexivity. lra.
    + unfold set_mold. sproj. now rewrite getitem_dset_same.
  - split; [now apply calm_still|reflexivity].
Qed.

Lemma hold_mold_progress cap now r st :
  now = getitem 0 (S.t st) mid -> cap = getitem 0 (S.usable st) mid ->
  getitem false (S.done st) mid = false ->
  match hold_mold day machine cap now r st with
  | inr st' => (mu st' < mu st)%nat
  | inl st' => calm st st' /\ S.t st' = S.t st
  end.
Proof.
  intros -> -> Hdone. unfold hold_mold. cbv zeta. fold mid.
  destruct (getitem None (S.current_mold st) mid) as [cm|];
    [|split; [apply calm_refl|reflexivity]].
  destruct (dget cm _) as [intervals|]; [|split; [apply calm_refl|reflexivity]].
  destruct (negb _); [now apply wait_or_finish_lt|].
  split; [now apply calm_still|reflexivity].
Qed.

Lemma phase_prereq_progress cap x st now :
  now = getitem 0 (S.t st) mid -> cap = getitem 0 (S.usable st) mid ->
  getitem false (S.done st) mid = false ->
  match phase_prereq day machine cap x st now with
  | Continue st' => (mu st' < mu st)%nat
  | Proceed st' now' => calm st st' /\ now' = getitem 0 (S.t st') mid
  end.
Proof.
  intros Hnow Hcap Hdone. unfold phase_prereq. cbv zeta. fold mid.
  destruct (_next_ready_time_due_to_prereqs _ _ _ _) as [r|];
    [|now apply finish_lt].
  destruct (Qltb _ r) eqn:Hlate.
  - destruct (Qleb (cap - EPS) r); [now apply finish_lt|].
    pose proof (hold_mold_progress cap now r st Hnow Hcap Hdone) as Hhold.
    destruct (hold_mold _ _ _ _ _ _) as [st1|st1]; [|exact Hhold].
    destruct Hhold as (Hcalm & Ht). qprop. split.
    + eapply calm_trans; [exact Hcalm|].
      eapply calm_clock; try reflexivity.
      rewrite Ht, <- Hnow. pose proof EPS_pos. lra.
    + unfold emit_wait, emit_advance, advance. sproj.
      now rewrite getitem_dset_same.
  - split; [apply calm_refl|exact Hnow].
Qed.

Lemma usable_commit_produce cap chosen qty used start end_ st :
  S.usable (commit_produce day machine cap chosen qty used start end_ st) = S.usable st.
Proof.
  unfold commit_produce. cbv zeta.
  destruct (_ <=? 0)%Z; destruct (dmem _ _); reflexivity.
Qed.

Lemma produce_lt cap chosen qty used start end_ st :
  (0 < qty <= getitem 0 (S.remaining st) (PC.id chosen))%Z ->
  getitem 0 (S.t st) mid <= end_ ->
  (mu (commit_produce day machine cap chosen qty used start end_ st) < mu st)%nat.
Proof.
  intros Hqty Hend. unfold mu, slot_measure, machines_weight.
  set (st' := commit_produce day machine cap chosen qty used start end_ st).
  assert (Hk : forall k, (machine_weight st' k <= machine_weight st k)%nat).
  { apply weight_le.
    - apply done_commit_produce.
    - apply usable_commit_produce.
    - intros k Hk. unfold st'. rewrite t_commit_produce.
      now apply getitem_dset_other.
    - unfold st'. rewrite t_commit_produce. fold mid.
      now rewrite getitem_dset_same. }
  pose proof (sum_le (fun m => machine_weight st' (Machine.id m))
                (fun m => machine_weight st (Machine.id m)) machines
                (fun m _ => Hk (Machine.id m))) as Hsum.
  unfold st' at 2. rewrite remaining_commit_produce.
  destruct (dget (PC.id chosen) (S.remaining st)) as [r|] eqn:Hget.
  - pose proof (work_left_dset _ _ _ (r - qty)%Z Hget) as Hw.
    unfold getitem in *. rewrite Hget in *. lia.
  - unfold getitem in Hqty. rewrite Hget in Hqty. lia.
Qed.

Lemma phase_produce_lt cap x st now :
  now = getitem 0 (S.t st) mid -> cap = getitem 0 (S.usable st) mid ->
  getitem false (S.done st) mid = false ->
  (mu (phase_produce day machine cap x st now) < mu st)%nat.
Proof.
  intros -> -> Hdone. unfold phase_produce. cbv zeta. fold mid.
  destruct (Qleb _ 0) eqn:Hpp; [now apply finish_lt|].
  destruct (Qltb _ (_ - EPS)); [now apply finish_lt|].
  destruct (_ <=? 0)%Z eqn:Hqty; [now apply finish_lt|].
  destruct (negb _); [now apply wait_or_finish_lt|].
  qprop. apply Z.leb_gt in Hqty.
  apply produce_lt; [lia|].
  match goal with
  | |- _ <= _ + inject_Z ?q * ?h =>
      assert (0 <= inject_Z q * h); [|lra]
  end.
  apply Qmult_le_0_compat; [|lra].
  match goal with
  | |- 0 <= inject_Z ?q =>
      assert (Hz : (0 <= q)%Z) by lia; rewrite Zle_Qle in Hz; exact Hz
  end.
Qed.

Lemma scan_wait_candidate_cap st now cap c n :
  scan_component genome molds mold_change_time_hours color_change_time_hours
    st day machine now cap c = WaitCandidate n ->
  now + EPS < n /\ n < cap - EPS.
Proof.
  unfold scan_component.
  destruct (_ <=? _)%Z; [discriminate|].
  destruct (match dget _ _ with Some _ => _ | None => _ end); [discriminate|].
  destruct (negb (_feasible_on_machine _ _ _)); [discriminate|].
  destruct (Qleb _ 0); [discriminate|].
  destruct (_next_ready_time_due_to_prereqs _ _ _ _); [|discriminate].
  destruct (Qltb _ _); [discriminate|].
  destruct (dget (PC.mold_id c) _); [|discriminate].
  destruct (negb (_interval_is_free _ _ _)); [|discriminate].
  destruct (_next_mold_free_time_for_window _ _ _ _) as [nxt|]; [|discriminate].
  destruct (Qltb (now + EPS) nxt && _) eqn:E; [|discriminate].
  intros [= <-]. qprop. split; assumption.
Qed.

(** Every slot iteration marks a machine done, waits for more than
    [EPS], or produces at least one piece. *)
Lemma slot_body_lt st :
  getitem false (S.done st) mid = false ->
  (mu (slot_body genome molds mold_change_time_hours color_change_time_hours
         comp_order day machine st) < mu st)%nat.
Proof.
  intro Hdone. unfold slot_body. cbv zeta. fold mid.
  set (now := getitem 0 (S.t st) mid).
  set (cap := getitem 0 (S.usable st) mid).
  set (scanned := map (scan_component genome molds mold_change_time_hours
                         color_change_time_hours st day machine now cap) comp_order).
  destruct (candidates_of scanned) as [|c0 cands] eqn:Hcands.
  - destruct (wait_candidates_of scanned) as [|w ws] eqn:Hw; [now apply finish_lt|].
    destruct (Qltb _ _) eqn:E; [|now apply finish_lt].
    qprop. apply wait_lt; auto.
    assert (Hin : In (min_list w ws) (wait_candidates_of scanned)).
    { rewrite Hw. destruct (min_list_in ws w) as [Hm|Hm]; [left|right]; auto. }
    apply wait_candidates_of_In in Hin. apply in_map_iff in Hin.
    destruct Hin as (c & Hscan & _).
    apply scan_wait_candidate_cap in Hscan. tauto.
  - set (x := hd c0 (prefer st mid (c0 :: cands))).
    pose proof (phase_color_progress cap x st now eq_refl eq_refl Hdone) as H1.
    destruct (phase_color _ _ _ _ _ _ _) as [st1|st1 now1]; [exact H1|].
    destruct H1 as (Hc1 & Hnow1).
    pose proof Hc1 as (D1 & U1 & _).
    assert (Hcap1 : cap = getitem 0 (S.usable st1) mid) by now rewrite U1.
    assert (Hdone1 : getitem false (S.done st1) mid = false) by now rewrite D1.
    pose proof (phase_mold_progress cap x st1 now1 Hnow1 Hcap1 Hdone1) as H2.
    apply calm_measure in Hc1.
    destruct (phase_mold _ _ _ _ _ _ _) as [st2|st2 now2]; [lia|].
    destruct H2 as (Hc2 & Hnow2).
    pose proof Hc2 as (D2 & U2 & _).
    assert (Hcap2 : cap = getitem 0 (S.usable st2) mid) by now rewrite U2.
    assert (Hdone2 : getitem false (S.done st2) mid = false) by now rewrite D2.
    pose proof (phase_prereq_progress cap x st2 now2 Hnow2 Hcap2 Hdone2) as H3.
    apply calm_measure in Hc2.
    destruct (phase_prereq _ _ _ _ _ _) as [st3|st3 now3]; [lia|].
    destruct H3 as (Hc3 & Hnow3).
    pose proof Hc3 as (D3 & U3 & _).
    assert (Hcap3 : cap = getitem 0 (S.usable st3) mid) by now rewrite U3.
    assert (Hdone3 : getitem false (S.done st3) mid = false) by now rewrite D3.
    pose proof (phase_produce_lt cap x st3 now3 Hnow3 Hcap3 Hdone3) as H4.
    apply calm_measure in Hc3. lia.
Qed.
End Progress.

(** The waits a day can hold, one machine after the other. *)
Definition day_budget (machines : list Machine.t) : nat :=
  let usable := dict_comp Machine.id
                  (fun m => Machine.hours_per_day m * Machine.efficiency m) machines in
  fold_right Nat.add O
    (map (fun m => S (wait_budget (getitem 0 usable (Machine.id m)) 0)) machines).

(** Slot iterations that are enough for any day of the month. *)
Definition decode_fuel (components : list PC.t) (machines : list Machine.t) : nat :=
  (day_budget machines + work_left (dict_comp PC.id PC.quantity components))%nat.

Lemma work_left_op mct cct comp_order d m st st' :
  op mct cct comp_order d m st st' ->
  (work_left (S.remaining st') <= work_left (S.remaining st))%nat.
Proof.
  intro Hop.
  destruct Hop as [cap|t_next cap Hlt|from to cap Hpos|color|mold|k s e Hfree
                  |from k cap Hpos Hfree
                  |chosen qty cap Hin Hdone Hqty Hpp Hown Hpre Hfree];
    try (apply Nat.le_refl).
  rewrite remaining_commit_produce.
  destruct (dget (PC.id chosen) (S.remaining st)) as [r|] eqn:Hget.
  - pose proof (work_left_dset _ _ _ (r - qty)%Z Hget) as Hw.
    unfold getitem in *. rewrite Hget in *. lia.
  - unfold getitem in Hqty. rewrite Hget in Hqty. lia.
Qed.

Lemma begin_day_measure machines st :
  (slot_measure machines (begin_day machines st)
   <= day_budget machines + work_left (S.remaining st))%nat.
Proof.
  unfold slot_measure, machines_weight, day_budget.
  assert (Hr : S.remaining (begin_day machines st) = S.remaining st) by reflexivity.
  rewrite Hr. apply Nat.add_le_mono_r. apply sum_le. intros m _.
  unfold machine_weight.
  destruct (getitem false (S.done (begin_day machines st)) (Machine.id m)); [lia|].
  assert (Ht : getitem 0 (S.t (begin_day machines st)) (Machine.id m) = 0).
  { unfold begin_day. sproj. apply getitem_dict_comp_const. }
  rewrite Ht. apply Nat.le_refl.
Qed.

Section DecodeTotal.
Variable genome : list string.
Variable machines : list Machine.t.
Variable molds : list Mold.t.
Variable mold_change_time_hours : Q.
Variable color_change_time_hours : Q.
Variable comp_order : list PC.t.

Lemma slot_loop_total day : forall fuel st,
  (slot_measure machines st <= fuel)%nat ->
  exists st',
    slot_loop genome machines molds mold_change_time_hours color_change_time_hours
      fuel comp_order day st = Ok st'.
Proof.
  induction fuel as [|fuel IH]; intros st Hm; simpl;
    destruct (pick_machine machines st) as [m|] eqn:Hp; eauto.
  - exfalso. apply pick_machine_active in Hp. destruct Hp as (Hin & Hdone & _).
    pose proof (slot_body_lt machines day m Hin genome molds mold_change_time_hours
                  color_change_time_hours comp_order st Hdone). lia.
  - apply IH. apply pick_machine_active in Hp. destruct Hp as (Hin & Hdone & _).
    pose proof (slot_body_lt machines day m Hin genome molds mold_change_time_hours
                  color_change_time_hours comp_order st Hdone). lia.
Qed.

Lemma run_days_total fuel W days : forall st,
  (work_left (S.remaining st) <= W)%nat ->
  (day_budget machines + W <= fuel)%nat ->
  exists st',
    run_days genome machines molds mold_change_time_hours color_change_time_hours
      fuel comp_order days st = Ok st'.
Proof.
  induction days as [|d days IH]; intros st HW Hfuel; simpl; [eauto|].
  destruct (slot_loop_total d fuel (begin_day machines st)) as [st1 Hloop].
  { pose proof (begin_day_measure machines st). lia. }
  rewrite Hloop. apply IH; auto.
  assert (Hst1 : (work_left (S.remaining st1) <= W)%nat).
  { refine (slot_loop_inv genome machines molds mold_change_time_hours
              color_change_time_hours comp_order
              (fun _ s => (work_left (S.remaining s) <= W)%nat) _
              fuel d _ _ Hloop HW).
    intros d0 m s s' Hs Hop. pose proof (work_left_op _ _ _ _ _ _ _ Hop). lia. }
  exact Hst1.
Qed.
End DecodeTotal.

(** [_decode_v2] returns whenever the topological sort does, within
    [decode_fuel] slot iterations a day. *)
Lemma decode_total genome components machines molds month_days mct cct fuel topo :
  _topological_order components = Ok topo ->
  (decode_fuel components machines <= fuel)%nat ->
  exists tasks unmet,
    _decode_v2 genome components machines molds month_days mct cct fuel
    = Ok (tasks, unmet).
Proof.
  intros Htopo Hfuel. unfold _decode_v2. rewrite Htopo.
  destruct (run_days_total genome machines molds mct cct (comp_order_of genome topo)
              fuel (work_left (dict_comp PC.id PC.quantity components))
              (day_range month_days)
              (initial_state components machines molds month_days)) as [st Hrun].
  - apply Nat.le_refl.
  - exact Hfuel.
  - rewrite Hrun. eauto.
Qed.

(* ================================================================= *)
(** * The driver never fails on what the decoder returns *)

(** Every PRODUCE task names one of [ids]. *)
Definition names_known (ids : list string) (tasks : list task) : Prop :=
  forall tk cid, In tk tasks -> produces cid tk = true -> In cid ids.

Lemma names_known_snoc ids tasks tk :
  names_known ids tasks -> (forall cid, produces cid tk = true -> In cid ids) ->
  names_known ids (tasks ++ [tk]).
Proof.
  intros Hk Htk tk' cid Hin Hp. apply in_app_or in Hin.
  destruct Hin as [Hin|[<-|[]]]; eauto.
Qed.

Lemma names_known_op mct cct comp_order dy machine st st' ids :
  (forall c, In c comp_order -> In (PC.id c) ids) ->
  op mct cct comp_order dy machine st st' ->
  names_known ids (S.tasks st) -> names_known ids (S.tasks st').
Proof.
  intros Hids Hop Hinv.
  destruct Hop as [cap|t_next cap Hw|from to cap Hc|color|mold|k s e Hf
                  |from k cap Hm Hf|chosen qty cap Hin Hdone Hq Hpp Hown Hpre Hf];
    try exact Hinv.
  - apply names_known_snoc; auto. intros cid. discriminate.
  - apply names_known_snoc; auto. intros cid. discriminate.
  - apply (names_known_snoc ids (S.tasks st)); auto. intros cid. discriminate.
  - rewrite tasks_commit_produce. apply names_known_snoc; auto.
    intros cid Hp. unfold produces, task_of, produce_kind in Hp. simpl in Hp.
    apply String.eqb_eq in Hp. subst cid. now apply Hids.
Qed.

Lemma decode_tasks_known genome components machines molds month_days mct cct fuel
    tasks unmet :
  _decode_v2 genome components machines molds month_days mct cct fuel = Ok (tasks, unmet) ->
  names_known (map PC.id components) tasks.
Proof.
  intro Hdec.
  apply decode_inv with
    (P := fun _ st => names_known (map PC.id components) (S.tasks st)) in Hdec.
  - destruct Hdec as (cur & st & Hinv & -> & _). exact Hinv.
  - intros topo Htopo. split; [intros tk cid []|]. split; [|split]; auto.
    intros d m st st' Hinv Hop. eapply names_known_op; eauto.
    intros c Hc. apply comp_order_of_In in Hc. apply in_map.
    now apply (topological_order_ok _ _ Htopo).
Qed.













Section GARaises.
Variable fuel : nat.
Variable components : list PC.t.
Variable machines : list Machine.t.
Variable molds : list Mold.t.
Variable month_days : Z.
Variable mold_change_time_hours : Q.
Variable color_change_time_hours : Q.
Variable pop_size : Z.
Variable mutation_rate : Q.




End GARaises.

(* ================================================================= *)
(** * The subscripts of the decoder are defined

    The decoder reads its dictionaries with [d[k]]; the model reads them
    with [getitem] and a default.  The keys read are created before the
    slot loop and never deleted, so the default is never used. *)

Lemma getitem_defined {V} (dflt : V) (d : dict string V) k :
  dmem k d = true -> dget k d = Some (getitem dflt d k).
Proof. unfold dmem, getitem. destruct (dget k d); [reflexivity|discriminate]. Qed.

(** No key of the dictionary [f] of the state is lost. *)
Definition kept {K V} `{EqKey K} (f : S.state -> dict K V) (st st' : S.state) : Prop :=
  forall k, dmem k (f st) = true -> dmem k (f st') = true.

Definition keeps_keys (st st' : S.state) : Prop :=
  kept S.remaining st st' /\ kept S.machine_state st st' /\
  kept S.usable st st' /\ kept S.t st st' /\ kept S.seq st st' /\
  kept S.done st st' /\ kept S.current_mold st st' /\
  kept S.current_color st st' /\ kept S.last_component st st' /\
  kept S.mold_busy st st' /\
  forall d, kept (fun s => getitem [] (S.mold_busy s) d) st st'.

Lemma kept_reserve d k s e st d' :
  kept (fun s0 => getitem [] (S.mold_busy s0) d') st (reserve d k s e st).
Proof.
  intros k' Hk'. unfold reserve. sproj.
  destruct (Z.eq_dec d' d) as [->|Hne].
  - rewrite getitem_dset_same, dmem_dset, Hk'. apply orb_true_r.
  - now rewrite getitem_dset_other.
Qed.

Ltac keys_step :=
  intros; sproj; repeat rewrite dmem_dset;
  try assumption;
  try (match goal with H : dmem _ _ = true |- _ => rewrite H end; apply orb_true_r).

Lemma keeps_keys_op mct cct comp_order dy machine st st' :
  op mct cct comp_order dy machine st st' -> keeps_keys st st'.
Proof.
  intro Hop.
  destruct Hop as [cap|t_next cap Hw|from to cap Hc|color|mold|k s e Hf
                  |from k cap Hm Hf|chosen qty cap Hin Hdone Hq Hpp Hown Hpre Hf];
    unfold keeps_keys, kept.
  - repeat split; keys_step.
  - repeat split; keys_step.
  - repeat split; keys_step.
  - repeat split; keys_step.
  - repeat split; keys_step.
  - repeat split; try (keys_step; fail).
    intros d. apply kept_reserve.
  - repeat split; try (keys_step; fail).
    intros d k0 Hk0. apply (kept_reserve dy k _ _ st d k0 Hk0).
  - unfold commit_produce. cbv zeta.
    repeat split; intros;
      destruct (_ <=? 0)%Z; destruct (dmem (PC.id chosen) _);
      try (keys_step; fail);
      try (apply (kept_reserve dy (PC.mold_id chosen) _ _ st); assumption).
Qed.

(** The keys the slot loop reads with a subscript, on day [cur]. *)
Definition subscripts_defined (components : list PC.t) (machines : list Machine.t)
    (month_days cur : Z) (st : S.state) : Prop :=
  (forall c, In c components -> dmem (PC.id c) (S.remaining st) = true) /\
  (forall m, In m machines -> dmem (Machine.id m) (S.machine_state st) = true) /\
  (forall d, In d (day_range month_days) -> dmem d (S.mold_busy st) = true) /\
  ((1 <= cur)%Z -> forall m, In m machines ->
     dmem (Machine.id m) (S.usable st) = true /\
     dmem (Machine.id m) (S.t st) = true /\
     dmem (Machine.id m) (S.seq st) = true /\
     dmem (Machine.id m) (S.done st) = true /\
     dmem (Machine.id m) (S.current_mold st) = true /\
     dmem (Machine.id m) (S.current_color st) = true /\
     dmem (Machine.id m) (S.last_component st) = true).

Lemma subscripts_defined_initial components machines molds month_days :
  subscripts_defined components machines month_days 0
    (initial_state components machines molds month_days).
Proof.
  unfold subscripts_defined, initial_state. sproj. repeat split.
  - intros c Hc. apply dmem_dict_comp. now apply in_map.
  - intros m Hm. apply dmem_dict_comp. now apply in_map.
  - intros d Hd. apply dmem_dict_comp. now rewrite map_id.
  - lia.
  - lia.
  - lia.
  - lia.
  - lia.
  - lia.
  - lia.
Qed.

Lemma subscripts_defined_begin components machines month_days cur d st :
  (cur < d)%Z -> subscripts_defined components machines month_days cur st ->
  subscripts_defined components machines month_days d (begin_day machines st).
Proof.
  intros _ (H1 & H2 & H3 & _). unfold subscripts_defined, begin_day. sproj.
  repeat split; auto; apply dmem_dict_comp; now apply in_map.
Qed.

Lemma subscripts_defined_end components machines month_days d st :
  subscripts_defined components machines month_days d st ->
  subscripts_defined components machines month_days d (end_day machines st).
Proof.
  intros (H1 & H2 & H3 & H4). unfold subscripts_defined, end_day. sproj.
  repeat split; auto; try (now apply H4).
  intros m Hm. apply dmem_fold_dset. left. now apply in_map.
Qed.

Lemma subscripts_defined_op components machines month_days mct cct comp_order
    d m st st' :
  op mct cct comp_order d m st st' ->
  subscripts_defined components machines month_days d st ->
  subscripts_defined components machines month_days d st'.
Proof.
  intros Hop (H1 & H2 & H3 & H4).
  destruct (keeps_keys_op _ _ _ _ _ _ _ Hop)
    as (K1 & K2 & K3 & K4 & K5 & K6 & K7 & K8 & K9 & K10 & _).
  unfold subscripts_defined. split; [|split; [|split]].
  - intros c Hc. apply K1. auto.
  - intros m0 Hm0. apply K2. auto.
  - intros d0 Hd0. apply K10. auto.
  - intros Hcur m0 Hm0. destruct (H4 Hcur m0 Hm0) as (A1 & A2 & A3 & A4 & A5 & A6 & A7).
    repeat split; [apply K3|apply K4|apply K5|apply K6|apply K7|apply K8|apply K9];
      assumption.
Qed.

(** A candidate's mold has its list of busy intervals for the day, and
    keeps it through the phases of the iteration. *)
Lemma scan_candidate_mold genome molds mct cct st dy machine now cap c x :
  scan_component genome molds mct cct st dy machine now cap c = Candidate x ->
  dmem (PC.mold_id (comp x)) (getitem [] (S.mold_busy st) dy) = true.
Proof.
  unfold scan_component.
  destruct (_ <=? _)%Z; [discriminate|].
  destruct (match dget _ _ with Some _ => _ | None => _ end); [discriminate|].
  destruct (negb (_feasible_on_machine _ _ _)); [discriminate|].
  destruct (Qleb _ 0); [discriminate|].
  destruct (_next_ready_time_due_to_prereqs _ _ _ _); [|discriminate].
  destruct (Qltb _ _); [discriminate|].
  destruct (dget (PC.mold_id c) _) eqn:Hget; [|discriminate].
  destruct (negb (_interval_is_free _ _ _)).
  - destruct (_next_mold_free_time_for_window _ _ _ _); [|discriminate].
    destruct (_ && _); discriminate.
  - intros [= <-]. simpl. unfold dmem. now rewrite Hget.
Qed.

Lemma keeps_keys_ops mct cct comp_order dy machine st st' :
  ops mct cct comp_order dy machine st st' ->
  forall d, kept (fun s => getitem [] (S.mold_busy s) d) st st'.
Proof.
  intros Hops d. induction Hops as [|st1 st2 _ IH Hop]; [intros k Hk; exact Hk|].
  intros k Hk. apply (keeps_keys_op _ _ _ _ _ _ _ Hop). now apply IH.
Qed.

(** Whatever [_decode_v2] returns, it got there through states in which
    every subscript it evaluates is defined. *)
Lemma decode_subscripts_defined genome components machines molds month_days mct cct
    fuel tasks unmet :
  _decode_v2 genome components machines molds month_days mct cct fuel = Ok (tasks, unmet) ->
  exists cur st,
    subscripts_defined components machines month_days cur st /\
    tasks = S.tasks st /\ unmet = unmet_of (S.remaining st).
Proof.
  intro Hdec.
  apply decode_inv with
    (P := subscripts_defined components machines month_days) in Hdec; [exact Hdec|].
  intros topo _. split; [apply subscripts_defined_initial|].
  split; [|split].
  - intros cur d st. apply subscripts_defined_begin.
  - intros d st. apply subscripts_defined_end.
  - intros d m st st' Hinv Hop. eapply subscripts_defined_op; eauto.
Qed.

(* ================================================================= *)
(** * C5: the error surface *)

Definition raises_invalid {A} (r : result A) : Prop :=
  exists msg, r = Raise (ValueError msg).















(* ================================================================= *)
(** * The interval helpers on their own *)

Lemma overlaps_true s e a b : _overlaps s e a b = true <-> a < e /\ s < b.
Proof.
  unfold _overlaps. rewrite negb_true_iff, orb_false_iff, !Qleb_false. tauto.
Qed.

Lemma free_iff l a b :
  _interval_is_free l a b = true <-> forall x, In x l -> disjoint x (a, b).
Proof.
  split; [apply free_disjoint|].
  intro Hall. unfold _interval_is_free. apply forallb_forall. intros [s e] Hin.
  apply negb_true_iff. apply overlaps_false_disjoint. now apply Hall.
Qed.

Lemma not_free l a b x :
  In x l -> _overlaps (fst x) (snd x) a b = true -> _interval_is_free l a b = false.
Proof.
  intros Hin Hov. destruct (_interval_is_free l a b) eqn:E; [|reflexivity].
  unfold _interval_is_free in E. rewrite forallb_forall in E.
  specialize (E x Hin). rewrite Hov in E. discriminate.
Qed.

Lemma free_filter l a b :
  filter (fun se => _overlaps (fst se) (snd se) a b) l = [] ->
  _interval_is_free l a b = true.
Proof.
  intro Hf. unfold _interval_is_free. apply forallb_forall. intros x Hin.
  destruct (_overlaps (fst x) (snd x) a b) eqn:E; [|reflexivity].
  assert (Hx : In x (filter (fun se => _overlaps (fst se) (snd se) a b) l))
    by (apply filter_In; auto).
  rewrite Hf in Hx. contradiction.
Qed.

(** The loop of the window search: it only ever skips starts whose
    window meets a busy interval. *)
Lemma window_loop_spec l after w cap : 0 < w -> forall budget t r,
  window_loop budget l w cap t = Some r ->
  after <= t ->
  (forall t', after <= t' -> t' < t -> _interval_is_free l t' (t' + w) = false) ->
  after <= r /\ r + w <= cap + EPS /\
  _interval_is_free l r (r + w) = true /\
  forall t', after <= t' -> t' < r -> _interval_is_free l t' (t' + w) = false.
Proof.
  intro Hw. induction budget as [|budget IH]; intros t r; cbn [window_loop].
  - destruct (Qleb _ _); discriminate.
  - destruct (Qleb (t + w) (cap + EPS)) eqn:Hfit; [|discriminate].
    destruct (filter (fun se => _overlaps (fst se) (snd se) t (t + w)) l)
      as [|se ov] eqn:Hf.
    + intros [= <-] Ht Hskip. qprop. repeat split; auto. now apply free_filter.
    + intros Hloop Ht Hskip.
      set (t1 := max_list (snd se) (map snd ov)) in *.
      assert (Hmem : exists x, In x (se :: ov) /\ snd x = t1).
      { destruct (max_list_in (map snd ov) (snd se)) as [E|Hin].
        - exists se. split; [now left|]. symmetry. exact E.
        - apply in_map_iff in Hin. destruct Hin as (x & Hx & Hin).
          exists x. split; [now right|exact Hx]. }
      destruct Hmem as (x & Hx & Hend). rewrite <- Hf in Hx.
      apply filter_In in Hx. destruct Hx as [Hxl Hov].
      apply overlaps_true in Hov. destruct Hov as [Hov1 Hov2].
      rewrite Hend in Hov1.
      apply (IH _ _ Hloop); [lra|].
      intros t' Ha Hlt. destruct (Qlt_le_dec t' t) as [Hlow|Hhigh]; [now apply Hskip|].
      apply (not_free l _ _ x Hxl). apply overlaps_true. rewrite Hend. split; lra.
Qed.

(** X1. The window search is sound: for a positive window, the hour
    [_next_mold_free_time_for_window] returns is not before [after_hour],
    the window starting there ends by [cap + EPS], and no busy interval of
    the mold meets it. *)
Theorem window_search_sound intervals after w cap r :
  0 < w ->
  _next_mold_free_time_for_window intervals after w cap = Some r ->
  after <= r /\ r + w <= cap + EPS /\
  _interval_is_free intervals r (r + w) = true.
Proof.
  intros Hw. unfold _next_mold_free_time_for_window.
  destruct (Qleb w 0) eqn:E0; [qprop; lra|].
  destruct (_ && _) eqn:Efast.
  - intros [= <-]. qprop. repeat split; auto. lra.
  - intro Hloop.
    destruct (window_loop_spec intervals after w cap Hw _ _ _ Hloop) as (H1 & H2 & H3 & _);
      [lra | intros t' H H'; lra | auto].
Qed.

Lemma window_search_sound_witness :
  0 <= 2 /\ 2 + 1 <= 10 + EPS /\ _interval_is_free [(0, 2)] 2 (2 + 1) = true.
Proof.
  apply (window_search_sound [(0, 2)] 0 1 10 2); [lra|vm_compute; reflexivity].
Defined.

(** X2. The window search returns the earliest start: for a positive
    window, every hour from [after_hour] up to the one returned starts a
    window that meets a busy interval of the mold. *)
Theorem window_search_earliest intervals after w cap r :
  0 < w ->
  _next_mold_free_time_for_window intervals after w cap = Some r ->
  forall t, after <= t -> t < r -> _interval_is_free intervals t (t + w) = false.
Proof.
  intros Hw. unfold _next_mold_free_time_for_window.
  destruct (Qleb w 0) eqn:E0; [qprop; lra|].
  destruct (_ && _) eqn:Efast.
  - intros [= <-] t H1 H2. lra.
  - intro Hloop.
    destruct (window_loop_spec intervals after w cap Hw _ _ _ Hloop) as (_ & _ & _ & H4);
      [lra | intros t' H H'; lra | auto].
Qed.

Lemma window_search_earliest_witness :
  _next_mold_free_time_for_window [(0, 2)] 0 1 10 = Some 2 /\
  _interval_is_free [(0, 2)] 1 (1 + 1) = false.
Proof.
  split; [vm_compute; reflexivity|].
  apply (window_search_earliest [(0, 2)] 0 1 10 2);
    [lra | vm_compute; reflexivity | lra | lra].
Defined.

Lemma min_list_le_head l : forall x, min_list x l <= x.
Proof.
  unfold min_list. induction l as [|y l IH]; intros x; simpl.
  - lra.
  - pose proof (IH (pymin x y)). pose proof (pymin_le_l x y). lra.
Qed.

Lemma min_list_le l : forall x y, In y l -> min_list x l <= y.
Proof.
  unfold min_list. induction l as [|z l IH]; intros x y Hin; simpl; [easy|].
  destruct Hin as [->|Hin].
  - pose proof (min_list_le_head l (pymin x y)). unfold min_list in *.
    pose proof (pymin_le_r x y). lra.
  - apply IH, Hin.
Qed.

(** X3. [_next_busy_start] returns the least interval start that is at
    least [after_hour + EPS], and [None] exactly when every start is
    below that. *)
Theorem next_busy_start_least intervals after :
  match _next_busy_start intervals after with
  | Some s =>
      In s (map fst intervals) /\ after + EPS <= s /\
      forall s', In s' (map fst intervals) -> after + EPS <= s' -> s <= s'
  | None => forall s', In s' (map fst intervals) -> s' < after + EPS
  end.
Proof.
  unfold _next_busy_start.
  destruct (filter (fun s => Qleb (after + EPS) s) (map fst intervals))
    as [|s starts] eqn:Hf.
  - intros s' Hin. destruct (Qlt_le_dec s' (after + EPS)) as [Hlt|Hge]; [exact Hlt|].
    exfalso. assert (Hs : In s' (filter (fun s => Qleb (after + EPS) s) (map fst intervals))).
    { apply filter_In. split; [exact Hin|]. now apply Qleb_iff. }
    rewrite Hf in Hs. contradiction.
  - assert (Hall : forall y, In y (s :: starts) ->
                     In y (map fst intervals) /\ after + EPS <= y).
    { intros y Hy. rewrite <- Hf in Hy. apply filter_In in Hy.
      destruct Hy as [Hy1 Hy2]. qprop. auto. }
    assert (Hmin : In (min_list s starts) (s :: starts)).
    { destruct (min_list_in starts s) as [E|Hin]; [left; now rewrite E|now right]. }
    destruct (Hall _ Hmin) as [H1 H2]. repeat split; auto.
    intros s' Hin Hge.
    assert (Hs : In s' (s :: starts)).
    { rewrite <- Hf. apply filter_In. split; [exact Hin|]. now apply Qleb_iff. }
    destruct Hs as [<-|Hs]; [apply min_list_le_head|now apply min_list_le].
Qed.

(* ================================================================= *)
(** * The two prerequisite tests *)

(** [_can_start_given_prereqs]: the [for pr in comp.prerequisites] loop
    with its two [return False]. *)
Fixpoint can_start_scan (prs : list string) (completion_time : dict string (Z * Q))
    (day : Z) (start_hour : Q) : bool :=
  match prs with
  | [] => true
  | pr :: prs' =>
      match dget pr completion_time with
      | None => false
      | Some (pr_day, pr_hour) =>
          if (day <? pr_day)%Z || ((pr_day =? day)%Z && Qltb (start_hour + EPS) pr_hour)
          then false
          else can_start_scan prs' completion_time day start_hour
      end
  end.

Definition _can_start_given_prereqs (comp : PC.t)
    (completion_time : dict string (Z * Q)) (day : Z) (start_hour : Q) : bool :=
  can_start_scan (PC.prerequisites comp) completion_time day start_hour.

(** Every prerequisite is completed by [start_hour] of [day], up to
    [EPS]. *)
Definition all_completed (prs : list string) (ct : dict string (Z * Q))
    (day : Z) (start_hour : Q) : Prop :=
  forall p, In p prs ->
    exists d h, dget p ct = Some (d, h) /\
      ((d < day)%Z \/ (d = day /\ h <= start_hour + EPS)).

Lemma can_start_scan_iff prs ct day h :
  can_start_scan prs ct day h = true <-> all_completed prs ct day h.
Proof.
  unfold all_completed. induction prs as [|pr prs IH]; simpl.
  - split; [intros _ p []|reflexivity].
  - destruct (dget pr ct) as [[d0 h0]|] eqn:Hget.
    + destruct ((day <? d0)%Z || ((d0 =? day)%Z && Qltb (h + EPS) h0)) eqn:Hbad.
      * split; [discriminate|]. intro Hall.
        destruct (Hall pr (or_introl eq_refl)) as (d & h' & Hg & Hd).
        rewrite Hget in Hg. injection Hg as <- <-.
        apply orb_true_iff in Hbad. destruct Hbad as [Hb|Hb].
        -- apply Z.ltb_lt in Hb. destruct Hd as [Hd|[Hd _]]; lia.
        -- apply andb_true_iff in Hb. destruct Hb as [Hb1 Hb2].
           apply Z.eqb_eq in Hb1. qprop. destruct Hd as [Hd|[_ Hd]]; [lia|lra].
      * rewrite IH. apply orb_false_iff in Hbad. destruct Hbad as [Hb1 Hb2].
        apply Z.ltb_ge in Hb1. split.
        -- intros Hall p [<-|Hin]; [|now apply Hall].
           exists d0, h0. split; auto.
           apply andb_false_iff in Hb2. destruct Hb2 as [Hb2|Hb2].
           ++ apply Z.eqb_neq in Hb2. left. lia.
           ++ qprop. destruct (Z.eq_dec d0 day); [right; auto|left; lia].
        -- intros Hall p Hin. apply Hall. now right.
    + split; [discriminate|]. intro Hall.
      destruct (Hall pr (or_introl eq_refl)) as (d & h' & Hg & _). congruence.
Qed.

(** What [ready_scan] adds to [needed]: the completion hours that are
    still ahead, none when the component can start. *)
Lemma ready_scan_shape ct day h prs : forall needed,
  match ready_scan prs ct day h needed with
  | Some needed' =>
      exists extra, needed' = needed ++ extra /\
        (forall x, In x extra -> h + EPS < x) /\
        (extra = [] <-> can_start_scan prs ct day h = true)
  | None =>
      can_start_scan prs ct day h = false /\
      exists p, In p prs /\
        (dget p ct = None \/ exists d h', dget p ct = Some (d, h') /\ (day < d)%Z)
  end.
Proof.
  induction prs as [|pr prs IH]; intro needed; simpl.
  - exists []. rewrite app_nil_r. repeat split; auto. intros x [].
  - destruct (dget pr ct) as [[d0 h0]|] eqn:Hget.
    2:{ split; [reflexivity|]. exists pr. auto. }
    destruct (day <? d0)%Z eqn:Hd; simpl.
    { split; [reflexivity|]. exists pr. split; [now left|].
      right. exists d0, h0. apply Z.ltb_lt in Hd. auto. }
    destruct ((d0 =? day)%Z && Qltb (h + EPS) h0) eqn:Hlate.
    + specialize (IH (needed ++ [h0])).
      destruct (ready_scan prs ct day h (needed ++ [h0])) as [needed'|].
      * destruct IH as (extra & -> & Hall & _).
        exists (h0 :: extra). rewrite <- app_assoc. repeat split; auto.
        -- intros x [<-|Hx]; [|now apply Hall].
           apply andb_true_iff in Hlate. destruct Hlate as [_ Hl]. now qprop.
        -- discriminate.
        -- discriminate.
      * destruct IH as (_ & p & Hp & Hwhy). split; [reflexivity|].
        exists p. split; [now right|exact Hwhy].
    + specialize (IH needed).
      destruct (ready_scan prs ct day h needed) as [needed'|].
      * exact IH.
      * destruct IH as (Hc & p & Hp & Hwhy). split; [exact Hc|].
        exists p. split; [now right|exact Hwhy].
Qed.

(** X4. The two prerequisite tests agree: [_can_start_given_prereqs]
    accepts an hour exactly when [_next_ready_time_due_to_prereqs]
    answers that very hour. *)
Theorem can_start_iff_ready_now comp ct day h :
  _can_start_given_prereqs comp ct day h = true <->
  _next_ready_time_due_to_prereqs comp ct day h = Some h.
Proof.
  unfold _can_start_given_prereqs, _next_ready_time_due_to_prereqs.
  pose proof (ready_scan_shape ct day h (PC.prerequisites comp) []) as Hs.
  destruct (ready_scan (PC.prerequisites comp) ct day h []) as [needed|].
  - destruct Hs as (extra & -> & Hall & Hiff). simpl.
    destruct extra as [|x extra].
    + split; [reflexivity|]. intros _. now apply Hiff.
    + split.
      * intro Hc. apply Hiff in Hc. discriminate.
      * intros [= Hmax]. exfalso.
        assert (Hin : In (max_list x extra) (x :: extra)).
        { destruct (max_list_in extra x) as [E|Hin]; [left; now rewrite E|now right]. }
        apply Hall in Hin. rewrite Hmax in Hin. pose proof EPS_pos. lra.
  - destruct Hs as [Hc _]. rewrite Hc. split; discriminate.
Qed.

(** X5. Waiting until the hour [_next_ready_time_due_to_prereqs]
    returns is enough: that hour is not before [after_hour], and at it
    [_can_start_given_prereqs] holds. *)
Theorem ready_time_can_start comp ct day after r :
  _next_ready_time_due_to_prereqs comp ct day after = Some r ->
  after <= r /\ _can_start_given_prereqs comp ct day r = true.
Proof.
  intro Hr.
  assert (Hge : after <= r).
  { unfold _next_ready_time_due_to_prereqs in Hr.
    pose proof (ready_scan_shape ct day after (PC.prerequisites comp) []) as Hs.
    destruct (ready_scan (PC.prerequisites comp) ct day after []) as [needed|];
      [|discriminate].
    destruct Hs as (extra & -> & Hall & _). simpl in Hr.
    destruct extra as [|x extra]; injection Hr as <-; [lra|].
    assert (Hin : In (max_list x extra) (x :: extra)).
    { destruct (max_list_in extra x) as [E|Hin]; [left; now rewrite E|now right]. }
    apply Hall in Hin. pose proof EPS_pos. lra. }
  split; [exact Hge|].
  unfold _can_start_given_prereqs. apply can_start_scan_iff.
  intros p Hin. destruct (next_ready_spec day comp ct after r Hr p Hin) as (d & h & Hg & Hd).
  exists d, h. split; [exact Hg|].
  pose proof EPS_pos. destruct Hd as [Hd|[Hd [Hh|Hh]]]; [now left| |]; right; split; auto; lra.
Qed.

Lemma ready_time_can_start_witness :
  1 <= 3 /\
  _can_start_given_prereqs ex_C2 [("C1", (1%Z, 3))] 1 3 = true.
Proof.
  apply (ready_time_can_start ex_C2 [("C1", (1%Z, 3))] 1 1 3). vm_compute. reflexivity.
Defined.

(** X6. [_next_ready_time_due_to_prereqs] gives up exactly when a
    prerequisite has no completion time yet or completes on a later
    day. *)
Theorem ready_time_none comp ct day after :
  _next_ready_time_due_to_prereqs comp ct day after = None <->
  exists p, In p (PC.prerequisites comp) /\
    (dget p ct = None \/ exists d h, dget p ct = Some (d, h) /\ (day < d)%Z).
Proof.
  unfold _next_ready_time_due_to_prereqs.
  pose proof (ready_scan_shape ct day after (PC.prerequisites comp) []) as Hs.
  destruct (ready_scan (PC.prerequisites comp) ct day after []) as [needed|] eqn:Hscan.
  - split; [destruct needed; discriminate|].
    intros (p & Hin & Hwhy). exfalso.
    destruct (ready_scan_spec day ct after _ _ _ Hscan) as [_ Hall].
    destruct (Hall p Hin) as (d & h & Hg & Hd).
    destruct Hwhy as [Hn|(d' & h' & Hg' & Hlt)]; [congruence|].
    rewrite Hg in Hg'. injection Hg' as <- <-. destruct Hd as [Hd|[Hd _]]; lia.
  - split; [intros _; apply Hs|reflexivity].
Qed.

(** X7. Reserving and asking again: after [_reserve_interval] of
    [(s, e)], a window [(a, b)] is free exactly when it was free before
    and does not reach into the reserved interval ([e <= a] or
    [b <= s]); intervals that only touch do not block each other. *)
Theorem reserve_then_free l s e a b :
  _interval_is_free (_reserve_interval l s e) a b = true <->
  _interval_is_free l a b = true /\ (e <= a \/ b <= s).
Proof.
  unfold _reserve_interval, _interval_is_free.
  rewrite forallb_app, andb_true_iff. simpl.
  rewrite andb_true_r, negb_true_iff.
  rewrite (overlaps_false_disjoint s e a b). unfold disjoint. simpl. tauto.
Qed.

(* ================================================================= *)
(** * The topological sort on its own *)

(** X8. What [_topological_order] returns is a rearrangement of the
    components in which every component comes after all the components
    its prerequisites name. *)
Theorem topological_order_legal components topo :
  _topological_order components = Ok topo ->
  Permutation topo components /\ topo_legal topo.
Proof.
  intro Htopo. pose proof (topological_order_spec components) as Hspec.
  rewrite Htopo in Hspec. tauto.
Qed.

Lemma topological_order_legal_witness :
  Permutation [ex_C1; ex_C2] [ex_C1; ex_C2] /\ topo_legal [ex_C1; ex_C2].
Proof.
  apply (topological_order_legal [ex_C1; ex_C2] [ex_C1; ex_C2]).
  vm_compute. reflexivity.
Defined.

Lemma link_prereqs_app by_id cid ps1 : forall ps2 graph indeg,
  link_prereqs by_id cid (ps1 ++ ps2) graph indeg
  = match link_prereqs by_id cid ps1 graph indeg with
    | Ok (graph', indeg') => link_prereqs by_id cid ps2 graph' indeg'
    | Raise e => Raise e
    | OutOfFuel => OutOfFuel
    end.
Proof.
  induction ps1 as [|p ps1 IH]; intros ps2 graph indeg; simpl; [reflexivity|].
  destruct (negb (dmem p by_id)); [reflexivity|].
  destruct (dget p graph); [|reflexivity].
  destruct (dget cid indeg); [|reflexivity].
  apply IH.
Qed.

Lemma link_components_app by_id cs1 : forall cs2 graph indeg,
  link_components by_id (cs1 ++ cs2) graph indeg
  = match link_components by_id cs1 graph indeg with
    | Ok (graph', indeg') => link_components by_id cs2 graph' indeg'
    | Raise e => Raise e
    | OutOfFuel => OutOfFuel
    end.
Proof.
  induction cs1 as [|c cs1 IH]; intros cs2 graph indeg; simpl; [reflexivity|].
  destruct (link_prereqs by_id (PC.id c) (PC.prerequisites c) graph indeg)
    as [[g i]|e|]; [apply IH|reflexivity|reflexivity].
Qed.

(** X9. An unknown prerequisite is reported first, and by name: when
    [pr] is the first prerequisite, in input order, that is not the
    identifier of a component, [_topological_order] raises [ValueError]
    with the message naming [pr] and the component that lists it,
    whatever else is wrong with the input. *)
Theorem topological_order_first_unknown components cs1 c cs2 ps1 pr ps2 :
  components = cs1 ++ c :: cs2 ->
  PC.prerequisites c = ps1 ++ pr :: ps2 ->
  (forall c' p, In c' cs1 -> In p (PC.prerequisites c') ->
     In p (map PC.id components)) ->
  (forall p, In p ps1 -> In p (map PC.id components)) ->
  ~ In pr (map PC.id components) ->
  _topological_order components
  = Raise (ValueError (msg_unknown_prereq pr (PC.id c))).
Proof.
  intros Hcs Hps Hk1 Hk2 Hpr. unfold _topological_order.
  set (by_id := dict_comp PC.id (fun c => c) components).
  set (K := dkeys by_id).
  assert (HK : NoDup K) by apply NoDup_dkeys_dict_comp.
  assert (HKid : forall p, In p K <-> In p (map PC.id components)).
  { intro p. unfold K. rewrite <- dmem_keys. apply dmem_dict_comp. }
  assert (Hmem : forall p, dmem p by_id = true <-> In p K).
  { intro p. apply dmem_keys. }
  assert (Hin : forall x, In x components -> In (PC.id x) K).
  { intros x Hx. apply HKid. now apply in_map. }
  set (I0 := dict_comp PC.id (fun _ => 0%Z) components).
  set (G0 := dict_comp PC.id (fun _ => @nil string) components).
  replace (link_components by_id components G0 I0)
    with (link_components by_id (cs1 ++ c :: cs2) G0 I0)
    by (rewrite <- Hcs; reflexivity).
  rewrite link_components_app.
  pose proof (link_components_spec by_id K HK Hmem cs1 G0 I0 []
                (fun x Hx => Hin x ltac:(rewrite Hcs; apply in_or_app; now left))
                (link_inv_initial components)) as H1.
  destruct (link_components by_id cs1 G0 I0) as [[g1 i1]|e|].
  2:{ exfalso. destruct H1 as [(c' & p & Hc' & Hp & Hn) _].
      apply Hn, HKid. eauto. }
  2:{ contradiction. }
  destruct H1 as [_ Hinv1]. cbn [link_components].
  rewrite Hps, link_prereqs_app.
  pose proof (link_prereqs_spec by_id K HK Hmem (PC.id c) ps1 g1 i1 _
                (Hin c ltac:(rewrite Hcs; apply in_or_app; right; now left)) Hinv1) as H2.
  destruct (link_prereqs by_id (PC.id c) ps1 g1 i1) as [[g2 i2]|e|].
  2:{ exfalso. destruct H2 as [(p & Hp & Hn) _]. apply Hn, HKid. auto. }
  2:{ contradiction. }
  cbn [link_prereqs].
  assert (Hd : dmem pr by_id = false).
  { destruct (dmem pr by_id) eqn:E; [|reflexivity].
    exfalso. apply Hpr, HKid, Hmem. exact E. }
  rewrite Hd. reflexivity.
Qed.

Lemma topological_order_first_unknown_witness :
  _topological_order [ex_A; ex_C2]
  = Raise (ValueError (msg_unknown_prereq "C1" "C2")).
Proof.
  apply (topological_order_first_unknown [ex_A; ex_C2] [ex_A] ex_C2 [] [] "C1" []).
  - reflexivity.
  - reflexivity.
  - intros c' p [<-|[]] Hp. simpl in Hp. contradiction.
  - intros p [].
  - simpl. intuition discriminate.
Defined.

Lemma link_components_no_prerequisites by_id cs : forall graph indeg,
  (forall c, In c cs -> PC.prerequisites c = []) ->
  link_components by_id cs graph indeg = Ok (graph, indeg).
Proof.
  induction cs as [|c cs IH]; intros graph indeg Hall; simpl; [reflexivity|].
  rewrite (Hall c (or_introl eq_refl)). simpl. apply IH.
  intros c' Hc'. apply Hall. now right.
Qed.

Lemma fold_dset_const_values {A} (key : A -> string) (v : Z) (l : list A) :
  forall d : dict string Z,
  (forall kv, In kv d -> snd kv = v) ->
  forall kv, In kv (fold_left (fun d x => dset (key x) v d) l d) -> snd kv = v.
Proof.
  induction l as [|x l IH]; intros d Hd; simpl; [exact Hd|].
  apply IH. clear IH. induction d as [|[k' v'] d IHd]; simpl.
  - intros kv [<-|[]]. reflexivity.
  - destruct (String.eqb (key x) k'); simpl.
    + intros kv [<-|Hin]; [reflexivity|]. apply Hd. now right.
    + intros kv [<-|Hin]; [apply (Hd (k', v')); now left|].
      apply IHd; auto. intros kv' Hkv'. apply Hd. now right.
Qed.

Lemma dkeys_fold_dset_fresh {A V} (key : A -> string) (val : A -> V) (l : list A) :
  forall d : dict string V,
  NoDup (dkeys d ++ map key l) ->
  dkeys (fold_left (fun d x => dset (key x) (val x) d) l d) = dkeys d ++ map key l.
Proof.
  induction l as [|x l IH]; intros d Hnd; simpl; [now rewrite app_nil_r|].
  assert (Hfresh : dmem (key x) d = false).
  { destruct (dmem (key x) d) eqn:E; [|reflexivity]. exfalso.
    apply dmem_keys in E. simpl in Hnd. apply NoDup_remove_2 in Hnd.
    apply Hnd. apply in_or_app. now left. }
  rewrite IH; rewrite dkeys_dset, Hfresh, <- app_assoc; [reflexivity|exact Hnd].
Qed.

Lemma dkeys_dict_comp_NoDup {A V} (key : A -> string) (val : A -> V) (l : list A) :
  NoDup (map key l) -> dkeys (dict_comp key val l) = map key l.
Proof.
  intro Hnd. unfold dict_comp. now rewrite dkeys_fold_dset_fresh.
Qed.

Lemma filter_all {A} (f : A -> bool) (l : list A) :
  (forall x, In x l -> f x = true) -> filter f l = l.
Proof.
  induction l as [|x l IH]; intro H; simpl; [reflexivity|].
  rewrite (H x (or_introl eq_refl)), IH; auto. intros; apply H; now right.
Qed.

Lemma kahn_loop_no_edges by_id graph indeg cs : forall fuel out,
  (List.length cs <= fuel)%nat ->
  (forall c, In c cs ->
     dget (PC.id c) by_id = Some c /\ dget (PC.id c) graph = Some []) ->
  kahn_loop fuel by_id graph indeg (map PC.id cs) out = Ok (out ++ cs).
Proof.
  induction cs as [|c cs IH]; intros fuel out Hfuel Hall.
  - destruct fuel; simpl; now rewrite app_nil_r.
  - destruct fuel as [|fuel]; [simpl in Hfuel; lia|].
    cbn [map kahn_loop].
    destruct (Hall c (or_introl eq_refl)) as [-> ->]. cbn [relax].
    rewrite IH; [now rewrite <- app_assoc| simpl in Hfuel; lia |].
    intros c' Hc'. apply Hall. now right.
Qed.

(** X10. Without prerequisites the topological sort changes nothing:
    for components with pairwise distinct identifiers and empty
    prerequisite lists, [_topological_order] returns them in input
    order. *)
Theorem topological_order_no_prerequisites components :
  NoDup (map PC.id components) ->
  (forall c, In c components -> PC.prerequisites c = []) ->
  _topological_order components = Ok components.
Proof.
  intros Hnd Hall. unfold _topological_order.
  rewrite (link_components_no_prerequisites _ _ _ _ Hall).
  set (indeg := dict_comp PC.id (fun _ => 0%Z) components).
  assert (Hq : map fst (filter (fun kd => (snd kd =? 0)%Z) indeg) = map PC.id components).
  { rewrite filter_all.
    - change (map fst indeg) with (dkeys indeg). now apply dkeys_dict_comp_NoDup.
    - intros kv Hkv. apply Z.eqb_eq.
      apply (fold_dset_const_values PC.id 0%Z components [] (fun _ F => match F with end)).
      exact Hkv. }
  rewrite Hq, kahn_loop_no_edges.
  - simpl. now rewrite Nat.eqb_refl.
  - lia.
  - intros c Hc. split.
    + now apply (dget_dict_comp_NoDup PC.id (fun c => c)).
    + now apply (dget_dict_comp_NoDup PC.id (fun _ => @nil string)).
Qed.

Lemma topological_order_no_prerequisites_witness :
  _topological_order [ex_A; ex_B; ex_C] = Ok [ex_A; ex_B; ex_C].
Proof.
  apply (topological_order_no_prerequisites [ex_A; ex_B; ex_C]).
  - repeat constructor; simpl; intuition discriminate.
  - intros c [<-|[<-|[<-|[]]]]; reflexivity.
Defined.

(* ================================================================= *)
(** * The slot loop, step by step

    A finer account of a slot iteration than [op]: each primitive change
    of the state together with what the code has checked just before
    making it. *)

Lemma option_eqb_eq (a b : option string) : option_eqb a b = true <-> a = b.
Proof.
  destruct a as [x|], b as [y|]; simpl; try (split; [discriminate|congruence]).
  - rewrite String.eqb_eq. split; congruence.
  - tauto.
Qed.

Section Acts.
Variable molds : list Mold.t.
Variable mold_change_time_hours : Q.
Variable color_change_time_hours : Q.
Variable comp_order : list PC.t.
Variable day : Z.
Variable machine : Machine.t.

Let mid := Machine.id machine.

(** The machine has not been marked done today. *)
Definition running (st : S.state) : Prop :=
  getitem false (S.done st) mid = false.

Inductive act (st : S.state) : S.state -> Prop :=
| act_finish :
    running st ->
    act st (finish mid (getitem 0 (S.usable st) mid) st)
| act_wait t_next :
    running st ->
    getitem 0 (S.t st) mid + EPS < t_next ->
    t_next < getitem 0 (S.usable st) mid - EPS ->
    act st (emit_wait day machine (getitem 0 (S.t st) mid) t_next
              (getitem 0 (S.usable st) mid) st)
| act_change_color to :
    running st ->
    0 < color_change_time_hours ->
    getitem 0 (S.t st) mid + pymax 0 color_change_time_hours
      <= getitem 0 (S.usable st) mid + EPS ->
    getitem None (S.current_color st) mid <> Some to ->
    act st (set_color mid to
              (emit_advance day machine
                 (CHANGE_COLOR (getitem None (S.current_color st) mid) to)
                 (pymax 0 color_change_time_hours) (getitem 0 (S.t st) mid)
                 (getitem 0 (S.t st) mid + pymax 0 color_change_time_hours)
                 (getitem 0 (S.usable st) mid) st))
| act_set_color color :
    running st ->
    color_change_time_hours <= 0 ->
    act st (set_color mid color st)
| act_set_mold mold :
    running st ->
    mold_change_time_hours <= 0 ->
    act st (set_mold mid mold st)
| act_hold k e :
    running st ->
    getitem 0 (S.t st) mid + EPS < e ->
    _interval_is_free (busy st day k) (getitem 0 (S.t st) mid) e = true ->
    act st (reserve day k (getitem 0 (S.t st) mid) e st)
| act_change_mold k :
    running st ->
    0 < mold_change_time_hours ->
    getitem 0 (S.t st) mid + pymax 0 mold_change_time_hours
      <= getitem 0 (S.usable st) mid + EPS ->
    getitem None (S.current_mold st) mid <> Some k ->
    _interval_is_free (busy st day k) (getitem 0 (S.t st) mid)
      (getitem 0 (S.t st) mid + pymax 0 mold_change_time_hours) = true ->
    act st (set_mold mid k
              (emit_advance day machine
                 (CHANGE_MOLD (getitem None (S.current_mold st) mid) k)
                 (pymax 0 mold_change_time_hours) (getitem 0 (S.t st) mid)
                 (getitem 0 (S.t st) mid + pymax 0 mold_change_time_hours)
                 (getitem 0 (S.usable st) mid)
                 (reserve day k (getitem 0 (S.t st) mid)
                    (getitem 0 (S.t st) mid + pymax 0 mold_change_time_hours) st)))
| act_produce chosen qty :
    In chosen comp_order ->
    running st ->
    (0 < qty <= getitem 0 (S.remaining st) (PC.id chosen))%Z ->
    0 < _piece_hours (PC.cycle_time_sec chosen) ->
    owner_ok machine chosen st ->
    prereqs_done day chosen st (getitem 0 (S.t st) mid) ->
    _interval_is_free (busy st day (PC.mold_id chosen)) (getitem 0 (S.t st) mid)
      (getitem 0 (S.t st) mid + inject_Z qty * _piece_hours (PC.cycle_time_sec chosen)) = true ->
    _feasible_on_machine chosen machine (molds_by_id molds) = true ->
    getitem 0 (S.t st) mid + inject_Z qty * _piece_hours (PC.cycle_time_sec chosen)
      <= getitem 0 (S.usable st) mid ->
    getitem None (S.current_mold st) mid = Some (PC.mold_id chosen) ->
    getitem None (S.current_color st) mid = Some (PC.color chosen) ->
    act st (commit_produce day machine (getitem 0 (S.usable st) mid) chosen qty
              (inject_Z qty * _piece_hours (PC.cycle_time_sec chosen))
              (getitem 0 (S.t st) mid)
              (getitem 0 (S.t st) mid + inject_Z qty * _piece_hours (PC.cycle_time_sec chosen))
              st).

Inductive acts (st : S.state) : S.state -> Prop :=
| acts_refl : acts st st
| acts_step st1 st2 : acts st st1 -> act st1 st2 -> acts st st2.

Lemma acts_one st st' : act st st' -> acts st st'.
Proof. intro H. eapply acts_step; [apply acts_refl|exact H]. Qed.

Lemma acts_trans st1 st2 st3 : acts st1 st2 -> acts st2 st3 -> acts st1 st3.
Proof.
  intros H12 H23. induction H23; auto. eapply acts_step; eauto.
Qed.

(** Every such step is one of the primitive changes of [op]. *)
Lemma act_ops st st' :
  act st st' ->
  ops mold_change_time_hours color_change_time_hours comp_order day machine st st'.
Proof.
  intros [Hr|t_next Hr H1 H2|to Hr Hc Hfit Hne|color Hr Hc0|mold Hr Hm0|k e Hr He Hf
         |k Hr Hm Hfit Hne Hf|chosen qty Hin Hr Hq Hpp Hown Hpre Hf Hfeas Hcap Hcm Hcc].
  - apply ops_one, op_finish.
  - now apply ops_one, op_wait.
  - eapply ops_step; [apply ops_one, op_change_color; exact Hc|apply op_set_color].
  - apply ops_one, op_set_color.
  - apply ops_one, op_set_mold.
  - now apply ops_one, op_reserve.
  - eapply ops_step; [apply ops_one, op_change_mold; [exact Hm|exact Hf]|apply op_set_mold].
  - now apply ops_one, op_produce.
Qed.

(** What the phases before PRODUCE leave as it was. *)
Definition steady (st st' : S.state) : Prop :=
  S.remaining st' = S.remaining st /\
  S.completion_time st' = S.completion_time st /\
  S.component_owner st' = S.component_owner st /\
  S.done st' = S.done st /\
  S.usable st' = S.usable st.

Lemma steady_refl st : steady st st.
Proof. repeat split. Qed.

Lemma steady_trans st1 st2 st3 : steady st1 st2 -> steady st2 st3 -> steady st1 st3.
Proof.
  unfold steady. intros (A1 & A2 & A3 & A4 & A5) (B1 & B2 & B3 & B4 & B5).
  repeat split; congruence.
Qed.

Variable genome : list string.

Lemma scan_candidate_checks st now cap c x :
  scan_component genome molds mold_change_time_hours color_change_time_hours
    st day machine now cap c = Candidate x ->
  comp x = c /\
  _feasible_on_machine c machine (molds_by_id molds) = true /\
  need_mold_change x
  = negb (option_eqb (getitem None (S.current_mold st) mid) (Some (PC.mold_id c))) /\
  need_color_change x
  = negb (option_eqb (getitem None (S.current_color st) mid) (Some (PC.color c))).
Proof.
  unfold scan_component. cbv zeta. fold mid.
  destruct (_ <=? _)%Z; [discriminate|].
  destruct (match dget _ _ with Some _ => _ | None => _ end); [discriminate|].
  destruct (negb (_feasible_on_machine _ _ _)) eqn:Hfeas; [discriminate|].
  destruct (Qleb _ 0); [discriminate|].
  destruct (_next_ready_time_due_to_prereqs _ _ _ _); [|discriminate].
  destruct (Qltb _ _); [discriminate|].
  destruct (dget (PC.mold_id c) _); [|discriminate].
  destruct (negb (_interval_is_free _ _ _)).
  - destruct (_next_mold_free_time_for_window _ _ _ _); [|discriminate].
    destruct (_ && _); discriminate.
  - intros [= <-]. simpl. apply negb_false_iff in Hfeas. auto.
Qed.

Lemma wait_or_finish_acts nxt st :
  running st ->
  acts st (wait_or_finish day machine (getitem 0 (S.t st) mid)
             (getitem 0 (S.usable st) mid) nxt st).
Proof.
  intro Hr. unfold wait_or_finish. fold mid.
  destruct nxt as [nxt|]; [|now apply acts_one, act_finish].
  destruct (_ && _) eqn:E; [|now apply acts_one, act_finish].
  qprop. now apply acts_one, act_wait.
Qed.

Lemma pymax_0_of_pos a : 0 < pymax 0 a -> 0 < a.
Proof. unfold pymax. destruct (Qltb 0 a) eqn:E; qprop; lra. Qed.

Lemma phase_color_acts x st :
  running st ->
  need_color_change x
  = negb (option_eqb (getitem None (S.current_color st) mid) (Some (PC.color (comp x)))) ->
  match phase_color color_change_time_hours day machine (getitem 0 (S.usable st) mid)
          x st (getitem 0 (S.t st) mid) with
  | Continue st' => acts st st'
  | Proceed st' now' =>
      acts st st' /\ steady st st' /\ now' = getitem 0 (S.t st') mid /\
      S.current_mold st' = S.current_mold st /\
      getitem None (S.current_color st') mid = Some (PC.color (comp x))
  end.
Proof.
  intros Hr Hneed. unfold phase_color. cbv zeta. fold mid.
  destruct (need_color_change x).
  2:{ symmetry in Hneed. apply negb_false_iff, option_eqb_eq in Hneed.
      repeat split; [apply acts_refl|exact Hneed]. }
  symmetry in Hneed. apply negb_true_iff in Hneed.
  assert (Hne : getitem None (S.current_color st) mid <> Some (PC.color (comp x))).
  { intro E. apply option_eqb_eq in E. congruence. }
  destruct (Qltb 0 (pymax 0 color_change_time_hours)) eqn:Hch.
  - destruct (Qltb (_ + EPS) _) eqn:Hfit; [now apply acts_one, act_finish|].
    qprop. split; [|split; [|split; [|split]]].
    + apply acts_one.
      exact (act_change_color st (PC.color (comp x)) Hr
               (pymax_0_of_pos _ Hch) Hfit Hne).
    + repeat split.
    + unfold set_color. sproj. now rewrite getitem_dset_same.
    + reflexivity.
    + unfold set_color. sproj. now rewrite getitem_dset_same.
  - split; [|split; [|split; [|split]]].
    + apply acts_one, act_set_color; [exact Hr|].
      qprop. pose proof (pymax_ge_r 0 color_change_time_hours). lra.
    + repeat split.
    + reflexivity.
    + reflexivity.
    + unfold set_color. sproj. now rewrite getitem_dset_same.
Qed.

Lemma phase_mold_acts x st :
  running st ->
  need_mold_change x
  = negb (option_eqb (getitem None (S.current_mold st) mid) (Some (PC.mold_id (comp x)))) ->
  match phase_mold mold_change_time_hours day machine (getitem 0 (S.usable st) mid)
          x st (getitem 0 (S.t st) mid) with
  | Continue st' => acts st st'
  | Proceed st' now' =>
      acts st st' /\ steady st st' /\ now' = getitem 0 (S.t st') mid /\
      S.current_color st' = S.current_color st /\
      getitem None (S.current_mold st') mid = Some (PC.mold_id (comp x))
  end.
Proof.
  intros Hr Hneed. unfold phase_mold. cbv zeta. fold mid.
  destruct (need_mold_change x).
  2:{ symmetry in Hneed. apply negb_false_iff, option_eqb_eq in Hneed.
      repeat split; [apply acts_refl|exact Hneed]. }
  symmetry in Hneed. apply negb_true_iff in Hneed.
  assert (Hne : getitem None (S.current_mold st) mid <> Some (PC.mold_id (comp x))).
  { intro E. apply option_eqb_eq in E. congruence. }
  destruct (Qltb 0 (pymax 0 mold_change_time_hours)) eqn:Hmh.
  - destruct (Qltb (_ + EPS) _) eqn:Hfit; [now apply acts_one, act_finish|].
    destruct (negb _) eqn:Hfree; [now apply wait_or_finish_acts|].
    qprop. split; [|split; [|split; [|split]]].
    + apply acts_one.
      exact (act_change_mold st (PC.mold_id (comp x)) Hr
               (pymax_0_of_pos _ Hmh) Hfit Hne Hfree).
    + repeat split.
    + unfold set_mold. sproj. now rewrite getitem_dset_same.
    + reflexivity.
    + unfold set_mold. sproj. now rewrite getitem_dset_same.
  - split; [|split; [|split; [|split]]].
    + apply acts_one, act_set_mold; [exact Hr|].
      qprop. pose proof (pymax_ge_r 0 mold_change_time_hours). lra.
    + repeat split.
    + reflexivity.
    + reflexivity.
    + unfold set_mold. sproj. now rewrite getitem_dset_same.
Qed.

Lemma hold_mold_acts r st :
  running st ->
  getitem 0 (S.t st) mid + EPS < r ->
  match hold_mold day machine (getitem 0 (S.usable st) mid)
          (getitem 0 (S.t st) mid) r st with
  | inr st' => acts st st'
  | inl st' =>
      acts st st' /\ steady st st' /\ S.t st' = S.t st /\
      S.tasks st' = S.tasks st /\ S.seq st' = S.seq st /\
      S.current_mold st' = S.current_mold st /\
      S.current_color st' = S.current_color st
  end.
Proof.
  intros Hr Hlate. unfold hold_mold. cbv zeta. fold mid.
  destruct (getitem None (S.current_mold st) mid) as [cm|];
    [|repeat split; apply acts_refl].
  destruct (dget cm _) as [intervals|] eqn:Hget; [|repeat split; apply acts_refl].
  destruct (negb _) eqn:Hfree; [now apply wait_or_finish_acts|].
  qprop. repeat split. apply acts_one, act_hold; auto.
  unfold busy. unfold getitem at 1. now rewrite Hget.
Qed.

Lemma phase_prereq_acts x st :
  running st ->
  match phase_prereq day machine (getitem 0 (S.usable st) mid) x st
          (getitem 0 (S.t st) mid) with
  | Continue st' => acts st st'
  | Proceed st' now' =>
      acts st st' /\ steady st st' /\ now' = getitem 0 (S.t st') mid /\
      S.current_mold st' = S.current_mold st /\
      S.current_color st' = S.current_color st /\
      prereqs_done day (comp x) st' now'
  end.
Proof.
  intros Hr. unfold phase_prereq. cbv zeta. fold mid.
  destruct (_next_ready_time_due_to_prereqs _ _ _ _) as [r|] eqn:Hready;
    [|now apply acts_one, act_finish].
  pose proof (next_ready_spec _ _ _ _ _ Hready) as Hpre.
  destruct (Qltb _ r) eqn:Hlate.
  - destruct (Qleb (_ - EPS) r) eqn:Hcap; [now apply acts_one, act_finish|].
    qprop.
    pose proof (hold_mold_acts r st Hr Hlate) as Hhold.
    destruct (hold_mold _ _ _ _ _ _) as [st1|st1]; [|exact Hhold].
    destruct Hhold as (Hacts & Hst & Ht & Htk & Hsq & Hcm & Hcc).
    pose proof Hst as (S1 & S2 & S3 & S4 & S5).
    split; [|split; [|split; [|split; [|split]]]].
    + eapply acts_step; [exact Hacts|].
      rewrite <- Ht, <- S5. apply act_wait.
      * unfold running. now rewrite S4.
      * now rewrite Ht.
      * now rewrite S5.
    + unfold steady, emit_wait, emit_advance, advance, emit. sproj. tauto.
    + unfold emit_wait, emit_advance, advance. sproj. now rewrite getitem_dset_same.
    + exact Hcm.
    + exact Hcc.
    + intros p Hin. destruct (Hpre p Hin) as (d & h & Hget & Hd).
      exists d, h. split.
      * unfold emit_wait, emit_advance, advance, emit. sproj. now rewrite S2.
      * pose proof EPS_pos.
        destruct Hd as [Hd|[Hd [Hh|Hh]]]; auto; right; split; auto; lra.
  - qprop. repeat split; try apply acts_refl.
    intros p Hin. destruct (Hpre p Hin) as (d & h & Hget & Hd).
    exists d, h. split; auto.
    destruct Hd as [Hd|[Hd [Hh|Hh]]]; auto; right; split; auto; lra.
Qed.

Lemma floor_run_fits (avail h : Q) (qty : Z) :
  0 < h -> (qty <= Qfloor (avail / h))%Z -> inject_Z qty * h <= avail.
Proof.
  intros Hh Hq.
  assert (H1 : inject_Z qty <= avail / h).
  { apply Qle_trans with (inject_Z (Qfloor (avail / h))); [|apply Qfloor_le].
    now rewrite <- Zle_Qle. }
  apply Qle_trans with (avail / h * h).
  - apply Qmult_le_compat_r; [exact H1|lra].
  - unfold Qdiv. rewrite <- Qmult_assoc, (Qmult_comm (/ h)), Qmult_inv_r; [lra|lra].
Qed.

Lemma phase_produce_acts x st :
  running st ->
  In (comp x) comp_order ->
  owner_ok machine (comp x) st ->
  prereqs_done day (comp x) st (getitem 0 (S.t st) mid) ->
  _feasible_on_machine (comp x) machine (molds_by_id molds) = true ->
  getitem None (S.current_mold st) mid = Some (PC.mold_id (comp x)) ->
  getitem None (S.current_color st) mid = Some (PC.color (comp x)) ->
  acts st (phase_produce day machine (getitem 0 (S.usable st) mid) x st
             (getitem 0 (S.t st) mid)).
Proof.
  intros Hr Hin Hown Hpre Hfeas Hcm Hcc. unfold phase_produce. cbv zeta. fold mid.
  destruct (Qleb _ 0) eqn:Hpp; [now apply acts_one, act_finish|].
  destruct (Qltb _ (_ - EPS)); [now apply acts_one, act_finish|].
  destruct (_ <=? 0)%Z eqn:Hqty; [now apply acts_one, act_finish|].
  destruct (negb _) eqn:Hfree; [now apply wait_or_finish_acts|].
  qprop. apply Z.leb_gt in Hqty.
  apply acts_one, act_produce; auto; [lia|].
  match goal with
  | |- ?t + inject_Z ?q * ?h <= ?cap =>
      assert (Hrun : exists avail, inject_Z q * h <= avail /\ t + avail <= cap)
  end.
  { match goal with
    | H : (0 < Z.min _ (Qfloor (?a / ?h)))%Z |- _ =>
        exists a; split; [apply floor_run_fits; [exact Hpp|lia]|]
    end.
    destruct (_next_busy_start _ _) as [nb|].
    - pose proof (pymin_le_l (getitem 0 (S.usable st) mid) nb). lra.
    - lra. }
  destruct Hrun as (avail & H1 & H2). lra.
Qed.

(** One slot iteration is a sequence of such steps. *)
Lemma slot_body_acts st :
  running st ->
  acts st (slot_body genome molds mold_change_time_hours color_change_time_hours
             comp_order day machine st).
Proof.
  intro Hr. unfold slot_body. cbv zeta. fold mid.
  set (now := getitem 0 (S.t st) mid).
  set (cap := getitem 0 (S.usable st) mid).
  set (scanned := map (scan_component genome molds mold_change_time_hours
                         color_change_time_hours st day machine now cap) comp_order).
  destruct (candidates_of scanned) as [|c0 cands] eqn:Hcands.
  - destruct (wait_candidates_of scanned) as [|w ws] eqn:Hw;
      [now apply acts_one, act_finish|].
    destruct (Qltb _ _) eqn:E; [|now apply acts_one, act_finish].
    qprop. apply acts_one, act_wait; [exact Hr|exact E|].
    assert (Hin : In (min_list w ws) (wait_candidates_of scanned)).
    { rewrite Hw. destruct (min_list_in ws w) as [Hm|Hm]; [left|right]; auto. }
    apply wait_candidates_of_In in Hin. apply in_map_iff in Hin.
    destruct Hin as (c & Hscan & _).
    apply (scan_wait_candidate_cap day machine genome molds) in Hscan. tauto.
  - set (x := hd c0 (prefer st mid (c0 :: cands))).
    assert (Hx : In x (candidates_of scanned)).
    { rewrite Hcands. apply hd_In; [now left|].
      apply (prefer_In genome molds mold_change_time_hours color_change_time_hours
               comp_order day machine). }
    apply candidates_of_In in Hx. apply in_map_iff in Hx.
    destruct Hx as (c & Hscan & Hc).
    pose proof (scan_candidate_checks _ _ _ _ _ Hscan) as (_ & Hfeas & Hnm & Hnc).
    apply (scan_candidate genome molds mold_change_time_hours color_change_time_hours
             day machine) in Hscan.
    destruct Hscan as (Hcx & _ & Hown & _). subst c.
    pose proof (phase_color_acts x st Hr Hnc) as H1.
    fold now cap in H1.
    destruct (phase_color _ _ _ _ _ _ _) as [st1|st1 now1]; [exact H1|].
    destruct H1 as (Ha1 & Hs1 & Hnow1 & Hcm1 & Hcc1).
    pose proof Hs1 as (A1 & A2 & A3 & A4 & A5).
    assert (Hr1 : running st1) by (unfold running; now rewrite A4).
    assert (Hnm1 : need_mold_change x
                   = negb (option_eqb (getitem None (S.current_mold st1) mid)
                             (Some (PC.mold_id (comp x))))) by now rewrite Hcm1.
    pose proof (phase_mold_acts x st1 Hr1 Hnm1) as H2.
    rewrite A5, <- Hnow1 in H2. fold cap in H2.
    destruct (phase_mold _ _ _ _ _ _ _) as [st2|st2 now2];
      [eapply acts_trans; eauto|].
    destruct H2 as (Ha2 & Hs2 & Hnow2 & Hcc2 & Hcm2).
    pose proof Hs2 as (B1 & B2 & B3 & B4 & B5).
    assert (Hr2 : running st2) by (unfold running; now rewrite B4).
    pose proof (phase_prereq_acts x st2 Hr2) as H3.
    rewrite B5, A5, <- Hnow2 in H3. fold cap in H3.
    destruct (phase_prereq _ _ _ _ _ _) as [st3|st3 now3];
      [eapply acts_trans; [|exact H3]; eapply acts_trans; eauto|].
    destruct H3 as (Ha3 & Hs3 & Hnow3 & Hcm3 & Hcc3 & Hpre).
    pose proof Hs3 as (C1 & C2 & C3 & C4 & C5).
    assert (Hr3 : running st3) by (unfold running; now rewrite C4).
    eapply acts_trans; [eapply acts_trans; [eapply acts_trans|]; eauto|].
    assert (Hcap3 : cap = getitem 0 (S.usable st3) mid).
    { unfold cap. now rewrite C5, B5, A5. }
    rewrite Hcap3, Hnow3. apply phase_produce_acts; auto.
    + unfold owner_ok in *. rewrite C3, B3, A3. exact Hown.
    + now rewrite <- Hnow3.
    + now rewrite Hcm3.
    + now rewrite Hcc3, Hcc2.
Qed.
End Acts.

Section ActsInduction.
Variable genome : list string.
Variable machines : list Machine.t.
Variable molds : list Mold.t.
Variable month_days : Z.
Variable mold_change_time_hours : Q.
Variable color_change_time_hours : Q.
Variable comp_order : list PC.t.

(** [P cur st]: the invariant within the day [cur] being simulated;
    [N cur st]: the invariant between days, [cur] being the last day
    simulated. *)
Variable P : Z -> S.state -> Prop.
Variable N : Z -> S.state -> Prop.

Hypothesis N_begin : forall cur d st,
  (cur < d)%Z -> (1 <= d <= month_days)%Z -> N cur st -> P d (begin_day machines st).
Hypothesis P_end : forall d st, P d st -> N d (end_day machines st).
Hypothesis P_act : forall d m st st',
  (1 <= d <= month_days)%Z -> In m machines -> P d st ->
  act molds mold_change_time_hours color_change_time_hours comp_order d m st st' ->
  P d st'.

Lemma P_acts d m st st' :
  (1 <= d <= month_days)%Z -> In m machines -> P d st ->
  acts molds mold_change_time_hours color_change_time_hours comp_order d m st st' ->
  P d st'.
Proof. intros Hd Hm HP Hacts. induction Hacts; eauto. Qed.

Lemma slot_loop_acts_inv fuel d : (1 <= d <= month_days)%Z -> forall st st',
  slot_loop genome machines molds mold_change_time_hours color_change_time_hours
    fuel comp_order d st = Ok st' ->
  P d st -> P d st'.
Proof.
  intro Hd. induction fuel as [|fuel IH]; intros st st'; simpl.
  - destruct (pick_machine machines st); [discriminate|]. now intros [= <-].
  - destruct (pick_machine machines st) as [m|] eqn:Hpick; [|now intros [= <-]].
    intros Hloop HP. apply (IH _ _ Hloop).
    apply pick_machine_active in Hpick. destruct Hpick as (Hin & Hdone & _).
    eapply P_acts; [exact Hd|exact Hin|exact HP|].
    apply slot_body_acts. exact Hdone.
Qed.

Lemma run_days_acts_inv fuel n : forall a cur st st',
  run_days genome machines molds mold_change_time_hours color_change_time_hours
    fuel comp_order (map Z.of_nat (seq a n)) st = Ok st' ->
  (cur < Z.of_nat a)%Z -> (1 <= a)%nat ->
  (n = O \/ (Z.of_nat (a + n) <= month_days + 1)%Z) ->
  N cur st -> exists cur', N cur' st'.
Proof.
  induction n as [|n IH]; intros a cur st st'; simpl.
  - intros [= <-] _ _ _ HP. now exists cur.
  - destruct (slot_loop _ _ _ _ _ _ _ _ _) as [st1| |] eqn:Hloop; try discriminate.
    intros Hrun Hcur Ha Hn HP.
    assert (Hd : (1 <= Z.of_nat a <= month_days)%Z) by lia.
    apply (IH (S a) (Z.of_nat a) _ _ Hrun); [lia|lia|right; lia|].
    apply P_end. apply (slot_loop_acts_inv _ _ Hd _ _ Hloop).
    now apply (N_begin cur).
Qed.
End ActsInduction.

(** Invariants of the decoder proved step by step reach its result: one
    invariant for the states within a day, one for the states between
    days. *)
Lemma decode_days_inv genome components machines molds month_days mct cct fuel
    (P N : Z -> S.state -> Prop) tasks unmet :
  (forall topo, _topological_order components = Ok topo ->
     N 0%Z (initial_state components machines molds month_days) /\
     (forall cur d st, (cur < d)%Z -> (1 <= d <= month_days)%Z -> N cur st ->
        P d (begin_day machines st)) /\
     (forall d st, P d st -> N d (end_day machines st)) /\
     (forall d m st st', (1 <= d <= month_days)%Z -> In m machines -> P d st ->
        act molds mct cct (comp_order_of genome topo) d m st st' -> P d st')) ->
  _decode_v2 genome components machines molds month_days mct cct fuel = Ok (tasks, unmet) ->
  exists cur st, N cur st /\ tasks = S.tasks st /\ unmet = unmet_of (S.remaining st).
Proof.
  intros HP. unfold _decode_v2.
  destruct (_topological_order components) as [topo| |] eqn:Htopo; try discriminate.
  destruct (run_days _ _ _ _ _ _ _ _ _) as [st| |] eqn:Hrun; try discriminate.
  intros [= <- <-].
  destruct (HP topo eq_refl) as (Hinit & Hbegin & Hend & Hact).
  unfold day_range in Hrun.
  destruct (run_days_acts_inv genome machines molds month_days mct cct _ P N
              Hbegin Hend Hact _ _ _ 0%Z _ _ Hrun) as [cur' Hcur'];
    [lia | lia | | exact Hinit |].
  { destruct (Z.to_nat month_days) eqn:E; [now left|right; lia]. }
  exists cur', st. auto.
Qed.

(** The same with one invariant for both. *)
Lemma decode_acts_inv genome components machines molds month_days mct cct fuel
    (P : Z -> S.state -> Prop) tasks unmet :
  (forall topo, _topological_order components = Ok topo ->
     P 0%Z (initial_state components machines molds month_days) /\
     (forall cur d st, (cur < d)%Z -> (1 <= d <= month_days)%Z -> P cur st ->
        P d (begin_day machines st)) /\
     (forall d st, P d st -> P d (end_day machines st)) /\
     (forall d m st st', (1 <= d <= month_days)%Z -> In m machines -> P d st ->
        act molds mct cct (comp_order_of genome topo) d m st st' -> P d st')) ->
  _decode_v2 genome components machines molds month_days mct cct fuel = Ok (tasks, unmet) ->
  exists cur st, P cur st /\ tasks = S.tasks st /\ unmet = unmet_of (S.remaining st).
Proof. apply decode_days_inv. Qed.

(* ================================================================= *)
(** * One thing at a time, and within the day's hours *)

(** [usable] of the day loop: hours per day times efficiency, by machine
    identifier. *)
Definition usable_hours (machines : list Machine.t) : dict string Q :=
  dict_comp Machine.id (fun m => Machine.hours_per_day m * Machine.efficiency m) machines.

(** Two tasks of one machine on one day follow each other. *)
Definition in_turn (a b : task) : Prop :=
  day a = day b -> machine_id a = machine_id b -> end_hour a <= start_hour b.

Record timing_inv (machines : list Machine.t) (month_days cur : Z) (st : S.state)
  : Prop := {
  ti_cur : cur = 0%Z \/ (1 <= cur <= month_days)%Z;
  ti_usable : (1 <= cur)%Z -> S.usable st = usable_hours machines;
  ti_clock0 : forall k, getitem false (S.done st) k = false ->
    0 <= getitem 0 (S.t st) k;
  ti_days : forall tk, In tk (S.tasks st) -> (1 <= day tk <= cur)%Z;
  ti_bounds : forall tk, In tk (S.tasks st) ->
    0 <= start_hour tk /\
    end_hour tk <= getitem 0 (usable_hours machines) (machine_id tk) + EPS;
  ti_clock : forall tk, In tk (S.tasks st) -> day tk = cur ->
    getitem false (S.done st) (machine_id tk) = false ->
    end_hour tk <= getitem 0 (S.t st) (machine_id tk);
  ti_turn : ForallOrdPairs in_turn (S.tasks st)
}.

Lemma timing_inv_same machines month_days cur st st' :
  S.tasks st' = S.tasks st -> S.t st' = S.t st -> S.done st' = S.done st ->
  S.usable st' = S.usable st ->
  timing_inv machines month_days cur st -> timing_inv machines month_days cur st'.
Proof.
  intros Htk Ht Hd Hu [I1 I2 I3 I4 I5 I6 I7].
  constructor; rewrite ?Htk, ?Ht, ?Hd, ?Hu; auto.
Qed.

(** A task of [machine] from its clock to [e], and the clock moved
    there. *)
Lemma timing_inv_emit machines month_days cur machine st st' tk e :
  S.tasks st' = S.tasks st ++ [tk] ->
  S.t st' = dset (Machine.id machine) e (S.t st) ->
  S.done st' = S.done st -> S.usable st' = S.usable st ->
  day tk = cur -> machine_id tk = Machine.id machine ->
  start_hour tk = getitem 0 (S.t st) (Machine.id machine) -> end_hour tk = e ->
  (1 <= cur)%Z ->
  running machine st ->
  getitem 0 (S.t st) (Machine.id machine) <= e ->
  e <= getitem 0 (S.usable st) (Machine.id machine) + EPS ->
  timing_inv machines month_days cur st -> timing_inv machines month_days cur st'.
Proof.
  intros Htk Ht Hd Hu Hday Hmid Hstart Hend Hcur Hrun Hle Hcap [I1 I2 I3 I4 I5 I6 I7].
  set (mid := Machine.id machine) in *.
  pose proof (I3 mid Hrun) as H0.
  constructor; rewrite ?Htk, ?Ht, ?Hd, ?Hu; auto.
  - intros k Hk. destruct (string_dec k mid) as [->|Hne].
    + rewrite getitem_dset_same. lra.
    + rewrite getitem_dset_other by assumption. auto.
  - intros tk' Hin. apply in_app_or in Hin. destruct Hin as [Hin|[<-|[]]]; auto.
    destruct I1 as [->|I1]; lia.
  - intros tk' Hin. apply in_app_or in Hin. destruct Hin as [Hin|[<-|[]]]; auto.
    rewrite Hstart, Hend, Hmid. split; [exact H0|].
    rewrite <- (I2 Hcur). exact Hcap.
  - intros tk' Hin Hd' Hr'. apply in_app_or in Hin.
    destruct (string_dec (machine_id tk') mid) as [E|Hne].
    + rewrite E, getitem_dset_same.
      destruct Hin as [Hin|[<-|[]]]; [|rewrite Hend; lra].
      rewrite E in Hr'. pose proof (I6 tk' Hin Hd' ltac:(now rewrite E)) as Hc.
      rewrite E in Hc. lra.
    + rewrite getitem_dset_other by assumption.
      destruct Hin as [Hin|[<-|[]]]; [now apply I6|contradiction].
  - apply FOP_snoc; auto. intros y Hy Hdy Hmy. rewrite Hstart.
    rewrite Hmid in Hmy. rewrite Hday in Hdy.
    pose proof (I6 y Hy Hdy ltac:(now rewrite Hmy)) as Hc. now rewrite Hmy in Hc.
Qed.

Lemma timing_inv_act machines month_days molds mct cct comp_order d m st st' :
  (1 <= d <= month_days)%Z ->
  act molds mct cct comp_order d m st st' ->
  timing_inv machines month_days d st -> timing_inv machines month_days d st'.
Proof.
  intros Hd Hact Hinv.
  destruct Hact as [Hr|t_next Hr H1 H2|to Hr Hc Hfit Hne|color Hr Hc0|mold Hr Hm0|k e Hr He Hf
                   |k Hr Hm Hfit Hne Hf
                   |chosen qty Hin Hr Hq Hpp Hown Hpre Hf Hfeas Hcap Hcm Hcc].
  - destruct Hinv as [I1 I2 I3 I4 I5 I6 I7]. constructor; auto.
    + intros k Hk. unfold finish in *. revert Hk. sproj.
      destruct (string_dec k (Machine.id m)) as [->|Hne].
      * rewrite getitem_dset_same. discriminate.
      * rewrite !getitem_dset_other by assumption. auto.
    + intros tk Hin Hday. unfold finish. sproj.
      destruct (string_dec (machine_id tk) (Machine.id m)) as [->|Hne].
      * rewrite getitem_dset_same. discriminate.
      * rewrite !getitem_dset_other by assumption. now apply I6.
  - eapply (timing_inv_emit machines month_days d m st); try reflexivity; auto;
      try lia; pose proof EPS_pos; lra.
  - eapply (timing_inv_emit machines month_days d m st); try reflexivity; auto;
      try lia. pose proof (pymax_ge_l 0 cct). lra.
  - revert Hinv. now apply timing_inv_same.
  - revert Hinv. now apply timing_inv_same.
  - revert Hinv. now apply timing_inv_same.
  - eapply (timing_inv_emit machines month_days d m st); try reflexivity; auto;
      try lia. pose proof (pymax_ge_l 0 mct). lra.
  - eapply (timing_inv_emit machines month_days d m st).
    + apply tasks_commit_produce.
    + apply t_commit_produce.
    + apply done_commit_produce.
    + apply usable_commit_produce.
    + reflexivity.
    + reflexivity.
    + reflexivity.
    + reflexivity.
    + lia.
    + exact Hr.
    + assert (0 <= inject_Z qty * _piece_hours (PC.cycle_time_sec chosen)); [|lra].
      apply Qmult_le_0_compat; [|lra].
      assert (Hz : (0 <= qty)%Z) by lia. rewrite Zle_Qle in Hz. exact Hz.
    + pose proof EPS_pos. lra.
    + exact Hinv.
Qed.

Lemma timing_inv_begin machines month_days cur d st :
  (cur < d)%Z -> (1 <= d <= month_days)%Z ->
  timing_inv machines month_days cur st ->
  timing_inv machines month_days d (begin_day machines st).
Proof.
  intros Hlt Hd [I1 I2 I3 I4 I5 I6 I7]. constructor.
  - now right.
  - reflexivity.
  - intros k _. unfold begin_day. sproj. rewrite getitem_dict_comp_const. lra.
  - intros tk Hin. specialize (I4 tk Hin). change (S.tasks (begin_day machines st))
      with (S.tasks st) in Hin. lia.
  - exact I5.
  - intros tk Hin Hday. specialize (I4 tk Hin). lia.
  - exact I7.
Qed.

Lemma timing_inv_initial components machines molds month_days :
  timing_inv machines month_days 0 (initial_state components machines molds month_days).
Proof.
  constructor; simpl; try contradiction; try (now left); try lia;
    try constructor.
  intros k _. unfold getitem. simpl. lra.
Qed.

Lemma decode_timing genome components machines molds month_days mct cct fuel
    tasks unmet :
  _decode_v2 genome components machines molds month_days mct cct fuel = Ok (tasks, unmet) ->
  exists cur st, timing_inv machines month_days cur st /\ tasks = S.tasks st.
Proof.
  intro Hdec.
  apply decode_acts_inv with (P := timing_inv machines month_days) in Hdec.
  - destruct Hdec as (cur & st & Hinv & Htk & _). eauto.
  - intros topo _. split; [apply timing_inv_initial|]. split; [|split].
    + intros cur d st. apply timing_inv_begin.
    + intros d st. now apply timing_inv_same.
    + intros d m st st' Hd _ Hinv Hact. eapply timing_inv_act; eauto.
Qed.

(** X11. A machine does one thing at a time: of two tasks that
    [_decode_v2] gives the same machine on the same day, the one listed
    first ends before (or when) the other starts. *)
Theorem decode_machine_exclusive genome components machines molds month_days
    mold_change_time_hours color_change_time_hours fuel tasks unmet :
  _decode_v2 genome components machines molds month_days
    mold_change_time_hours color_change_time_hours fuel = Ok (tasks, unmet) ->
  forall i j a b,
    (i < j)%nat -> nth_error tasks i = Some a -> nth_error tasks j = Some b ->
    day a = day b -> machine_id a = machine_id b ->
    end_hour a <= start_hour b.
Proof.
  intros Hdec i j a b Hij Ha Hb Hday Hm.
  destruct (decode_timing _ _ _ _ _ _ _ _ _ _ Hdec) as (cur & st & Hinv & ->).
  exact (FOP_nth _ _ (ti_turn _ _ _ _ Hinv) i j a b Hij Ha Hb Hday Hm).
Qed.

Lemma decode_machine_exclusive_witness :
  exists tasks unmet a b,
    _decode_v2 ["C1"; "C2"] [ex_E1; ex_E2] [ex_M1] [ex_D1] 1 1 (1 # 2) 20
    = Ok (tasks, unmet) /\
    nth_error tasks 0 = Some a /\ nth_error tasks 3 = Some b /\
    end_hour a <= start_hour b.
Proof.
  pose proof (decode_machine_exclusive ["C1"; "C2"] [ex_E1; ex_E2] [ex_M1] [ex_D1]
                1 1 (1 # 2) 20) as H.
  eexists _, _, _, _. split; [vm_compute; reflexivity|].
  split; [reflexivity|]. split; [reflexivity|].
  eapply H with (i := 0%nat) (j := 3%nat);
    [vm_compute; reflexivity | lia | reflexivity ..].
Defined.



(** X13. Every task falls on a day of the month: its [day] is between
    1 and [month_days]; with [month_days < 1] there is no task. *)
Theorem decode_days_in_month genome components machines molds month_days
    mold_change_time_hours color_change_time_hours fuel tasks unmet :
  _decode_v2 genome components machines molds month_days
    mold_change_time_hours color_change_time_hours fuel = Ok (tasks, unmet) ->
  (forall tk, In tk tasks -> (1 <= day tk <= month_days)%Z) /\
  ((month_days < 1)%Z -> tasks = []).
Proof.
  intros Hdec.
  destruct (decode_timing _ _ _ _ _ _ _ _ _ _ Hdec) as (cur & st & Hinv & ->).
  assert (Hall : forall tk, In tk (S.tasks st) -> (1 <= day tk <= month_days)%Z).
  { intros tk Hin. pose proof (ti_days _ _ _ _ Hinv tk Hin) as Hd.
    destruct (ti_cur _ _ _ _ Hinv) as [->|Hc]; lia. }
  split; [exact Hall|].
  intro Hmd. destruct (S.tasks st) as [|tk l]; [reflexivity|].
  specialize (Hall tk (or_introl eq_refl)). lia.
Qed.

Lemma decode_days_in_month_witness :
  exists tasks unmet,
    _decode_v2 ["C2"; "C1"] [ex_C1; ex_C2] [ex_M4] [ex_D1] 2 0 0 20 = Ok (tasks, unmet) /\
    (forall tk, In tk tasks -> (1 <= day tk <= 2)%Z) /\
    ((2 < 1)%Z -> tasks = []).
Proof.
  pose proof (decode_days_in_month ["C2"; "C1"] [ex_C1; ex_C2] [ex_M4] [ex_D1]
                2 0 0 20) as H.
  eexists _, _. split; [vm_compute; reflexivity|].
  eapply H. vm_compute. reflexivity.
Defined.

(** X14. A component stays with one machine: all the PRODUCE tasks
    that [_decode_v2] returns for a component are on the same machine. *)
Theorem decode_single_owner genome components machines molds month_days
    mold_change_time_hours color_change_time_hours fuel tasks unmet :
  _decode_v2 genome components machines molds month_days
    mold_change_time_hours color_change_time_hours fuel = Ok (tasks, unmet) ->
  forall cid tk1 tk2, In tk1 tasks -> In tk2 tasks ->
    produces cid tk1 = true -> produces cid tk2 = true ->
    machine_id tk1 = machine_id tk2.
Proof.
  intros Hdec.
  destruct (decode_ok_topo _ _ _ _ _ _ _ _ _ Hdec) as [topo Htopo].
  pose proof (topological_order_ok _ _ Htopo) as (Hnd & _ & _ & Hsub).
  apply decode_inv with (P := fun cur st => prereq_inv components cur st) in Hdec.
  2:{ intros topo' Htopo'. rewrite Htopo in Htopo'. injection Htopo' as <-.
      split; [apply prereq_inv_initial|]. split; [|split].
      - intros cur d st. apply prereq_inv_begin.
      - intros d st. now apply prereq_inv_ext.
      - intros d m st st' Hinv Hop.
        apply (prereq_inv_op components mold_change_time_hours color_change_time_hours
                 (comp_order_of genome topo) d m st st' Hnd); auto.
        intros c Hc. apply Hsub. now apply comp_order_of_In in Hc. }
  destruct Hdec as (cur & st & Hinv & -> & _).
  intros cid tk1 tk2 H1 H2 P1 P2.
  pose proof (pi_owner _ _ _ Hinv cid tk1 H1 P1) as O1.
  pose proof (pi_owner _ _ _ Hinv cid tk2 H2 P2) as O2.
  congruence.
Qed.

(** Five pieces of one hour each, for a press that runs four hours a
    day. *)
Definition ex_F : PC.t := PC.mk "F" "f" 5 3600 "D1" "red" 2 0 [] "pending".

Lemma decode_single_owner_witness :
  exists tasks unmet tk1 tk2,
    _decode_v2 ["F"] [ex_F] [ex_M4; ex_M2] [ex_D1] 2 0 0 20 = Ok (tasks, unmet) /\
    nth_error tasks 0 = Some tk1 /\ nth_error tasks 1 = Some tk2 /\
    day tk1 = 1%Z /\ day tk2 = 2%Z /\
    machine_id tk1 = machine_id tk2.
Proof.
  pose proof (decode_single_owner ["F"] [ex_F] [ex_M4; ex_M2] [ex_D1] 2 0 0 20) as H.
  eexists _, _, _, _. split; [vm_compute; reflexivity|].
  split; [reflexivity|]. split; [reflexivity|].
  split; [reflexivity|]. split; [reflexivity|].
  eapply H with (cid := "F");
    [vm_compute; reflexivity | left; reflexivity | right; left; reflexivity
    | reflexivity | reflexivity].
Defined.

(* ================================================================= *)
(** * What each task record says *)

Lemma feasible_iff c m mb :
  _feasible_on_machine c m mb = true <->
  exists md, dget (PC.mold_id c) mb = Some md /\
    Mold.group md = Machine.group m /\
    (Mold.tonnage md <= Machine.tonnage m)%Z /\ 0 < PC.cycle_time_sec c.
Proof.
  unfold _feasible_on_machine. destruct (dget (PC.mold_id c) mb) as [md|].
  - destruct (String.eqb_spec (Mold.group md) (Machine.group m)) as [Hg|Hg]; simpl.
    + destruct (Z.ltb_spec (Machine.tonnage m) (Mold.tonnage md)) as [Ht|Ht].
      * split; [discriminate|]. intros (md' & [= <-] & _ & Hle & _). lia.
      * destruct (Qleb (PC.cycle_time_sec c) 0) eqn:Hc; qprop.
        -- split; [discriminate|]. intros (md' & [= <-] & _ & _ & Hpos). lra.
        -- split; [|reflexivity]. intros _. exists md. auto.
    + split; [discriminate|]. intros (md' & [= <-] & Hg' & _). contradiction.
  - split; [discriminate|]. intros (md & Hd & _). discriminate.
Qed.

Definition record_ok (machines : list Machine.t) (molds : list Mold.t)
    (comp_order : list PC.t) (tk : task) : Prop :=
  (exists m, In m machines /\ Machine.id m = machine_id tk /\
             Machine.name m = machine_name tk) /\
  0 < used_hours tk /\
  used_hours tk == end_hour tk - start_hour tk /\
  utilization tk
  = utilization_of (used_hours tk) (getitem 0 (usable_hours machines) (machine_id tk)) /\
  match kind tk with
  | PRODUCE mold cid name color qty =>
      exists m c, In m machines /\ In c comp_order /\
        Machine.id m = machine_id tk /\ PC.id c = cid /\ PC.mold_id c = mold /\
        PC.name c = name /\ PC.color c = color /\
        _feasible_on_machine c m (molds_by_id molds) = true /\
        used_hours tk = inject_Z qty * _piece_hours (PC.cycle_time_sec c)
  | CHANGE_MOLD from to => from <> Some to
  | CHANGE_COLOR from to => from <> Some to
  | WAIT => True
  end.

Definition records_inv (machines : list Machine.t) (molds : list Mold.t)
    (comp_order : list PC.t) (month_days cur : Z) (st : S.state) : Prop :=
  timing_inv machines month_days cur st /\
  Forall (record_ok machines molds comp_order) (S.tasks st).

Lemma record_ok_task_of machines molds comp_order d m k used start end_ st :
  In m machines ->
  S.usable st = usable_hours machines ->
  0 < used -> used == end_ - start ->
  match k with
  | PRODUCE mold cid name color qty =>
      exists c, In c comp_order /\ PC.id c = cid /\ PC.mold_id c = mold /\
        PC.name c = name /\ PC.color c = color /\
        _feasible_on_machine c m (molds_by_id molds) = true /\
        used = inject_Z qty * _piece_hours (PC.cycle_time_sec c)
  | CHANGE_MOLD from to => from <> Some to
  | CHANGE_COLOR from to => from <> Some to
  | WAIT => True
  end ->
  record_ok machines molds comp_order
    (task_of d m k used start end_ (getitem 0 (S.usable st) (Machine.id m)) st).
Proof.
  intros Hm Hu Hpos Hused Hk. unfold record_ok, task_of. simpl.
  split; [exists m; auto|]. split; [exact Hpos|]. split; [exact Hused|].
  split; [now rewrite Hu|].
  destruct k as [mold cid name color qty|from to|from to|]; auto.
  destruct Hk as (c & H1 & H2 & H3 & H4 & H5 & H6 & H7).
  exists m, c. repeat split; auto.
Qed.

Lemma records_inv_act machines molds mct cct comp_order month_days d m st st' :
  (1 <= d <= month_days)%Z -> In m machines ->
  act molds mct cct comp_order d m st st' ->
  records_inv machines molds comp_order month_days d st ->
  records_inv machines molds comp_order month_days d st'.
Proof.
  intros Hd Hm Hact [Ht Hrec].
  split; [eapply timing_inv_act; eauto|].
  pose proof (ti_usable _ _ _ _ Ht ltac:(lia)) as Hu.
  destruct Hact as [Hr|t_next Hr H1 H2|to Hr Hc Hfit Hne|color Hr Hc0|mold Hr Hm0|k e Hr He Hf
                   |k Hr Hmc Hfit Hne Hf
                   |chosen qty Hin Hr Hq Hpp Hown Hpre Hf Hfeas Hcap Hcm Hcc];
    try exact Hrec.
  - apply Forall_app. split; [exact Hrec|]. constructor; [|constructor].
    apply (record_ok_task_of machines molds comp_order d m WAIT); auto;
      pose proof EPS_pos; lra.
  - apply Forall_app. split; [exact Hrec|]. constructor; [|constructor].
    apply (record_ok_task_of machines molds comp_order d m (CHANGE_COLOR _ to)); auto.
    + rewrite (pymax_0_pos _ Hc). exact Hc.
    + lra.
  - apply (Forall_app (record_ok machines molds comp_order) (S.tasks st)).
    split; [exact Hrec|]. constructor; [|constructor].
    apply (record_ok_task_of machines molds comp_order d m (CHANGE_MOLD _ k)
             _ _ _ (reserve d k _ _ st)); auto.
    + rewrite (pymax_0_pos _ Hmc). exact Hmc.
    + lra.
  - rewrite tasks_commit_produce. apply Forall_app. split; [exact Hrec|].
    constructor; [|constructor].
    apply (record_ok_task_of machines molds comp_order d m (produce_kind chosen qty));
      auto.
    + apply Qmult_lt_0_compat; [|exact Hpp]. apply inject_Z_pos. lia.
    + lra.
    + exists chosen. repeat split; auto.
Qed.

Lemma decode_records genome components machines molds month_days mct cct fuel
    tasks unmet :
  _decode_v2 genome components machines molds month_days mct cct fuel = Ok (tasks, unmet) ->
  Forall (record_ok machines molds components) tasks.
Proof.
  intro Hdec.
  destruct (decode_ok_topo _ _ _ _ _ _ _ _ _ Hdec) as [topo Htopo].
  pose proof (topological_order_ok _ _ Htopo) as (_ & _ & _ & Hsub).
  apply decode_acts_inv with
    (P := records_inv machines molds (comp_order_of genome topo) month_days) in Hdec.
  - destruct Hdec as (cur & st & [_ Hrec] & -> & _).
    eapply Forall_impl; [|exact Hrec].
    intros tk (H1 & H2 & H3 & H4 & H5). repeat split; auto.
    destruct (kind tk) as [mold cid name color qty|from to|from to|]; auto.
    destruct H5 as (m & c & Hm & Hc & Hrest). exists m, c.
    split; [exact Hm|]. split; [|exact Hrest].
    apply Hsub. now apply comp_order_of_In in Hc.
  - intros topo' Htopo'. rewrite Htopo in Htopo'. injection Htopo' as <-.
    split; [split; [apply timing_inv_initial|constructor]|]. split; [|split].
    + intros cur d st Hlt Hd [Ht Hrec]. split; [now apply (timing_inv_begin _ _ cur)|exact Hrec].
    + intros d st [Ht Hrec]. split; [revert Ht; now apply timing_inv_same|exact Hrec].
    + intros d m st st' Hd Hm Hinv Hact. eapply records_inv_act; eauto.
Qed.


(** X15. A PRODUCE task is on a machine that can run the component: the
    task's machine is one of [machines], its component one of
    [components], the component's mold is known, of the machine's group
    and within its tonnage, and the cycle time is positive. *)
Theorem decode_produce_feasible genome components machines molds month_days
    mold_change_time_hours color_change_time_hours fuel tasks unmet :
  _decode_v2 genome components machines molds month_days
    mold_change_time_hours color_change_time_hours fuel = Ok (tasks, unmet) ->
  forall tk mold cid name color qty,
    In tk tasks -> kind tk = PRODUCE mold cid name color qty ->
    exists m c md,
      In m machines /\ Machine.id m = machine_id tk /\
      In c components /\ PC.id c = cid /\ PC.mold_id c = mold /\
      In md molds /\ dget mold (molds_by_id molds) = Some md /\
      Mold.group md = Machine.group m /\
      (Mold.tonnage md <= Machine.tonnage m)%Z /\
      0 < PC.cycle_time_sec c.
Proof.
  intros Hdec tk mold cid name color qty Hin Hk.
  pose proof (decode_records _ _ _ _ _ _ _ _ _ _ Hdec) as Hall.
  rewrite Forall_forall in Hall. destruct (Hall tk Hin) as (_ & _ & _ & _ & Hrec).
  rewrite Hk in Hrec.
  destruct Hrec as (m & c & Hm & Hc & Hid & Hcid & Hmold & _ & _ & Hfeas & _).
  apply feasible_iff in Hfeas. destruct Hfeas as (md & Hget & Hg & Ht & Hcyc).
  rewrite Hmold in Hget.
  exists m, c, md. repeat split; auto.
  unfold molds_by_id in Hget. apply dget_dict_comp in Hget.
  destruct Hget as (x & Hx & _ & <-). exact Hx.
Qed.

Lemma decode_produce_feasible_witness :
  exists tasks unmet tk,
    _decode_v2 ["C1"; "C2"] [ex_E1; ex_E2] [ex_M1] [ex_D1] 1 1 (1 # 2) 20
    = Ok (tasks, unmet) /\
    nth_error tasks 2 = Some tk /\
    exists m c md,
      In m [ex_M1] /\ Machine.id m = machine_id tk /\
      In c [ex_E1; ex_E2] /\ PC.id c = "C1" /\ PC.mold_id c = "D1" /\
      In md [ex_D1] /\ dget "D1" (molds_by_id [ex_D1]) = Some md /\
      Mold.group md = Machine.group m /\
      (Mold.tonnage md <= Machine.tonnage m)%Z /\
      0 < PC.cycle_time_sec c.
Proof.
  pose proof (decode_produce_feasible ["C1"; "C2"] [ex_E1; ex_E2] [ex_M1] [ex_D1]
                1 1 (1 # 2) 20) as H.
  eexists _, _, _. split; [vm_compute; reflexivity|]. split; [reflexivity|].
  eapply H; [vm_compute; reflexivity | right; right; left; reflexivity | reflexivity].
Defined.

(** X16. A changeover task changes something: a CHANGE_MOLD or
    CHANGE_COLOR task never has the mold or color it changes to as the one
    it changes from. *)
Theorem decode_changeover_changes genome components machines molds month_days
    mold_change_time_hours color_change_time_hours fuel tasks unmet :
  _decode_v2 genome components machines molds month_days
    mold_change_time_hours color_change_time_hours fuel = Ok (tasks, unmet) ->
  forall tk from to,
    In tk tasks ->
    kind tk = CHANGE_MOLD from to \/ kind tk = CHANGE_COLOR from to ->
    from <> Some to.
Proof.
  intros Hdec tk from to Hin Hk.
  pose proof (decode_records _ _ _ _ _ _ _ _ _ _ Hdec) as Hall.
  rewrite Forall_forall in Hall. destruct (Hall tk Hin) as (_ & _ & _ & _ & Hrec).
  destruct Hk as [Hk|Hk]; rewrite Hk in Hrec; exact Hrec.
Qed.

Lemma decode_changeover_changes_witness :
  exists tasks unmet tk,
    _decode_v2 ["C1"; "C2"] [ex_E1; ex_E2] [ex_M1] [ex_D1] 1 1 (1 # 2) 20
    = Ok (tasks, unmet) /\
    nth_error tasks 3 = Some tk /\
    kind tk = CHANGE_COLOR (Some "red") "blue" /\
    Some "red" <> Some "blue".
Proof.
  pose proof (decode_changeover_changes ["C1"; "C2"] [ex_E1; ex_E2] [ex_M1] [ex_D1]
                1 1 (1 # 2) 20) as H.
  eexists _, _, _. split; [vm_compute; reflexivity|]. split; [reflexivity|].
  split; [reflexivity|].
  eapply H; [vm_compute; reflexivity | do 3 right; left; reflexivity
            | right; reflexivity].
Defined.





(* ================================================================= *)
(** * Sequence numbers *)

Lemma getitem_dict_comp_const_In {A K V} `{EqKey K} (key : A -> K) (v dflt : V)
    (l : list A) x :
  In x l -> getitem dflt (dict_comp key (fun _ => v) l) (key x) = v.
Proof.
  unfold dict_comp.
  assert (G : forall d, (getitem dflt d (key x) = v \/ In x l) ->
            getitem dflt (fold_left (fun d y => dset (key y) v d) l d) (key x) = v).
  { induction l as [|y l IH]; intros d Hd; simpl.
    - destruct Hd as [Hd|[]]. exact Hd.
    - apply IH. destruct (keqb_dec (key x) (key y)) as [E|Hne].
      + left. rewrite E. apply getitem_dset_same.
      + destruct Hd as [Hd|[->|Hin]].
        * left. now rewrite getitem_dset_other.
        * contradiction.
        * now right. }
  intro Hin. apply G. now right.
Qed.

(** The tasks of [l] of day [d] on machine [mid]. *)
Definition same_slot (d : Z) (mid : string) (tk : task) : bool :=
  Z.eqb (day tk) d && String.eqb (machine_id tk) mid.

Definition earlier (d : Z) (mid : string) (l : list task) : Z :=
  Z.of_nat (List.length (filter (same_slot d mid) l)).

Definition numbered (l : list task) : Prop :=
  forall l1 tk l2, l = l1 ++ tk :: l2 ->
    sequence_in_day tk = (1 + earlier (day tk) (machine_id tk) l1)%Z.

Record numbering_inv (machines : list Machine.t) (cur : Z) (st : S.state)
  : Prop := {
  ni_days : forall tk, In tk (S.tasks st) -> (day tk <= cur)%Z;
  ni_seq : (1 <= cur)%Z -> forall m, In m machines ->
    getitem 0%Z (S.seq st) (Machine.id m)
    = (1 + earlier cur (Machine.id m) (S.tasks st))%Z;
  ni_numbered : numbered (S.tasks st)
}.

Lemma earlier_snoc d mid l tk :
  earlier d mid (l ++ [tk])
  = (earlier d mid l + if same_slot d mid tk then 1 else 0)%Z.
Proof.
  unfold earlier. rewrite filter_app, length_app. simpl.
  destruct (same_slot d mid tk); simpl; lia.
Qed.

Lemma earlier_none d mid l :
  (forall tk, In tk l -> (day tk < d)%Z) -> earlier d mid l = 0%Z.
Proof.
  intro Hall. unfold earlier.
  replace (filter (same_slot d mid) l) with (@nil task); [reflexivity|].
  symmetry. induction l as [|x l IH]; [reflexivity|]. simpl.
  unfold same_slot at 1.
  destruct (Z.eqb_spec (day x) d) as [E|_].
  - specialize (Hall x (or_introl eq_refl)). lia.
  - simpl. apply IH. intros tk Hin. apply Hall. now right.
Qed.

Lemma numbering_inv_same machines cur st st' :
  S.tasks st' = S.tasks st -> S.seq st' = S.seq st ->
  numbering_inv machines cur st -> numbering_inv machines cur st'.
Proof.
  intros Htk Hs [I1 I2 I3]. constructor; rewrite ?Htk, ?Hs; auto.
Qed.

Lemma numbering_inv_emit machines cur machine st st' tk :
  S.tasks st' = S.tasks st ++ [tk] ->
  S.seq st' = dset (Machine.id machine)
                (getitem 0%Z (S.seq st) (Machine.id machine) + 1)%Z (S.seq st) ->
  day tk = cur -> machine_id tk = Machine.id machine ->
  sequence_in_day tk = getitem 0%Z (S.seq st) (Machine.id machine) ->
  (1 <= cur)%Z -> In machine machines ->
  numbering_inv machines cur st -> numbering_inv machines cur st'.
Proof.
  intros Htk Hs Hday Hmid Hseq Hcur Hm [I1 I2 I3].
  constructor; rewrite ?Htk, ?Hs.
  - intros x Hx. apply in_app_or in Hx. destruct Hx as [Hx|[<-|[]]]; [auto|lia].
  - intros _ m Hin. rewrite earlier_snoc. unfold same_slot.
    rewrite Hday, Z.eqb_refl, Hmid. cbn [andb].
    destruct (String.eqb_spec (Machine.id machine) (Machine.id m)) as [E|Hne].
    + cbv iota. rewrite <- E, getitem_dset_same, (I2 Hcur machine Hm). lia.
    + cbv iota. rewrite getitem_dset_other by congruence. rewrite (I2 Hcur m Hin). lia.
  - intros l1 x l2 Hsplit.
    destruct l2 as [|y l2 _] using rev_ind.
    + apply app_inj_tail in Hsplit. destruct Hsplit as [<- <-].
      rewrite Hseq, Hday, Hmid. now apply I2.
    + rewrite app_comm_cons, app_assoc in Hsplit.
      apply app_inj_tail in Hsplit. destruct Hsplit as [Hsplit _].
      exact (I3 l1 x l2 Hsplit).
Qed.

Lemma numbering_inv_act machines molds mct cct comp_order d m st st' :
  (1 <= d)%Z -> In m machines ->
  act molds mct cct comp_order d m st st' ->
  numbering_inv machines d st -> numbering_inv machines d st'.
Proof.
  intros Hd Hm Hact Hinv.
  destruct Hact as [Hr|t_next Hr H1 H2|to Hr Hc Hfit Hne|color Hr Hc0|mold Hr Hm0|k e Hr He Hf
                   |k Hr Hmc Hfit Hne Hf
                   |chosen qty Hin Hr Hq Hpp Hown Hpre Hf Hfeas Hcap Hcm Hcc];
    try (revert Hinv; now apply numbering_inv_same);
    try (eapply (numbering_inv_emit machines d m st); eauto; reflexivity).
  eapply (numbering_inv_emit machines d m st); eauto.
  - apply tasks_commit_produce.
  - apply seq_commit_produce.
  - reflexivity.
  - reflexivity.
  - reflexivity.
Qed.

Lemma numbering_inv_begin machines cur d st :
  (cur < d)%Z ->
  numbering_inv machines cur st -> numbering_inv machines d (begin_day machines st).
Proof.
  intros Hlt [I1 I2 I3]. constructor.
  - intros tk Hin. specialize (I1 tk Hin). lia.
  - intros _ m Hm. unfold begin_day. sproj.
    rewrite (getitem_dict_comp_const_In Machine.id 1%Z 0%Z machines m Hm).
    rewrite earlier_none; [reflexivity|].
    intros tk Hin. specialize (I1 tk Hin). lia.
  - exact I3.
Qed.

Lemma decode_numbering genome components machines molds month_days mct cct fuel
    tasks unmet :
  _decode_v2 genome components machines molds month_days mct cct fuel = Ok (tasks, unmet) ->
  numbered tasks.
Proof.
  intro Hdec.
  apply decode_acts_inv with (P := numbering_inv machines) in Hdec.
  - destruct Hdec as (cur & st & Hinv & -> & _). apply (ni_numbered _ _ _ Hinv).
  - intros topo _. split; [|split; [|split]].
    + constructor; simpl; try contradiction; try lia.
      intros l1 tk l2 Hsplit. destruct l1; discriminate.
    + intros cur d st Hlt _. now apply numbering_inv_begin.
    + intros d st. now apply numbering_inv_same.
    + intros d m st st' Hd Hm Hinv Hact. eapply numbering_inv_act; eauto. lia.
Qed.

(** X19. Sequence numbers count up from 1 on each machine and day: the
    [sequence_in_day] of a task is one more than the number of tasks listed
    before it with the same day and machine. *)
Theorem decode_sequence_numbers genome components machines molds month_days
    mold_change_time_hours color_change_time_hours fuel tasks unmet :
  _decode_v2 genome components machines molds month_days
    mold_change_time_hours color_change_time_hours fuel = Ok (tasks, unmet) ->
  forall i tk, nth_error tasks i = Some tk ->
    sequence_in_day tk
    = (1 + Z.of_nat (List.length (filter (same_slot (day tk) (machine_id tk))
                               (firstn i tasks))))%Z.
Proof.
  intros Hdec i tk Hnth.
  pose proof (decode_numbering _ _ _ _ _ _ _ _ _ _ Hdec) as Hnum.
  destruct (nth_error_split _ _ Hnth) as (l1 & l2 & Hsplit & Hlen).
  rewrite (Hnum l1 tk l2 Hsplit). unfold earlier.
  rewrite Hsplit, <- Hlen, firstn_app, Nat.sub_diag, firstn_all. simpl.
  now rewrite app_nil_r.
Qed.

Lemma decode_sequence_numbers_witness :
  exists tasks unmet tk,
    _decode_v2 ["C1"; "C2"] [ex_E1; ex_E2] [ex_M1] [ex_D1] 1 1 (1 # 2) 20
    = Ok (tasks, unmet) /\
    nth_error tasks 3 = Some tk /\
    sequence_in_day tk = 4%Z.
Proof.
  pose proof (decode_sequence_numbers ["C1"; "C2"] [ex_E1; ex_E2] [ex_M1] [ex_D1]
                1 1 (1 # 2) 20) as H.
  eexists _, _, _. split; [vm_compute; reflexivity|]. split; [reflexivity|].
  eapply eq_trans; [eapply (H _ _ ltac:(vm_compute; reflexivity) 3%nat); reflexivity|].
  reflexivity.
Defined.

(* ================================================================= *)
(** * The fitness of an arbitrary task list *)

Lemma late_start_loop_cases comps_by_id items : forall pen,
  match late_start_loop comps_by_id items pen with
  | Ok _ => forall cid d, In (cid, d) items -> dmem cid comps_by_id = true
  | Raise e =>
      exists cid d, e = KeyError cid /\ In (cid, d) items /\
                    dget cid comps_by_id = None
  | OutOfFuel => False
  end.
Proof.
  induction items as [|[cid d] items IH]; intro pen; simpl.
  - intros ? ? [].
  - destruct (dget cid comps_by_id) as [c|] eqn:Hget.
    + match goal with |- context [late_start_loop _ _ ?p] => specialize (IH p) end.
      destruct (late_start_loop _ _ _) as [r|e|].
      * intros cid' d' [[= <- <-]|Hin]; [unfold dmem; now rewrite Hget|eauto].
      * destruct IH as (cid' & d' & He & Hin & Hnone). exists cid', d'. auto.
      * exact IH.
    + exists cid, d. auto.
Qed.

Lemma produce_days_of cid tasks tk :
  In tk tasks -> produces cid tk = true -> In (day tk) (produce_days cid tasks).
Proof.
  intros Hin Hp. unfold produce_days. apply in_map. apply filter_In. auto.
Qed.

(** X20. The failures of [_fitness_v2], in the order the code meets them:
    [OverflowError] when the sum of the unmet values does not convert to a
    [float] (2^1024 - 2^970 or more in absolute value); else [KeyError] with
    the identifier of a PRODUCE task's component that is not in the list;
    else [OverflowError] when the total produced does not convert.  It
    returns a score exactly when none of the three applies. *)
Theorem fitness_failures tasks unmet components :
  match _fitness_v2 tasks unmet components with
  | Ok _ =>
      fits_double (sumZ (dvalues unmet)) /\
      names_known (map PC.id components) tasks /\
      fits_double (spec_produced_total tasks)
  | Raise e =>
      (e = OverflowError msg_int_too_large /\ ~ fits_double (sumZ (dvalues unmet))) \/
      (fits_double (sumZ (dvalues unmet)) /\
       exists cid tk, e = KeyError cid /\ In tk tasks /\ produces cid tk = true /\
                      ~ In cid (map PC.id components)) \/
      (e = OverflowError msg_int_too_large /\
       fits_double (sumZ (dvalues unmet)) /\
       names_known (map PC.id components) tasks /\
       ~ fits_double (spec_produced_total tasks))
  | OutOfFuel => False
  end.
Proof.
  unfold _fitness_v2.
  destruct (fits_double_dec (sumZ (dvalues unmet))) as [Hu|Hu].
  2:{ rewrite (float_of_int_overflow _ Hu). left. auto. }
  rewrite (float_of_int_fits _ Hu).
  set (by_id := dict_comp PC.id (fun c => c) components).
  set (acc := fold_left fitness_step tasks (mk_acc 0 0 0 [])).
  destruct (fitness_fold_sums tasks (mk_acc 0 0 0 [])) as (H1 & _).
  destruct (fitness_fold_days tasks (mk_acc 0 0 0 [])) as (Hnd & Hget); [constructor|].
  fold acc in H1, Hnd, Hget. simpl in H1. cbn [first_prod_day dget] in Hget.
  pose proof (late_start_loop_cases by_id (first_prod_day acc) 0) as Hcases.
  destruct (late_start_loop by_id (first_prod_day acc) 0) as [r|e|].
  - assert (Hk : names_known (map PC.id components) tasks).
    { intros tk cid Hin Hp.
      pose proof (produce_days_of cid tasks tk Hin Hp) as Hd.
      specialize (Hget cid).
      destruct (produce_days cid tasks) as [|d0 ds]; [contradiction|].
      apply dget_In in Hget. apply Hcases in Hget.
      now apply dmem_dict_comp in Hget. }
    rewrite H1.
    destruct (fits_double_dec (spec_produced_total tasks)) as [Hp|Hp].
    + rewrite (float_of_int_fits _ Hp). auto.
    + rewrite (float_of_int_overflow _ Hp). right. right. auto.
  - right. left. split; [exact Hu|].
    destruct Hcases as (cid & d & -> & Hin & Hnone).
    apply (In_dget _ _ _ Hnd) in Hin. rewrite Hget in Hin.
    destruct (produce_days cid tasks) as [|d0 ds] eqn:Hpd; [discriminate|].
    destruct (produce_days_In cid tasks d0) as (tk & Htk & Hp & _).
    { rewrite Hpd. now left. }
    exists cid, tk. repeat split; auto.
    intro Hk. apply (dmem_dict_comp PC.id (fun c => c)) in Hk.
    fold by_id in Hk. unfold dmem in Hk. rewrite Hnone in Hk. discriminate.
  - exact Hcases.
Qed.

(* ================================================================= *)
(** * The genetic operators, position by position *)

Lemma swap_at_nth {A} (i j : nat) (l : list A) :
  (i < List.length l)%nat -> (j < List.length l)%nat -> i <> j ->
  forall k, nth_error (swap_at i j l) k
            = nth_error l (if (k =? i)%nat then j else if (k =? j)%nat then i else k).
Proof.
  intros Hi Hj Hne k. unfold swap_at.
  destruct (nth_error l i) as [x|] eqn:Ei;
    [|apply nth_error_None in Ei; lia].
  destruct (nth_error l j) as [y|] eqn:Ej;
    [|apply nth_error_None in Ej; lia].
  destruct (Nat.eqb_spec k i) as [->|Hki].
  - rewrite nth_error_set_nth_other by congruence.
    rewrite (nth_error_set_nth_same l i y x Ei). now rewrite Ej.
  - destruct (Nat.eqb_spec k j) as [->|Hkj].
    + rewrite (nth_error_set_nth_same (set_nth i y l) j x y).
      * now rewrite Ei.
      * rewrite nth_error_set_nth_other by assumption. exact Ej.
    + rewrite !nth_error_set_nth_other by congruence. reflexivity.
Qed.

(** X21. A mutation is a transposition: on a genome of two or more distinct
    identifiers [_mutate_swap] exchanges the entries at two different
    positions and leaves every other position as it was, so the genome it
    returns differs from the one it was given. *)
Theorem mutate_swap_transposes g tp :
  NoDup g -> (2 <= List.length g)%nat ->
  exists i j, (i < List.length g)%nat /\ (j < List.length g)%nat /\ i <> j /\
    (forall k, nth_error (fst (_mutate_swap g tp)) k
               = nth_error g (if (k =? i)%nat then j
                              else if (k =? j)%nat then i else k)) /\
    fst (_mutate_swap g tp) <> g.
Proof.
  intros Hnd Hlen. unfold _mutate_swap.
  destruct (List.length g <? 2)%nat eqn:Hlt; [apply Nat.ltb_lt in Hlt; lia|clear Hlt].
  pose proof (sample2_range 0%Z (List.length g) tp Hlen) as Hr.
  destruct (sample2 (List.length g) tp) as [[i j] tp']. cbn [fst].
  destruct Hr as (Hi & Hj & Hne).
  pose proof (swap_at_nth i j g Hi Hj Hne) as Hnth.
  exists i, j. repeat split; auto.
  intro Heq. specialize (Hnth i). rewrite Heq, Nat.eqb_refl in Hnth.
  rewrite NoDup_nth_error in Hnd. apply Hne. now apply Hnd.
Qed.

Lemma mutate_swap_transposes_witness :
  exists i j, (i < 3)%nat /\ (j < 3)%nat /\ i <> j /\
    (forall k, nth_error (fst (_mutate_swap ["A"; "B"; "C"] [0%Z; 0%Z])) k
               = nth_error ["A"; "B"; "C"]
                   (if (k =? i)%nat then j else if (k =? j)%nat then i else k)) /\
    fst (_mutate_swap ["A"; "B"; "C"] [0%Z; 0%Z]) <> ["A"; "B"; "C"].
Proof.
  apply (mutate_swap_transposes ["A"; "B"; "C"] [0%Z; 0%Z]).
  - repeat constructor; simpl; intuition discriminate.
  - simpl. lia.
Defined.

(** X22. The order crossover keeps a slice of the first parent in place and
    fills the other positions from the second parent in its order: for
    parents that are permutations of each other without repeats there are
    cut points [a < b] within the genome such that the child has the first
    parent's entries at positions [a .. b-1], and the child's remaining
    entries, read left to right, are the second parent's entries that are
    not in that slice. *)
Theorem crossover_ox_slice p1 p2 tp :
  NoDup p1 -> Permutation p1 p2 -> (2 <= List.length p1)%nat ->
  exists a b, (a < b < List.length p1)%nat /\
    firstn (b - a) (skipn a (fst (_crossover_ox p1 p2 tp)))
    = firstn (b - a) (skipn a p1) /\
    firstn a (fst (_crossover_ox p1 p2 tp)) ++ skipn b (fst (_crossover_ox p1 p2 tp))
    = filter (fun x => negb (mem_string x (firstn (b - a) (skipn a p1)))) p2.
Proof.
  intros Hnd Hperm Hlen. unfold _crossover_ox.
  destruct (List.length p1 <? 2)%nat eqn:Hlt; [apply Nat.ltb_lt in Hlt; lia|clear Hlt].
  pose proof (sample2_range 0%Z (List.length p1) tp Hlen) as Hr.
  destruct (sample2 (List.length p1) tp) as [[i j] tp']. cbn [fst].
  destruct Hr as (Hi & Hj & Hne).
  set (a := Nat.min i j). set (b := Nat.max i j).
  assert (Hab : (a < b < List.length p1)%nat) by (unfold a, b; lia).
  set (mid := firstn (b - a) (skipn a p1)).
  set (rest := filter (fun x => negb (mem_string x mid)) p2).
  assert (Hmid : List.length mid = (b - a)%nat).
  { unfold mid. rewrite firstn_length_le; [reflexivity|]. rewrite length_skipn. lia. }
  assert (Hrest : (List.length mid + List.length rest = List.length p1)%nat).
  { rewrite <- length_app. rewrite (Permutation_length Hperm).
    apply Permutation_length. apply filter_out_perm.
    - eapply Permutation_NoDup; eauto.
    - apply NoDup_firstn, NoDup_skipn, Hnd.
    - intros x Hx. apply (Permutation_in _ Hperm).
      eapply skipn_incl, firstn_incl, Hx. }
  assert (Hfa : List.length (firstn a rest) = a).
  { apply firstn_length_le. lia. }
  exists a, b. split; [exact Hab|]. fold mid. fold rest. split.
  - rewrite skipn_app, Hfa, Nat.sub_diag. cbn [skipn].
    rewrite (skipn_all2 (firstn a rest)) by lia. cbn [app].
    rewrite firstn_app, Hmid, Nat.sub_diag. cbn [firstn].
    rewrite app_nil_r. apply firstn_all2. lia.
  - rewrite firstn_app, Hfa, Nat.sub_diag. cbn [firstn]. rewrite app_nil_r.
    rewrite (firstn_all2 (firstn a rest)) by lia.
    rewrite skipn_app, Hfa. rewrite (skipn_all2 (firstn a rest)) by lia. cbn [app].
    rewrite skipn_app, Hmid. replace (b - a - (b - a))%nat with 0%nat by lia.
    rewrite (skipn_all2 mid) by lia. cbn [app skipn].
    apply firstn_skipn.
Qed.

Lemma crossover_ox_slice_witness :
  exists a b, (a < b < 3)%nat /\
    firstn (b - a) (skipn a (fst (_crossover_ox ["A"; "B"; "C"] ["C"; "B"; "A"] [1%Z; 1%Z])))
    = firstn (b - a) (skipn a ["A"; "B"; "C"]) /\
    firstn a (fst (_crossover_ox ["A"; "B"; "C"] ["C"; "B"; "A"] [1%Z; 1%Z]))
      ++ skipn b (fst (_crossover_ox ["A"; "B"; "C"] ["C"; "B"; "A"] [1%Z; 1%Z]))
    = filter (fun x => negb (mem_string x (firstn (b - a) (skipn a ["A"; "B"; "C"]))))
        ["C"; "B"; "A"].
Proof.
  apply (crossover_ox_slice ["A"; "B"; "C"] ["C"; "B"; "A"] [1%Z; 1%Z]).
  - repeat constructor; simpl; intuition discriminate.
  - apply perm_trans with ["B"; "C"; "A"].
    + apply perm_trans with ["B"; "A"; "C"]; [apply perm_swap|].
      apply perm_skip, perm_swap.
    + apply perm_swap.
  - simpl. lia.
Defined.

(* ================================================================= *)
(** * The driver returns the best genome it has scored *)

Section GABest.
Variable fuel : nat.
Variable components : list PC.t.
Variable machines : list Machine.t.
Variable molds : list Mold.t.
Variable month_days : Z.
Variable mold_change_time_hours : Q.
Variable color_change_time_hours : Q.
Variable pop_size : Z.
Variable mutation_rate : Q.

Let decode_ := decode fuel components machines molds month_days
                 mold_change_time_hours color_change_time_hours.
Let score_population_ := score_population fuel components machines molds month_days
                           mold_change_time_hours color_change_time_hours.
Let generation_ := generation fuel components machines molds month_days
                     mold_change_time_hours color_change_time_hours pop_size
                     mutation_rate.
Let generations_ := generations fuel components machines molds month_days
                      mold_change_time_hours color_change_time_hours pop_size
                      mutation_rate.

(** [s] is the score the generation loop gives the genome [g]. *)
Definition scores (g : genome_t) (s : Q) : Prop :=
  exists tasks unmet,
    decode fuel components machines molds month_days
      mold_change_time_hours color_change_time_hours g = Ok (tasks, unmet) /\
    _fitness_v2 tasks unmet components = Ok s.

(** The populations the first [n] generations score, from the state [gs]. *)
Fixpoint populations (n : nat) (gs : ga_state) : list (list genome_t) :=
  match n with
  | O => []
  | S n' =>
      fst (fst gs) ::
      match generation fuel components machines molds month_days
              mold_change_time_hours color_change_time_hours pop_size
              mutation_rate gs with
      | Ok gs' => populations n' gs'
      | _ => []
      end
  end.

Definition best_ok (best : option (Q * genome_t)) : Prop :=
  forall s g, best = Some (s, g) -> scores g s.

Lemma scores_fun g s s' : scores g s -> scores g s' -> s = s'.
Proof.
  intros (t1 & u1 & Hd1 & Hf1) (t2 & u2 & Hd2 & Hf2).
  rewrite Hd1 in Hd2. injection Hd2 as <- <-. rewrite Hf1 in Hf2. congruence.
Qed.

Lemma score_population_In population : forall scored,
  score_population_ population = Ok scored ->
  (forall x, In x scored -> In (snd x) population /\ scores (snd x) (fst x)) /\
  (forall g s, In g population -> scores g s -> In (s, g) scored).
Proof.
  unfold score_population_.
  induction population as [|g population IH]; intros scored Hsc; simpl in Hsc.
  - injection Hsc as <-. split; [intros x []|intros g s []].
  - fold decode_ in Hsc.
    destruct (decode_ g) as [[tasks unmet]| |] eqn:Hd; try discriminate.
    destruct (_fitness_v2 tasks unmet components) as [sc| |] eqn:Hf; try discriminate.
    destruct (score_population _ _ _ _ _ _ _ population) as [rest| |] eqn:Hrest;
      try discriminate.
    injection Hsc as <-. destruct (IH rest eq_refl) as [IH1 IH2]. split.
    + intros x [<-|Hx]; simpl.
      * split; [now left|]. exists tasks, unmet. auto.
      * destruct (IH1 x Hx). split; [now right|assumption].
    + intros g' s [<-|Hin] Hs.
      * left. f_equal. apply (scores_fun g); [exists tasks, unmet; auto|exact Hs].
      * right. now apply IH2.
Qed.

Lemma sorted_head_max (scored : list (Q * genome_t)) :
  scored <> [] ->
  In (hd (0, []) (sort_scored scored)) scored /\
  forall x, In x scored -> fst x <= fst (hd (0, []) (sort_scored scored)).
Proof.
  intro Hne.
  pose proof (sort_scored_perm scored) as Hperm.
  pose proof (sort_scored_descending scored) as Hdesc.
  destruct (sort_scored scored) as [|top rest].
  - apply Permutation_sym, Permutation_nil in Hperm. contradiction.
  - simpl. split.
    + apply (Permutation_in _ (Permutation_sym Hperm)). now left.
    + intros x Hx. apply (Permutation_in _ Hperm) in Hx.
      destruct Hx as [<-|Hx]; [lra|].
      inversion Hdesc as [|? ? Hall _]; subst.
      rewrite Forall_forall in Hall. now apply Hall.
Qed.

Lemma generation_best population best tp population' best' tp' :
  generation_ (population, best, tp) = Ok (population', best', tp') ->
  population <> [] -> best_ok best ->
  exists s g, best' = Some (s, g) /\ scores g s /\
    (forall s0 g0, best = Some (s0, g0) -> s0 <= s) /\
    (forall g1 s1, In g1 population -> scores g1 s1 -> s1 <= s).
Proof.
  unfold generation_, generation. fold score_population_.
  destruct (score_population_ population) as [scored| |] eqn:Hsc; try discriminate.
  destruct (next_population _ _ _ _) as [population1 tp1].
  intros [= <- <- <-] Hne Hbest.
  destruct (score_population_In population scored Hsc) as [Hin1 Hin2].
  assert (Hsne : scored <> []).
  { destruct population as [|g0 population]; [contradiction|].
    pose proof (score_population_snd _ _ _ _ _ _ _ _ _ Hsc) as Hsnd.
    intros ->. discriminate. }
  destruct (sorted_head_max scored Hsne) as [Htop Hmax].
  set (top := hd (0, []) (sort_scored scored)) in *.
  destruct (Hin1 top Htop) as [_ Hts].
  assert (Hall : forall g1 s1, In g1 population -> scores g1 s1 -> s1 <= fst top).
  { intros g1 s1 Hg Hs. exact (Hmax (s1, g1) (Hin2 g1 s1 Hg Hs)). }
  destruct best as [[bs bg]|].
  - destruct (Qltb bs (fst top)) eqn:Hlt; qprop.
    + exists (fst top), (snd top). split; [now destruct top|]. split; [exact Hts|].
      split; [intros s0 g0 [= <- <-]; lra|exact Hall].
    + exists bs, bg. split; [reflexivity|]. split; [now apply Hbest|].
      split; [intros s0 g0 [= <- <-]; lra|].
      intros g1 s1 Hg Hs. specialize (Hall g1 s1 Hg Hs). lra.
  - exists (fst top), (snd top). split; [now destruct top|]. split; [exact Hts|].
    split; [discriminate|exact Hall].
Qed.

Lemma generations_best n : forall population best tp population' best' tp',
  (2 <= pop_size)%Z ->
  generations_ n (population, best, tp) = Ok (population', best', tp') ->
  population_ok components pop_size population -> best_ok best ->
  best_ok best' /\
  (forall s0 g0, best = Some (s0, g0) -> exists s g, best' = Some (s, g) /\ s0 <= s) /\
  (forall pop g1 s1, In pop (populations n (population, best, tp)) ->
     In g1 pop -> scores g1 s1 -> exists s g, best' = Some (s, g) /\ s1 <= s).
Proof.
  unfold generations_.
  induction n as [|n IH]; intros population best tp population' best' tp' Hps Hgen Hpop Hbest.
  - simpl in Hgen. injection Hgen as <- <- <-. split; [exact Hbest|]. split.
    + intros s0 g0 ->. exists s0, g0. split; [reflexivity|lra].
    + intros pop g1 s1 [].
  - cbn [generations populations] in *.
    destruct (generation _ _ _ _ _ _ _ _ _ (population, best, tp))
      as [[[population1 best1] tp1]| |] eqn:Hg; try discriminate.
    assert (Hne : population <> []).
    { destruct Hpop as [Hlen _]. intros ->. simpl in Hlen. lia. }
    destruct (generation_best _ _ _ _ _ _ Hg Hne Hbest) as (s & g & -> & Hs & Hold & Hall).
    assert (Hbest1 : best_ok (Some (s, g))) by (intros ? ? [= <- <-]; exact Hs).
    pose proof (generation_ok fuel components machines molds month_days
                  mold_change_time_hours color_change_time_hours pop_size
                  mutation_rate _ _ _ _ _ _ Hps Hg Hpop) as Hpop1.
    destruct (IH _ _ _ _ _ _ Hps Hgen Hpop1 Hbest1) as (Hb' & Hmono & Hrest).
    destruct (Hmono s g eq_refl) as (s' & g' & -> & Hle).
    split; [exact Hb'|]. split.
    + intros s0 g0 H0. exists s', g'. split; [reflexivity|].
      specialize (Hold s0 g0 H0). lra.
    + intros pop g1 s1 [<-|Hin] Hg1 Hs1.
      * exists s', g'. split; [reflexivity|]. cbn [fst] in Hg1.
        specialize (Hall g1 s1 Hg1 Hs1). lra.
      * exact (Hrest pop g1 s1 Hin Hg1 Hs1).
Qed.

End GABest.

(** X23. [ga_optimize_v2] returns the best score it has seen: the score of
    its result is at least the score of every genome of every population it
    evaluated, the initial one included. *)
Theorem ga_returns_best fuel components machines molds month_days
    mold_change_time_hours color_change_time_hours pop_size n_generations
    mutation_rate tp out :
  ga_optimize_v2 fuel components machines molds month_days
    mold_change_time_hours color_change_time_hours pop_size n_generations
    mutation_rate tp = Ok out ->
  forall pop g s,
    In pop (populations fuel components machines molds month_days
              mold_change_time_hours color_change_time_hours pop_size mutation_rate
              (Z.to_nat n_generations)
              (fst (initial_population components (Z.to_nat pop_size) tp), None,
               snd (initial_population components (Z.to_nat pop_size) tp))) ->
    In g pop ->
    scores fuel components machines molds month_days
      mold_change_time_hours color_change_time_hours g s ->
    s <= score out.
Proof.
  unfold ga_optimize_v2.
  destruct (month_days <? 1)%Z; [discriminate|].
  destruct (Z.ltb_spec pop_size 2) as [|Hps]; [discriminate|].
  destruct (n_generations <? 1)%Z; [discriminate|].
  destruct (negb _); [discriminate|].
  pose proof (initial_population_ok components (Z.to_nat pop_size) tp) as Hinit.
  destruct (initial_population components (Z.to_nat pop_size) tp) as [population tp1].
  cbn [fst snd] in *.
  destruct (generations _ _ _ _ _ _ _ _ _ _ _) as [[[population' best'] tp']| |] eqn:Hgen;
    try discriminate.
  destruct (generations_best fuel components machines molds month_days
              mold_change_time_hours color_change_time_hours pop_size mutation_rate
              _ _ _ _ _ _ _ Hps Hgen) as (Hbest & _ & Hall).
  { exact Hinit. }
  { intros ? ? [=]. }
  intros Hout pop g s Hpop Hg Hs.
  destruct (Hall pop g s Hpop Hg Hs) as (s' & g' & -> & Hle).
  destruct (Hbest s' g' eq_refl) as (tasks & unmet_ & Hd & Hf).
  unfold decode in *. rewrite Hd, Hf in Hout. injection Hout as <-. exact Hle.
Qed.

Lemma ga_returns_best_witness :
  exists out s,
    ga_optimize_v2 20 [ex_A; ex_B; ex_C] [ex_M1; ex_M2] [ex_D1; ex_D2] 1 0 0 2 1 0 []
    = Ok out /\
    scores 20 [ex_A; ex_B; ex_C] [ex_M1; ex_M2] [ex_D1; ex_D2] 1 0 0
      ["B"; "C"; "A"] s /\
    s <= score out.
Proof.
  pose proof (ga_returns_best 20 [ex_A; ex_B; ex_C] [ex_M1; ex_M2] [ex_D1; ex_D2]
                1 0 0 2 1 0 []) as H.
  assert (Hs : exists s, scores 20 [ex_A; ex_B; ex_C] [ex_M1; ex_M2] [ex_D1; ex_D2] 1 0 0
                 ["B"; "C"; "A"] s).
  { eexists. eexists _, _. split; vm_compute; reflexivity. }
  destruct Hs as [s Hs].
  eexists _, s. split; [vm_compute; reflexivity|]. split; [exact Hs|].
  refine (H _ _ (fst (initial_population [ex_A; ex_B; ex_C] (Z.to_nat 2) []))
            ["B"; "C"; "A"] s _ _ Hs).
  - vm_compute. reflexivity.
  - left. reflexivity.
  - vm_compute. left. reflexivity.
Defined.

(* ================================================================= *)
(** * The load of a machine on a day *)













(** X26. Every task is on one of the machines given, under that machine's
    identifier and name; with no machines there are no tasks. *)
Theorem decode_task_machine genome components machines molds month_days
    mold_change_time_hours color_change_time_hours fuel tasks unmet :
  _decode_v2 genome components machines molds month_days
    mold_change_time_hours color_change_time_hours fuel = Ok (tasks, unmet) ->
  (forall tk, In tk tasks ->
     exists m, In m machines /\ Machine.id m = machine_id tk /\
               Machine.name m = machine_name tk) /\
  (machines = [] -> tasks = []).
Proof.
  intros Hdec.
  pose proof (decode_records _ _ _ _ _ _ _ _ _ _ Hdec) as Hall.
  rewrite Forall_forall in Hall.
  assert (H : forall tk, In tk tasks ->
            exists m, In m machines /\ Machine.id m = machine_id tk /\
                      Machine.name m = machine_name tk).
  { intros tk Hin. now destruct (Hall tk Hin) as (Hm & _). }
  split; [exact H|]. intros ->.
  destruct tasks as [|tk tasks']; [reflexivity|].
  destruct (H tk (or_introl eq_refl)) as (m & [] & _).
Qed.

Lemma decode_task_machine_witness :
  exists tasks unmet,
    _decode_v2 ["C1"; "C2"] [ex_E1; ex_E2] [ex_M1] [ex_D1] 1 1 (1 # 2) 20
    = Ok (tasks, unmet) /\
    List.length tasks = 5%nat /\
    (forall tk, In tk tasks ->
       exists m, In m [ex_M1] /\ Machine.id m = machine_id tk /\
                 Machine.name m = machine_name tk) /\
    ([ex_M1] = [] -> tasks = []).
Proof.
  pose proof (decode_task_machine ["C1"; "C2"] [ex_E1; ex_E2] [ex_M1] [ex_D1]
                1 1 (1 # 2) 20) as H.
  eexists _, _. split; [vm_compute; reflexivity|]. split; [reflexivity|].
  eapply H. vm_compute. reflexivity.
Defined.

(* ================================================================= *)
(** * What is mounted on a machine

    The mold (or the color) a machine has, as the task list tells it: that
    of the last PRODUCE or changeover task of the machine. *)

Lemma getitem_fold_dset_key {A V} (key : A -> string) (f : string -> V) (dflt : V)
    (l : list A) : forall d x,
  In x l \/ getitem dflt d (key x) = f (key x) ->
  getitem dflt (fold_left (fun d y => dset (key y) (f (key y)) d) l d) (key x)
  = f (key x).
Proof.
  induction l as [|y l IH]; intros d x Hx; simpl.
  - destruct Hx as [[]|Hx]. exact Hx.
  - apply IH. destruct (string_dec (key x) (key y)) as [E|Hne].
    + right. rewrite E. apply getitem_dset_same.
    + destruct Hx as [[->|Hin]|Hd].
      * contradiction.
      * now left.
      * right. now rewrite getitem_dset_other.
Qed.

Lemma current_mold_commit_produce day machine cap chosen qty used start end_ st :
  S.current_mold (commit_produce day machine cap chosen qty used start end_ st)
  = dset (Machine.id machine) (Some (PC.mold_id chosen)) (S.current_mold st).
Proof.
  unfold commit_produce. cbv zeta.
  destruct (_ <=? 0)%Z; destruct (dmem _ _); reflexivity.
Qed.

Lemma current_color_commit_produce day machine cap chosen qty used start end_ st :
  S.current_color (commit_produce day machine cap chosen qty used start end_ st)
  = dset (Machine.id machine) (Some (PC.color chosen)) (S.current_color st).
Proof.
  unfold commit_produce. cbv zeta.
  destruct (_ <=? 0)%Z; destruct (dmem _ _); reflexivity.
Qed.

(** The mold a task mounts, and the mold it says was mounted before. *)
Definition mold_event (k : task_type) : option string :=
  match k with
  | PRODUCE mold _ _ _ _ => Some mold
  | CHANGE_MOLD _ to => Some to
  | _ => None
  end.

Definition mold_expects (k : task_type) : option (option string) :=
  match k with
  | PRODUCE mold _ _ _ _ => Some (Some mold)
  | CHANGE_MOLD from _ => Some from
  | _ => None
  end.

Definition color_event (k : task_type) : option string :=
  match k with
  | PRODUCE _ _ _ color _ => Some color
  | CHANGE_COLOR _ to => Some to
  | _ => None
  end.

Definition color_expects (k : task_type) : option (option string) :=
  match k with
  | PRODUCE _ _ _ color _ => Some (Some color)
  | CHANGE_COLOR from _ => Some from
  | _ => None
  end.

Section Mounted.
Variable event : task_type -> option string.
Variable expects : task_type -> option (option string).
Variable current : S.state -> dict string (option string).
Variable kept : S.machine_mem -> option string.

Definition mounted (mid : string) (l : list task) : option string :=
  fold_left
    (fun cur tk =>
       if String.eqb (machine_id tk) mid
       then match event (kind tk) with Some k => Some k | None => cur end
       else cur)
    l None.

Lemma mounted_snoc mid l tk :
  mounted mid (l ++ [tk])
  = if String.eqb (machine_id tk) mid
    then match event (kind tk) with Some k => Some k | None => mounted mid l end
    else mounted mid l.
Proof. unfold mounted. now rewrite fold_left_app. Qed.

(** Every task agrees with what was mounted when it was added. *)
Definition history (l : list task) : Prop :=
  forall l1 tk l2 v, l = l1 ++ tk :: l2 -> expects (kind tk) = Some v ->
    mounted (machine_id tk) l1 = v.

Lemma history_snoc l tk :
  history l ->
  (forall v, expects (kind tk) = Some v -> mounted (machine_id tk) l = v) ->
  history (l ++ [tk]).
Proof.
  intros Hl Htk l1 x l2 v Hsplit Hv.
  destruct l2 as [|y l2 _] using rev_ind.
  - apply app_inj_tail in Hsplit. destruct Hsplit as [<- <-]. now apply Htk.
  - rewrite app_comm_cons, app_assoc in Hsplit.
    apply app_inj_tail in Hsplit. destruct Hsplit as [Hsplit _].
    exact (Hl l1 x l2 v Hsplit Hv).
Qed.

(** Within a day: the machine's entry of [current]. *)
Record mount_inv (machines : list Machine.t) (st : S.state) : Prop := {
  mi_current : forall m, In m machines ->
    getitem None (current st) (Machine.id m) = mounted (Machine.id m) (S.tasks st);
  mi_history : history (S.tasks st)
}.

(** Between days: the machine's entry of [machine_state]. *)
Record kept_inv (machines : list Machine.t) (st : S.state) : Prop := {
  ki_kept : forall m, In m machines ->
    kept (getitem (S.mk_mem None None None) (S.machine_state st) (Machine.id m))
    = mounted (Machine.id m) (S.tasks st);
  ki_history : history (S.tasks st)
}.

Lemma mount_inv_same machines st st' :
  S.tasks st' = S.tasks st -> current st' = current st ->
  mount_inv machines st -> mount_inv machines st'.
Proof.
  intros Htk Hc [I1 I2]. constructor; rewrite ?Htk, ?Hc; auto.
Qed.

Lemma mount_inv_emit machines machine st st' tk :
  S.tasks st' = S.tasks st ++ [tk] ->
  machine_id tk = Machine.id machine -> In machine machines ->
  (forall v, expects (kind tk) = Some v ->
     v = getitem None (current st) (Machine.id machine)) ->
  current st'
  = match event (kind tk) with
    | Some k => dset (Machine.id machine) (Some k) (current st)
    | None => current st
    end ->
  mount_inv machines st -> mount_inv machines st'.
Proof.
  intros Htk Hmid Hm Hexp Hcur [I1 I2]. constructor; rewrite Htk.
  - intros m Hin. rewrite mounted_snoc, Hcur, Hmid.
    destruct (String.eqb_spec (Machine.id machine) (Machine.id m)) as [E|Hne].
    + destruct (event (kind tk)) as [k|].
      * rewrite <- E. apply getitem_dset_same.
      * now apply I1.
    + destruct (event (kind tk)) as [k|]; [|now apply I1].
      rewrite getitem_dset_other by congruence. now apply I1.
  - apply history_snoc; [exact I2|].
    intros v Hv. rewrite (Hexp v Hv), Hmid. symmetry. now apply I1.
Qed.

End Mounted.

Lemma begin_day_mold machines st m :
  In m machines ->
  getitem None (S.current_mold (begin_day machines st)) (Machine.id m)
  = S.mold_id (getitem (S.mk_mem None None None) (S.machine_state st) (Machine.id m)).
Proof.
  intro Hm. unfold begin_day. sproj. unfold dict_comp.
  exact (getitem_fold_dset_key Machine.id
           (fun k => S.mold_id (getitem (S.mk_mem None None None) (S.machine_state st) k))
           None machines [] m (or_introl Hm)).
Qed.

Lemma begin_day_color machines st m :
  In m machines ->
  getitem None (S.current_color (begin_day machines st)) (Machine.id m)
  = S.color (getitem (S.mk_mem None None None) (S.machine_state st) (Machine.id m)).
Proof.
  intro Hm. unfold begin_day. sproj. unfold dict_comp.
  exact (getitem_fold_dset_key Machine.id
           (fun k => S.color (getitem (S.mk_mem None None None) (S.machine_state st) k))
           None machines [] m (or_introl Hm)).
Qed.

Lemma end_day_kept machines st m :
  In m machines ->
  getitem (S.mk_mem None None None) (S.machine_state (end_day machines st)) (Machine.id m)
  = S.mk_mem (getitem None (S.current_mold st) (Machine.id m))
             (getitem None (S.current_color st) (Machine.id m))
             (getitem None (S.last_component st) (Machine.id m)).
Proof.
  intro Hm. unfold end_day. sproj.
  exact (getitem_fold_dset_key Machine.id
           (fun k => S.mk_mem (getitem None (S.current_mold st) k)
                              (getitem None (S.current_color st) k)
                              (getitem None (S.last_component st) k))
           (S.mk_mem None None None) machines (S.machine_state st) m (or_introl Hm)).
Qed.

Lemma initial_kept components machines molds month_days k :
  getitem (S.mk_mem None None None)
    (S.machine_state (initial_state components machines molds month_days)) k
  = S.mk_mem None None None.
Proof. unfold initial_state. sproj. apply getitem_dict_comp_const. Qed.

Lemma mold_inv_act machines molds mct cct comp_order d m st st' :
  0 < mct -> In m machines ->
  act molds mct cct comp_order d m st st' ->
  mount_inv mold_event mold_expects S.current_mold machines st ->
  mount_inv mold_event mold_expects S.current_mold machines st'.
Proof.
  intros Hpos Hm Hact Hinv.
  destruct Hact as [Hr|t_next Hr H1 H2|to Hr Hc Hfit Hne|color Hr Hc0|mold Hr Hm0|k e Hr He Hf
                   |k Hr Hmc Hfit Hne Hf
                   |chosen qty Hin Hr Hq Hpp Hown Hpre Hf Hfeas Hcap Hcm Hcc];
    try (revert Hinv; now apply mount_inv_same).
  - eapply (mount_inv_emit _ _ _ machines m st); eauto; try reflexivity. discriminate.
  - eapply (mount_inv_emit _ _ _ machines m st); eauto; try reflexivity. discriminate.
  - lra.
  - eapply (mount_inv_emit _ _ _ machines m st); eauto; try reflexivity.
    intros v [= <-]. reflexivity.
  - eapply (mount_inv_emit _ _ _ machines m st).
    + apply tasks_commit_produce.
    + reflexivity.
    + exact Hm.
    + intros v [= <-]. now rewrite Hcm.
    + apply current_mold_commit_produce.
    + exact Hinv.
Qed.

Lemma color_inv_act machines molds mct cct comp_order d m st st' :
  0 < cct -> In m machines ->
  act molds mct cct comp_order d m st st' ->
  mount_inv color_event color_expects S.current_color machines st ->
  mount_inv color_event color_expects S.current_color machines st'.
Proof.
  intros Hpos Hm Hact Hinv.
  destruct Hact as [Hr|t_next Hr H1 H2|to Hr Hc Hfit Hne|color Hr Hc0|mold Hr Hm0|k e Hr He Hf
                   |k Hr Hmc Hfit Hne Hf
                   |chosen qty Hin Hr Hq Hpp Hown Hpre Hf Hfeas Hcap Hcm Hcc];
    try (revert Hinv; now apply mount_inv_same).
  - eapply (mount_inv_emit _ _ _ machines m st); eauto; try reflexivity. discriminate.
  - eapply (mount_inv_emit _ _ _ machines m st); eauto; try reflexivity.
    intros v [= <-]. reflexivity.
  - lra.
  - eapply (mount_inv_emit _ _ _ machines m st); eauto; try reflexivity. discriminate.
  - eapply (mount_inv_emit _ _ _ machines m st).
    + apply tasks_commit_produce.
    + reflexivity.
    + exact Hm.
    + intros v [= <-]. now rewrite Hcc.
    + apply current_color_commit_produce.
    + exact Hinv.
Qed.

Lemma decode_mold_history genome components machines molds month_days mct cct fuel
    tasks unmet :
  0 < mct ->
  _decode_v2 genome components machines molds month_days mct cct fuel = Ok (tasks, unmet) ->
  history mold_event mold_expects tasks.
Proof.
  intros Hpos Hdec.
  apply decode_days_inv with
    (P := fun _ => mount_inv mold_event mold_expects S.current_mold machines)
    (N := fun _ => kept_inv mold_event mold_expects S.mold_id machines) in Hdec.
  - destruct Hdec as (cur & st & Hinv & -> & _). apply (ki_history _ _ _ _ _ Hinv).
  - intros topo _. split; [|split; [|split]].
    + constructor.
      * intros m _. now rewrite initial_kept.
      * intros l1 tk l2 v Hsplit. destruct l1; discriminate.
    + intros cur d st _ _ [I1 I2]. constructor; [|exact I2].
      intros m Hm. rewrite (begin_day_mold machines st m Hm). now apply I1.
    + intros d st [I1 I2]. constructor; [|exact I2].
      intros m Hm. rewrite (end_day_kept machines st m Hm). now apply I1.
    + intros d m st st' _ Hm Hinv Hact. eapply mold_inv_act; eauto.
Qed.

Lemma decode_color_history genome components machines molds month_days mct cct fuel
    tasks unmet :
  0 < cct ->
  _decode_v2 genome components machines molds month_days mct cct fuel = Ok (tasks, unmet) ->
  history color_event color_expects tasks.
Proof.
  intros Hpos Hdec.
  apply decode_days_inv with
    (P := fun _ => mount_inv color_event color_expects S.current_color machines)
    (N := fun _ => kept_inv color_event color_expects S.color machines) in Hdec.
  - destruct Hdec as (cur & st & Hinv & -> & _). apply (ki_history _ _ _ _ _ Hinv).
  - intros topo _. split; [|split; [|split]].
    + constructor.
      * intros m _. now rewrite initial_kept.
      * intros l1 tk l2 v Hsplit. destruct l1; discriminate.
    + intros cur d st _ _ [I1 I2]. constructor; [|exact I2].
      intros m Hm. rewrite (begin_day_color machines st m Hm). now apply I1.
    + intros d st [I1 I2]. constructor; [|exact I2].
      intros m Hm. rewrite (end_day_kept machines st m Hm). now apply I1.
    + intros d m st st' _ Hm Hinv Hact. eapply color_inv_act; eauto.
Qed.

(** X24. Mold changes are on the schedule: with a positive mold change
    time, a PRODUCE task's mold is the one mounted on its machine by the
    tasks listed before it (the mold of the machine's last PRODUCE or
    CHANGE_MOLD task), and the [from_mold_id] of a CHANGE_MOLD task is the
    mold mounted then ([None] when the machine had none). *)
Theorem decode_mold_mounted genome components machines molds month_days
    mold_change_time_hours color_change_time_hours fuel tasks unmet :
  0 < mold_change_time_hours ->
  _decode_v2 genome components machines molds month_days
    mold_change_time_hours color_change_time_hours fuel = Ok (tasks, unmet) ->
  forall j tk, nth_error tasks j = Some tk ->
    (forall mold cid name color qty, kind tk = PRODUCE mold cid name color qty ->
       mounted mold_event (machine_id tk) (firstn j tasks) = Some mold) /\
    (forall from to, kind tk = CHANGE_MOLD from to ->
       mounted mold_event (machine_id tk) (firstn j tasks) = from).
Proof.
  intros Hpos Hdec j tk Hnth.
  pose proof (decode_mold_history _ _ _ _ _ _ _ _ _ _ Hpos Hdec) as Hh.
  destruct (nth_error_split _ _ Hnth) as (l1 & l2 & Hsplit & Hlen).
  assert (Hf : firstn j tasks = l1).
  { rewrite Hsplit, <- Hlen, firstn_app, Nat.sub_diag, firstn_all. simpl.
    apply app_nil_r. }
  rewrite Hf. split.
  - intros mold cid name color qty Hk. apply (Hh l1 tk l2 _ Hsplit).
    now rewrite Hk.
  - intros from to Hk. apply (Hh l1 tk l2 _ Hsplit). now rewrite Hk.
Qed.

Lemma decode_mold_mounted_witness :
  exists tasks unmet,
    _decode_v2 ["C1"; "C2"] [ex_E1; ex_E2] [ex_M1] [ex_D1] 1 1 (1 # 2) 20
    = Ok (tasks, unmet) /\
    mounted mold_event "M1" (firstn 4 tasks) = Some "D1" /\
    mounted mold_event "M1" (firstn 1 tasks) = None.
Proof.
  pose proof (decode_mold_mounted ["C1"; "C2"] [ex_E1; ex_E2] [ex_M1] [ex_D1]
                1 1 (1 # 2) 20) as H.
  pose proof (H _ _ ltac:(lra) ltac:(vm_compute; reflexivity)) as H'.
  eexists _, _. split; [vm_compute; reflexivity|]. split.
  - destruct (H' 4%nat _ eq_refl) as [HP _]. exact (HP _ _ _ _ _ eq_refl).
  - destruct (H' 1%nat _ eq_refl) as [_ HC]. exact (HC _ _ eq_refl).
Defined.

(** X27. Color changes are on the schedule: with a positive color change
    time, a PRODUCE task's color is the one the tasks listed before it left
    on its machine (the color of the machine's last PRODUCE or CHANGE_COLOR
    task), and the [from_color] of a CHANGE_COLOR task is the color the
    machine had then ([None] when it had none). *)
Theorem decode_color_mounted genome components machines molds month_days
    mold_change_time_hours color_change_time_hours fuel tasks unmet :
  0 < color_change_time_hours ->
  _decode_v2 genome components machines molds month_days
    mold_change_time_hours color_change_time_hours fuel = Ok (tasks, unmet) ->
  forall j tk, nth_error tasks j = Some tk ->
    (forall mold cid name color qty, kind tk = PRODUCE mold cid name color qty ->
       mounted color_event (machine_id tk) (firstn j tasks) = Some color) /\
    (forall from to, kind tk = CHANGE_COLOR from to ->
       mounted color_event (machine_id tk) (firstn j tasks) = from).
Proof.
  intros Hpos Hdec j tk Hnth.
  pose proof (decode_color_history _ _ _ _ _ _ _ _ _ _ Hpos Hdec) as Hh.
  destruct (nth_error_split _ _ Hnth) as (l1 & l2 & Hsplit & Hlen).
  assert (Hf : firstn j tasks = l1).
  { rewrite Hsplit, <- Hlen, firstn_app, Nat.sub_diag, firstn_all. simpl.
    apply app_nil_r. }
  rewrite Hf. split.
  - intros mold cid name color qty Hk. apply (Hh l1 tk l2 _ Hsplit).
    now rewrite Hk.
  - intros from to Hk. apply (Hh l1 tk l2 _ Hsplit). now rewrite Hk.
Qed.

Lemma decode_color_mounted_witness :
  exists tasks unmet,
    _decode_v2 ["C1"; "C2"] [ex_E1; ex_E2] [ex_M1] [ex_D1] 1 1 (1 # 2) 20
    = Ok (tasks, unmet) /\
    mounted color_event "M1" (firstn 4 tasks) = Some "blue" /\
    mounted color_event "M1" (firstn 3 tasks) = Some "red".
Proof.
  pose proof (decode_color_mounted ["C1"; "C2"] [ex_E1; ex_E2] [ex_M1] [ex_D1]
                1 1 (1 # 2) 20) as H.
  pose proof (H _ _ ltac:(lra) ltac:(vm_compute; reflexivity)) as H'.
  eexists _, _. split; [vm_compute; reflexivity|]. split.
  - destruct (H' 4%nat _ eq_refl) as [HP _]. exact (HP _ _ _ _ _ eq_refl).
  - destruct (H' 3%nat _ eq_refl) as [_ HC]. exact (HC _ _ eq_refl).
Defined.

(* ================================================================= *)
(** * [_next_mold_free_time]

    The instant search (lines 110-127), which the decoder does not call.
    Its [while True] loop is run with fuel. *)

Definition INSTANT : Q := 1 # 1000000.

(** [overlapping = [e for (s, e) in mold_intervals if _overlaps(s, e, t, t + 1e-6)]] *)
Definition overlapping_ends (mold_intervals : list interval) (t : Q) : list Q :=
  map snd (filter (fun se => _overlaps (fst se) (snd se) t (t + INSTANT)) mold_intervals).

Fixpoint free_time_loop (fuel : nat) (mold_intervals : list interval) (t : Q)
    (progressed : bool) : result (option Q) :=
  match fuel with
  | O => OutOfFuel
  | S fuel' =>
      match overlapping_ends mold_intervals t with
      | [] => Ok (if progressed then Some t else None)
      | e :: es =>
          let new_t := max_list e es in
          if Qleb new_t (t + EPS) then Ok None
          else free_time_loop fuel' mold_intervals new_t true
      end
  end.

Definition _next_mold_free_time (mold_intervals : list interval) (after_hour : Q)
    (fuel : nat) : result (option Q) :=
  if _interval_is_free mold_intervals after_hour (after_hour + INSTANT)
  then Ok (Some after_hour)
  else free_time_loop fuel mold_intervals after_hour false.

(** The intervals that end after [t]. *)
Definition ending_after (l : list interval) (t : Q) : list interval :=
  filter (fun se => Qltb t (snd se)) l.

Lemma ending_after_mono l t t' :
  t <= t' -> (List.length (ending_after l t') <= List.length (ending_after l t))%nat.
Proof.
  intro Hle. unfold ending_after. induction l as [|x l IH]; simpl; [lia|].
  destruct (Qltb t' (snd x)) eqn:E'; destruct (Qltb t (snd x)) eqn:E; qprop;
    simpl; try lia. lra.
Qed.

Lemma ending_after_drop l t t' x :
  t <= t' -> In x l -> t < snd x -> snd x <= t' ->
  (List.length (ending_after l t') < List.length (ending_after l t))%nat.
Proof.
  intros Hle Hin Hx Hx'. unfold ending_after.
  induction l as [|y l IH]; [contradiction|]. simpl.
  pose proof (ending_after_mono l t t' Hle) as Hmono. unfold ending_after in Hmono.
  destruct Hin as [->|Hin].
  - destruct (Qltb t' (snd x)) eqn:E'; destruct (Qltb t (snd x)) eqn:E; qprop;
      simpl; try lia; lra.
  - specialize (IH Hin).
    destruct (Qltb t' (snd y)) eqn:E'; destruct (Qltb t (snd y)) eqn:E; qprop;
      simpl; try lia. lra.
Qed.

Lemma overlapping_ends_In l t e :
  In e (overlapping_ends l t) ->
  exists x, In x l /\ snd x = e /\ t < e.
Proof.
  unfold overlapping_ends. rewrite in_map_iff. intros (x & <- & Hx).
  apply filter_In in Hx. destruct Hx as [Hin Hov].
  apply overlaps_true in Hov. exists x. tauto.
Qed.

Lemma overlapping_ends_nil l t :
  overlapping_ends l t = [] -> _interval_is_free l t (t + INSTANT) = true.
Proof.
  unfold overlapping_ends. intro H. apply free_filter.
  apply map_eq_nil in H. exact H.
Qed.

Lemma free_time_loop_spec l after : forall fuel t progressed,
  (List.length (ending_after l t) < fuel)%nat -> after <= t ->
  match free_time_loop fuel l t progressed with
  | Ok (Some r) => after <= r /\ _interval_is_free l r (r + INSTANT) = true
  | Ok None => True
  | Raise _ => False
  | OutOfFuel => False
  end.
Proof.
  induction fuel as [|fuel IH]; intros t progressed Hfuel Ht; [lia|].
  cbn [free_time_loop].
  destruct (overlapping_ends l t) as [|e es] eqn:Hov.
  - destruct progressed; [|exact I]. split; [exact Ht|].
    now apply overlapping_ends_nil.
  - destruct (Qleb (max_list e es) (t + EPS)) eqn:Hstep; [exact I|]. qprop.
    assert (Hin : In (max_list e es) (overlapping_ends l t)).
    { rewrite Hov. destruct (max_list_in es e) as [->|H]; [now left|now right]. }
    destruct (overlapping_ends_In l t _ Hin) as (x & Hx & Hsnd & Hgt).
    pose proof EPS_pos as Heps.
    apply IH.
    + assert (List.length (ending_after l (max_list e es))
              < List.length (ending_after l t))%nat; [|lia].
      apply (ending_after_drop l t (max_list e es) x);
        [lra | exact Hx | rewrite Hsnd; exact Hgt | rewrite Hsnd; lra].
    + lra.
Qed.

(** X28. The instant search ends and is sound: with more fuel than there
    are intervals [_next_mold_free_time] returns, and a time it returns is
    at or after [after_hour] with the mold free for the instant from it;
    it returns [None] only when the mold is busy at [after_hour]. *)
Theorem next_mold_free_time_spec mold_intervals after_hour fuel :
  (List.length mold_intervals < fuel)%nat ->
  match _next_mold_free_time mold_intervals after_hour fuel with
  | Ok (Some r) =>
      after_hour <= r /\ _interval_is_free mold_intervals r (r + INSTANT) = true
  | Ok None =>
      _interval_is_free mold_intervals after_hour (after_hour + INSTANT) = false
  | Raise _ => False
  | OutOfFuel => False
  end.
Proof.
  intro Hfuel. unfold _next_mold_free_time.
  destruct (_interval_is_free mold_intervals after_hour (after_hour + INSTANT)) eqn:Hfree.
  - split; [lra|exact Hfree].
  - pose proof (free_time_loop_spec mold_intervals after_hour fuel after_hour false) as H.
    destruct (free_time_loop fuel mold_intervals after_hour false) as [[r|]| |].
    + apply H; [|lra]. unfold ending_after.
      eapply Nat.le_lt_trans; [apply filter_length_le|exact Hfuel].
    + reflexivity.
    + apply H; [|lra]. unfold ending_after.
      eapply Nat.le_lt_trans; [apply filter_length_le|exact Hfuel].
    + apply H; [|lra]. unfold ending_after.
      eapply Nat.le_lt_trans; [apply filter_length_le|exact Hfuel].
Qed.

Lemma next_mold_free_time_spec_witness :
  _next_mold_free_time [(0, 2); (2, 3)] 1 3 = Ok (Some 3) /\
  1 <= 3 /\ _interval_is_free [(0, 2); (2, 3)] 3 (3 + INSTANT) = true.
Proof.
  split; [vm_compute; reflexivity|].
  exact (next_mold_free_time_spec [(0, 2); (2, 3)] 1 3 ltac:(simpl; lia)).
Defined.

(* ================================================================= *)
(** * The size of the populations *)

Lemma populations_size fuel components machines molds month_days mct cct
    pop_size mutation_rate n : forall gs pop,
  (2 <= pop_size)%Z ->
  population_ok components pop_size (fst (fst gs)) ->
  In pop (populations fuel components machines molds month_days mct cct
            pop_size mutation_rate n gs) ->
  population_ok components pop_size pop.
Proof.
  induction n as [|n IH]; intros [[population best] tp] pop Hps Hok; [intros []|].
  cbn [populations fst]. intros [<-|Hin]; [exact Hok|].
  destruct (generation _ _ _ _ _ _ _ _ _ (population, best, tp))
    as [[[population1 best1] tp1]| |] eqn:Hg; try contradiction.
  apply (IH (population1, best1, tp1) pop Hps); [|exact Hin].
  exact (generation_ok fuel components machines molds month_days mct cct pop_size
           mutation_rate _ _ _ _ _ _ Hps Hg Hok).
Qed.

(** X29. Every population that [ga_optimize_v2] evaluates, the initial one
    and the one bred in each generation, has exactly [pop_size] genomes
    (for [pop_size >= 2]). *)
Theorem ga_population_size fuel components machines molds month_days
    mold_change_time_hours color_change_time_hours pop_size mutation_rate n tp pop :
  (2 <= pop_size)%Z ->
  In pop (populations fuel components machines molds month_days
            mold_change_time_hours color_change_time_hours pop_size mutation_rate n
            (fst (initial_population components (Z.to_nat pop_size) tp), None,
             snd (initial_population components (Z.to_nat pop_size) tp))) ->
  List.length pop = Z.to_nat pop_size.
Proof.
  intros Hps Hin.
  apply populations_size in Hin; [now destruct Hin|exact Hps|].
  cbn [fst]. destruct (initial_population_ok components (Z.to_nat pop_size) tp).
  split; assumption.
Qed.

Lemma ga_population_size_witness :
  exists pop,
    nth_error (populations 20 [ex_A; ex_B; ex_C] [ex_M1; ex_M2] [ex_D1; ex_D2] 1 0 0
                 2 0 2
                 (fst (initial_population [ex_A; ex_B; ex_C] (Z.to_nat 2) []), None,
                  snd (initial_population [ex_A; ex_B; ex_C] (Z.to_nat 2) [])))
      1 = Some pop /\
    List.length pop = Z.to_nat 2.
Proof.
  eexists. split; [vm_compute; reflexivity|].
  apply (ga_population_size 20 [ex_A; ex_B; ex_C] [ex_M1; ex_M2] [ex_D1; ex_D2] 1 0 0
           2 0 2 []); [lia|].
  vm_compute. right. left. reflexivity.
Defined.
